(** * symmer: noncontextual decomposition, solver and unitary partitioning

    A shallow embedding of
      - [symmer/operators/anticommuting_op.py]  (module [AC])
      - [symmer/operators/noncontextual_op.py]  (modules [NC], [Solver])
    together with the part of the Pauli algebra layer they call.

    Numbers.  numpy's [complex128]/[float64] arithmetic is read as exact
    arithmetic over the real numbers: a coefficient is a pair of reals, and
    [np.sqrt], [np.cos], [np.sin], [np.arctan], [np.arccos] are the functions
    of the same name of the real analysis library.  A division whose divisor
    is zero has no finite value in numpy (it yields [nan] or [inf]); every
    place of the sources where that can happen is guarded explicitly in the
    model and reported as a separate outcome. *)

From Stdlib Require Import Reals Lra Lia List ZArith Bool Arith Permutation.
From Stdlib Require Import Morphisms Setoid Sorted.
Import ListNotations.

(* ------------------------------------------------------------------------ *)
(** * Complex coefficients *)
(* ------------------------------------------------------------------------ *)

Module Cplx.

Local Open Scope R_scope.

Record C : Type := mkC { Re : R; Im : R }.

Definition C0 : C := mkC 0 0.
Definition C1 : C := mkC 1 0.
Definition Ci : C := mkC 0 1.
Definition RtoC (x : R) : C := mkC x 0.

Definition Cadd (a b : C) : C := mkC (Re a + Re b) (Im a + Im b).
Definition Copp (a : C) : C := mkC (- Re a) (- Im a).
Definition Csub (a b : C) : C := Cadd a (Copp b).
Definition Cmul (a b : C) : C :=
  mkC (Re a * Re b - Im a * Im b) (Re a * Im b + Im a * Re b).
Definition Cconj (a : C) : C := mkC (Re a) (- Im a).

(** [(1j) ** k], for [k] taken modulo 4 by the caller. *)
Definition Cipow (k : nat) : C :=
  match Nat.modulo k 4 with
  | 0%nat => C1
  | 1%nat => Ci
  | 2%nat => Copp C1
  | _ => Copp Ci
  end.

(** [(-1) ** k]. *)
Definition Csign (k : nat) : C := if Nat.even k then C1 else Copp C1.

(** [np.sum] of a complex vector. *)
Fixpoint sumC (l : list C) : C :=
  match l with
  | [] => C0
  | c :: l' => Cadd c (sumC l')
  end.

Definition Ceq_dec (a b : C) : {a = b} + {a <> b}.
Proof.
  destruct a as [ar ai], b as [br bi].
  destruct (Req_dec_T ar br) as [Hr | Hr];
    [destruct (Req_dec_T ai bi) as [Hi | Hi] |].
  - left. now subst.
  - right. intros E. now injection E.
  - right. intros E. now injection E.
Defined.

(** Python's truth value of a complex number: [bool(c)] is [c != 0]. *)
Definition Cnonzero (a : C) : bool := if Ceq_dec a C0 then false else true.

Lemma C_eq (a b : C) : Re a = Re b -> Im a = Im b -> a = b.
Proof. destruct a, b; simpl; intros; subst; reflexivity. Qed.

End Cplx.
Export Cplx.

Declare Scope C_scope.
Delimit Scope C_scope with C.
Bind Scope C_scope with C.
Infix "+" := Cadd : C_scope.
Infix "*" := Cmul : C_scope.
Infix "-" := Csub : C_scope.
Notation "- x" := (Copp x) : C_scope.

Ltac csimp := apply C_eq; simpl; try ring; try lra.

Lemma C_ring : ring_theory C0 C1 Cadd Cmul Csub Copp (@eq C).
Proof.
  constructor; intros; try reflexivity; csimp.
Qed.

Add Ring C_ring_inst : C_ring.

(* ------------------------------------------------------------------------ *)
(** * The Pauli algebra layer: symplectic rows *)
(* ------------------------------------------------------------------------ *)

(** A Pauli term over [n] qubits is one row of the symplectic matrix: [2n]
    booleans, the X block [row[:n]] followed by the Z block [row[n:]]. *)
Definition row := list bool.

Module Symp.

Definition X_block (n : nat) (r : row) : list bool := firstn n r.
Definition Z_block (n : nat) (r : row) : list bool := skipn n r.

(** Elementwise binary operation of two arrays of the same shape. *)
Definition map2 {A B D} (f : A -> B -> D) (l1 : list A) (l2 : list B) : list D :=
  map (fun p => f (fst p) (snd p)) (combine l1 l2).

Definition count_true (l : list bool) : nat := length (filter (fun b => b) l).

Definition wf_row (n : nat) (r : row) : Prop := length r = (2 * n)%nat.

Definition row_eqb (a b : row) : bool :=
  if list_eq_dec Bool.bool_dec a b then true else false.

Definition identity_row (n : nat) : row := repeat false (2 * n).

(** Modelled from the spec: the pairwise commutation test of the algebra layer
    ([commutes_termwise], [adjacency_matrix]), which is not among the
    sources.  Two terms commute iff their symplectic form vanishes:
    [x1.z2 + z1.x2] is even. *)
Definition symp_form (n : nat) (a b : row) : nat :=
  count_true (map2 andb (X_block n a) (Z_block n b)) +
  count_true (map2 andb (Z_block n a) (X_block n b)).

Definition commutes (n : nat) (a b : row) : bool := Nat.even (symp_form n a b).

(** [(~commutes).astype(int)]: [1] for an anticommuting pair, [0] otherwise. *)
Definition anticommutes_int (n : nat) (a b : row) : nat :=
  if commutes n a b then 0%nat else 1%nat.

Definition Y_count (n : nat) (a : row) : nat :=
  count_true (map2 andb (X_block n a) (Z_block n a)).

(** Exponent of [i] in the product of two terms: a sign flip for every
    position where the left X meets the right Z, and the bookkeeping of the
    Y factors ([Y = i X Z]) going in and coming out. *)
Definition phase_exp (n : nat) (a b : row) : nat :=
  2 * count_true (map2 andb (X_block n a) (Z_block n b))
  + 3 * (Y_count n a + Y_count n b)
  + Y_count n (map2 xorb a b).

(** Modelled from the spec: [symmer.operators.utils.mul_symplectic], which is
    not among the sources: "product of two terms returning a new term plus a
    complex phase factor".  The phaseless product is the binary sum of the
    rows, the coefficient is the product of the coefficients and the phase. *)
Definition mul_symplectic (n : nat) (a : row) (ca : C) (b : row) (cb : C)
  : row * C :=
  (map2 xorb a b, (Cipow (phase_exp n a b) * ca * cb)%C).

End Symp.
Export Symp.

(* ------------------------------------------------------------------------ *)
(** * The Pauli algebra layer: weighted sums of terms *)
(* ------------------------------------------------------------------------ *)

(** A [PauliwordOp] holds [symp_matrix] and [coeff_vec], two arrays with one
    entry per term; the model keeps them zipped, one pair per term. *)
Definition PauliwordOp := list (row * C).

Module Pword.

Definition symp_matrix (P : PauliwordOp) : list row := map fst P.
Definition coeff_vec (P : PauliwordOp) : list C := map snd P.
Definition n_terms (P : PauliwordOp) : nat := length P.

Definition wf_op (n : nat) (P : PauliwordOp) : Prop :=
  Forall (fun t => wf_row n (fst t)) P.

(** Total coefficient carried by the term [p] in [P]. *)
Fixpoint coef (P : PauliwordOp) (p : row) : C :=
  match P with
  | [] => C0
  | (q, c) :: P' => if row_eqb q p then (c + coef P' p)%C else coef P' p
  end.

(** Two lists of weighted terms denote the same operator: duplicates merged
    and zero terms dropped, they carry the same terms and coefficients. *)
Definition op_equiv (P Q : PauliwordOp) : Prop := forall p, coef P p = coef Q p.

Definition multiply_by_constant (c : C) (P : PauliwordOp) : PauliwordOp :=
  map (fun t => (fst t, (c * snd t)%C)) P.

(** [P.dagger]: every term is self-adjoint, the coefficients are conjugated. *)
Definition dagger (P : PauliwordOp) : PauliwordOp :=
  map (fun t => (fst t, Cconj (snd t))) P.

(** Term-by-term product, before cleanup. *)
Definition mul_stack (n : nat) (P Q : PauliwordOp) : PauliwordOp :=
  flat_map (fun t => map (fun u => mul_symplectic n (fst t) (snd t) (fst u) (snd u)) Q) P.

(** Lexicographic order of rows, the order [cleanup] sorts by. *)
Fixpoint row_ltb (a b : row) : bool :=
  match a, b with
  | [], [] => false
  | [], _ :: _ => true
  | _ :: _, [] => false
  | x :: a', y :: b' =>
      if Bool.eqb x y then row_ltb a' b' else negb x
  end.

(** Insert one weighted term into a list sorted by [row_ltb] without
    duplicates, adding the coefficient to an equal term's. *)
Fixpoint insert_term (t : row * C) (P : PauliwordOp) : PauliwordOp :=
  match P with
  | [] => [t]
  | u :: P' =>
      if row_eqb (fst t) (fst u) then (fst u, (snd u + snd t)%C) :: P'
      else if row_ltb (fst t) (fst u) then t :: u :: P'
      else u :: insert_term t P'
  end.

Definition merge_terms (P : PauliwordOp) : PauliwordOp :=
  fold_right insert_term [] P.

(** Modelled from the spec: [PauliwordOp.cleanup], which is not among the
    sources: "merge duplicate terms, summing coefficients, dropping near-zero
    entries" -- in exact arithmetic the entries dropped are the zero ones.
    The result is sorted by row. *)
Definition cleanup (P : PauliwordOp) : PauliwordOp :=
  filter (fun t => Cnonzero (snd t)) (merge_terms P).

(** Modelled from the spec: the operators [*], [+], [-] of [PauliwordOp],
    which are not among the sources; each stacks its terms and cleans up. *)
Definition mul (n : nat) (P Q : PauliwordOp) : PauliwordOp :=
  cleanup (mul_stack n P Q).
Definition add (P Q : PauliwordOp) : PauliwordOp := cleanup (P ++ Q).
Definition sub (P Q : PauliwordOp) : PauliwordOp :=
  cleanup (P ++ multiply_by_constant (- C1)%C Q).

End Pword.
Export Pword.

(* ------------------------------------------------------------------------ *)
(** * anticommuting_op.py *)
(* ------------------------------------------------------------------------ *)

From Stdlib Require String.
Import String.StringSyntax.
Delimit Scope string_scope with string.

Module AC.

Local Open Scope R_scope.

(** Ways a call can end without a value: the failed assertions and the
    errors raised in the sources. *)
Inductive error : Type :=
| NotAnticommuting    (* 'operator needs to be made of anti-commuting Pauli operators' *)
| ComplexCoeffs       (* 'cannot apply unitary partitioning to operator with complex coeffs' *)
| TermNotZeroingOut   (* 'term not zeroing out' *)
| UnknownMethod       (* ValueError 'unknown unitary partitioning method' *)
| IndexError.         (* an index past the end of an array, argmin of an empty array *)

Inductive result (A : Type) : Type :=
| Ok (a : A)
| Err (e : error).
Arguments Ok {A} a.
Arguments Err {A} e.

(** The coefficients are numpy floats, which the model reads as real
    numbers.  Two computations of the sources leave the real numbers without
    raising, and the call goes on with what they give: the division of a
    zero coefficient by a zero norm, which is nan, and the arccosine of a
    coefficient outside [[-1, 1]], which numpy takes in the complex
    numbers.  An operator whose coefficients come from the first is [NaN],
    from the second [ComplexAngle]; the model keeps no arithmetic on
    either.  Everywhere else an operator is [Finite]. *)
Inductive float_op : Type :=
| Finite (P : PauliwordOp)
| NaN
| ComplexAngle.

Record AntiCommutingOp : Type := mkAC {
  n_qubits : nat;
  terms : PauliwordOp;                       (* symp_matrix, coeff_vec *)
  X_sk_rotations : list (PauliwordOp * R);
  R_LCU : option float_op
}.

(** The check of [__init__]: off the diagonal, no entry of the adjacency
    matrix is set. *)
Definition adjacency_matrix (n : nat) (rows : list row) : list (list bool) :=
  map (fun a => map (fun b => commutes n a b) rows) rows.

Definition eye (m : nat) : list (list Z) :=
  map (fun i => map (fun j => if Nat.eqb i j then 1%Z else 0%Z) (seq 0 m)) (seq 0 m).

Definition sumZ (l : list Z) : Z := fold_right Z.add 0%Z l.

Definition anti_comm_check (n : nat) (rows : list row) : list (list Z) :=
  map2 (map2 (fun (a : bool) (e : Z) => ((if a then 1 else 0) - e)%Z))
       (adjacency_matrix n rows) (eye (length rows)).

Definition init_check (n : nat) (rows : list row) : bool :=
  Z.eqb (sumZ (map sumZ (anti_comm_check n rows))) 0.

Definition init (n : nat) (P : PauliwordOp) : result AntiCommutingOp :=
  if init_check n (symp_matrix P) then Ok (mkAC n P [] None)
  else Err NotAnticommuting.

(** ** get_least_dense_term_index *)

Definition pos_terms_occur (n : nat) (r : row) : list bool :=
  map2 orb (X_block n r) (Z_block n r).

(** [1 << np.arange(m)[::-1]] *)
Definition bit_weights (m : nat) : list Z :=
  rev (map (fun j => Z.shiftl 1 (Z.of_nat j)) (seq 0 m)).

(** [bits @ weights] *)
Definition dot_bits (bits : list bool) (weights : list Z) : Z :=
  sumZ (map2 (fun (b : bool) (w : Z) => if b then w else 0%Z) bits weights).

Definition int_list (n : nat) (rows : list row) : list Z :=
  map (fun r => dot_bits (pos_terms_occur n r) (bit_weights n)) rows.

(** [np.argmin]: the index of the first occurrence of the minimum. *)
Fixpoint argmin_from (best_i : nat) (best : Z) (i : nat) (l : list Z) : nat :=
  match l with
  | [] => best_i
  | x :: l' =>
      if (x <? best)%Z then argmin_from i x (S i) l'
      else argmin_from best_i best (S i) l'
  end.

Definition argmin (l : list Z) : option nat :=
  match l with
  | [] => None
  | x :: l' => Some (argmin_from 0 x 1 l')
  end.

Definition get_least_dense_term_index (self : AntiCommutingOp) : option nat :=
  argmin (int_list (n_qubits self) (symp_matrix (terms self))).

(** Number of non-identity positions of a term. *)
Definition weight (n : nat) (r : row) : nat := count_true (pos_terms_occur n r).

(** ** _recursive_seq_rotations *)

(** [np.isclose(x, 0)] with the default tolerances: [|x| <= atol = 1e-8]. *)
Definition isclose0 (x : R) : bool :=
  if Rle_dec (Rabs x) (/ 100000000) then true else false.

Definition Rltb (x y : R) : bool := if Rlt_dec x y then true else false.

(** [np.arctan(beta_k / beta_s)].  numpy does not raise on a zero
    [beta_s]: the quotient is then an infinity with the sign of [beta_k],
    whose arctangent is [pi/2] with that sign, or nan when [beta_k] is zero
    too.  [None] stands for nan. *)
Definition arctan_quotient (beta_k beta_s : R) : option R :=
  if Req_dec_T beta_s 0 then
    if Req_dec_T beta_k 0 then None
    else Some (if Rltb beta_k 0 then - (PI / 2) else PI / 2)
  else Some (atan (beta_k / beta_s)).

(** One step of the recursion on the operator [s :: k :: rest]: the angle,
    the check, the generator with its sign fixed, and the new leading term.
    The coefficients are real (their imaginary parts are zero), the real
    functions are applied to their real parts.  With the angle nan the
    comparison [beta_s < 0] is false and so is [np.isclose]: the assertion
    fails. *)
Definition seq_rot_step (n : nat) (s k : row * C)
  : result ((PauliwordOp * R) * (row * C)) :=
  let beta_s := Re (snd s) in
  let beta_k := Re (snd k) in
  match arctan_quotient beta_k beta_s with
  | None => Err TermNotZeroingOut
  | Some theta_sk =>
      let theta_sk := if Rltb beta_s 0 then theta_sk + PI else theta_sk in
      if negb (isclose0 (beta_k * cos theta_sk - beta_s * sin theta_sk))
      then Err TermNotZeroingOut else
      match mul n [(fst s, C1)] [(fst k, (- Ci)%C)] with
      | [] => Err IndexError
      | (x, c) :: X_tl =>
          let flip := Rltb (Re c) 0 in
          let X_sk := if flip then (x, (- C1 * c)%C) :: X_tl else (x, c) :: X_tl in
          let theta_sk := if flip then theta_sk * -1 else theta_sk in
          Ok ((X_sk, theta_sk), (fst s, RtoC (sqrt (beta_s ^ 2 + beta_k ^ 2))))
      end
  end.

(** The recursion keeps the target at index 0 and removes index 1 at each
    call: [seq_rot_from n s rest rots] is [_recursive_seq_rotations] on the
    operator [s :: rest] with [rots] the rotations recorded so far.  It
    returns the final operator, or the error, and the rotations recorded. *)
Fixpoint seq_rot_from (n : nat) (s : row * C) (rest : PauliwordOp)
    (rots : list (PauliwordOp * R))
  : result PauliwordOp * list (PauliwordOp * R) :=
  match rest with
  | [] => (Ok [s], rots)
  | k :: rest' =>
      match seq_rot_step n s k with
      | Err e => (Err e, rots)
      | Ok (rot, s') => seq_rot_from n s' rest' (rots ++ [rot])
      end
  end.

Definition _recursive_seq_rotations (self : AntiCommutingOp) (AC_op : PauliwordOp)
  : result PauliwordOp * AntiCommutingOp :=
  match AC_op with
  | [] => (Err IndexError, self)
  | s :: rest =>
      let '(r, rots) := seq_rot_from (n_qubits self) s rest (X_sk_rotations self) in
      (r, mkAC (n_qubits self) (terms self) rots (R_LCU self))
  end.

(** ** generate_LCU_operator *)

Definition sumR (l : list R) : R := fold_right Rplus 0 l.

(** [np.linalg.norm] of a coefficient vector. *)
Definition norm (v : list C) : R :=
  sqrt (sumR (map (fun c => Re c ^ 2 + Im c ^ 2) v)).

(** [v / d] for a real [d]. *)
Definition div_coeffs (d : R) (P : PauliwordOp) : PauliwordOp :=
  map (fun t => (fst t, mkC (Re (snd t) / d) (Im (snd t) / d))) P.

Definition LCU_R (n : nat) (Ps_LCU : PauliwordOp) (alpha : R) (no_bsPs : PauliwordOp)
  : PauliwordOp :=
  let sin_term := - sin (alpha / 2) in
  fold_left
    (fun R_acc dkPk =>
       add R_acc (multiply_by_constant (RtoC sin_term) (mul n [dkPk] Ps_LCU)))
    no_bsPs
    [(identity_row n, RtoC (cos (alpha / 2)))].

(** On an operator of more than one term the call always returns the
    target [Ps_LCU] and caches an [R].  Where [omega_l] is zero and there
    are terms to divide, their coefficients are zero and the quotients nan;
    where [beta_s] is outside [[-1, 1]] (the operator was not normalised)
    the angle is complex. *)
Definition generate_LCU_operator (self : AntiCommutingOp) (AC_op : PauliwordOp)
  : result (option PauliwordOp) * AntiCommutingOp :=
  let n := n_qubits self in
  let set_R r := mkAC n (terms self) (X_sk_rotations self) r in
  match AC_op with
  | [] => (Err IndexError, self)
  | [_] => (Ok None, set_R None)
  | s :: _ =>
      let Ps_LCU := [(fst s, C1)] in
      let beta_s := snd s in
      let no_bsPs := sub AC_op (multiply_by_constant beta_s Ps_LCU) in
      let omega_l := norm (coeff_vec no_bsPs) in
      if (if Req_dec_T omega_l 0 then true else false) && negb (Nat.eqb (n_terms no_bsPs) 0)
      then (Ok (Some Ps_LCU), set_R (Some NaN)) else
      let no_bsPs := div_coeffs omega_l no_bsPs in
      if Rltb (Re beta_s) (-1) || Rltb 1 (Re beta_s)
      then (Ok (Some Ps_LCU), set_R (Some ComplexAngle)) else
      let phi_n_1 := acos (Re beta_s) in
      let phi_n_1 := if Rltb PI phi_n_1 then 2 * PI - phi_n_1 else phi_n_1 in
      let alpha := phi_n_1 in
      (Ok (Some Ps_LCU), set_R (Some (Finite (LCU_R n Ps_LCU alpha no_bsPs))))
  end.

(** ** unitary_partitioning *)

(** [a[[0, i]] = a[[i, 0]]]: exchange the entries at [0] and [i]. *)
Definition swap0 {A} (i : nat) (l : list A) : option (list A) :=
  match l, nth_error l i with
  | x0 :: _, Some xi =>
      Some (firstn i (xi :: tl l) ++ match skipn i l with [] => [] | _ :: r => x0 :: r end)
  | _, _ => None
  end.

Inductive rotations : Type :=
| NoRotations                                   (* None *)
| SeqRotations (l : list (PauliwordOp * R))
| LCURotation (r : option float_op).

(** What a call returns: [Ps, rotations, gamma_l, AC_op]. *)
Record partition : Type := mkPart {
  Ps : option float_op;
  rots : rotations;
  gamma_l : R;
  AC_op_norm : float_op
}.

(** [AC_op.coeff_vec / gamma_l].  A zero [gamma_l] is the norm of
    coefficients that are all zero, and every quotient is then [0/0]; an
    operator without terms has nothing to divide. *)
Definition quotients_nan (gamma : R) (P : PauliwordOp) : bool :=
  (if Req_dec_T gamma 0 then true else false) && negb (Nat.eqb (n_terms P) 0).

Definition normalise (gamma : R) (P : PauliwordOp) : float_op :=
  if quotients_nan gamma P then NaN else Finite (div_coeffs gamma P).

(** The call on [self].  The division of the coefficients by [gamma_l] acts
    entry by entry and is written after the exchange of the rows [0] and
    [s_index], with which it commutes.  With the coefficients nan the call
    goes on: the branch of one term returns them; the seq_rot branch fails
    the check of its first step, every comparison with nan being false; the
    LCU branch takes the target from the first row and caches an [R] of
    nan. *)
Definition unitary_partitioning (self : AntiCommutingOp)
    (s_index : option nat) (up_method : String.string)
  : result partition * AntiCommutingOp :=
  let n := n_qubits self in
  let AC_op := terms self in                        (* self.copy() *)
  let gamma := norm (coeff_vec AC_op) in
  if Nat.eqb (n_terms AC_op) 1 then
    let AC_op := normalise gamma AC_op in
    (Ok (mkPart (Some AC_op) NoRotations gamma AC_op), self)
  else
    if negb (if Req_dec_T (sumR (map Im (coeff_vec AC_op))) 0 then true else false)
    then (Err ComplexCoeffs, self) else
    match (match s_index with
           | None => get_least_dense_term_index self
           | Some i => Some i
           end) with
    | None => (Err IndexError, self)
    | Some s_index =>
        match (if Nat.eqb s_index 0 then Some AC_op else swap0 s_index AC_op) with
        | None => (Err IndexError, self)
        | Some AC_op =>
            if negb (Nat.eqb s_index 0) && negb (init_check n (symp_matrix AC_op))
            then (Err NotAnticommuting, self) else
            let rows := symp_matrix AC_op in
            let AC_op := normalise gamma AC_op in
            if String.eqb up_method "seq_rot"%string then
              let self := mkAC n (terms self) [] (R_LCU self) in
              match AC_op with
              | Finite P =>
                  match _recursive_seq_rotations self P with
                  | (Err e, self) => (Err e, self)
                  | (Ok Ps, self) =>
                      (Ok (mkPart (Some (Finite Ps))
                                  (SeqRotations (X_sk_rotations self)) gamma AC_op),
                       self)
                  end
              | _ => (Err TermNotZeroingOut, self)
              end
            else if String.eqb up_method "LCU"%string then
              let self := mkAC n (terms self) (X_sk_rotations self) None in
              match AC_op with
              | Finite P =>
                  match generate_LCU_operator self P with
                  | (Err e, self) => (Err e, self)
                  | (Ok Ps, self) =>
                      (Ok (mkPart (option_map Finite Ps) (LCURotation (R_LCU self))
                                  gamma AC_op),
                       self)
                  end
              | _ =>
                  let Ps_LCU := [(nth 0 rows [], C1)] in
                  (Ok (mkPart (Some (Finite Ps_LCU)) (LCURotation (Some NaN)) gamma AC_op),
                   mkAC n (terms self) (X_sk_rotations self) (Some NaN))
              end
            else (Err UnknownMethod, self)
        end
    end.

(** ** conjugate_Pop_with_R *)

(** The loop over [ind_j > ind_i]: [Rtail] is [R[ind_i + 1:]]. *)
Definition conj_j_loop (n : nat) (Pa : row) (ca : C) (Pi : row) (ci : C)
    (PiPa : row * C) (Rtail : PauliwordOp) : PauliwordOp :=
  flat_map
    (fun tj =>
       let sign2 := Csign (anticommutes_int n Pa Pi
                           + anticommutes_int n Pa (fst tj)
                           + anticommutes_int n Pi (fst tj)) in
       let coeff1 := (ci * ca * Cconj (snd tj))%C in
       let coeff2 := (snd tj * ca * Cconj ci)%C in
       let overall_coeff := (coeff1 + sign2 * coeff2)%C in
       if Cnonzero overall_coeff
       then [mul_symplectic n (fst PiPa) (snd PiPa) (fst tj) overall_coeff]
       else [])
    Rtail.

(** The loop over [ind_i] for one term [Pa] of [Pop]. *)
Fixpoint conj_i_loop (n : nat) (Pa : row) (ca : C) (R : PauliwordOp) : PauliwordOp :=
  match R with
  | [] => []
  | ti :: R' =>
      let sign := Csign (anticommutes_int n Pa (fst ti)) in
      let coeff := (snd ti * Cconj (snd ti) * ca)%C in
      (Pa, (coeff * sign)%C)
        :: conj_j_loop n Pa ca (fst ti) (snd ti)
             (mul_symplectic n (fst ti) C1 Pa C1) R'
        ++ conj_i_loop n Pa ca R'
  end.

Definition conjugate_Pop_with_R (n : nat) (Pop R : PauliwordOp) : PauliwordOp :=
  if Nat.eqb (n_terms Pop) 1 then
    cleanup (mul n (mul n R Pop) (dagger R))
  else
    cleanup (flat_map (fun ta => conj_i_loop n (fst ta) (snd ta) R) Pop).

(** ** Applying a sequence of rotations *)

(** Modelled from the spec: [PauliwordOp.perform_rotations] is not in the
    files at hand.  A rotation by the angle [theta] about the generator [X]
    is the conjugation by [exp (i theta X / 2) = cos (theta / 2) + i sin
    (theta / 2) X]; this is the orientation under which the quantity
    checked in [_recursive_seq_rotations],
    [beta_k cos theta - beta_s sin theta], is the coefficient left on the
    partner term. *)
Definition rotation_operator (n : nat) (X : PauliwordOp) (theta : R) : PauliwordOp :=
  (identity_row n, RtoC (cos (theta / 2)))
    :: multiply_by_constant (Ci * RtoC (sin (theta / 2)))%C X.

Definition rotate (n : nat) (P : PauliwordOp) (rot : PauliwordOp * R) : PauliwordOp :=
  let R_op := rotation_operator n (fst rot) (snd rot) in
  cleanup (mul n (mul n R_op P) (dagger R_op)).

(** The rotations are applied in the order of the list. *)
Definition perform_rotations (n : nat) (P : PauliwordOp)
    (rotations : list (PauliwordOp * R)) : PauliwordOp :=
  fold_left (rotate n) rotations P.

End AC.

(* ------------------------------------------------------------------------ *)
(** * noncontextual_op.py: NoncontextualOp *)
(* ------------------------------------------------------------------------ *)

Module NC.

Local Open Scope R_scope.

(** The keys of the dictionary [decomposed]: the clique numbers and the
    string ['symmetry']. *)
Inductive block_key : Type :=
| Clique (i : nat)
| Symmetry.

Record NoncontextualOp : Type := mkNC {
  n_qubits : nat;
  terms : PauliwordOp;                         (* symp_matrix, coeff_vec *)
  symmetry_generators : PauliwordOp;
  decomposed : list (block_key * PauliwordOp);
  n_cliques : nat;
  clique_operator : PauliwordOp;
  G_indices : list (list Z);
  C_indices : list (list Z);
  mask_S0 : list bool;
  mask_Ci : list (list bool);
  pauli_mult_signs : list R
}.

(** Indexing with a boolean mask, [a[mask]]: the entries at the set
    positions, in order. *)
Fixpoint select {A} (mask : list bool) (l : list A) : list A :=
  match mask, l with
  | b :: mask', x :: l' => if b then x :: select mask' l' else select mask' l'
  | _, _ => []
  end.

(** numpy refuses a mask whose length is not the array's. *)
Definition index_mask {A} (mask : list bool) (l : list A) : AC.result (list A) :=
  if Nat.eqb (length mask) (length l) then AC.Ok (select mask l)
  else AC.Err AC.IndexError.

Definition nonzeroZ (z : Z) : bool := negb (Z.eqb z 0).

(** Python's [sum] of a list of operators: the first is taken as it is, the
    others are added to it. *)
Definition sum_ops (l : list PauliwordOp) : PauliwordOp :=
  match l with
  | [] => []
  | P :: l' => fold_left add l' P
  end.

(** [reduce(lambda x,y: x*y, ops, identity)] *)
Definition multiply_indices (n : nat) (gens : PauliwordOp) (inds : list bool) : R :=
  match fold_left (fun x y => mul n x [y]) (select inds gens)
                  [(identity_row n, C1)] with
  | [] => 0
  | t :: _ => Re (snd t)
  end.

Section Construction.

(** The layers below, which are not among the sources, enter as parameters:
    the noncontextuality test of [PauliwordOp], the symmetry generators of
    [IndependentOp], the two generator reconstructions (each returns the
    reconstruction matrix and the mask of the rows it could reconstruct), the
    clique cover of the graph library and the sort by magnitude. *)
Variable is_noncontextual : PauliwordOp -> bool.
Variable find_symmetry_generators : PauliwordOp -> PauliwordOp.
Variable generator_reconstruction :
  PauliwordOp -> PauliwordOp -> list (list Z) * list bool.
Variable jordan_generator_reconstruction :
  PauliwordOp -> PauliwordOp -> list (list Z) * list bool.
Variable clique_cover : PauliwordOp -> list PauliwordOp.
Variable sort : PauliwordOp -> PauliwordOp.

(** [C.sort()[0]] for every [C] of the cover. *)
Fixpoint clique_representatives (cover : list PauliwordOp)
  : AC.result (list PauliwordOp) :=
  match cover with
  | [] => AC.Ok []
  | Cl :: cover' =>
      match sort Cl, clique_representatives cover' with
      | t :: _, AC.Ok reps => AC.Ok ([t] :: reps)
      | [], _ => AC.Err AC.IndexError
      | _, AC.Err e => AC.Err e
      end
  end.

(** What [noncontextual_generators] binds on [self]: [symmetry_generators],
    [decomposed], [n_cliques], [clique_operator]. *)
Definition noncontextual_generators (n : nat) (self : PauliwordOp)
  : AC.result (PauliwordOp * list (block_key * PauliwordOp) * nat * PauliwordOp) :=
  let gens := find_symmetry_generators self in
  let symmetry_mask := snd (generator_reconstruction self gens) in
  match index_mask (map negb symmetry_mask) self with
  | AC.Err e => AC.Err e
  | AC.Ok rest =>
      let cover := clique_cover rest in
      let decomposed := combine (map Clique (seq 0 (length cover))) cover in
      let n_cliques := length decomposed in
      match (if Nat.ltb 0 n_cliques then
               match clique_representatives (map snd decomposed) with
               | AC.Err e => AC.Err e
               | AC.Ok reps =>
                   match AC.init n (sum_ops reps) with
                   | AC.Err e => AC.Err e
                   | AC.Ok A => AC.Ok (AC.terms A)
                   end
               end
             else AC.Ok (cleanup [])) with
      | AC.Err e => AC.Err e
      | AC.Ok clique_operator =>
          match index_mask symmetry_mask self with
          | AC.Err e => AC.Err e
          | AC.Ok sym =>
              AC.Ok (gens, decomposed ++ [(Symmetry, sym)], n_cliques, clique_operator)
          end
      end
  end.

(** [noncontextual_reconstruction]; [None] when the assertion on the
    reconstruction fails. *)
Definition noncontextual_reconstruction (n : nat) (self gens clique_operator : PauliwordOp)
  : option (list (list Z) * list (list Z) * list bool * list (list bool) * list R) :=
  let noncon_generators :=
    map (fun r => (r, C1)) (symp_matrix gens ++ symp_matrix clique_operator) in
  let '(jordan_recon_matrix, successful) :=
    jordan_generator_reconstruction self noncon_generators in
  if negb (forallb (fun b => b) successful) then None else
  let nG := n_terms gens in
  let G_indices := map (firstn nG) jordan_recon_matrix in
  let C_indices := map (skipn nG) jordan_recon_matrix in
  let mask_S0 := map (fun r => negb (existsb nonzeroZ r)) C_indices in
  let mask_Ci :=
    map (fun i => map (fun r => nonzeroZ (nth i r 0%Z)) C_indices)
        (seq 0 (n_terms clique_operator)) in
  let pauli_mult_signs :=
    map (fun r => multiply_indices n noncon_generators (map nonzeroZ r))
        jordan_recon_matrix in
  Some (G_indices, C_indices, mask_S0, mask_Ci, pauli_mult_signs).

Inductive construction_error : Type :=
| Contextual                    (* 'Specified operator is contextual.' *)
| InsufficientGenerators        (* 'The generating set is not sufficient ...' *)
| Raised (e : AC.error).

(** [NoncontextualOp.__init__] *)
Definition init (n : nat) (H : PauliwordOp)
  : NoncontextualOp + construction_error :=
  if negb (is_noncontextual H) then inr Contextual else
  match noncontextual_generators n H with
  | AC.Err e => inr (Raised e)
  | AC.Ok (gens, decomposed, n_cliques, clique_operator) =>
      match noncontextual_reconstruction n H gens clique_operator with
      | None => inr InsufficientGenerators
      | Some (G, Cm, mS0, mCi, signs) =>
          inl (mkNC n H gens decomposed n_cliques clique_operator G Cm mS0 mCi signs)
      end
  end.

End Construction.

(** ** get_symmetry_contributions, get_energy *)

Definition Req_bool (x y : R) : bool := if Req_dec_T x y then true else false.

(** [np.count_nonzero(np.logical_and(G_indices == 1, nu == -1), axis=1)] *)
Definition flip_counts (G : list (list Z)) (nu : list R) : list nat :=
  map (fun g => count_true (map2 andb (map (Z.eqb 1) g)
                                      (map (fun x => Req_bool x (-1)) nu)))
      G.

Definition coeff_mod (self : NoncontextualOp) (nu : list R) : list C :=
  map2 Cmul
    (map2 (fun c s => (c * RtoC s)%C) (coeff_vec (terms self)) (pauli_mult_signs self))
    (map Csign (flip_counts (G_indices self) nu)).

Definition get_symmetry_contributions (self : NoncontextualOp) (nu : list R)
  : R * list R :=
  let cm := coeff_mod self nu in
  let s0 := Re (sumC (select (mask_S0 self) cm)) in
  let si := map (fun mask => Re (sumC (select mask cm))) (mask_Ci self) in
  (s0, si).

(** [np.linalg.norm] of a real vector. *)
Definition normR (v : list R) : R := sqrt (AC.sumR (map (fun x => x ^ 2) v)).

Definition get_energy (self : NoncontextualOp) (nu : list R) : R :=
  let '(s0, si) := get_symmetry_contributions self nu in
  s0 - normR si.

(** ** The energy as the specification words it (§4.6), term by term *)

Module Spec.

(** [nu] assigns [-1] to the generator [g]. *)
Definition assigns_minus_one (nu : list R) (g : nat) : bool :=
  if Req_dec_T (nth g nu 0) (-1) then true else false.

(** Number of symmetry generators selected by row [t] of [G_indices] to
    which [nu] assigns [-1]. *)
Definition m (self : NoncontextualOp) (nu : list R) (t : nat) : nat :=
  length (filter (fun g => Z.eqb (nth g (nth t (G_indices self) []) 0%Z) 1
                           && assigns_minus_one nu g)
                 (seq 0 (length nu))).

Definition coeff_mod (self : NoncontextualOp) (nu : list R) (t : nat) : C :=
  (nth t (coeff_vec (terms self)) C0
   * RtoC (nth t (pauli_mult_signs self) 0)
   * Csign (m self nu t))%C.

Definition row_all_zero (self : NoncontextualOp) (t : nat) : bool :=
  forallb (Z.eqb 0) (nth t (C_indices self) []).

Definition row_selects (self : NoncontextualOp) (i t : nat) : bool :=
  nonzeroZ (nth i (nth t (C_indices self) []) 0%Z).

Definition sum_over (self : NoncontextualOp) (nu : list R) (keep : nat -> bool) : R :=
  AC.sumR (map (fun t => Re (coeff_mod self nu t))
               (filter keep (seq 0 (n_terms (terms self))))).

Definition s0 (self : NoncontextualOp) (nu : list R) : R :=
  sum_over self nu (row_all_zero self).

Definition s (self : NoncontextualOp) (nu : list R) (i : nat) : R :=
  sum_over self nu (row_selects self i).

Definition energy (self : NoncontextualOp) (nu : list R) : R :=
  s0 self nu
  - sqrt (AC.sumR (map (fun i => s self nu i ^ 2)
                       (seq 0 (n_terms (clique_operator self))))).

End Spec.

End NC.

(* ------------------------------------------------------------------------ *)
(** * noncontextual_op.py: NoncontextualSolver *)
(* ------------------------------------------------------------------------ *)

Module Solver.

Local Open Scope R_scope.

Record NoncontextualSolver : Type := mkSolver {
  NC_op : NC.NoncontextualOp;
  fixed_ev_mask : list bool;
  fixed_eigvals : list R
}.

(** [__init__]: with a mask, the number of set entries must be the number of
    fixed eigenvalues; without one, nothing is fixed. *)
Definition init (NC_op : NC.NoncontextualOp)
    (fixed : option (list bool * list R)) : option NoncontextualSolver :=
  match fixed with
  | Some (mask, eigvals) =>
      if Nat.eqb (count_true mask) (length eigvals)
      then Some (mkSolver NC_op mask eigvals) else None
  | None =>
      Some (mkSolver NC_op
              (repeat false (n_terms (NC.symmetry_generators NC_op))) [])
  end.

(** [list(itertools.product([-1, 1], repeat=k))] *)
Fixpoint product (k : nat) : list (list R) :=
  match k with
  | O => [[]]
  | S k' => flat_map (fun x => map (cons x) (product k')) [-1; 1]
  end.

(** A vector of ones with [nu[mask] = fixed] and [nu[~mask] = free]. *)
Fixpoint fill (mask : list bool) (fixed free : list R) : list R :=
  match mask with
  | [] => []
  | true :: mask' =>
      match fixed with
      | x :: fixed' => x :: fill mask' fixed' free
      | [] => 1 :: fill mask' [] free
      end
  | false :: mask' =>
      match free with
      | x :: free' => x :: fill mask' fixed free'
      | [] => 1 :: fill mask' fixed []
      end
  end.

Definition nu_list (self : NoncontextualSolver) : list (list R) :=
  if forallb (fun b => b) (fixed_ev_mask self) then [fixed_eigvals self]
  else
    map (fill (fixed_ev_mask self) (fixed_eigvals self))
        (product (count_true (map negb (fixed_ev_mask self)))).

(** [min(iterable, key=lambda x: x[0])]: the first of the smallest. *)
Fixpoint min_by_fst {A} (best : R * A) (l : list (R * A)) : R * A :=
  match l with
  | [] => best
  | x :: l' => if AC.Rltb (fst x) (fst best) then min_by_fst x l' else min_by_fst best l'
  end.

Definition energy_via_brute_force (self : NoncontextualSolver)
  : option (R * list R) :=
  let tracker := map (NC.get_energy (NC_op self)) (nu_list self) in
  match combine tracker (nu_list self) with
  | [] => None
  | x :: l => Some (min_by_fst x l)
  end.

(** [np.sign] *)
Definition sign (x : R) : R :=
  if AC.Rltb x 0 then -1 else if AC.Rltb 0 x then 1 else 0.

Section Relaxation.

(** The global optimizer [scipy.optimize.shgo] enters as a parameter: from
    the objective and the bounds it returns the point [x] and the value
    [fun]. *)
Variable shgo : (list R -> R) -> list (R * R) -> list R * R.

Definition get_nu (self : NoncontextualSolver) (angles : list R) : list R :=
  fill (fixed_ev_mask self) (fixed_eigvals self) (map cos angles).

Definition energy_via_relaxation (self : NoncontextualSolver) : R * list R :=
  let nu_bounds :=
    repeat (0, PI)
           (n_terms (NC.symmetry_generators (NC_op self))
            - count_true (fixed_ev_mask self)) in
  let optimizer_output :=
    shgo (fun angles => NC.get_energy (NC_op self) (get_nu self angles)) nu_bounds in
  let fix_nu := map sign (get_nu self (map cos (fst optimizer_output))) in
  (snd optimizer_output, fix_nu).

End Relaxation.

End Solver.

(* ------------------------------------------------------------------------ *)
(** * anticommuting_op.py with its arrays in a store *)
(* ------------------------------------------------------------------------ *)

(** The numpy arrays of the operators live in a store and the objects hold
    references to them, so that an assignment into an array ([a[i] = x], the
    swap [a[[0, i]] = a[[i, 0]]]) is seen through every reference to that
    array, while an assignment to an attribute ([op.coeff_vec = ...]) binds
    the attribute to another array.  The values computed are those of the
    module [AC]. *)
Module Store.
Import AC.

Local Open Scope R_scope.

(** [NaNs len] is a coefficient array of [len] entries that are all nan,
    as the division by a zero [gamma_l] makes it. *)
Inductive array : Type :=
| Symp (m : list row)
| Coeff (v : list C)
| NaNs (len : nat).

(** A [PauliwordOp] object: the references held by its attributes
    [symp_matrix] and [coeff_vec]. *)
Record PwordObj : Type := mkObj { symp_ref : nat; coeff_ref : nat }.

(** The arrays, and the two attributes of [self] that the methods rebind. *)
Record state : Type := mkState {
  arrays : list array;
  X_sk_rotations : list (PauliwordOp * R);
  R_LCU : option float_op
}.

Definition M (A : Type) : Type := state -> result A * state.

Definition ret {A} (a : A) : M A := fun st => (Ok a, st).
Definition raise {A} (e : error) : M A := fun st => (Err e, st).
Definition bind {A B} (c : M A) (f : A -> M B) : M B :=
  fun st =>
    match c st with
    | (Ok a, st') => f a st'
    | (Err e, st') => (Err e, st')
    end.

Declare Scope store_scope.
Delimit Scope store_scope with store.
Notation "x <- c ;; k" := (bind c (fun x => k))
  (at level 61, c at next level, right associativity) : store_scope.
Notation "c ;;; k" := (bind c (fun _ => k))
  (at level 61, right associativity) : store_scope.
Local Open Scope store_scope.

(** A new array. *)
Definition alloc (a : array) : M nat :=
  fun st => (Ok (length (arrays st)),
             mkState (arrays st ++ [a]) (X_sk_rotations st) (R_LCU st)).

Fixpoint replace_at (r : nat) (a : array) (h : list array) : list array :=
  match h, r with
  | [], _ => []
  | _ :: h', O => a :: h'
  | x :: h', S r' => x :: replace_at r' a h'
  end.

(** Assignment into an array, in place. *)
Definition store (r : nat) (a : array) : M unit :=
  fun st => (Ok tt, mkState (replace_at r a (arrays st)) (X_sk_rotations st) (R_LCU st)).

Definition read_symp (r : nat) : M (list row) :=
  fun st => (Ok (match nth_error (arrays st) r with Some (Symp m) => m | _ => [] end), st).

Definition read_coeff (r : nat) : M (list C) :=
  fun st => (Ok (match nth_error (arrays st) r with Some (Coeff v) => v | _ => [] end), st).

Definition set_rotations (l : list (PauliwordOp * R)) : M unit :=
  fun st => (Ok tt, mkState (arrays st) l (R_LCU st)).
Definition get_rotations : M (list (PauliwordOp * R)) :=
  fun st => (Ok (X_sk_rotations st), st).
Definition set_R_LCU (r : option float_op) : M unit :=
  fun st => (Ok tt, mkState (arrays st) (X_sk_rotations st) r).
Definition get_R_LCU : M (option float_op) :=
  fun st => (Ok (R_LCU st), st).

Definition read_array (r : nat) : M array :=
  fun st => (Ok (match nth_error (arrays st) r with Some a => a | None => Coeff [] end), st).

(** The terms an object denotes. *)
Definition read_op (o : PwordObj) : M PauliwordOp :=
  m <- read_symp (symp_ref o) ;;
  v <- read_coeff (coeff_ref o) ;;
  ret (combine m v).

(** [PauliwordOp(symp_matrix, coeff_vec)] on arrays just built. *)
Definition new_op (P : PauliwordOp) : M PwordObj :=
  rs <- alloc (Symp (symp_matrix P)) ;;
  rc <- alloc (Coeff (coeff_vec P)) ;;
  ret (mkObj rs rc).

(** Modelled from the spec: [PauliwordOp.copy], which is not among the
    sources: the copy is "a private copy of the operator's data" (§5), with
    arrays of its own. *)
Definition copy (o : PwordObj) : M PwordObj :=
  P <- read_op o ;; new_op P.

(** The same for an object whose coefficients are nan. *)
Definition copy_nan (o : PwordObj) : M PwordObj :=
  m <- read_symp (symp_ref o) ;;
  v <- read_array (coeff_ref o) ;;
  rs <- alloc (Symp m) ;;
  rc <- alloc v ;;
  ret (mkObj rs rc).

(** [op.coeff_vec = v]: the attribute is bound to a new array. *)
Definition bind_coeff_vec (o : PwordObj) (v : array) : M PwordObj :=
  rc <- alloc v ;; ret (mkObj (symp_ref o) rc).

(** The array [coeff_vec / gamma_l]. *)
Definition quotient_array (gamma : R) (P : PauliwordOp) : array :=
  if quotients_nan gamma P then NaNs (n_terms P)
  else Coeff (coeff_vec (div_coeffs gamma P)).

(** [a[[0, i]] = a[[i, 0]]] on a coefficient array: the entries at [0] and
    [i] exchanged, or no array when [i] is past the end. *)
Definition swap_coeffs (i : nat) (a : array) : option array :=
  match a with
  | Coeff v => option_map Coeff (swap0 i v)
  | NaNs len => if Nat.ltb i len then Some (NaNs len) else None
  | Symp _ => None
  end.

(** [np.delete(a, 1, axis=0)] *)
Definition delete1 {A} (l : list A) : list A :=
  match l with
  | x :: _ :: r => x :: r
  | _ => l
  end.

(** [_recursive_seq_rotations]: the recursion is on the number of terms,
    which [fuel] bounds. *)
Fixpoint _recursive_seq_rotations (n fuel : nat) (AC_op : PwordObj) : M PwordObj :=
  match fuel with
  | O => raise IndexError
  | S fuel' =>
      P <- read_op AC_op ;;
      match P with
      | [] => raise IndexError
      | [_] => ret AC_op
      | s :: k :: _ =>
          op_for_rotation <- copy AC_op ;;
          match seq_rot_step n s k with
          | Err e => raise e
          | Ok (rot, s') =>
              rots <- get_rotations ;;
              set_rotations (rots ++ [rot]) ;;;
              (* op_for_rotation.coeff_vec[s_index] = ...; [k_index] = 0 *)
              v <- read_coeff (coeff_ref op_for_rotation) ;;
              store (coeff_ref op_for_rotation)
                    (Coeff (match v with
                            | _ :: _ :: r => snd s' :: C0 :: r
                            | _ => v
                            end)) ;;;
              m <- read_symp (symp_ref op_for_rotation) ;;
              v <- read_coeff (coeff_ref op_for_rotation) ;;
              AC_op_rotated <- new_op (combine (delete1 m) (delete1 v)) ;;
              _recursive_seq_rotations n fuel' AC_op_rotated
          end
      end
  end.

Definition generate_LCU_operator (n : nat) (AC_op : PwordObj) : M (option PwordObj) :=
  P <- read_op AC_op ;;
  rots <- get_rotations ;;
  r <- get_R_LCU ;;
  match AC.generate_LCU_operator (mkAC n P rots r) P with
  | (Err e, _) => raise e
  | (Ok None, self') => set_R_LCU (AC.R_LCU self') ;;; ret None
  | (Ok (Some Ps_LCU), self') =>
      set_R_LCU (AC.R_LCU self') ;;;
      o <- new_op Ps_LCU ;; ret (Some o)
  end.

Inductive rotations : Type :=
| NoRotations
| SeqRotations (l : list (PauliwordOp * R))
| LCURotation (r : option float_op).

Record partition : Type := mkPart {
  Ps : option PwordObj;
  rots : rotations;
  gamma_l : R;
  AC_op_norm : PwordObj
}.

(** With the coefficients nan ([gamma_l] zero) the call goes on as in
    [AC.unitary_partitioning]: the recursion of seq_rot copies the operator
    and fails the check of its first step; the LCU branch makes the target
    from the first row and caches an [R] of nan. *)
Definition unitary_partitioning (n : nat) (self : PwordObj)
    (s_index : option nat) (up_method : String.string) : M partition :=
  AC_op <- copy self ;;
  P <- read_op AC_op ;;
  let gamma := norm (coeff_vec P) in
  if Nat.eqb (n_terms P) 1 then
    AC_op <- bind_coeff_vec AC_op (quotient_array gamma P) ;;
    ret (mkPart (Some AC_op) NoRotations gamma AC_op)
  else
    if negb (if Req_dec_T (sumR (map Im (coeff_vec P))) 0 then true else false)
    then raise ComplexCoeffs else
    AC_op <- bind_coeff_vec AC_op (quotient_array gamma P) ;;
    self_rows <- read_symp (symp_ref self) ;;
    match (match s_index with
           | None => argmin (int_list n self_rows)
           | Some i => Some i
           end) with
    | None => raise IndexError
    | Some s_index =>
        (if Nat.eqb s_index 0 then ret tt
         else
           v <- read_array (coeff_ref AC_op) ;;
           m <- read_symp (symp_ref AC_op) ;;
           match swap_coeffs s_index v, swap0 s_index m with
           | Some v', Some m' =>
               store (coeff_ref AC_op) v' ;;;
               store (symp_ref AC_op) (Symp m') ;;;
               if init_check n m' then ret tt else raise NotAnticommuting
           | _, _ => raise IndexError
           end) ;;;
        if String.eqb up_method "seq_rot"%string then
          set_rotations [] ;;;
          if quotients_nan gamma P then
            copy_nan AC_op ;;; raise TermNotZeroingOut
          else
            Ps <- _recursive_seq_rotations n (n_terms P) AC_op ;;
            rots <- get_rotations ;;
            ret (mkPart (Some Ps) (SeqRotations rots) gamma AC_op)
        else if String.eqb up_method "LCU"%string then
          set_R_LCU None ;;;
          if quotients_nan gamma P then
            m <- read_symp (symp_ref AC_op) ;;
            Ps <- new_op [(nth 0 m [], C1)] ;;
            set_R_LCU (Some NaN) ;;;
            ret (mkPart (Some Ps) (LCURotation (Some NaN)) gamma AC_op)
          else
            Ps <- generate_LCU_operator n AC_op ;;
            r <- get_R_LCU ;;
            ret (mkPart Ps (LCURotation r) gamma AC_op)
        else raise UnknownMethod
    end.

End Store.

(* ------------------------------------------------------------------------ *)
(** * anticommuting_op.py: the alternative constructor and the sort *)
(* ------------------------------------------------------------------------ *)

Module ACSort.
Import AC.

(** [from_PauliwordOp]: [cls(PwordOp.symp_matrix, PwordOp.coeff_vec)]. *)
Definition from_PauliwordOp (n : nat) (PwordOp : PauliwordOp) : result AntiCommutingOp :=
  init n PwordOp.

(** [symp_matrix @ (1 << np.arange(symp_matrix.shape[1])[::-1])]: every row
    of [2 n] bits read as a binary number, first column most significant. *)
Definition int_list (n : nat) (rows : list row) : list Z :=
  map (fun r => dot_bits r (bit_weights (2 * n))) rows.

(** [np.argsort]: the indices that put the keys in nondecreasing order.
    Equal keys are left in their order here; numpy's default sort promises
    no order among them, and the rows of an anticommuting operator give
    different keys. *)
Fixpoint insert_index (x : Z * nat) (l : list (Z * nat)) : list (Z * nat) :=
  match l with
  | [] => [x]
  | y :: l' => if (fst y <? fst x)%Z then y :: insert_index x l' else x :: l
  end.

Definition argsort (keys : list Z) : list nat :=
  map snd (fold_right insert_index [] (combine keys (seq 0 (length keys)))).

(** [a[indices]] for indices in range, as those of [argsort] are. *)
Definition take (indices : list nat) (P : PauliwordOp) : PauliwordOp :=
  map (fun i => nth i P ([], C0)) indices.

(** [lexicographical_sort] rebinds [symp_matrix] and [coeff_vec] of [self]. *)
Definition lexicographical_sort (self : AntiCommutingOp) : AntiCommutingOp :=
  let lex_ordered_indices :=
    argsort (int_list (n_qubits self) (symp_matrix (terms self))) in
  mkAC (n_qubits self) (take lex_ordered_indices (terms self))
       (X_sk_rotations self) (R_LCU self).

End ACSort.

(* ------------------------------------------------------------------------ *)
(** * noncontextual_op.py: the constructors of a noncontextual part *)
(* ------------------------------------------------------------------------ *)

Module NCStrategies.
Import NC.

(** Ways the constructors end without an operator. *)
Inductive strategy_error : Type :=
| UnrecognisedStrategy   (* ValueError 'Unrecognised strategy, must be one of ...' *)
| NoTerm                 (* the first term of an operator without terms *)
| NotConstructed (e : construction_error).

Section Strategies.

(** The layers that are not among the sources enter as parameters, as for
    [__init__]; so do the test [check_adjmat_noncontextual] of the utilities
    and the order drawn by [np.random.shuffle]. *)
Variable is_noncontextual : PauliwordOp -> bool.
Variable find_symmetry_generators : PauliwordOp -> PauliwordOp.
Variable generator_reconstruction :
  PauliwordOp -> PauliwordOp -> list (list Z) * list bool.
Variable jordan_generator_reconstruction :
  PauliwordOp -> PauliwordOp -> list (list Z) * list bool.
Variable clique_cover : PauliwordOp -> list PauliwordOp.
Variable sort : PauliwordOp -> PauliwordOp.
Variable check_adjmat_noncontextual : list (list bool) -> bool.
Variable shuffle : nat -> list nat.

(** [cls(symp_matrix, coeff_vec)] *)
Definition cls (n : nat) (H : PauliwordOp) : NoncontextualOp + construction_error :=
  init is_noncontextual find_symmetry_generators generator_reconstruction
       jordan_generator_reconstruction clique_cover sort n H.

Definition from_PauliwordOp (n : nat) (H : PauliwordOp)
  : NoncontextualOp + construction_error :=
  cls n H.

(** [~np.any(H.X_block, axis=1)]: the rows without a set entry in the [X]
    block. *)
Definition mask_diag (n : nat) (H : PauliwordOp) : list bool :=
  map (fun t => negb (existsb (fun b => b) (X_block n (fst t)))) H.

Definition _diag_noncontextual_op (n : nat) (H : PauliwordOp)
  : NoncontextualOp + construction_error :=
  cls n (select (mask_diag n H) H).

(** The loop of [_diag_first_noncontextual_op]: a term is added when the sum
    stays noncontextual. *)
Definition append_if_noncontextual (noncontextual_operator : PauliwordOp)
    (term : row * C) : PauliwordOp :=
  if is_noncontextual (add noncontextual_operator [term])
  then add noncontextual_operator [term]
  else noncontextual_operator.

Definition _diag_first_noncontextual_op (n : nat) (H : PauliwordOp)
  : NoncontextualOp + construction_error :=
  match _diag_noncontextual_op n H with
  | inr e => inr e
  | inl noncontextual_operator =>
      let off_diag_terms := sort (sub H (terms noncontextual_operator)) in
      from_PauliwordOp n
        (fold_left append_if_noncontextual off_diag_terms
                   (terms noncontextual_operator))
  end.

(** Modelled from the spec: [commutes_termwise] of one term with the terms
    at the given indices, one entry for each. *)
Definition commutes_termwise (n : nat) (term : row) (operator : list row)
    (indices : list nat) : list bool :=
  map (fun i => commutes n term (nth i operator [])) indices.

(** [np.pad] by one row and one column, then the last row and the last
    column set to the vector. *)
Definition pad_with (adjmat : list (list bool)) (adjmat_vector : list bool)
  : list (list bool) :=
  map2 (fun r b => r ++ [b]) adjmat adjmat_vector ++ [adjmat_vector].

(** The sweep over [operator[1:]], [index] counting from [0]. *)
Fixpoint sweep (n : nat) (operator : list row) (index : nat) (rest : list row)
    (noncon_indices : list nat) (adjmat : list (list bool))
  : list nat * list (list bool) :=
  match rest with
  | [] => (noncon_indices, adjmat)
  | term :: rest' =>
      let adjmat_vector := commutes_termwise n term operator noncon_indices ++ [true] in
      let adjmat_padded := pad_with adjmat adjmat_vector in
      if check_adjmat_noncontextual adjmat_padded
      then sweep n operator (S index) rest' (noncon_indices ++ [index + 1]) adjmat_padded
      else sweep n operator (S index) rest' noncon_indices adjmat
  end.

Definition _single_sweep_noncontextual_operator (n : nat) (H : PauliwordOp)
    (strategy : String.string) : NoncontextualOp + strategy_error :=
  match (if String.eqb strategy "magnitude" then Some (sort H)
         else if String.eqb strategy "random"
              then Some (ACSort.take (shuffle (n_terms H)) H)
         else if String.eqb strategy "CurrentOrder" then Some H
         else None) with
  | None => inr UnrecognisedStrategy
  | Some [] => inr NoTerm
  | Some (first :: others) =>
      let operator := first :: others in
      let noncon_indices :=
        fst (sweep n (symp_matrix operator) 0 (symp_matrix others) [0%nat] [[true]]) in
      match from_PauliwordOp n (ACSort.take noncon_indices operator) with
      | inl op => inl op
      | inr e => inr (NotConstructed e)
      end
  end.

End Strategies.

End NCStrategies.

(* ------------------------------------------------------------------------ *)
(** * variational_optimization.py *)
(* ------------------------------------------------------------------------ *)

Module VQE.

Local Open Scope R_scope.

Section Driver.

(** [VQE_Driver.f], the expectation value at a parameter vector, is
    computed by layers that are not among the sources and enters as a
    parameter. *)
Variable f : list R -> R.

(** [x.copy()] with [x[param_index] += d]; no vector for an index past the
    end. *)
Definition shifted (x : list R) (param_index : nat) (d : R) : option (list R) :=
  match nth_error x param_index with
  | Some xi => Some (firstn param_index x ++ (xi + d) :: skipn (S param_index) x)
  | None => None
  end.

Definition partial_derivative (x : list R) (param_index : nat) : option R :=
  match shifted x param_index (PI / 4), shifted x param_index (- (PI / 4)) with
  | Some x_upper, Some x_lower => Some (f x_upper - f x_lower)
  | _, _ => None
  end.

End Driver.

(** [new_excitation.X_block | new_excitation.Z_block] *)
Definition support (n : nat) (excitation : row) : list bool :=
  AC.pos_terms_occur n excitation.

(** The TETRIS branch of [ADAPT_VQE.optimize]: the loop over [grad_rank]
    that collects the indices of the pool elements to append, with its two
    ways of stopping early. *)
Fixpoint tetris (n : nat) (excitation_pool : list row) (pool_grad : list R)
    (gtol : R) (grad_rank : list nat)
    (new_excitation_list : list nat) (support_mask : list bool) : list nat :=
  match grad_rank with
  | [] => new_excitation_list
  | i :: grad_rank' =>
      let new_excitation := nth i excitation_pool [] in
      let support_exists := map2 andb (support n new_excitation) support_mask in
      let free := negb (existsb (fun b => b) support_exists) in
      let new_excitation_list :=
        if free then new_excitation_list ++ [i] else new_excitation_list in
      let support_mask :=
        if free then map2 orb support_mask (support n new_excitation)
        else support_mask in
      if forallb (fun b => b) support_mask || AC.Rltb (nth i pool_grad 0) gtol
      then new_excitation_list
      else tetris n excitation_pool pool_grad gtol grad_rank'
                  new_excitation_list support_mask
  end.

Definition tetris_selection (n : nat) (excitation_pool : list row)
    (pool_grad : list R) (gtol : R) (grad_rank : list nat) : list nat :=
  tetris n excitation_pool pool_grad gtol grad_rank [] (repeat false n).

End VQE.

(* ======================================================================== *)
(** * Elementwise operations and indices *)
(* ======================================================================== *)

Module ListFacts.

Lemma length_map2 {A B D} (f : A -> B -> D) (a : list A) (b : list B) :
  length (map2 f a b) = Nat.min (length a) (length b).
Proof. unfold map2. now rewrite length_map, length_combine. Qed.

Lemma nth_map2 {A B D} (f : A -> B -> D) (da : A) (db : B) (d : D)
    (a : list A) (b : list B) (t : nat) :
  (t < length a)%nat -> (t < length b)%nat ->
  nth t (map2 f a b) d = f (nth t a da) (nth t b db).
Proof.
  unfold map2. revert b t. induction a as [|x a IH]; intros [|y b] [|t] Ha Hb;
    simpl in *; try lia; auto.
  apply IH; lia.
Qed.

Lemma map2_as_seq {A B D} (f : A -> B -> D) (da : A) (db : B)
    (a : list A) (b : list B) :
  map2 f a b =
  map (fun i => f (nth i a da) (nth i b db))
      (seq 0 (Nat.min (length a) (length b))).
Proof.
  unfold map2. revert b. induction a as [|x a IH]; intros [|y b]; simpl; auto.
  f_equal. rewrite IH, <- seq_shift, map_map. reflexivity.
Qed.

Lemma map2_comm {A D} (f : A -> A -> D) (a b : list A) :
  (forall x y, f x y = f y x) -> map2 f a b = map2 f b a.
Proof.
  intros Hf. unfold map2. revert b. induction a as [|x a IH]; intros [|y b];
    simpl; auto.
  now rewrite Hf, IH.
Qed.

Lemma map_nth_in {A B} (f : A -> B) (l : list A) (d : A) (e : B) (i : nat) :
  (i < length l)%nat -> nth i (map f l) e = f (nth i l d).
Proof.
  intros Hi. rewrite (nth_indep _ e (f d)) by now rewrite length_map.
  apply map_nth.
Qed.

Lemma map_seq_nth {A} (l : list A) (d : A) :
  map (fun i => nth i l d) (seq 0 (length l)) = l.
Proof.
  induction l as [|x l IH]; simpl; auto.
  f_equal. rewrite <- seq_shift, map_map. exact IH.
Qed.

Lemma filter_none {A} (f : A -> bool) (l : list A) :
  (forall x, In x l -> f x = false) -> filter f l = [].
Proof.
  induction l as [|x l IH]; intros H; simpl; auto.
  rewrite (H x (or_introl eq_refl)). apply IH. intros y Hy. apply H. now right.
Qed.

Lemma filter_seq_shift (f : nat -> bool) (a n : nat) :
  filter f (seq (S a) n) = map S (filter (fun i => f (S i)) (seq a n)).
Proof.
  revert a. induction n as [|n IH]; intros a; simpl; auto.
  rewrite IH. destruct (f (S a)); reflexivity.
Qed.

Lemma count_true_cons (b : bool) (l : list bool) :
  count_true (b :: l) = ((if b then 1 else 0) + count_true l)%nat.
Proof. unfold count_true. simpl. now destruct b. Qed.

Lemma count_true_map2_and (a b : list bool) :
  count_true (map2 andb a b) =
  length (filter (fun i => nth i a false && nth i b false) (seq 0 (length b))).
Proof.
  unfold count_true, map2.
  revert b. induction a as [|x a IH]; intros b.
  - simpl. rewrite filter_none; auto. intros i _. now destruct i.
  - destruct b as [|y b]; simpl; auto.
    rewrite filter_seq_shift.
    destruct x, y; simpl; rewrite length_map; now rewrite IH.
Qed.

End ListFacts.

(* ======================================================================== *)
(** * Facts about weighted sums of terms *)
(* ======================================================================== *)

Module PwordFacts.

Lemma row_eqb_true (a b : row) : row_eqb a b = true <-> a = b.
Proof.
  unfold row_eqb. destruct (list_eq_dec Bool.bool_dec a b); split; congruence.
Qed.

Lemma row_eqb_refl (a : row) : row_eqb a a = true.
Proof. now apply row_eqb_true. Qed.

Lemma row_eqb_false (a b : row) : row_eqb a b = false <-> a <> b.
Proof.
  unfold row_eqb. destruct (list_eq_dec Bool.bool_dec a b); split; congruence.
Qed.

Lemma row_eqb_sym (a b : row) : row_eqb a b = row_eqb b a.
Proof.
  destruct (row_eqb a b) eqn:E.
  - apply row_eqb_true in E. subst. now rewrite row_eqb_refl.
  - symmetry. apply row_eqb_false. apply row_eqb_false in E. congruence.
Qed.

Lemma Cnonzero_false (c : C) : Cnonzero c = false <-> c = C0.
Proof. unfold Cnonzero. destruct (Ceq_dec c C0); split; congruence. Qed.

Lemma Cnonzero_true (c : C) : Cnonzero c = true <-> c <> C0.
Proof. unfold Cnonzero. destruct (Ceq_dec c C0); split; congruence. Qed.

#[export] Instance op_equiv_Equivalence : Equivalence op_equiv.
Proof.
  split.
  - intros P p. reflexivity.
  - intros P Q H p. symmetry. apply H.
  - intros P Q S H1 H2 p. rewrite H1. apply H2.
Qed.

Lemma coef_cons (q : row) (c : C) (P : PauliwordOp) (p : row) :
  coef ((q, c) :: P) p = ((if row_eqb q p then c else C0) + coef P p)%C.
Proof. simpl. destruct (row_eqb q p); ring. Qed.

Lemma coef_app (P Q : PauliwordOp) (p : row) :
  coef (P ++ Q) p = (coef P p + coef Q p)%C.
Proof.
  induction P as [|[q c] P IH]; simpl.
  - ring.
  - destruct (row_eqb q p); rewrite IH; ring.
Qed.

Lemma coef_scale (c : C) (P : PauliwordOp) (p : row) :
  coef (multiply_by_constant c P) p = (c * coef P p)%C.
Proof.
  induction P as [|[q d] P IH]; simpl.
  - ring.
  - destruct (row_eqb q p); rewrite IH; ring.
Qed.

Lemma coef_Permutation (P Q : PauliwordOp) :
  Permutation P Q -> op_equiv P Q.
Proof.
  induction 1 as [| [q c] P Q _ IH | [q c] [r d] P | P Q S _ IH1 _ IH2]; intros p.
  - reflexivity.
  - simpl. now rewrite IH.
  - simpl. destruct (row_eqb q p), (row_eqb r p); ring.
  - now rewrite IH1.
Qed.

Lemma coef_insert_term (t : row * C) (P : PauliwordOp) (p : row) :
  coef (insert_term t P) p = coef (t :: P) p.
Proof.
  destruct t as [q c].
  induction P as [|[r d] P IH]; simpl in *.
  - reflexivity.
  - destruct (row_eqb q r) eqn:E.
    + apply row_eqb_true in E. subst. simpl. destruct (row_eqb r p); ring.
    + destruct (row_ltb q r); simpl.
      * reflexivity.
      * rewrite IH. destruct (row_eqb r p), (row_eqb q p); ring.
Qed.

Lemma coef_merge_terms (P : PauliwordOp) (p : row) :
  coef (merge_terms P) p = coef P p.
Proof.
  induction P as [|[q c] P IH]; simpl.
  - reflexivity.
  - unfold merge_terms in *. rewrite coef_insert_term. simpl. now rewrite IH.
Qed.

Lemma coef_drop_zero (P : PauliwordOp) (p : row) :
  coef (filter (fun t => Cnonzero (snd t)) P) p = coef P p.
Proof.
  induction P as [|[q c] P IH]; simpl.
  - reflexivity.
  - destruct (Cnonzero c) eqn:E; simpl; rewrite IH.
    + reflexivity.
    + apply Cnonzero_false in E. subst. destruct (row_eqb q p); ring.
Qed.

Lemma coef_cleanup (P : PauliwordOp) (p : row) :
  coef (cleanup P) p = coef P p.
Proof. unfold cleanup. now rewrite coef_drop_zero, coef_merge_terms. Qed.

Lemma cleanup_equiv (P : PauliwordOp) : op_equiv (cleanup P) P.
Proof. intros p. apply coef_cleanup. Qed.

Lemma add_equiv (P Q : PauliwordOp) : op_equiv (add P Q) (P ++ Q).
Proof. apply cleanup_equiv. Qed.

Lemma coef_dagger (P : PauliwordOp) (p : row) :
  coef (dagger P) p = Cconj (coef P p).
Proof.
  induction P as [|[q c] P IH]; simpl.
  - csimp.
  - destruct (row_eqb q p); rewrite IH; csimp.
Qed.

End PwordFacts.

(* ======================================================================== *)
(** * Products of terms: rows and phases, qubit by qubit *)
(* ======================================================================== *)

Module SympFacts.
Import ListFacts.

(** The X and Z entries of a row at qubit [q]. *)
Definition xq (a : row) (q : nat) : bool := nth q a false.
Definition zq (n : nat) (a : row) (q : nat) : bool := nth (n + q) a false.

Definition b2n (b : bool) : nat := if b then 1 else 0.

(** Sum of a function over the qubits [0 .. n-1]. *)
Definition qsum (n : nat) (f : nat -> nat) : nat :=
  fold_right Nat.add 0 (map f (seq 0 n)).

(** ** Rows *)

Lemma wf_xor (n : nat) (a b : row) :
  wf_row n a -> wf_row n b -> wf_row n (map2 xorb a b).
Proof. unfold wf_row. intros Ha Hb. rewrite length_map2, Ha, Hb. lia. Qed.

Lemma xor_comm (a b : row) : map2 xorb a b = map2 xorb b a.
Proof. apply map2_comm. apply xorb_comm. Qed.

Lemma xor_assoc (a b c : row) :
  map2 xorb (map2 xorb a b) c = map2 xorb a (map2 xorb b c).
Proof.
  unfold map2. revert b c. induction a as [|x a IH]; intros [|y b] [|z c];
    simpl; auto.
  f_equal; [apply xorb_assoc | apply IH].
Qed.

Lemma xor_self_cancel (a b : row) :
  length a = length b -> map2 xorb (map2 xorb a b) a = b.
Proof.
  unfold map2. revert b. induction a as [|x a IH]; intros [|y b] H; simpl in *;
    try discriminate; auto.
  f_equal; [now destruct x, y | apply IH; lia].
Qed.

Lemma nth_xor (a b : row) (i : nat) :
  i < length a -> i < length b ->
  nth i (map2 xorb a b) false = xorb (nth i a false) (nth i b false).
Proof. intros Ha Hb. now apply nth_map2. Qed.

Lemma xq_xor (n : nat) (a b : row) (q : nat) :
  wf_row n a -> wf_row n b -> q < n ->
  xq (map2 xorb a b) q = xorb (xq a q) (xq b q).
Proof. unfold wf_row, xq. intros Ha Hb Hq. apply nth_xor; lia. Qed.

Lemma zq_xor (n : nat) (a b : row) (q : nat) :
  wf_row n a -> wf_row n b -> q < n ->
  zq n (map2 xorb a b) q = xorb (zq n a q) (zq n b q).
Proof. unfold wf_row, zq. intros Ha Hb Hq. apply nth_xor; lia. Qed.

(** ** Counts as sums over the qubits *)

Lemma length_filter_qsum (p : nat -> bool) (n : nat) :
  length (filter p (seq 0 n)) = qsum n (fun q => b2n (p q)).
Proof.
  unfold qsum. induction (seq 0 n) as [|q l IH]; simpl; auto.
  destruct (p q); simpl; now rewrite IH.
Qed.

Lemma qsum_ext (n : nat) (f g : nat -> nat) :
  (forall q, q < n -> f q = g q) -> qsum n f = qsum n g.
Proof.
  intros H. unfold qsum. f_equal. apply map_ext_in.
  intros q Hq. apply in_seq in Hq. apply H. lia.
Qed.

Lemma qsum_add (n : nat) (f g : nat -> nat) :
  qsum n f + qsum n g = qsum n (fun q => f q + g q).
Proof.
  unfold qsum. induction (seq 0 n) as [|q l IH]; simpl; auto.
  rewrite <- IH. lia.
Qed.

Lemma qsum_scale (n k : nat) (f : nat -> nat) :
  k * qsum n f = qsum n (fun q => k * f q).
Proof.
  unfold qsum. induction (seq 0 n) as [|q l IH]; simpl; [lia|].
  rewrite <- IH. lia.
Qed.

Lemma qsum_mod (m n : nat) (f g : nat -> nat) :
  m <> 0 ->
  (forall q, q < n -> f q mod m = g q mod m) -> qsum n f mod m = qsum n g mod m.
Proof.
  intros Hm H. unfold qsum.
  assert (Hin : forall q, In q (seq 0 n) -> f q mod m = g q mod m).
  { intros q Hq. apply in_seq in Hq. apply H. lia. }
  induction (seq 0 n) as [|q l IH]; simpl; auto.
  rewrite (Nat.Div0.add_mod (f q)), (Nat.Div0.add_mod (g q)).
  rewrite IH, Hin; auto.
  - now left.
  - intros q' Hq'. apply Hin. now right.
Qed.

Lemma count_blocks (n : nat) (a b : row) (fa fb : nat) :
  True ->
  forall (u v : list bool),
  length v = n ->
  (forall q, q < n -> nth q u false = nth (fa + q) a false) ->
  (forall q, q < n -> nth q v false = nth (fb + q) b false) ->
  count_true (map2 andb u v) =
  qsum n (fun q => b2n (nth (fa + q) a false && nth (fb + q) b false)).
Proof.
  intros _ u v Hv Hu Hvq.
  rewrite count_true_map2_and, Hv, length_filter_qsum.
  apply qsum_ext. intros q Hq. now rewrite Hu, Hvq.
Qed.

Lemma nth_X_block (n : nat) (a : row) (q : nat) :
  q < n -> nth q (X_block n a) false = nth (0 + q) a false.
Proof.
  intros Hq. unfold X_block. simpl.
  destruct (Nat.lt_ge_cases q (length a)) as [Hl | Hl].
  - rewrite <- (firstn_skipn n a) at 2. rewrite app_nth1; auto.
    rewrite length_firstn. lia.
  - rewrite !nth_overflow; auto. rewrite length_firstn. lia.
Qed.

Lemma nth_Z_block (n : nat) (a : row) (q : nat) :
  wf_row n a -> nth q (Z_block n a) false = nth (n + q) a false.
Proof.
  intros Ha. unfold Z_block, wf_row in *.
  rewrite <- (firstn_skipn n a) at 2.
  rewrite app_nth2; rewrite length_firstn; [|lia].
  f_equal. lia.
Qed.

Lemma length_X_block (n : nat) (a : row) : wf_row n a -> length (X_block n a) = n.
Proof. unfold X_block, wf_row. intros Ha. rewrite length_firstn. lia. Qed.

Lemma length_Z_block (n : nat) (a : row) : wf_row n a -> length (Z_block n a) = n.
Proof. unfold Z_block, wf_row. intros Ha. rewrite length_skipn. lia. Qed.

Lemma count_XZ (n : nat) (a b : row) :
  wf_row n a -> wf_row n b ->
  count_true (map2 andb (X_block n a) (Z_block n b)) =
  qsum n (fun q => b2n (xq a q && zq n b q)).
Proof.
  intros Ha Hb.
  rewrite (count_blocks n a b 0 n I); auto.
  - now apply length_Z_block.
  - intros q Hq. now apply nth_X_block.
  - intros q Hq. now apply nth_Z_block.
Qed.

Lemma count_ZX (n : nat) (a b : row) :
  wf_row n a -> wf_row n b ->
  count_true (map2 andb (Z_block n a) (X_block n b)) =
  qsum n (fun q => b2n (zq n a q && xq b q)).
Proof.
  intros Ha Hb.
  rewrite (count_blocks n a b n 0 I); auto.
  - now apply length_X_block.
  - intros q Hq. now apply nth_Z_block.
  - intros q Hq. now apply nth_X_block.
Qed.

(** The exponent of [i] contributed by one qubit. *)
Definition eps (x1 z1 x2 z2 : bool) : nat :=
  2 * b2n (x1 && z2) + 3 * (b2n (x1 && z1) + b2n (x2 && z2))
  + b2n (xorb x1 x2 && xorb z1 z2).

(** The symplectic form contributed by one qubit. *)
Definition omega (x1 z1 x2 z2 : bool) : nat := b2n (x1 && z2) + b2n (z1 && x2).

Lemma Y_count_local (n : nat) (a : row) :
  wf_row n a -> Y_count n a = qsum n (fun q => b2n (xq a q && zq n a q)).
Proof. intros Ha. unfold Y_count. exact (count_XZ n a a Ha Ha). Qed.

Lemma phase_exp_local (n : nat) (a b : row) :
  wf_row n a -> wf_row n b ->
  phase_exp n a b =
  qsum n (fun q => eps (xq a q) (zq n a q) (xq b q) (zq n b q)).
Proof.
  intros Ha Hb. unfold phase_exp.
  rewrite (count_XZ n a b Ha Hb), (Y_count_local n a Ha), (Y_count_local n b Hb),
    (Y_count_local n _ (wf_xor n a b Ha Hb)).
  rewrite qsum_add, !qsum_scale, !qsum_add.
  apply qsum_ext. intros q Hq. unfold eps.
  rewrite (xq_xor n), (zq_xor n) by auto. reflexivity.
Qed.

Lemma symp_form_local (n : nat) (a b : row) :
  wf_row n a -> wf_row n b ->
  symp_form n a b =
  qsum n (fun q => omega (xq a q) (zq n a q) (xq b q) (zq n b q)).
Proof.
  intros Ha Hb. unfold symp_form.
  rewrite (count_XZ n a b Ha Hb), (count_ZX n a b Ha Hb).
  rewrite qsum_add. reflexivity.
Qed.


(** ** Congruences between exponents, decided qubit by qubit *)

Ltac wf_rows := auto using wf_xor.

Ltac phase_local n :=
  repeat match goal with
         | |- context [phase_exp n ?a ?b] =>
             rewrite (phase_exp_local n a b) by wf_rows
         | |- context [symp_form n ?a ?b] =>
             rewrite (symp_form_local n a b) by wf_rows
         end;
  repeat (rewrite qsum_scale || rewrite qsum_add);
  apply qsum_mod; [discriminate|];
  let q := fresh "q" in
  let Hq := fresh "Hq" in
  intros q Hq;
  repeat (rewrite (xq_xor n) by wf_rows);
  repeat (rewrite (zq_xor n) by wf_rows);
  repeat match goal with
         | |- context [xq ?a q] => generalize (xq a q); intro
         | |- context [zq n ?a q] => generalize (zq n a q); intro
         end;
  repeat match goal with b : bool |- _ => destruct b end;
  reflexivity.

Section Phases.

Variable n : nat.
Variables a b c : row.
Hypothesis Ha : wf_row n a.
Hypothesis Hb : wf_row n b.
Hypothesis Hc : wf_row n c.

(** [(a b) c = a (b c)] *)
Lemma phase_assoc :
  (phase_exp n a b + phase_exp n (map2 xorb a b) c) mod 4 =
  (phase_exp n b c + phase_exp n a (map2 xorb b c)) mod 4.
Proof. phase_local n. Qed.

(** [a b = (-1)^(omega a b) b a] *)
Lemma phase_swap :
  phase_exp n a b mod 4 = (phase_exp n b a + 2 * symp_form n a b) mod 4.
Proof. phase_local n. Qed.

(** [a a = 1] *)
Lemma phase_square : phase_exp n a a mod 4 = 0.
Proof.
  transitivity (qsum n (fun _ => 0) mod 4).
  - phase_local n.
  - unfold qsum. induction (seq 0 n); simpl; auto.
Qed.

(** [b a b = (-1)^(omega a b) a] *)
Lemma phase_sandwich :
  (phase_exp n b a + phase_exp n (map2 xorb b a) b) mod 4 =
  (2 * symp_form n a b) mod 4.
Proof. phase_local n. Qed.

(** [c a b = (-1)^(omega a b + omega a c + omega b c) b a c] *)
Lemma phase_reverse :
  (phase_exp n c a + phase_exp n (map2 xorb c a) b) mod 4 =
  (phase_exp n b a + phase_exp n (map2 xorb b a) c
   + 2 * (symp_form n a b + symp_form n a c + symp_form n b c)) mod 4.
Proof. phase_local n. Qed.

End Phases.

(** ** Powers of [i] *)

Lemma Cipow_mod (j k : nat) : j mod 4 = k mod 4 -> Cipow j = Cipow k.
Proof. unfold Cipow. now intros ->. Qed.

Lemma Cipow_add (j k : nat) : Cipow (j + k) = (Cipow j * Cipow k)%C.
Proof.
  unfold Cipow. rewrite Nat.Div0.add_mod.
  pose proof (Nat.mod_upper_bound j 4). pose proof (Nat.mod_upper_bound k 4).
  destruct (j mod 4) as [|[|[|[|?]]]]; try lia;
    destruct (k mod 4) as [|[|[|[|?]]]]; try lia; simpl; csimp.
Qed.

Lemma Csign_Cipow (k : nat) : Csign k = Cipow (2 * k).
Proof.
  unfold Csign, Cipow.
  destruct (Nat.even k) eqn:E.
  - apply Nat.even_spec in E. destruct E as [m ->].
    replace (2 * (2 * m)) with (m * 4) by lia. now rewrite Nat.Div0.mod_mul.
  - assert (Ho : Nat.odd k = true) by (rewrite <- Nat.negb_even, E; reflexivity).
    apply Nat.odd_spec in Ho. destruct Ho as [m ->].
    replace (2 * (2 * m + 1)) with (2 + m * 4) by lia.
    now rewrite Nat.Div0.mod_add.
Qed.

Lemma Csign_mod2 (j k : nat) : j mod 2 = k mod 2 -> Csign j = Csign k.
Proof.
  intros H. rewrite !Csign_Cipow. apply Cipow_mod.
  rewrite (Nat.div_mod_eq j 2), (Nat.div_mod_eq k 2), H.
  replace (2 * (2 * (j / 2) + k mod 2)) with (2 * (k mod 2) + (j / 2) * 4) by lia.
  replace (2 * (2 * (k / 2) + k mod 2)) with (2 * (k mod 2) + (k / 2) * 4) by lia.
  now rewrite !Nat.Div0.mod_add.
Qed.

Lemma anticommutes_int_mod2 (n : nat) (a b : row) :
  anticommutes_int n a b = symp_form n a b mod 2.
Proof.
  unfold anticommutes_int, commutes.
  destruct (Nat.even (symp_form n a b)) eqn:E.
  - apply Nat.even_spec in E. destruct E as [m ->].
    replace (2 * m) with (m * 2) by lia. now rewrite Nat.Div0.mod_mul.
  - assert (Ho : Nat.odd (symp_form n a b) = true)
      by (rewrite <- Nat.negb_even, E; reflexivity).
    apply Nat.odd_spec in Ho. destruct Ho as [m ->].
    replace (2 * m + 1) with (1 + m * 2) by lia. now rewrite Nat.Div0.mod_add.
Qed.

Lemma Csign_anticommutes (n : nat) (a b : row) :
  Csign (anticommutes_int n a b) = Csign (symp_form n a b).
Proof.
  apply Csign_mod2. rewrite anticommutes_int_mod2. apply Nat.Div0.mod_mod.
Qed.

Lemma Csign_anticommutes3 (n : nat) (a b c d e f : row) :
  Csign (anticommutes_int n a b + anticommutes_int n c d + anticommutes_int n e f) =
  Csign (symp_form n a b + symp_form n c d + symp_form n e f).
Proof.
  apply Csign_mod2. rewrite !anticommutes_int_mod2.
  rewrite (Nat.Div0.add_mod (symp_form n a b + symp_form n c d)).
  rewrite (Nat.Div0.add_mod (symp_form n a b)).
  rewrite (Nat.Div0.add_mod (symp_form n a b mod 2 + symp_form n c d mod 2)).
  rewrite (Nat.Div0.add_mod (symp_form n a b mod 2)).
  now rewrite !Nat.Div0.mod_mod.
Qed.

End SympFacts.

(* ======================================================================== *)
(** * Sums over terms *)
(* ======================================================================== *)

Module OpAlgebra.
Import PwordFacts SympFacts ListFacts.

Lemma sumC_app (l1 l2 : list C) : sumC (l1 ++ l2) = (sumC l1 + sumC l2)%C.
Proof. induction l1 as [|x l1 IH]; simpl; [ring | rewrite IH; ring]. Qed.

Lemma sumC_map_add {A} (f g : A -> C) (l : list A) :
  sumC (map (fun x => (f x + g x)%C) l) = (sumC (map f l) + sumC (map g l))%C.
Proof. induction l as [|x l IH]; simpl; [ring | rewrite IH; ring]. Qed.

Lemma sumC_map_scale {A} (c : C) (f : A -> C) (l : list A) :
  sumC (map (fun x => (c * f x)%C) l) = (c * sumC (map f l))%C.
Proof. induction l as [|x l IH]; simpl; [ring | rewrite IH; ring]. Qed.

Lemma sumC_map_scale' {A} (c : C) (f : A -> C) (l : list A) :
  sumC (map (fun x => (f x * c)%C) l) = (sumC (map f l) * c)%C.
Proof. induction l as [|x l IH]; simpl; [ring | rewrite IH; ring]. Qed.

Lemma sumC_map_zero {A} (l : list A) : sumC (map (fun _ => C0) l) = C0.
Proof. induction l as [|x l IH]; simpl; [reflexivity | rewrite IH; ring]. Qed.

Lemma sumC_map_ext {A} (f g : A -> C) (l : list A) :
  (forall x, In x l -> f x = g x) -> sumC (map f l) = sumC (map g l).
Proof. intros H. f_equal. now apply map_ext_in. Qed.

Lemma sumC_exchange {A B} (f : A -> B -> C) (l1 : list A) (l2 : list B) :
  sumC (map (fun x => sumC (map (f x) l2)) l1) =
  sumC (map (fun y => sumC (map (fun x => f x y) l1)) l2).
Proof.
  induction l1 as [|x l1 IH]; simpl.
  - now rewrite sumC_map_zero.
  - now rewrite IH, sumC_map_add.
Qed.

Lemma coef_flat_map {A} (F : A -> PauliwordOp) (l : list A) (p : row) :
  coef (flat_map F l) p = sumC (map (fun x => coef (F x) p) l).
Proof.
  induction l as [|x l IH]; simpl; [reflexivity|].
  now rewrite coef_app, IH.
Qed.

Lemma coef_map {A} (G : A -> row * C) (l : list A) (p : row) :
  coef (map G l) p = sumC (map (fun x => coef [G x] p) l).
Proof.
  induction l as [|x l IH]; [reflexivity|].
  cbn [map sumC]. rewrite <- IH.
  destruct (G x) as [q c]. simpl. destruct (row_eqb q p); ring.
Qed.

Lemma coef_single_scale (q : row) (c d : C) (p : row) :
  coef [(q, (c * d)%C)] p = (c * coef [(q, d)] p)%C.
Proof. simpl. destruct (row_eqb q p); ring. Qed.

Lemma coef_single_add (q : row) (c d : C) (p : row) :
  coef [(q, (c + d)%C)] p = (coef [(q, c)] p + coef [(q, d)] p)%C.
Proof. simpl. destruct (row_eqb q p); ring. Qed.

Lemma coef_single_zero (q : row) (p : row) : coef [(q, C0)] p = C0.
Proof. simpl. destruct (row_eqb q p); ring. Qed.

(** ** A double sum over a list, by unordered pairs *)

Fixpoint pairs_sum {A} (f : A -> A -> C) (l : list A) : C :=
  match l with
  | [] => C0
  | x :: l' =>
      (f x x + sumC (map (fun y => (f x y + f y x)%C) l') + pairs_sum f l')%C
  end.

Lemma double_sum_pairs {A} (f : A -> A -> C) (l : list A) :
  sumC (map (fun x => sumC (map (f x) l)) l) = pairs_sum f l.
Proof.
  induction l as [|x l IH]; [reflexivity|].
  cbn [map sumC pairs_sum]. rewrite <- IH.
  assert (E1 : sumC (map (fun y => (f y x + sumC (map (f y) l))%C) l) =
               (sumC (map (fun y => f y x) l)
                + sumC (map (fun y => sumC (map (f y) l)) l))%C)
    by apply (sumC_map_add (fun y => f y x) (fun y => sumC (map (f y) l))).
  assert (E2 : sumC (map (fun y => (f x y + f y x)%C) l) =
               (sumC (map (f x) l) + sumC (map (fun y => f y x) l))%C)
    by apply (sumC_map_add (f x) (fun y => f y x)).
  rewrite E1, E2. ring.
Qed.

(** ** Linear functionals of an operator depend on its coefficients only *)

(** [sum over the terms (a, c) of P of c * g a]. *)
Definition wsum (g : row -> C) (P : PauliwordOp) : C :=
  sumC (map (fun t => (snd t * g (fst t))%C) P).

Lemma pick_key (g : row -> C) (a : row) (c : C) (K : list row) :
  NoDup K -> In a K ->
  sumC (map (fun k => (g k * (if row_eqb a k then c else C0))%C) K) = (c * g a)%C.
Proof.
  induction 1 as [|k K Hk Hnd IH]; intros Hin; [contradiction|].
  cbn [map sumC].
  destruct Hin as [-> | Hin].
  - rewrite row_eqb_refl.
    rewrite (sumC_map_ext _ (fun _ => C0)), sumC_map_zero; [ring|].
    intros k Hk'. destruct (row_eqb a k) eqn:E; [|ring].
    apply row_eqb_true in E. subst. contradiction.
  - rewrite IH by exact Hin.
    destruct (row_eqb a k) eqn:E; [|ring].
    apply row_eqb_true in E. subst. contradiction.
Qed.

Lemma wsum_by_keys (g : row -> C) (P : PauliwordOp) (K : list row) :
  NoDup K -> incl (map fst P) K ->
  wsum g P = sumC (map (fun k => (g k * coef P k)%C) K).
Proof.
  intros Hnd. induction P as [|[a c] P IH]; intros Hincl.
  - unfold wsum. simpl. rewrite (sumC_map_ext _ (fun _ => C0)), sumC_map_zero; auto.
    intros; ring.
  - unfold wsum in *. cbn [map sumC fst snd].
    rewrite IH by (intros k Hk; apply Hincl; now right).
    rewrite <- (pick_key g a c K Hnd) by (apply Hincl; now left).
    rewrite <- sumC_map_add. apply sumC_map_ext. intros k _.
    rewrite coef_cons. ring.
Qed.

Lemma coef_absent (P : PauliwordOp) (p : row) :
  ~ In p (map fst P) -> coef P p = C0.
Proof.
  induction P as [|[q c] P IH]; simpl; intros H; [reflexivity|].
  destruct (row_eqb q p) eqn:E.
  - apply row_eqb_true in E. subst. exfalso. apply H. now left.
  - apply IH. intros Hin. apply H. now right.
Qed.

Lemma wsum_equiv (g : row -> C) (P Q : PauliwordOp) :
  op_equiv P Q -> wsum g P = wsum g Q.
Proof.
  intros Heq.
  set (K := nodup (list_eq_dec Bool.bool_dec) (map fst P ++ map fst Q)).
  assert (Hnd : NoDup K) by apply NoDup_nodup.
  rewrite (wsum_by_keys g P K Hnd), (wsum_by_keys g Q K Hnd).
  - apply sumC_map_ext. intros k _. now rewrite Heq.
  - intros k Hk. apply nodup_In, in_or_app. now right.
  - intros k Hk. apply nodup_In, in_or_app. now left.
Qed.

End OpAlgebra.

(* ======================================================================== *)
(** * conjugate_Pop_with_R against the triple product *)
(* ======================================================================== *)

Module Conjugation.
Import AC PwordFacts SympFacts ListFacts OpAlgebra.

(** The term [P_i P_a P_j] of the triple product [R * Pop * R.dagger], with
    its coefficient [c_i c_a conj(c_j)] and phase, as its contribution to
    the coefficient of [p]. *)
Definition tau (n : nat) (p : row) (ti ta tj : row * C) : C :=
  let PiPa := mul_symplectic n (fst ti) (snd ti) (fst ta) (snd ta) in
  coef [mul_symplectic n (fst PiPa) (snd PiPa) (fst tj) (Cconj (snd tj))] p.

Lemma sumC_flat_map {A B} (g : B -> C) (F : A -> list B) (l : list A) :
  sumC (map g (flat_map F l)) = sumC (map (fun x => sumC (map g (F x))) l).
Proof.
  induction l as [|x l IH]; [reflexivity|].
  cbn [flat_map map sumC]. now rewrite map_app, sumC_app, IH.
Qed.

Lemma coef_mul_stack (n : nat) (P Q : PauliwordOp) (p : row) :
  coef (mul_stack n P Q) p =
  sumC (map (fun t =>
               sumC (map (fun u =>
                            coef [mul_symplectic n (fst t) (snd t) (fst u) (snd u)] p)
                         Q))
            P).
Proof.
  unfold mul_stack. rewrite coef_flat_map. apply sumC_map_ext.
  intros t _. apply coef_map.
Qed.

(** The coefficients of the triple product, before any cleanup. *)
Lemma coef_triple (n : nat) (Pop R : PauliwordOp) (p : row) :
  coef (mul_stack n (mul_stack n R Pop) (dagger R)) p =
  sumC (map (fun ti =>
               sumC (map (fun ta => sumC (map (fun tj => tau n p ti ta tj) R)) Pop))
            R).
Proof.
  rewrite coef_mul_stack. unfold mul_stack at 1.
  rewrite sumC_flat_map. apply sumC_map_ext. intros ti _.
  rewrite map_map. apply sumC_map_ext. intros ta _.
  unfold dagger. rewrite map_map. reflexivity.
Qed.

Section OneTerm.

Variable n : nat.
Variable p : row.
Variables Pa : row.
Variable ca : C.
Hypothesis HPa : wf_row n Pa.

(** The diagonal contribution: [P_i P_a P_i = (-1)^(C_ia) P_a]. *)
Lemma diagonal_term (ti : row * C) :
  wf_row n (fst ti) ->
  coef [(Pa, (snd ti * Cconj (snd ti) * ca
              * Csign (anticommutes_int n Pa (fst ti)))%C)] p =
  tau n p ti (Pa, ca) ti.
Proof.
  destruct ti as [Pi ci]. cbn [fst snd]. intros HPi.
  unfold tau, mul_symplectic. cbn [fst snd].
  rewrite xor_self_cancel by (unfold wf_row in *; congruence).
  f_equal. f_equal. f_equal.
  rewrite Csign_anticommutes, Csign_Cipow.
  rewrite <- (Cipow_mod _ _ (phase_sandwich n Pa Pi HPa HPi)).
  rewrite Cipow_add. ring.
Qed.

(** An off-diagonal pair: [P_j P_a P_i] is [P_i P_a P_j] up to the sign
    [(-1)^(C_ia + C_ja + A_ij)]. *)
Lemma off_diagonal_pair (ti tj : row * C) :
  wf_row n (fst ti) -> wf_row n (fst tj) ->
  let PiPa := mul_symplectic n (fst ti) C1 Pa C1 in
  let sign2 := Csign (anticommutes_int n Pa (fst ti)
                      + anticommutes_int n Pa (fst tj)
                      + anticommutes_int n (fst ti) (fst tj)) in
  let overall_coeff := (snd ti * ca * Cconj (snd tj)
                        + sign2 * (snd tj * ca * Cconj (snd ti)))%C in
  coef [mul_symplectic n (fst PiPa) (snd PiPa) (fst tj) overall_coeff] p =
  (tau n p ti (Pa, ca) tj + tau n p tj (Pa, ca) ti)%C.
Proof.
  destruct ti as [Pi ci], tj as [Pj cj]. cbn [fst snd]. intros HPi HPj.
  cbv zeta. unfold tau, mul_symplectic. cbn [fst snd].
  assert (Erow : map2 xorb (map2 xorb Pj Pa) Pi = map2 xorb (map2 xorb Pi Pa) Pj).
  { rewrite xor_assoc, (xor_comm Pa Pi), xor_comm. reflexivity. }
  rewrite Erow, <- coef_single_add. f_equal. f_equal. f_equal.
  rewrite Csign_anticommutes3, Csign_Cipow.
  assert (Eph : (Cipow (phase_exp n (map2 xorb Pj Pa) Pi) * Cipow (phase_exp n Pj Pa))%C =
                (Cipow (phase_exp n (map2 xorb Pi Pa) Pj) * Cipow (phase_exp n Pi Pa)
                 * Cipow (2 * (symp_form n Pa Pi + symp_form n Pa Pj + symp_form n Pi Pj)))%C).
  { rewrite <- !Cipow_add. apply Cipow_mod.
    rewrite (Nat.add_comm (phase_exp n (map2 xorb Pj Pa) Pi)).
    rewrite (Nat.add_comm (phase_exp n (map2 xorb Pi Pa) Pj)).
    apply (phase_reverse n Pa Pi Pj HPa HPi HPj). }
  set (S := Cipow (2 * (symp_form n Pa Pi + symp_form n Pa Pj + symp_form n Pi Pj))) in *.
  transitivity
    ((Cipow (phase_exp n (map2 xorb Pi Pa) Pj) * Cipow (phase_exp n Pi Pa))
     * (ci * ca * Cconj cj)
     + (Cipow (phase_exp n (map2 xorb Pi Pa) Pj) * Cipow (phase_exp n Pi Pa) * S)
       * (cj * ca * Cconj ci))%C.
  - ring.
  - rewrite <- Eph. ring.
Qed.

Lemma coef_j_loop (ti : row * C) (Rtail : PauliwordOp) :
  wf_row n (fst ti) -> wf_op n Rtail ->
  coef (conj_j_loop n Pa ca (fst ti) (snd ti)
          (mul_symplectic n (fst ti) C1 Pa C1) Rtail) p =
  sumC (map (fun tj => (tau n p ti (Pa, ca) tj + tau n p tj (Pa, ca) ti)%C) Rtail).
Proof.
  intros HPi HR. unfold conj_j_loop. rewrite coef_flat_map.
  apply sumC_map_ext. intros tj Htj.
  unfold wf_op in HR. rewrite Forall_forall in HR.
  pose proof (off_diagonal_pair ti tj HPi (HR tj Htj)) as H. cbv zeta in H.
  rewrite <- H.
  match goal with |- context [Cnonzero ?c] => destruct (Cnonzero c) eqn:E end.
  - reflexivity.
  - apply Cnonzero_false in E. rewrite E. unfold mul_symplectic. cbn [fst snd].
    simpl coef at 1.
    match goal with |- _ = coef [(?r, ?c)] p =>
      replace c with C0 by ring
    end.
    now rewrite coef_single_zero.
Qed.

Lemma coef_i_loop (R : PauliwordOp) :
  wf_op n R ->
  coef (conj_i_loop n Pa ca R) p =
  pairs_sum (fun ti tj => tau n p ti (Pa, ca) tj) R.
Proof.
  induction 1 as [|ti R Hti HR IH]; [reflexivity|].
  cbn [conj_i_loop pairs_sum].
  rewrite coef_cons, coef_app, IH, (coef_j_loop ti R Hti HR).
  rewrite <- (diagonal_term ti Hti).
  simpl coef. destruct (row_eqb Pa p); ring.
Qed.

End OneTerm.

(** The symplectic loop and the triple product carry the same terms with the
    same coefficients. *)
Lemma loop_is_triple_product (n : nat) (Pop R : PauliwordOp) :
  wf_op n Pop -> wf_op n R ->
  op_equiv (flat_map (fun ta => conj_i_loop n (fst ta) (snd ta) R) Pop)
           (mul_stack n (mul_stack n R Pop) (dagger R)).
Proof.
  intros HPop HR p. rewrite coef_flat_map, coef_triple.
  rewrite (sumC_exchange (fun ti ta => sumC (map (fun tj => tau n p ti ta tj) R))).
  apply sumC_map_ext. intros ta Hta.
  unfold wf_op in HPop. rewrite Forall_forall in HPop.
  rewrite (coef_i_loop n p (fst ta) (snd ta) (HPop ta Hta) R HR).
  rewrite <- double_sum_pairs. destruct ta. reflexivity.
Qed.

(** Cleaning up a factor does not change a product. *)
Lemma mul_stack_equiv_l (n : nat) (P P' Q : PauliwordOp) :
  op_equiv P P' -> op_equiv (mul_stack n P Q) (mul_stack n P' Q).
Proof.
  intros H p. rewrite !coef_mul_stack.
  set (g := fun a : row =>
              sumC (map (fun u => coef [mul_symplectic n a C1 (fst u) (snd u)] p) Q)).
  assert (E : forall P0 : PauliwordOp,
             sumC (map (fun t =>
                          sumC (map (fun u =>
                                       coef [mul_symplectic n (fst t) (snd t) (fst u) (snd u)] p)
                                    Q)) P0) = wsum g P0).
  { intros P0. unfold wsum. apply sumC_map_ext. intros t _. unfold g.
    rewrite <- sumC_map_scale. apply sumC_map_ext. intros u _.
    unfold mul_symplectic. rewrite <- coef_single_scale. do 3 f_equal. ring. }
  rewrite !E. now apply wsum_equiv.
Qed.

Lemma mul_stack_equiv_r (n : nat) (P Q Q' : PauliwordOp) :
  op_equiv Q Q' -> op_equiv (mul_stack n P Q) (mul_stack n P Q').
Proof.
  intros H p. rewrite !coef_mul_stack.
  apply sumC_map_ext. intros t _.
  set (g := fun b : row => coef [mul_symplectic n (fst t) (snd t) b C1] p).
  assert (E : forall Q0 : PauliwordOp,
             sumC (map (fun u =>
                          coef [mul_symplectic n (fst t) (snd t) (fst u) (snd u)] p) Q0)
             = wsum g Q0).
  { intros Q0. unfold wsum. apply sumC_map_ext. intros u _. unfold g.
    unfold mul_symplectic. rewrite <- coef_single_scale. do 3 f_equal. ring. }
  rewrite !E. now apply wsum_equiv.
Qed.

Lemma mul_equiv (n : nat) (P P' Q Q' : PauliwordOp) :
  op_equiv P P' -> op_equiv Q Q' -> op_equiv (mul n P Q) (mul_stack n P' Q').
Proof.
  intros HP HQ. unfold mul. rewrite cleanup_equiv.
  rewrite (mul_stack_equiv_l n P P' Q HP). now apply mul_stack_equiv_r.
Qed.

Lemma triple_product_equiv (n : nat) (Pop R : PauliwordOp) :
  op_equiv (mul n (mul n R Pop) (dagger R))
           (mul_stack n (mul_stack n R Pop) (dagger R)).
Proof.
  apply mul_equiv; [|reflexivity]. apply cleanup_equiv.
Qed.

End Conjugation.

(* ======================================================================== *)
(** * cleanup returns one list for one operator *)
(* ======================================================================== *)

Module Canonical.
Import PwordFacts OpAlgebra.

Definition key_lt (t u : row * C) : Prop := row_ltb (fst t) (fst u) = true.

(** Sorted by row, strictly. *)
Definition sorted (P : PauliwordOp) : Prop := StronglySorted key_lt P.

Lemma row_ltb_irrefl (a : row) : row_ltb a a = false.
Proof. induction a as [|x a IH]; simpl; auto. now rewrite Bool.eqb_reflx. Qed.

Lemma row_ltb_trans (a b c : row) :
  row_ltb a b = true -> row_ltb b c = true -> row_ltb a c = true.
Proof.
  revert b c. induction a as [|x a IH]; intros [|y b] [|z c]; simpl; auto;
    try discriminate.
  destruct x, y, z; simpl; auto; try discriminate. all: apply IH.
Qed.

Lemma row_ltb_total (a b : row) :
  row_ltb a b = false -> a <> b -> row_ltb b a = true.
Proof.
  revert b. induction a as [|x a IH]; intros [|y b]; simpl; auto;
    try discriminate; try (intros _ H; exfalso; now apply H).
  destruct x, y; simpl; auto; try discriminate.
  all: intros H Hne; apply IH; auto; intros ->; now apply Hne.
Qed.

Lemma key_lt_neq (t u : row * C) : key_lt t u -> fst t <> fst u.
Proof.
  unfold key_lt. intros H E. rewrite E, row_ltb_irrefl in H. discriminate.
Qed.

Lemma insert_term_above (u t : row * C) (P : PauliwordOp) :
  key_lt u t -> Forall (key_lt u) P -> Forall (key_lt u) (insert_term t P).
Proof.
  intros Hut. induction 1 as [|v P Hv HP IH]; simpl.
  - now constructor.
  - destruct (row_eqb (fst t) (fst v)).
    + constructor; auto.
    + destruct (row_ltb (fst t) (fst v)); repeat constructor; auto.
Qed.

Lemma insert_term_sorted (t : row * C) (P : PauliwordOp) :
  sorted P -> sorted (insert_term t P).
Proof.
  unfold sorted. induction 1 as [|u P HP IH Hu]; simpl.
  - repeat constructor.
  - destruct (row_eqb (fst t) (fst u)) eqn:E.
    + constructor; auto.
    + destruct (row_ltb (fst t) (fst u)) eqn:L.
      * constructor; [now constructor|]. constructor; [exact L|].
        eapply Forall_impl; [|exact Hu]. intros v Hv.
        unfold key_lt in *. eapply row_ltb_trans; eauto.
      * constructor; [exact IH|]. apply insert_term_above; auto.
        unfold key_lt. apply row_ltb_total; auto.
        apply row_eqb_false in E. congruence.
Qed.

Lemma merge_terms_sorted (P : PauliwordOp) : sorted (merge_terms P).
Proof.
  induction P as [|t P IH]; simpl.
  - constructor.
  - now apply insert_term_sorted.
Qed.

Lemma filter_sorted (f : row * C -> bool) (P : PauliwordOp) :
  sorted P -> sorted (filter f P).
Proof.
  unfold sorted. induction 1 as [|u P HP IH Hu]; simpl; [constructor|].
  destruct (f u); auto. constructor; auto.
  rewrite Forall_forall in *. intros v Hv. apply Hu.
  apply filter_In in Hv. tauto.
Qed.

Lemma cleanup_sorted (P : PauliwordOp) : sorted (cleanup P).
Proof. apply filter_sorted, merge_terms_sorted. Qed.

Lemma insert_term_keys (t : row * C) (P : PauliwordOp) (k : row) :
  In k (map fst (insert_term t P)) <-> k = fst t \/ In k (map fst P).
Proof.
  induction P as [|u P IH]; simpl.
  - intuition.
  - destruct (row_eqb (fst t) (fst u)) eqn:E.
    + apply row_eqb_true in E. simpl. rewrite E. intuition.
    + destruct (row_ltb (fst t) (fst u)); simpl; [intuition|].
      rewrite IH. intuition.
Qed.

Lemma merge_terms_keys (P : PauliwordOp) (k : row) :
  In k (map fst (merge_terms P)) <-> In k (map fst P).
Proof.
  induction P as [|t P IH]; simpl; [tauto|].
  rewrite insert_term_keys, IH. intuition.
Qed.

Lemma coef_sorted_In (P : PauliwordOp) (k : row) (c : C) :
  sorted P -> In (k, c) P -> coef P k = c.
Proof.
  unfold sorted. induction 1 as [|[q d] P HP IH Hq]; intros Hin; [contradiction|].
  simpl. destruct Hin as [E | Hin].
  - injection E as -> ->. rewrite row_eqb_refl.
    rewrite coef_absent; [ring|].
    intros Hk. apply in_map_iff in Hk. destruct Hk as [[k' c'] [Ek Hk]].
    simpl in Ek. subst k'. rewrite Forall_forall in Hq.
    apply (key_lt_neq _ _ (Hq _ Hk)). reflexivity.
  - rewrite Forall_forall in Hq. pose proof (key_lt_neq _ _ (Hq _ Hin)) as Hne.
    simpl in Hne. apply row_eqb_false in Hne. rewrite Hne. now apply IH.
Qed.

Lemma In_cleanup (P : PauliwordOp) (k : row) (c : C) :
  In (k, c) (cleanup P) <-> In k (map fst P) /\ c = coef P k /\ c <> C0.
Proof.
  unfold cleanup. rewrite filter_In. simpl. rewrite Cnonzero_true. split.
  - intros [Hin Hc]. split; [|split; [|exact Hc]].
    + apply merge_terms_keys. apply in_map_iff. now exists (k, c).
    + rewrite <- (coef_merge_terms P k). symmetry.
      apply coef_sorted_In; [apply merge_terms_sorted | exact Hin].
  - intros [Hk [Hc Hne]]. split; [|exact Hne].
    apply merge_terms_keys in Hk. apply in_map_iff in Hk.
    destruct Hk as [[k' c'] [Ek Hin]]. simpl in Ek. subst k'.
    pose proof (coef_sorted_In _ _ _ (merge_terms_sorted P) Hin) as Hc'.
    rewrite coef_merge_terms in Hc'. now rewrite Hc, Hc'.
Qed.

Lemma sorted_ext (P Q : PauliwordOp) :
  sorted P -> sorted Q -> (forall t, In t P <-> In t Q) -> P = Q.
Proof.
  unfold sorted. intros HP. revert Q.
  induction HP as [|t P HP IH Ht]; intros Q HQ Hin.
  - destruct Q as [|u Q]; [reflexivity|].
    exfalso. apply (Hin u). now left.
  - destruct HQ as [|u Q HQ Hu].
    + exfalso. apply (Hin t). now left.
    + rewrite Forall_forall in Ht, Hu.
      assert (Etu : t = u).
      { destruct (proj1 (Hin t) (or_introl eq_refl)) as [E | Htq]; [now symmetry|].
        destruct (proj2 (Hin u) (or_introl eq_refl)) as [E | Hup]; [exact E|].
        pose proof (Hu _ Htq) as H1. pose proof (Ht _ Hup) as H2.
        unfold key_lt in *. pose proof (row_ltb_trans _ _ _ H1 H2) as H3.
        rewrite row_ltb_irrefl in H3. discriminate. }
      subst u. f_equal. apply IH; [exact HQ|].
      intros v. split; intros Hv.
      * destruct (proj1 (Hin v) (or_intror Hv)) as [E | H]; [|exact H].
        subst v. pose proof (Ht _ Hv) as H. unfold key_lt in H.
        rewrite row_ltb_irrefl in H. discriminate.
      * destruct (proj2 (Hin v) (or_intror Hv)) as [E | H]; [|exact H].
        subst v. pose proof (Hu _ Hv) as H. unfold key_lt in H.
        rewrite row_ltb_irrefl in H. discriminate.
Qed.

Lemma coef_nonzero_key (P : PauliwordOp) (k : row) :
  coef P k <> C0 -> In k (map fst P).
Proof.
  intros H. destruct (in_dec (list_eq_dec Bool.bool_dec) k (map fst P)) as [Hin | Hout];
    [exact Hin|].
  exfalso. apply H. now apply coef_absent.
Qed.

(** Two lists of terms that denote the same operator clean up to the same
    list. *)
Lemma cleanup_canonical (P Q : PauliwordOp) :
  op_equiv P Q -> cleanup P = cleanup Q.
Proof.
  intros Heq. apply sorted_ext; try apply cleanup_sorted.
  intros [k c]. rewrite !In_cleanup. rewrite <- (Heq k). split.
  - intros [_ [Hc Hne]]. split; [|now split].
    apply coef_nonzero_key. rewrite <- Heq, <- Hc. exact Hne.
  - intros [_ [Hc Hne]]. split; [|now split].
    apply coef_nonzero_key. rewrite <- Hc. exact Hne.
Qed.

End Canonical.

(* ======================================================================== *)
(** * conjugate_Pop_with_R: statement *)
(* ======================================================================== *)

Module ConjugationClaims.
Import AC PwordFacts Conjugation Canonical.

(** C3: for operators [Pop] and [R] over the same [n] qubits,
    [conjugate_Pop_with_R Pop R] is the list of terms that the naive
    [(R * Pop * R.dagger).cleanup()] returns: the same terms in the same
    order with the same coefficients.  When [Pop] has one term the two are
    the same expression; otherwise the term-by-term symplectic loop, cleaned
    up, gives the cleaned-up triple product. *)
Theorem conjugate_is_triple_product (n : nat) (Pop R : PauliwordOp) :
  wf_op n Pop -> wf_op n R ->
  conjugate_Pop_with_R n Pop R = cleanup (mul n (mul n R Pop) (dagger R)).
Proof.
  intros HPop HR. unfold conjugate_Pop_with_R.
  destruct (Nat.eqb (n_terms Pop) 1); [reflexivity|].
  apply cleanup_canonical.
  rewrite (loop_is_triple_product n Pop R HPop HR).
  symmetry. apply triple_product_equiv.
Qed.

(** [Pop = X + 2 Z] conjugated by [R = 1 + i Y] on one qubit. *)
Definition Pop_XZ : PauliwordOp := [([true; false], RtoC 1); ([false; true], RtoC 2)].
Definition R_IY : PauliwordOp := [([false; false], C1); ([true; true], Ci)].

Lemma conjugate_is_triple_product_witness :
  conjugate_Pop_with_R 1 Pop_XZ R_IY =
  cleanup (mul 1 (mul 1 R_IY Pop_XZ) (dagger R_IY)).
Proof.
  apply (conjugate_is_triple_product 1 Pop_XZ R_IY); repeat constructor.
Defined.

End ConjugationClaims.

(* ======================================================================== *)
(** * NoncontextualOp: the decomposition into blocks *)
(* ======================================================================== *)

Module Decomposition.
Import NC PwordFacts.

Lemma select_split {A} (mask : list bool) (l : list A) :
  length mask = length l ->
  Permutation (select (map negb mask) l ++ select mask l) l.
Proof.
  revert l. induction mask as [|b mask IH]; intros [|x l] Hlen; simpl in *;
    try discriminate; auto.
  injection Hlen as Hlen. specialize (IH l Hlen).
  destruct b; simpl.
  - apply Permutation_sym, Permutation_cons_app, Permutation_sym, IH.
  - now constructor.
Qed.

Lemma index_mask_Ok {A} (mask : list bool) (l r : list A) :
  index_mask mask l = AC.Ok r -> length mask = length l /\ r = select mask l.
Proof.
  unfold index_mask. destruct (Nat.eqb_spec (length mask) (length l)); intros E.
  - now injection E as <-.
  - discriminate.
Qed.

Lemma combine_keys_snd {A B} (keys : list A) (l : list B) :
  length keys = length l -> map snd (combine keys l) = l.
Proof.
  revert l. induction keys as [|k keys IH]; intros [|x l] Hlen; simpl in *;
    try discriminate; auto.
  f_equal. apply IH. now injection Hlen.
Qed.

Lemma combine_keys_fst {A B} (keys : list A) (l : list B) :
  length keys = length l -> map fst (combine keys l) = keys.
Proof.
  revert l. induction keys as [|k keys IH]; intros [|x l] Hlen; simpl in *;
    try discriminate; auto.
  f_equal. apply IH. now injection Hlen.
Qed.

Lemma coef_fold_add (l : list PauliwordOp) (P : PauliwordOp) (p : row) :
  coef (fold_left add l P) p = coef (P ++ concat l) p.
Proof.
  revert P. induction l as [|Q l IH]; intros P; simpl.
  - now rewrite app_nil_r.
  - rewrite IH. rewrite !coef_app. unfold add. rewrite coef_cleanup, coef_app. ring.
Qed.

Lemma sum_ops_equiv (l : list PauliwordOp) : op_equiv (sum_ops l) (concat l).
Proof.
  destruct l as [|P l]; intros p; simpl.
  - reflexivity.
  - apply coef_fold_add.
Qed.

Section Blocks.

Variable is_noncontextual : PauliwordOp -> bool.
Variable find_symmetry_generators : PauliwordOp -> PauliwordOp.
Variable generator_reconstruction :
  PauliwordOp -> PauliwordOp -> list (list Z) * list bool.
Variable jordan_generator_reconstruction :
  PauliwordOp -> PauliwordOp -> list (list Z) * list bool.
Variable clique_cover : PauliwordOp -> list PauliwordOp.
Variable sort : PauliwordOp -> PauliwordOp.

(** The contract of the graph library (§4.4 (c), §6): the cover is a
    partition of the terms it is given into cliques. *)
Hypothesis clique_cover_partition :
  forall P, Permutation (concat (clique_cover P)) P.

Let construct :=
  init is_noncontextual find_symmetry_generators generator_reconstruction
       jordan_generator_reconstruction clique_cover sort.

Lemma generators_blocks (n : nat) (H gens cliq : PauliwordOp)
    (dec : list (block_key * PauliwordOp)) (M : nat) :
  noncontextual_generators find_symmetry_generators generator_reconstruction
    clique_cover sort n H = AC.Ok (gens, dec, M, cliq) ->
  map fst dec = map Clique (seq 0 M) ++ [Symmetry] /\
  Permutation (concat (map snd dec)) H.
Proof.
  unfold noncontextual_generators.
  set (mask := snd (generator_reconstruction H (find_symmetry_generators H))).
  destruct (index_mask (map negb mask) H) as [rest|] eqn:Erest; [|discriminate].
  apply index_mask_Ok in Erest. destruct Erest as [Hlen ->].
  rewrite length_map in Hlen.
  set (cover := clique_cover (select (map negb mask) H)).
  assert (Hk : length (map Clique (seq 0 (length cover))) = length cover)
    by now rewrite length_map, length_seq.
  match goal with |- match ?X with _ => _ end = _ -> _ => destruct X; [|discriminate] end.
  destruct (index_mask mask H) as [sym|] eqn:Esym; [|discriminate].
  apply index_mask_Ok in Esym. destruct Esym as [_ ->].
  intros E. injection E as <- <- <- <-.
  rewrite !map_app, (combine_keys_fst _ _ Hk), (combine_keys_snd _ _ Hk).
  rewrite length_combine, Hk, Nat.min_id. split; [reflexivity|].
  simpl. rewrite concat_app. simpl. rewrite app_nil_r.
  eapply Permutation_trans; [| apply (select_split mask H Hlen)].
  apply Permutation_app_tail. apply clique_cover_partition.
Qed.

(** When the construction of a [NoncontextualOp] from [H] succeeds, [H]
    passed the noncontextuality test, the blocks of [decomposed] are named
    [0 .. M-1] and ['symmetry'], every term of [H] lies in exactly one block
    (the blocks put end to end are a rearrangement of the terms of [H]), and
    the sum of the blocks is [H], term for term and coefficient for
    coefficient. *)
Theorem decomposition_is_partition (n : nat) (H : PauliwordOp) (self : NoncontextualOp) :
  construct n H = inl self ->
  is_noncontextual H = true /\
  terms self = H /\
  map fst (decomposed self) = map Clique (seq 0 (n_cliques self)) ++ [Symmetry] /\
  Permutation (concat (map snd (decomposed self))) H /\
  op_equiv (sum_ops (map snd (decomposed self))) H.
Proof.
  unfold construct, init.
  destruct (is_noncontextual H); [|discriminate]. simpl.
  destruct (noncontextual_generators _ _ _ _ n H) as [[[[gens dec] M] cliq]|] eqn:Egen;
    [|discriminate].
  apply generators_blocks in Egen. destruct Egen as [Hkeys Hperm].
  destruct (noncontextual_reconstruction _ n H gens cliq)
    as [[[[[G Cm] mS0] mCi] signs]|]; [|discriminate].
  intros E. injection E as <-. simpl.
  repeat split; auto.
  etransitivity; [apply sum_ops_equiv|]. now apply coef_Permutation.
Qed.

End Blocks.

(** An instance of the parameters, for the operator [{Z: 2, X: 1}] on one
    qubit: no symmetry generators, every term in a clique of its own. *)
Definition Zrow : row := [false; true].
Definition Xrow : row := [true; false].
Definition H_ZX : PauliwordOp := [(Zrow, RtoC 2); (Xrow, RtoC 1)].

Definition no_symmetry (P : PauliwordOp) : PauliwordOp := [].
Definition recon_nothing (P G : PauliwordOp) : list (list Z) * list bool :=
  (map (fun _ => []) P, map (fun _ => false) P).
Definition recon_self (P G : PauliwordOp) : list (list Z) * list bool :=
  (map (fun i => map (fun j => if Nat.eqb i j then 1%Z else 0%Z) (seq 0 (length G)))
       (seq 0 (length P)),
   map (fun _ => true) P).
Definition singletons (P : PauliwordOp) : list PauliwordOp := map (fun t => [t]) P.

Lemma singletons_partition (P : PauliwordOp) : Permutation (concat (singletons P)) P.
Proof.
  induction P as [|t P IH]; simpl; auto.
Qed.

End Decomposition.

(* ======================================================================== *)
(** * The algebra of weighted sums of terms *)
(* ======================================================================== *)

Module OpLaws.
Import PwordFacts SympFacts ListFacts OpAlgebra Conjugation.

(** ** Operations respect the denotation *)

#[export] Instance app_Proper : Proper (op_equiv ==> op_equiv ==> op_equiv) (@app (row * C)).
Proof. intros P P' HP Q Q' HQ p. now rewrite !coef_app, HP, HQ. Qed.

#[export] Instance scale_Proper (c : C) :
  Proper (op_equiv ==> op_equiv) (multiply_by_constant c).
Proof. intros P P' HP p. now rewrite !coef_scale, HP. Qed.

#[export] Instance dagger_Proper : Proper (op_equiv ==> op_equiv) dagger.
Proof. intros P P' HP p. now rewrite !coef_dagger, HP. Qed.

#[export] Instance mul_stack_Proper (n : nat) :
  Proper (op_equiv ==> op_equiv ==> op_equiv) (mul_stack n).
Proof.
  intros P P' HP Q Q' HQ.
  rewrite (mul_stack_equiv_l n P P' Q HP). now apply mul_stack_equiv_r.
Qed.

Lemma mul_is_mul_stack (n : nat) (P Q : PauliwordOp) :
  op_equiv (mul n P Q) (mul_stack n P Q).
Proof. apply cleanup_equiv. Qed.

(** ** Sums and multiples *)

Lemma app_comm_equiv (P Q : PauliwordOp) : op_equiv (P ++ Q) (Q ++ P).
Proof. intros p. rewrite !coef_app. ring. Qed.

Lemma scale_app (c : C) (P Q : PauliwordOp) :
  multiply_by_constant c (P ++ Q) =
  multiply_by_constant c P ++ multiply_by_constant c Q.
Proof. unfold multiply_by_constant. apply map_app. Qed.

Lemma scale_scale (c d : C) (P : PauliwordOp) :
  op_equiv (multiply_by_constant c (multiply_by_constant d P))
           (multiply_by_constant (c * d) P).
Proof. intros p. rewrite !coef_scale. ring. Qed.

Lemma scale_one (P : PauliwordOp) : op_equiv (multiply_by_constant C1 P) P.
Proof. intros p. rewrite coef_scale. ring. Qed.

Lemma scale_zero (P : PauliwordOp) : op_equiv (multiply_by_constant C0 P) [].
Proof. intros p. rewrite coef_scale. simpl. ring. Qed.

(** ** Products *)

Lemma coef_mul_app_l (n : nat) (P P' Q : PauliwordOp) (p : row) :
  coef (mul_stack n (P ++ P') Q) p =
  (coef (mul_stack n P Q) p + coef (mul_stack n P' Q) p)%C.
Proof. unfold mul_stack. now rewrite flat_map_app, coef_app. Qed.

Lemma coef_mul_app_r (n : nat) (P Q Q' : PauliwordOp) (p : row) :
  coef (mul_stack n P (Q ++ Q')) p =
  (coef (mul_stack n P Q) p + coef (mul_stack n P Q') p)%C.
Proof.
  rewrite !coef_mul_stack, <- sumC_map_add. apply sumC_map_ext. intros t _.
  now rewrite map_app, sumC_app.
Qed.

Lemma coef_mul_scale_l (n : nat) (c : C) (P Q : PauliwordOp) (p : row) :
  coef (mul_stack n (multiply_by_constant c P) Q) p =
  (c * coef (mul_stack n P Q) p)%C.
Proof.
  rewrite !coef_mul_stack, <- sumC_map_scale.
  unfold multiply_by_constant. rewrite map_map.
  apply sumC_map_ext. intros t _. cbn [fst snd].
  rewrite <- sumC_map_scale. apply sumC_map_ext. intros u _.
  unfold mul_symplectic. rewrite <- coef_single_scale. do 3 f_equal. ring.
Qed.

Lemma coef_mul_scale_r (n : nat) (c : C) (P Q : PauliwordOp) (p : row) :
  coef (mul_stack n P (multiply_by_constant c Q)) p =
  (c * coef (mul_stack n P Q) p)%C.
Proof.
  rewrite !coef_mul_stack, <- sumC_map_scale.
  apply sumC_map_ext. intros t _.
  unfold multiply_by_constant. rewrite map_map.
  rewrite <- sumC_map_scale. apply sumC_map_ext. intros u _. cbn [fst snd].
  unfold mul_symplectic. rewrite <- coef_single_scale. do 3 f_equal. ring.
Qed.

Lemma coef_mul_nil_l (n : nat) (Q : PauliwordOp) (p : row) :
  coef (mul_stack n [] Q) p = C0.
Proof. reflexivity. Qed.

Lemma coef_mul_nil_r (n : nat) (P : PauliwordOp) (p : row) :
  coef (mul_stack n P []) p = C0.
Proof.
  rewrite coef_mul_stack. simpl. apply sumC_map_zero.
Qed.

Lemma mul_app_l (n : nat) (P P' Q : PauliwordOp) :
  op_equiv (mul_stack n (P ++ P') Q) (mul_stack n P Q ++ mul_stack n P' Q).
Proof. intros p. now rewrite coef_mul_app_l, coef_app. Qed.

Lemma mul_app_r (n : nat) (P Q Q' : PauliwordOp) :
  op_equiv (mul_stack n P (Q ++ Q')) (mul_stack n P Q ++ mul_stack n P Q').
Proof. intros p. now rewrite coef_mul_app_r, coef_app. Qed.

Lemma mul_scale_l (n : nat) (c : C) (P Q : PauliwordOp) :
  op_equiv (mul_stack n (multiply_by_constant c P) Q)
           (multiply_by_constant c (mul_stack n P Q)).
Proof. intros p. now rewrite coef_mul_scale_l, coef_scale. Qed.

Lemma mul_scale_r (n : nat) (c : C) (P Q : PauliwordOp) :
  op_equiv (mul_stack n P (multiply_by_constant c Q))
           (multiply_by_constant c (mul_stack n P Q)).
Proof. intros p. now rewrite coef_mul_scale_r, coef_scale. Qed.

(** ** Well-formed operators *)

Lemma wf_op_app (n : nat) (P Q : PauliwordOp) :
  wf_op n P -> wf_op n Q -> wf_op n (P ++ Q).
Proof. unfold wf_op. intros. apply Forall_app. now split. Qed.

Lemma wf_op_scale (n : nat) (c : C) (P : PauliwordOp) :
  wf_op n P -> wf_op n (multiply_by_constant c P).
Proof.
  unfold wf_op, multiply_by_constant. intros H. apply Forall_map.
  eapply Forall_impl; [|exact H]. auto.
Qed.

Lemma wf_op_dagger (n : nat) (P : PauliwordOp) : wf_op n P -> wf_op n (dagger P).
Proof.
  unfold wf_op, dagger. intros H. apply Forall_map.
  eapply Forall_impl; [|exact H]. auto.
Qed.

Lemma wf_op_mul_stack (n : nat) (P Q : PauliwordOp) :
  wf_op n P -> wf_op n Q -> wf_op n (mul_stack n P Q).
Proof.
  unfold wf_op, mul_stack. intros HP HQ. rewrite Forall_forall in *.
  intros t Ht. apply in_flat_map in Ht. destruct Ht as [a [Ha Ht]].
  apply in_map_iff in Ht. destruct Ht as [b [<- Hb]].
  unfold mul_symplectic. cbn [fst]. apply wf_xor; auto.
Qed.

Lemma wf_identity (n : nat) : wf_row n (identity_row n).
Proof. unfold wf_row, identity_row. apply repeat_length. Qed.

(** ** Associativity and the unit *)

Lemma term_assoc (n : nat) (a b c : row) (ca cb cc : C) :
  wf_row n a -> wf_row n b -> wf_row n c ->
  mul_stack n (mul_stack n [(a, ca)] [(b, cb)]) [(c, cc)] =
  mul_stack n [(a, ca)] (mul_stack n [(b, cb)] [(c, cc)]).
Proof.
  intros Ha Hb Hc. unfold mul_stack, mul_symplectic. cbn [flat_map map app fst snd].
  rewrite xor_assoc. do 2 f_equal.
  transitivity ((Cipow (phase_exp n a b) * Cipow (phase_exp n (map2 xorb a b) c))
                * (ca * cb * cc))%C; [ring|].
  transitivity ((Cipow (phase_exp n b c) * Cipow (phase_exp n a (map2 xorb b c)))
                * (ca * cb * cc))%C; [|ring].
  f_equal. rewrite <- !Cipow_add. apply Cipow_mod. now apply phase_assoc.
Qed.

Lemma mul_assoc (n : nat) (P Q S : PauliwordOp) :
  wf_op n P -> wf_op n Q -> wf_op n S ->
  op_equiv (mul_stack n (mul_stack n P Q) S) (mul_stack n P (mul_stack n Q S)).
Proof.
  intros HP HQ HS p. unfold wf_op in *. rewrite Forall_forall in *.
  rewrite coef_mul_stack. unfold mul_stack at 1. rewrite sumC_flat_map.
  rewrite (coef_mul_stack n P). apply sumC_map_ext. intros [a ca] Ha.
  rewrite map_map. cbn [fst snd].
  unfold mul_stack. rewrite sumC_flat_map. apply sumC_map_ext. intros [b cb] Hb.
  rewrite map_map. apply sumC_map_ext. intros [c cc] Hc. cbn [fst snd].
  pose proof (term_assoc n a b c ca cb cc (HP _ Ha) (HQ _ Hb) (HS _ Hc)) as E.
  unfold mul_stack in E. cbn [flat_map map app fst snd] in E.
  now rewrite E.
Qed.

Definition I_op (n : nat) : PauliwordOp := [(identity_row n, C1)].

Lemma xor_identity_l (n : nat) (a : row) :
  wf_row n a -> map2 xorb (identity_row n) a = a.
Proof.
  unfold wf_row, identity_row. generalize (2 * n). intros m. revert a.
  induction m as [|m IH]; intros [|x a] H; simpl in *; try discriminate; auto.
  unfold map2 in *. simpl. f_equal. apply IH. lia.
Qed.

Lemma xor_identity_r (n : nat) (a : row) :
  wf_row n a -> map2 xorb a (identity_row n) = a.
Proof. intros H. rewrite xor_comm. now apply xor_identity_l. Qed.

Lemma xq_identity (n q : nat) : xq (identity_row n) q = false.
Proof.
  unfold xq, identity_row. destruct (Nat.lt_ge_cases q (2 * n)).
  - now apply nth_repeat_lt.
  - apply nth_overflow. now rewrite repeat_length.
Qed.

Lemma zq_identity (n q : nat) : zq n (identity_row n) q = false.
Proof.
  unfold zq, identity_row. destruct (Nat.lt_ge_cases (n + q) (2 * n)).
  - now apply nth_repeat_lt.
  - apply nth_overflow. now rewrite repeat_length.
Qed.

Lemma phase_identity_l (n : nat) (a : row) :
  wf_row n a -> phase_exp n (identity_row n) a mod 4 = 0.
Proof.
  intros Ha. rewrite (phase_exp_local n _ a (wf_identity n) Ha).
  transitivity (qsum n (fun _ => 0) mod 4).
  - apply qsum_mod; [discriminate|]. intros q Hq.
    rewrite xq_identity, zq_identity. unfold eps.
    destruct (xq a q), (zq n a q); reflexivity.
  - unfold qsum. induction (seq 0 n); simpl; auto.
Qed.

Lemma phase_identity_r (n : nat) (a : row) :
  wf_row n a -> phase_exp n a (identity_row n) mod 4 = 0.
Proof.
  intros Ha. rewrite (phase_exp_local n a _ Ha (wf_identity n)).
  transitivity (qsum n (fun _ => 0) mod 4).
  - apply qsum_mod; [discriminate|]. intros q Hq.
    rewrite xq_identity, zq_identity. unfold eps.
    destruct (xq a q), (zq n a q); reflexivity.
  - unfold qsum. induction (seq 0 n); simpl; auto.
Qed.

Lemma Cipow_0 (k : nat) : k mod 4 = 0 -> Cipow k = C1.
Proof. unfold Cipow. now intros ->. Qed.

Lemma mul_I_l (n : nat) (P : PauliwordOp) :
  wf_op n P -> op_equiv (mul_stack n (I_op n) P) P.
Proof.
  intros HP p. unfold I_op, mul_stack. cbn [flat_map fst snd].
  rewrite app_nil_r. induction HP as [|[a c] P Ha HP IH]; [reflexivity|].
  cbn [map]. unfold mul_symplectic at 1. cbn [fst snd].
  rewrite !coef_cons, IH.
  rewrite (xor_identity_l n a Ha), (Cipow_0 _ (phase_identity_l n a Ha)).
  destruct (row_eqb a p); ring.
Qed.

Lemma mul_I_r (n : nat) (P : PauliwordOp) :
  wf_op n P -> op_equiv (mul_stack n P (I_op n)) P.
Proof.
  intros HP p. unfold I_op, mul_stack. cbn [map fst snd].
  induction HP as [|[a c] P Ha HP IH]; [reflexivity|].
  cbn [flat_map app fst snd]. unfold mul_symplectic at 1. cbn [fst snd].
  rewrite !coef_cons, IH.
  rewrite (xor_identity_r n a Ha), (Cipow_0 _ (phase_identity_r n a Ha)).
  destruct (row_eqb a p); ring.
Qed.

End OpLaws.

(* ======================================================================== *)
(** * The algebra spanned by two anticommuting involutions *)
(* ======================================================================== *)

(** With [S S = 1], [H H = 1] and [S H = - H S], the operators
    [a 1 + b S + c H + d (H S)] are closed under product; both the
    sequence-of-rotations step (with [H] the partner term) and the LCU
    operator (with [H] the normalised rest of the clique) live there. *)
Module TwoInvolutions.
Import PwordFacts SympFacts ListFacts OpAlgebra Conjugation OpLaws.

Record Q4 : Type := mkQ4 { qI : C; qS : C; qH : C; qK : C }.

Definition qmul (x y : Q4) : Q4 :=
  mkQ4 (qI x * qI y + qS x * qS y + qH x * qH y - qK x * qK y)%C
       (qI x * qS y + qS x * qI y + qH x * qK y - qK x * qH y)%C
       (qI x * qH y + qH x * qI y - qS x * qK y + qK x * qS y)%C
       (qI x * qK y + qK x * qI y - qS x * qH y + qH x * qS y)%C.

Definition qdag (x : Q4) : Q4 :=
  mkQ4 (Cconj (qI x)) (Cconj (qS x)) (Cconj (qH x)) (- Cconj (qK x))%C.

Section Span.

Variable n : nat.
Variables S H : PauliwordOp.
Hypothesis wfS : wf_op n S.
Hypothesis wfH : wf_op n H.
Hypothesis SS : op_equiv (mul_stack n S S) (I_op n).
Hypothesis HH : op_equiv (mul_stack n H H) (I_op n).
Hypothesis SH : op_equiv (mul_stack n S H)
                         (multiply_by_constant (- C1)%C (mul_stack n H S)).

Definition K : PauliwordOp := mul_stack n H S.

Definition den (x : Q4) : PauliwordOp :=
  multiply_by_constant (qI x) (I_op n) ++ multiply_by_constant (qS x) S
  ++ multiply_by_constant (qH x) H ++ multiply_by_constant (qK x) K.

Lemma wfI : wf_op n (I_op n).
Proof. repeat constructor. apply wf_identity. Qed.

Lemma wfK : wf_op n K.
Proof. now apply wf_op_mul_stack. Qed.

Lemma wf_den (x : Q4) : wf_op n (den x).
Proof.
  unfold den. repeat apply wf_op_app; apply wf_op_scale;
    auto using wfI, wfK.
Qed.

Lemma coef_den (x : Q4) (p : row) :
  coef (den x) p =
  (qI x * coef (I_op n) p + qS x * coef S p + qH x * coef H p + qK x * coef K p)%C.
Proof. unfold den. rewrite !coef_app, !coef_scale. ring. Qed.

(** The multiplication table. *)
Lemma KS : op_equiv (mul_stack n K S) H.
Proof.
  unfold K. rewrite mul_assoc by assumption. rewrite SS. now apply mul_I_r.
Qed.

Lemma SK : op_equiv (mul_stack n S K) (multiply_by_constant (- C1)%C H).
Proof.
  unfold K. rewrite <- mul_assoc by assumption. rewrite SH, mul_scale_l.
  fold K. now rewrite KS.
Qed.

Lemma HK : op_equiv (mul_stack n H K) S.
Proof.
  unfold K. rewrite <- mul_assoc by assumption. rewrite HH. now apply mul_I_l.
Qed.

Lemma KH : op_equiv (mul_stack n K H) (multiply_by_constant (- C1)%C S).
Proof.
  unfold K. rewrite mul_assoc by assumption. rewrite SH, mul_scale_r.
  fold K. now rewrite HK.
Qed.

Lemma KK : op_equiv (mul_stack n K K) (multiply_by_constant (- C1)%C (I_op n)).
Proof.
  unfold K at 1. rewrite mul_assoc by (auto using wfK).
  rewrite SK, mul_scale_r. now rewrite HH.
Qed.

Lemma den_mul (x y : Q4) :
  op_equiv (mul_stack n (den x) (den y)) (den (qmul x y)).
Proof.
  intros p. rewrite coef_den. unfold den.
  rewrite !coef_mul_app_l, !coef_mul_scale_l, !coef_mul_app_r, !coef_mul_scale_r.
  rewrite (mul_I_l n (I_op n) wfI p), (mul_I_l n S wfS p), (mul_I_l n H wfH p),
    (mul_I_l n K wfK p), (mul_I_r n S wfS p), (mul_I_r n H wfH p),
    (mul_I_r n K wfK p).
  rewrite (SS p), (HH p), (SH p), (KS p), (SK p), (HK p), (KH p), (KK p).
  fold K. rewrite !coef_scale. simpl qI. simpl qS. simpl qH. simpl qK. ring.
Qed.

(** The adjoint, when [S] and [H] are self-adjoint as lists of terms and the
    coefficients of [H S] are imaginary. *)
Hypothesis dS : op_equiv (dagger S) S.
Hypothesis dH : op_equiv (dagger H) H.
Hypothesis dK : op_equiv (dagger K) (multiply_by_constant (- C1)%C K).

Lemma den_dagger (x : Q4) : op_equiv (dagger (den x)) (den (qdag x)).
Proof.
  intros p. rewrite coef_dagger, !coef_den.
  pose proof (dS p) as E1. pose proof (dH p) as E2. pose proof (dK p) as E3.
  rewrite coef_dagger in E1, E2, E3. rewrite coef_scale in E3.
  assert (E0 : Cconj (coef (I_op n) p) = coef (I_op n) p).
  { unfold I_op. simpl. destruct (row_eqb _ _); csimp. }
  simpl qI. simpl qS. simpl qH. simpl qK.
  rewrite <- E0 at 2. rewrite <- E1 at 2. rewrite <- E2 at 2.
  transitivity (Cconj (qI x) * Cconj (coef (I_op n) p)
                + Cconj (qS x) * Cconj (coef S p)
                + Cconj (qH x) * Cconj (coef H p)
                + Cconj (qK x) * Cconj (coef K p))%C.
  - csimp.
  - rewrite E3. ring.
Qed.

(** Conjugation inside the span. *)
Lemma den_conjugate (r a : Q4) :
  op_equiv (mul_stack n (mul_stack n (den r) (den a)) (dagger (den r)))
           (den (qmul (qmul r a) (qdag r))).
Proof. now rewrite den_dagger, !den_mul. Qed.

End Span.

End TwoInvolutions.

(* ======================================================================== *)
(** * NoncontextualOp: the energy *)
(* ======================================================================== *)

Module Energy.
Import NC PwordFacts ListFacts.
Local Open Scope R_scope.

(** ** Vectorised numpy expressions, entry by entry *)

Lemma select_as_filter {A} (d : A) (mask : list bool) (l : list A) :
  length mask = length l ->
  select mask l =
  map (fun t => nth t l d) (filter (fun t => nth t mask false) (seq 0 (length l))).
Proof.
  revert l. induction mask as [|b mask IH]; intros [|x l] Hlen; simpl in *;
    try discriminate; auto.
  injection Hlen as Hlen. rewrite filter_seq_shift.
  destruct b; simpl; rewrite map_map; simpl; rewrite (IH l Hlen); reflexivity.
Qed.

Lemma Re_sumC (l : list C) : Re (sumC l) = AC.sumR (map Re l).
Proof. induction l as [|c l IH]; simpl; [reflexivity | now rewrite IH]. Qed.

Lemma no_nonzero_all_zero (r : list Z) :
  negb (existsb nonzeroZ r) = forallb (Z.eqb 0) r.
Proof.
  induction r as [|z r IH]; simpl; auto.
  rewrite negb_orb, IH. unfold nonzeroZ. rewrite negb_involutive.
  now rewrite Z.eqb_sym.
Qed.

(** ** The shape of a constructed operator *)

(** What [noncontextual_reconstruction] establishes when the reconstruction
    matrix has one row per term. *)
Record well_shaped (self : NoncontextualOp) : Prop := {
  ws_signs : length (pauli_mult_signs self) = n_terms (terms self);
  ws_G : length (G_indices self) = n_terms (terms self);
  ws_C : length (C_indices self) = n_terms (terms self);
  ws_S0 : mask_S0 self = map (fun r => negb (existsb nonzeroZ r)) (C_indices self);
  ws_Ci : mask_Ci self =
          map (fun i => map (fun r => nonzeroZ (nth i r 0%Z)) (C_indices self))
              (seq 0 (n_terms (clique_operator self)))
}.

Section Constructed.

Variable is_noncontextual : PauliwordOp -> bool.
Variable find_symmetry_generators : PauliwordOp -> PauliwordOp.
Variable generator_reconstruction :
  PauliwordOp -> PauliwordOp -> list (list Z) * list bool.
Variable jordan_generator_reconstruction :
  PauliwordOp -> PauliwordOp -> list (list Z) * list bool.
Variable clique_cover : PauliwordOp -> list PauliwordOp.
Variable sort : PauliwordOp -> PauliwordOp.

(** The contract of the reconstruction (§3): the matrix has one row for each
    term of the operator reconstructed. *)
Hypothesis jordan_rows :
  forall P G, length (fst (jordan_generator_reconstruction P G)) = n_terms P.

Let construct :=
  init is_noncontextual find_symmetry_generators generator_reconstruction
       jordan_generator_reconstruction clique_cover sort.

Lemma constructed_well_shaped (n : nat) (H : PauliwordOp) (self : NoncontextualOp) :
  construct n H = inl self -> well_shaped self.
Proof.
  unfold construct, init.
  destruct (is_noncontextual H); [|discriminate]. simpl.
  destruct (noncontextual_generators _ _ _ _ n H) as [[[[gens dec] M] cliq]|];
    [|discriminate].
  unfold noncontextual_reconstruction.
  pose proof (jordan_rows H
    (map (fun r => (r, C1)) (symp_matrix gens ++ symp_matrix cliq))) as Hrows.
  destruct (jordan_generator_reconstruction H _) as [matrix successful].
  simpl in Hrows.
  destruct (negb (forallb (fun b => b) successful)); [discriminate|].
  intros E. injection E as <-.
  constructor; simpl; rewrite ?length_map; auto.
Qed.

End Constructed.

(** ** The vectorised energy is the energy of the specification *)

Section Refinement.

Variable self : NoncontextualOp.
Hypothesis shaped : well_shaped self.
Variable nu : list R.

Let N := n_terms (terms self).

Lemma flip_count_is_m (t : nat) :
  (t < N)%nat -> nth t (flip_counts (G_indices self) nu) 0%nat = Spec.m self nu t.
Proof.
  intros Ht. unfold flip_counts, Spec.m.
  assert (HG : (t < length (G_indices self))%nat) by now rewrite (ws_G _ shaped).
  rewrite (nth_indep _ 0%nat
             (count_true (map2 andb (map (Z.eqb 1) [])
                            (map (fun x => Req_bool x (-1)) nu))))
    by now rewrite length_map.
  rewrite (map_nth (fun g => count_true (map2 andb (map (Z.eqb 1) g) _))).
  rewrite count_true_map2_and, length_map.
  f_equal. apply filter_ext_in. intros g Hg. apply in_seq in Hg.
  f_equal.
  - change false with (Z.eqb 1 0). rewrite map_nth. apply Z.eqb_sym.
  - rewrite (nth_indep _ false (Req_bool 0 (-1))) by (rewrite length_map; lia).
    now rewrite (map_nth (fun x => Req_bool x (-1))).
Qed.

Lemma length_coeff_mod : length (coeff_mod self nu) = N.
Proof.
  unfold coeff_mod, flip_counts, coeff_vec.
  rewrite !length_map2, !length_map, (ws_signs _ shaped), (ws_G _ shaped).
  fold N. unfold n_terms in N. subst N. lia.
Qed.

Lemma coeff_mod_nth (t : nat) :
  (t < N)%nat -> nth t (coeff_mod self nu) C0 = Spec.coeff_mod self nu t.
Proof.
  intros Ht. unfold coeff_mod, Spec.coeff_mod.
  assert (Hc : length (coeff_vec (terms self)) = N)
    by (unfold coeff_vec; now rewrite length_map).
  rewrite (nth_map2 _ C0 C0).
  - rewrite (nth_map2 _ C0 0); [| lia | rewrite (ws_signs _ shaped); exact Ht].
    f_equal.
    rewrite (nth_indep _ C0 (Csign 0))
      by (unfold flip_counts; rewrite !length_map, (ws_G _ shaped); exact Ht).
    rewrite map_nth. now rewrite flip_count_is_m.
  - rewrite length_map2, Hc, (ws_signs _ shaped). fold N. lia.
  - unfold flip_counts. rewrite !length_map, (ws_G _ shaped). exact Ht.
Qed.

Lemma masked_sum (mask : list bool) (keep : nat -> bool) :
  length mask = N ->
  (forall t, (t < N)%nat -> nth t mask false = keep t) ->
  Re (sumC (select mask (coeff_mod self nu))) = Spec.sum_over self nu keep.
Proof.
  intros Hlen Hkeep. unfold Spec.sum_over. fold N.
  rewrite Re_sumC, (select_as_filter C0), length_coeff_mod
    by (now rewrite length_coeff_mod).
  rewrite map_map. f_equal.
  rewrite (filter_ext_in _ keep).
  - apply map_ext_in. intros t Ht. apply filter_In in Ht. destruct Ht as [Ht _].
    apply in_seq in Ht. f_equal. apply coeff_mod_nth. lia.
  - intros t Ht. apply in_seq in Ht. apply Hkeep. lia.
Qed.

Lemma s0_refines :
  fst (get_symmetry_contributions self nu) = Spec.s0 self nu.
Proof.
  simpl. apply masked_sum.
  - rewrite (ws_S0 _ shaped), length_map. apply (ws_C _ shaped).
  - intros t Ht. rewrite (ws_S0 _ shaped). unfold Spec.row_all_zero.
    rewrite (nth_indep _ false (negb (existsb nonzeroZ [])))
      by (rewrite length_map, (ws_C _ shaped); exact Ht).
    rewrite (map_nth (fun r => negb (existsb nonzeroZ r))).
    apply no_nonzero_all_zero.
Qed.

Lemma si_refines :
  snd (get_symmetry_contributions self nu) =
  map (Spec.s self nu) (seq 0 (n_terms (clique_operator self))).
Proof.
  simpl. rewrite (ws_Ci _ shaped), map_map. apply map_ext. intros i.
  apply masked_sum.
  - rewrite length_map. apply (ws_C _ shaped).
  - intros t Ht. unfold Spec.row_selects.
    rewrite (nth_indep _ false (nonzeroZ (nth i [] 0%Z)))
      by (rewrite length_map, (ws_C _ shaped); exact Ht).
    now rewrite (map_nth (fun r => nonzeroZ (nth i r 0%Z))).
Qed.

Lemma energy_refines : get_energy self nu = Spec.energy self nu.
Proof.
  unfold get_energy, Spec.energy.
  pose proof s0_refines as H0. pose proof si_refines as Hi.
  destruct (get_symmetry_contributions self nu) as [s0 si]. simpl in *.
  subst. unfold normR. now rewrite map_map.
Qed.

End Refinement.

End Energy.

(* ======================================================================== *)
(** * NoncontextualSolver *)
(* ======================================================================== *)

Module SolverFacts.
Import Solver ListFacts.
Local Open Scope R_scope.

(** An entry of an eigenvalue assignment is [-1] or [+1]. *)
Definition pm1 (x : R) : Prop := x = -1 \/ x = 1.

(** ** Filling in and reading back through the mask *)

Lemma select_fill (mask : list bool) (fixed free : list R) :
  count_true mask = length fixed ->
  NC.select mask (fill mask fixed free) = fixed.
Proof.
  revert fixed free. induction mask as [|b mask IH]; intros fixed free H.
  - destruct fixed; [reflexivity | discriminate].
  - rewrite count_true_cons in H. destruct b; simpl.
    + destruct fixed as [|x fixed]; simpl in *; [lia|].
      f_equal. apply IH. lia.
    + destruct free; simpl; apply IH; exact H.
Qed.

Lemma fill_select (mask : list bool) (nu : list R) :
  length nu = length mask ->
  fill mask (NC.select mask nu) (NC.select (map negb mask) nu) = nu.
Proof.
  revert nu. induction mask as [|b mask IH]; intros [|x nu] H; simpl in *;
    try discriminate; auto.
  injection H as H. destruct b; simpl; f_equal; now apply IH.
Qed.

Lemma length_select_neg (mask : list bool) (nu : list R) :
  length nu = length mask ->
  length (NC.select (map negb mask) nu) = count_true (map negb mask).
Proof.
  revert nu. induction mask as [|b mask IH]; intros [|x nu] H; simpl in *;
    try discriminate; auto.
  injection H as H. rewrite count_true_cons.
  destruct b; simpl; rewrite (IH nu H); reflexivity.
Qed.

Lemma select_all (mask : list bool) (nu : list R) :
  forallb (fun b => b) mask = true -> length nu = length mask ->
  NC.select mask nu = nu.
Proof.
  revert nu. induction mask as [|b mask IH]; intros [|x nu] Hall H; simpl in *;
    try discriminate; auto.
  injection H as H. apply andb_prop in Hall. destruct Hall as [-> Hall].
  f_equal. now apply IH.
Qed.

Lemma Forall_select {A} (P : A -> Prop) (mask : list bool) (l : list A) :
  Forall P l -> Forall P (NC.select mask l).
Proof.
  revert l. induction mask as [|b mask IH]; intros [|x l] H; simpl; auto.
  inversion H; subst. destruct b; auto.
Qed.

(** ** The enumeration is complete *)

Lemma product_complete (l : list R) :
  Forall pm1 l -> In l (product (length l)).
Proof.
  induction 1 as [|x l Hx _ IH]; simpl.
  - now left.
  - rewrite app_nil_r. apply in_or_app.
    destruct Hx as [-> | ->]; [left | right]; now apply in_map.
Qed.

(** ** The first of the smallest *)

Lemma min_by_fst_spec {A} (l : list (R * A)) (best : R * A) :
  In (min_by_fst best l) (best :: l) /\
  forall y, In y (best :: l) -> fst (min_by_fst best l) <= fst y.
Proof.
  revert best. induction l as [|x l IH]; intros best; simpl.
  - split; [now left|]. intros y [<- | []]. lra.
  - unfold AC.Rltb. destruct (Rlt_dec (fst x) (fst best)) as [Hlt | Hge].
    + destruct (IH x) as [Hin Hmin]. split.
      * destruct Hin as [Hin | Hin]; [right; left | right; right]; assumption.
      * intros y [<- | [<- | Hy]].
        -- specialize (Hmin x (or_introl eq_refl)). lra.
        -- apply Hmin. now left.
        -- apply Hmin. now right.
    + destruct (IH best) as [Hin Hmin]. split.
      * destruct Hin as [Hin | Hin]; [left | right; right]; assumption.
      * intros y [<- | [<- | Hy]].
        -- apply Hmin. now left.
        -- specialize (Hmin best (or_introl eq_refl)). lra.
        -- apply Hmin. now right.
Qed.

Lemma in_combine_map {A} (f : A -> R) (l : list A) (e : R) (x : A) :
  In (e, x) (combine (map f l) l) <-> In x l /\ e = f x.
Proof.
  induction l as [|y l IH]; simpl.
  - tauto.
  - rewrite IH. split.
    + intros [E | [H1 H2]]; [injection E as <- <-; auto | auto].
    + intros [[-> | H1] ->]; auto.
Qed.

(** ** What the brute-force search enumerates *)

Lemma nu_list_fixed (self : NoncontextualSolver) (nu : list R) :
  count_true (fixed_ev_mask self) = length (fixed_eigvals self) ->
  In nu (nu_list self) ->
  NC.select (fixed_ev_mask self) nu = fixed_eigvals self.
Proof.
  intros Hinv. unfold nu_list.
  destruct (forallb (fun b => b) (fixed_ev_mask self)) eqn:Hall.
  - intros [<- | []]. apply select_all; [exact Hall|].
    rewrite <- Hinv. clear Hinv. induction (fixed_ev_mask self) as [|b m IH]; auto.
    simpl in Hall. apply andb_prop in Hall. destruct Hall as [-> Hall].
    rewrite count_true_cons. simpl. f_equal. now apply IH.
  - intros Hin. apply in_map_iff in Hin. destruct Hin as [free [<- _]].
    now apply select_fill.
Qed.

Lemma nu_list_complete (self : NoncontextualSolver) (nu : list R) :
  length nu = length (fixed_ev_mask self) ->
  Forall pm1 nu ->
  NC.select (fixed_ev_mask self) nu = fixed_eigvals self ->
  In nu (nu_list self).
Proof.
  intros Hlen Hpm Hfix. unfold nu_list.
  destruct (forallb (fun b => b) (fixed_ev_mask self)) eqn:Hall.
  - left. rewrite <- Hfix. now apply select_all.
  - apply in_map_iff. exists (NC.select (map negb (fixed_ev_mask self)) nu). split.
    + rewrite <- Hfix. now apply fill_select.
    + rewrite <- (length_select_neg _ _ Hlen). apply product_complete.
      now apply Forall_select.
Qed.

Lemma nu_list_nonempty (self : NoncontextualSolver) : nu_list self <> [].
Proof.
  unfold nu_list. destruct (forallb _ _); [discriminate|].
  generalize (count_true (map negb (fixed_ev_mask self))). intros k.
  assert (H : product k <> []).
  { induction k as [|k IH]; simpl; [discriminate|].
    destruct (product k); [contradiction | discriminate]. }
  destruct (product k); [contradiction | discriminate].
Qed.

Lemma brute_force_minimum (self : NoncontextualSolver) :
  count_true (fixed_ev_mask self) = length (fixed_eigvals self) ->
  exists energy nu,
    energy_via_brute_force self = Some (energy, nu) /\
    NC.select (fixed_ev_mask self) nu = fixed_eigvals self /\
    energy = NC.get_energy (NC_op self) nu /\
    forall nu',
      length nu' = length (fixed_ev_mask self) ->
      Forall pm1 nu' ->
      NC.select (fixed_ev_mask self) nu' = fixed_eigvals self ->
      energy <= NC.get_energy (NC_op self) nu'.
Proof.
  intros Hinv. unfold energy_via_brute_force.
  pose proof (nu_list_nonempty self) as Hne.
  pose proof (fun e x => in_combine_map (NC.get_energy (NC_op self)) (nu_list self) e x)
    as Hcomb.
  destruct (combine (map (NC.get_energy (NC_op self)) (nu_list self)) (nu_list self))
    as [|x l] eqn:E.
  - destruct (nu_list self); [contradiction | discriminate].
  - destruct (min_by_fst_spec l x) as [Hin Hmin].
    destruct (min_by_fst x l) as [energy nu] eqn:Em.
    exists energy, nu. apply Hcomb in Hin. destruct Hin as [Hin ->].
    repeat split; auto.
    + now apply nu_list_fixed.
    + intros nu' Hlen Hpm Hfix.
      apply (Hmin (NC.get_energy (NC_op self) nu', nu')).
      apply Hcomb. split; [|reflexivity]. now apply nu_list_complete.
Qed.

(** ** The relaxation *)

Lemma cos_cos_pos (x : R) : 0 < cos (cos x).
Proof.
  pose proof (COS_bound x) as [Hlo Hhi]. pose proof PI2_1 as Hpi.
  apply cos_gt_0; lra.
Qed.

Lemma sign_cos_cos (x : R) : sign (cos (cos x)) = 1.
Proof.
  pose proof (cos_cos_pos x) as H. unfold sign, AC.Rltb.
  destruct (Rlt_dec (cos (cos x)) 0); [lra|].
  destruct (Rlt_dec 0 (cos (cos x))); [reflexivity | lra].
Qed.

Lemma sign_1 : sign 1 = 1.
Proof. unfold sign, AC.Rltb. destruct (Rlt_dec 1 0), (Rlt_dec 0 1); lra. Qed.

Lemma sign_cos_PI : sign (cos PI) = -1.
Proof.
  rewrite cos_PI. unfold sign, AC.Rltb. destruct (Rlt_dec (-1) 0); lra.
Qed.

Lemma map_sign_fill (mask : list bool) (fixed free : list R) :
  map sign (fill mask fixed free) = fill mask (map sign fixed) (map sign free).
Proof.
  revert fixed free. induction mask as [|b mask IH]; intros fixed free; simpl; auto.
  destruct b.
  - destruct fixed; simpl; rewrite IH, ?sign_1; reflexivity.
  - destruct free; simpl; rewrite IH, ?sign_1; reflexivity.
Qed.

(** Whatever the optimizer returns, the entries of the rounded vector at the
    free positions are all [+1]: the cosine is taken twice before the sign. *)
Lemma relaxation_free_entries
    (shgo : (list R -> R) -> list (R * R) -> list R * R)
    (self : NoncontextualSolver) :
  exists angles : list R,
    snd (energy_via_relaxation shgo self) =
    fill (fixed_ev_mask self) (map sign (fixed_eigvals self))
         (map (fun _ : R => 1) angles).
Proof.
  unfold energy_via_relaxation, get_nu. simpl.
  match goal with |- context [shgo ?f ?b] => exists (fst (shgo f b)) end.
  rewrite map_sign_fill, !map_map. f_equal.
  apply map_ext. intros x. apply sign_cos_cos.
Qed.

(** The operator [{Z: 1}] on one qubit: a single term, which is its own
    symmetry generator; nothing is fixed.  Its energy is [-1] at [nu = -1]
    and [+1] elsewhere, so that the angle [pi] is the minimum of the relaxed
    objective on [[0, pi]]. *)
Definition Zrow : row := [false; true].
Definition NC_Z : NC.NoncontextualOp :=
  NC.mkNC 1 [(Zrow, RtoC 1)] [(Zrow, RtoC 1)] [(NC.Symmetry, [(Zrow, RtoC 1)])]
          0 [] [[1%Z]] [[]] [true] [] [1].
Definition solver_Z : NoncontextualSolver := mkSolver NC_Z [false] [].

Definition shgo_at (x : list R) (f : list R -> R) (bounds : list (R * R))
  : list R * R := (x, f x).

Lemma relaxation_at_pi :
  energy_via_relaxation (shgo_at [PI]) solver_Z = (-1, [1]) /\
  map (fun theta => sign (cos theta)) [PI] = [-1] /\
  NC.get_energy NC_Z [-1] = -1 /\ NC.get_energy NC_Z [1] = 1.
Proof.
  assert (E1 : NC.Req_bool (-1) (-1) = true).
  { unfold NC.Req_bool. destruct (Req_dec_T (-1) (-1)); congruence. }
  assert (E2 : NC.Req_bool 1 (-1) = false).
  { unfold NC.Req_bool. destruct (Req_dec_T 1 (-1)); [lra | reflexivity]. }
  assert (Hm : NC.get_energy NC_Z [-1] = -1).
  { unfold NC.get_energy, NC.get_symmetry_contributions, NC.coeff_mod, NC.flip_counts,
      NC.normR. cbn -[NC.Req_bool sqrt]. rewrite E1. cbn. rewrite sqrt_0. lra. }
  assert (Hp : NC.get_energy NC_Z [1] = 1).
  { unfold NC.get_energy, NC.get_symmetry_contributions, NC.coeff_mod, NC.flip_counts,
      NC.normR. cbn -[NC.Req_bool sqrt]. rewrite E2. cbn. rewrite sqrt_0. lra. }
  repeat split; auto.
  - unfold energy_via_relaxation, shgo_at, get_nu. cbn -[NC.get_energy cos sign PI].
    rewrite sign_cos_cos, cos_PI, Hm. reflexivity.
  - simpl. now rewrite sign_cos_PI.
Qed.

Lemma count_true_repeat_false (k : nat) : count_true (repeat false k) = 0%nat.
Proof. induction k as [|k IH]; simpl; auto. Qed.

Lemma init_invariant (nc : NC.NoncontextualOp) (fixed : option (list bool * list R))
    (self : NoncontextualSolver) :
  init nc fixed = Some self ->
  NC_op self = nc /\
  count_true (fixed_ev_mask self) = length (fixed_eigvals self).
Proof.
  unfold init. destruct fixed as [[mask eigvals]|].
  - destruct (Nat.eqb_spec (count_true mask) (length eigvals)) as [E|]; [|discriminate].
    intros H. injection H as <-. simpl. auto.
  - intros H. injection H as <-. simpl. split; [reflexivity|].
    apply count_true_repeat_false.
Qed.

End SolverFacts.

(* ======================================================================== *)
(** * AntiCommutingOp: the sequence of rotations *)
(* ======================================================================== *)

Module SeqRot.
Import AC PwordFacts.
Local Open Scope R_scope.

(** ** The recipe as the specification words it (§4.8) *)

(** [theta = arctan(beta_k / beta_s)], adding [pi] if [beta_s] is negative.
    At the boundary [beta_s = 0] (§7) the quotient of a nonzero [beta_k] is
    an infinity, and its arctangent is [pi/2] with the sign of [beta_k]. *)
Definition theta_spec (beta_s beta_k : R) : R :=
  if Req_dec_T beta_s 0 then (if Rltb beta_k 0 then - (PI / 2) else PI / 2)
  else if Rltb beta_s 0 then atan (beta_k / beta_s) + PI
  else atan (beta_k / beta_s).

(** The generator [X = -i P_s P_k] as one weighted term. *)
Definition generator_spec (n : nat) (P_s P_k : row) : row * C :=
  mul_symplectic n P_s C1 P_k (- Ci)%C.

(** The pair recorded: the sign of the generator is flipped and the angle
    negated when the coefficient of the generator has negative real part. *)
Definition rotation_spec (n : nat) (P_s : row) (beta_s : R) (P_k : row) (beta_k : R)
  : PauliwordOp * R :=
  let X := generator_spec n P_s P_k in
  if Rltb (Re (snd X)) 0
  then ([(fst X, (- C1 * snd X)%C)], - theta_spec beta_s beta_k)
  else ([X], theta_spec beta_s beta_k).

(** The steps of the recursion on [beta_s P_s + sum_k beta_k P_k]: at each
    step the running [beta_s] and the partner, after which
    [beta_s <- sqrt (beta_s^2 + beta_k^2)] and the partner is dropped. *)
Fixpoint steps_spec (beta_s : R) (rest : list (row * R)) : list (R * (row * R)) :=
  match rest with
  | [] => []
  | (P_k, beta_k) :: rest' =>
      (beta_s, (P_k, beta_k)) :: steps_spec (sqrt (beta_s ^ 2 + beta_k ^ 2)) rest'
  end.

Definition rotations_spec (n : nat) (P_s : row) (beta_s : R) (rest : list (row * R))
  : list (PauliwordOp * R) :=
  map (fun st => rotation_spec n P_s (fst st) (fst (snd st)) (snd (snd st)))
      (steps_spec beta_s rest).

Fixpoint final_beta (beta_s : R) (rest : list (row * R)) : R :=
  match rest with
  | [] => beta_s
  | (_, beta_k) :: rest' => final_beta (sqrt (beta_s ^ 2 + beta_k ^ 2)) rest'
  end.

(** The partner's coefficient after the rotation. *)
Definition partner_after (beta_s beta_k : R) : R :=
  beta_k * cos (theta_spec beta_s beta_k) - beta_s * sin (theta_spec beta_s beta_k).

Definition real_parts (P : PauliwordOp) : list (row * R) :=
  map (fun t => (fst t, Re (snd t))) P.

(** The quotient of a step is a number or an infinity, not [0/0]. *)
Definition not_both_zero (beta_s beta_k : R) : Prop :=
  beta_s <> 0 \/ beta_k <> 0.

(** The recursion can start on [beta_s] and its partners: the first
    quotient is not [0/0]. *)
Definition startable (beta_s : R) (rest : list (row * R)) : Prop :=
  match rest with
  | [] => True
  | (_, beta_k) :: _ => not_both_zero beta_s beta_k
  end.

(** ** One step *)

Lemma sqrt_1_sqr_pos (x : R) : 0 < sqrt (1 + x²).
Proof. apply sqrt_lt_R0. pose proof (Rle_0_sqr x). lra. Qed.

Lemma theta_boundary (beta_k : R) :
  cos (theta_spec 0 beta_k) = 0 /\
  sin (theta_spec 0 beta_k) = if Rltb beta_k 0 then -1 else 1.
Proof.
  unfold theta_spec. destruct (Req_dec_T 0 0) as [_ | N]; [|contradiction].
  destruct (Rltb beta_k 0).
  - rewrite cos_neg, sin_neg, cos_PI2, sin_PI2. split; reflexivity.
  - rewrite cos_PI2, sin_PI2. split; reflexivity.
Qed.

Lemma partner_zeroed (beta_s beta_k : R) :
  not_both_zero beta_s beta_k -> partner_after beta_s beta_k = 0.
Proof.
  intros Hsk. unfold partner_after.
  destruct (Req_dec_T beta_s 0) as [-> | Hs].
  { destruct (theta_boundary beta_k) as [-> _]. ring. }
  unfold theta_spec. destruct (Req_dec_T beta_s 0) as [E | _]; [contradiction|].
  pose proof (sqrt_1_sqr_pos (beta_k / beta_s)) as Hpos.
  destruct (Rltb beta_s 0).
  - rewrite neg_cos, neg_sin, cos_atan, sin_atan. field. split; lra.
  - rewrite cos_atan, sin_atan. field. split; lra.
Qed.

Lemma step_grows (beta_s beta_k : R) :
  not_both_zero beta_s beta_k -> 0 < sqrt (beta_s ^ 2 + beta_k ^ 2).
Proof.
  intros [H | H]; apply sqrt_lt_R0.
  - assert (0 < beta_s ^ 2) by (apply pow_lt_0_compat_l || nra).
    pose proof (pow2_ge_0 beta_k). lra.
  - assert (0 < beta_k ^ 2) by (apply pow_lt_0_compat_l || nra).
    pose proof (pow2_ge_0 beta_s). lra.
Qed.

Lemma isclose0_0 : isclose0 0 = true.
Proof.
  unfold isclose0. rewrite Rabs_R0.
  destruct (Rle_dec 0 (/ 100000000)) as [|H]; [reflexivity|].
  exfalso. apply H. left. apply Rinv_0_lt_compat. lra.
Qed.

Lemma Cipow_nonzero (k : nat) : Cipow k <> C0.
Proof.
  unfold Cipow. destruct (Nat.modulo k 4) as [|[|[|m]]]; intros E;
    injection E; intros; lra.
Qed.

Lemma Cmul_nonzero (a b : C) : a <> C0 -> b <> C0 -> (a * b)%C <> C0.
Proof.
  destruct a as [ar ai], b as [br bi]. intros Ha Hb E.
  injection E as E1 E2. simpl in *.
  assert (Hn : (ar² + ai²) * (br² + bi²) = 0) by (unfold Rsqr; nra).
  apply Rmult_integral in Hn. destruct Hn as [Hn | Hn];
    apply Rplus_sqr_eq_0 in Hn; destruct Hn as [-> ->].
  - now apply Ha.
  - now apply Hb.
Qed.

Lemma cleanup_single (x : row) (c : C) : c <> C0 -> cleanup [(x, c)] = [(x, c)].
Proof.
  intros Hc. unfold cleanup, merge_terms. simpl.
  apply Cnonzero_true in Hc. now rewrite Hc.
Qed.

Lemma generator_single (n : nat) (P_s P_k : row) :
  mul n [(P_s, C1)] [(P_k, (- Ci)%C)] = [generator_spec n P_s P_k].
Proof.
  unfold mul, mul_stack, generator_spec. simpl.
  apply cleanup_single. repeat apply Cmul_nonzero.
  - apply Cipow_nonzero.
  - intros E. injection E. lra.
  - intros E. injection E. intros. lra.
Qed.

(** The angle computed in a step is the angle of the recipe. *)
Lemma angle_computed (beta_s beta_k : R) :
  not_both_zero beta_s beta_k ->
  option_map (fun theta => if Rltb beta_s 0 then theta + PI else theta)
             (arctan_quotient beta_k beta_s)
  = Some (theta_spec beta_s beta_k).
Proof.
  intros Hsk. unfold arctan_quotient, theta_spec.
  destruct (Req_dec_T beta_s 0) as [Es | Hs].
  - destruct (Req_dec_T beta_k 0) as [Ek | Hk].
    + destruct Hsk; contradiction.
    + subst beta_s. cbn [option_map]. unfold Rltb at 1.
      destruct (Rlt_dec 0 0) as [N | _]; [lra | reflexivity].
  - reflexivity.
Qed.

Lemma seq_rot_step_ok (n : nat) (s k : row * C) :
  not_both_zero (Re (snd s)) (Re (snd k)) ->
  seq_rot_step n s k =
  Ok (rotation_spec n (fst s) (Re (snd s)) (fst k) (Re (snd k)),
      (fst s, RtoC (sqrt (Re (snd s) ^ 2 + Re (snd k) ^ 2)))).
Proof.
  intros Hsk. unfold seq_rot_step.
  pose proof (angle_computed _ _ Hsk) as Hang.
  destruct (arctan_quotient (Re (snd k)) (Re (snd s))) as [theta0|];
    [|discriminate].
  cbn [option_map] in Hang. injection Hang as Hang. rewrite Hang.
  fold (partner_after (Re (snd s)) (Re (snd k))).
  rewrite (partner_zeroed _ _ Hsk), isclose0_0. simpl negb. cbv iota.
  rewrite generator_single. unfold rotation_spec.
  destruct (generator_spec n (fst s) (fst k)) as [x c]. simpl.
  destruct (Rltb (Re c) 0); repeat f_equal. ring.
Qed.


(** ** The recursion *)

Lemma startable_nonzero (beta_s : R) (rest : list (row * R)) :
  beta_s <> 0 -> startable beta_s rest.
Proof. intros H. destruct rest as [|[Pk bk] rest]; simpl; [exact I | now left]. Qed.

Lemma seq_rot_from_ok (n : nat) (rest : PauliwordOp) :
  forall (s : row * C) (rots : list (PauliwordOp * R)),
  startable (Re (snd s)) (real_parts rest) -> Im (snd s) = 0 ->
  seq_rot_from n s rest rots =
  (Ok [(fst s, RtoC (final_beta (Re (snd s)) (real_parts rest)))],
   rots ++ rotations_spec n (fst s) (Re (snd s)) (real_parts rest)).
Proof.
  induction rest as [|k rest IH]; intros [Ps [bs bi]] rots Hs Hi; simpl in *.
  - subst. now rewrite app_nil_r.
  - rewrite seq_rot_step_ok by exact Hs. simpl.
    rewrite IH; simpl; auto.
    + unfold rotations_spec. simpl. now rewrite <- app_assoc.
    + apply startable_nonzero, Rgt_not_eq. now apply step_grows.
Qed.

Lemma steps_spec_zeroed (rest : list (row * R)) :
  forall beta_s, startable beta_s rest ->
  Forall (fun st => not_both_zero (fst st) (snd (snd st)) /\
                    partner_after (fst st) (snd (snd st)) = 0)
         (steps_spec beta_s rest).
Proof.
  induction rest as [|[Pk bk] rest IH]; intros bs Hs; simpl; constructor.
  - split; [exact Hs | now apply partner_zeroed].
  - apply IH. apply startable_nonzero, Rgt_not_eq. now apply step_grows.
Qed.

Lemma length_steps_spec (rest : list (row * R)) (beta_s : R) :
  length (steps_spec beta_s rest) = length rest.
Proof.
  revert beta_s. induction rest as [|[Pk bk] rest IH]; intros bs; simpl; auto.
Qed.

Definition sum_squares (rest : list (row * R)) : R :=
  sumR (map (fun t => snd t ^ 2) rest).

Lemma sum_squares_nonneg (rest : list (row * R)) : 0 <= sum_squares rest.
Proof.
  unfold sum_squares. induction rest as [|[P b] rest IH].
  - simpl. lra.
  - cbn [map sumR fold_right snd] in *. pose proof (pow2_ge_0 b). unfold sumR in IH. lra.
Qed.

Lemma final_beta_norm (rest : list (row * R)) (beta_s : R) :
  rest <> [] ->
  final_beta beta_s rest = sqrt (beta_s ^ 2 + sum_squares rest).
Proof.
  revert beta_s. induction rest as [|[Pk bk] rest IH]; intros bs Hne; [contradiction|].
  change (final_beta bs ((Pk, bk) :: rest))
    with (final_beta (sqrt (bs ^ 2 + bk ^ 2)) rest).
  assert (Hsq : sqrt (bs ^ 2 + bk ^ 2) ^ 2 = bs ^ 2 + bk ^ 2).
  { rewrite <- Rsqr_pow2. apply Rsqr_sqrt. nra. }
  destruct rest as [|t rest].
  - unfold sum_squares. simpl. f_equal. ring.
  - rewrite IH by discriminate. f_equal. rewrite Hsq.
    unfold sum_squares. cbn [map sumR fold_right snd]. ring.
Qed.

End SeqRot.

(* ======================================================================== *)
(** * AntiCommutingOp: the check at construction *)
(* ======================================================================== *)

Module ACValid.
Import AC PwordFacts ListFacts.

(** Every pair of distinct terms anticommutes. *)
Definition anticommuting (n : nat) (rows : list row) : Prop :=
  forall i j, (i < length rows)%nat -> (j < length rows)%nat ->
    commutes n (nth i rows []) (nth j rows []) = Nat.eqb i j.

Lemma symp_form_sym (n : nat) (a b : row) : symp_form n a b = symp_form n b a.
Proof.
  unfold symp_form.
  rewrite (map2_comm andb (X_block n a) (Z_block n b)) by apply andb_comm.
  rewrite (map2_comm andb (Z_block n a) (X_block n b)) by apply andb_comm.
  apply Nat.add_comm.
Qed.

Lemma commutes_sym (n : nat) (a b : row) : commutes n a b = commutes n b a.
Proof. unfold commutes. now rewrite symp_form_sym. Qed.

Lemma commutes_refl (n : nat) (a : row) : commutes n a a = true.
Proof.
  unfold commutes, symp_form.
  rewrite (map2_comm andb (Z_block n a) (X_block n a)) by apply andb_comm.
  rewrite Nat.even_add. now destruct (Nat.even _).
Qed.

(** The entries of [adjacency - eye]. *)
Definition entry (n : nat) (rows : list row) (i j : nat) : Z :=
  ((if commutes n (nth i rows []) (nth j rows []) then 1 else 0)
   - (if Nat.eqb i j then 1 else 0))%Z.

Lemma anti_comm_check_entries (n : nat) (rows : list row) :
  anti_comm_check n rows =
  map (fun i => map (fun j => entry n rows i j) (seq 0 (length rows)))
      (seq 0 (length rows)).
Proof.
  unfold anti_comm_check, adjacency_matrix, eye.
  rewrite (map2_as_seq _ [] []), !length_map, length_seq, Nat.min_id.
  apply map_ext_in. intros i Hi. apply in_seq in Hi.
  rewrite (map_nth_in _ rows [] []) by lia.
  rewrite (map_nth_in _ (seq 0 (length rows)) 0%nat []) by (rewrite length_seq; lia).
  rewrite seq_nth by lia. simpl.
  rewrite (map2_as_seq _ false 0%Z), !length_map, length_seq, Nat.min_id.
  apply map_ext_in. intros j Hj. apply in_seq in Hj.
  rewrite (map_nth_in _ rows [] false) by lia.
  rewrite (map_nth_in _ (seq 0 (length rows)) 0%nat 0%Z) by (rewrite length_seq; lia).
  rewrite seq_nth by lia. reflexivity.
Qed.

Lemma entry_nonneg (n : nat) (rows : list row) (i j : nat) :
  (0 <= entry n rows i j)%Z.
Proof.
  unfold entry. destruct (Nat.eqb_spec i j) as [-> | _].
  - rewrite commutes_refl. lia.
  - destruct (commutes n _ _); lia.
Qed.

Lemma sumZ_nonneg (l : list Z) : Forall (fun x => 0 <= x)%Z l -> (0 <= sumZ l)%Z.
Proof. induction 1; simpl; lia. Qed.

Lemma sumZ_zero (l : list Z) :
  Forall (fun x => 0 <= x)%Z l -> sumZ l = 0%Z -> Forall (fun x => x = 0%Z) l.
Proof.
  induction 1 as [|x l Hx Hl IH]; simpl; intros Hs; constructor.
  - pose proof (sumZ_nonneg _ Hl). lia.
  - apply IH. pose proof (sumZ_nonneg _ Hl). lia.
Qed.

Lemma sumZ_all_zero (l : list Z) : Forall (fun x => x = 0%Z) l -> sumZ l = 0%Z.
Proof. induction 1; simpl; lia. Qed.

Lemma init_check_anticommuting (n : nat) (rows : list row) :
  init_check n rows = true <-> anticommuting n rows.
Proof.
  unfold init_check. rewrite Z.eqb_eq, anti_comm_check_entries, map_map.
  set (m := length rows).
  assert (Hrow : forall i, Forall (fun x => 0 <= x)%Z
                             (map (fun j => entry n rows i j) (seq 0 m))).
  { intros i. apply Forall_map, Forall_forall. intros j _. apply entry_nonneg. }
  split.
  - intros Hsum i j Hi Hj.
    apply sumZ_zero in Hsum.
    2:{ apply Forall_map, Forall_forall. intros k _. apply sumZ_nonneg, Hrow. }
    rewrite Forall_map, Forall_forall in Hsum.
    specialize (Hsum i). simpl in Hsum.
    assert (Hi' : In i (seq 0 m)) by (apply in_seq; lia).
    specialize (Hsum Hi'). apply sumZ_zero in Hsum; [|apply Hrow].
    rewrite Forall_map, Forall_forall in Hsum.
    assert (Hj' : In j (seq 0 m)) by (apply in_seq; lia).
    specialize (Hsum j Hj'). unfold entry in Hsum.
    destruct (commutes n _ _), (Nat.eqb i j); auto; lia.
  - intros Hac. apply sumZ_all_zero, Forall_map, Forall_forall.
    intros i Hi. apply in_seq in Hi.
    apply sumZ_all_zero, Forall_map, Forall_forall.
    intros j Hj. apply in_seq in Hj. unfold entry.
    rewrite Hac by (fold m; lia). destruct (Nat.eqb i j); reflexivity.
Qed.

(** ** Exchanging the target with the first term *)

Definition transpose0 (k i : nat) : nat :=
  if Nat.eqb i 0 then k else if Nat.eqb i k then 0%nat else i.

Lemma swap0_0 {A} (l : list A) : l <> [] -> swap0 0 l = Some l.
Proof. destruct l; [contradiction | reflexivity]. Qed.

Lemma swap0_Some {A} (k : nat) (l : list A) :
  (k < length l)%nat -> exists l', swap0 k l = Some l'.
Proof.
  intros Hk. unfold swap0. destruct l as [|x l]; [simpl in Hk; lia|].
  destruct (nth_error (x :: l) k) eqn:E; [eauto|].
  apply nth_error_None in E. lia.
Qed.

Lemma swap0_length {A} (k : nat) (l l' : list A) :
  swap0 k l = Some l' -> (k < length l)%nat /\ length l' = length l.
Proof.
  unfold swap0. destruct l as [|x l]; [discriminate|].
  destruct (nth_error (x :: l) k) as [xk|] eqn:E; [|discriminate].
  intros H. injection H as <-.
  assert (Hk : (k < length (x :: l))%nat) by (apply nth_error_Some; congruence).
  split; [exact Hk|].
  rewrite length_app, length_firstn.
  pose proof (length_skipn k (x :: l)) as Es.
  destruct (skipn k (x :: l)) as [|y r]; cbn [length tl] in *; lia.
Qed.

Lemma swap0_nth {A} (d : A) (k : nat) (l l' : list A) (i : nat) :
  swap0 k l = Some l' -> (i < length l)%nat ->
  nth i l' d = nth (transpose0 k i) l d.
Proof.
  unfold swap0, transpose0. destruct l as [|x l]; [discriminate|].
  destruct (nth_error (x :: l) k) as [xk|] eqn:E; [|discriminate].
  intros H Hi. injection H as <-.
  assert (Hk : (k < length (x :: l))%nat) by (apply nth_error_Some; congruence).
  assert (Exk : nth k (x :: l) d = xk) by now apply nth_error_nth.
  destruct k as [|k].
  - simpl in *. injection E as <-.
    destruct i as [|i]; simpl; reflexivity.
  - simpl tl. simpl skipn. simpl firstn.
    destruct i as [|i]; simpl Nat.eqb; cbv iota.
    + simpl. exact (eq_sym Exk).
    + simpl in Hk, Hi, Exk |- *.
      destruct (Nat.eqb_spec i k) as [-> | Hne].
      * rewrite app_nth2 by (rewrite length_firstn; lia).
        rewrite length_firstn, Nat.min_l, Nat.sub_diag by lia.
        destruct (skipn k l) as [|y r] eqn:Es; [|reflexivity].
        apply (f_equal (@length A)) in Es. rewrite length_skipn in Es. simpl in Es. lia.
      * destruct (Nat.lt_ge_cases i k) as [Hlt | Hge].
        -- rewrite app_nth1 by (rewrite length_firstn; lia).
           rewrite <- (firstn_skipn k l) at 2.
           rewrite app_nth1 by (rewrite length_firstn; lia). reflexivity.
        -- rewrite app_nth2 by (rewrite length_firstn; lia).
           rewrite length_firstn, Nat.min_l by lia.
           rewrite <- (firstn_skipn k l) at 2.
           rewrite app_nth2 by (rewrite length_firstn; lia).
           rewrite length_firstn, Nat.min_l by lia.
           destruct (skipn k l) as [|y r] eqn:Es.
           ++ apply (f_equal (@length A)) in Es. rewrite length_skipn in Es.
              simpl in Es. lia.
           ++ destruct (i - k)%nat as [|d'] eqn:Ed; [lia | reflexivity].
Qed.

Lemma transpose0_lt (k m i : nat) :
  (k < m)%nat -> (i < m)%nat -> (transpose0 k i < m)%nat.
Proof.
  unfold transpose0. intros Hk Hi.
  destruct (Nat.eqb i 0); [exact Hk|]. destruct (Nat.eqb i k); lia.
Qed.

Lemma transpose0_inj (k i j : nat) :
  Nat.eqb (transpose0 k i) (transpose0 k j) = Nat.eqb i j.
Proof.
  unfold transpose0.
  destruct (Nat.eqb_spec i 0), (Nat.eqb_spec j 0), (Nat.eqb_spec i k),
    (Nat.eqb_spec j k), (Nat.eqb_spec i j); subst;
    repeat match goal with
           | |- context [Nat.eqb ?a ?b] => destruct (Nat.eqb_spec a b)
           end; try reflexivity; try lia.
Qed.

Lemma swap0_map {A B} (f : A -> B) (k : nat) (l l' : list A) :
  swap0 k l = Some l' -> swap0 k (map f l) = Some (map f l').
Proof.
  unfold swap0. destruct l as [|x l]; [discriminate|].
  destruct (nth_error (x :: l) k) as [xk|] eqn:E; [|discriminate].
  intros H. injection H as <-.
  pose proof (nth_error_map f k (x :: l)) as En. rewrite E in En.
  cbn [map] in *. rewrite En. cbn [tl option_map]. f_equal.
  rewrite map_app. f_equal.
  - change (f xk :: map f l) with (map f (xk :: l)).
    now rewrite firstn_map.
  - change (f x :: map f l) with (map f (x :: l)).
    rewrite skipn_map. destruct (skipn k (x :: l)); reflexivity.
Qed.

Lemma anticommuting_swap (n k : nat) (rows rows' : list row) :
  swap0 k rows = Some rows' -> anticommuting n rows -> anticommuting n rows'.
Proof.
  intros Hs Hac i j Hi Hj.
  destruct (swap0_length _ _ _ Hs) as [Hk Hlen]. rewrite Hlen in Hi, Hj.
  rewrite (@swap0_nth row [] _ _ _ i Hs Hi), (@swap0_nth row [] _ _ _ j Hs Hj).
  rewrite Hac by now apply transpose0_lt.
  apply transpose0_inj.
Qed.

Lemma swap0_head {A} (d : A) (k : nat) (l l' : list A) :
  swap0 k l = Some l' -> exists rest, l' = nth k l d :: rest.
Proof.
  intros Hs. destruct (swap0_length _ _ _ Hs) as [Hk Hlen].
  destruct l' as [|y rest]; [simpl in Hlen; lia|].
  exists rest. f_equal.
  assert (H0 : (0 < length l)%nat) by lia.
  pose proof (swap0_nth d _ _ _ 0%nat Hs H0) as H. simpl in H. exact H.
Qed.

Lemma swap0_Permutation {A} (k : nat) (l l' : list A) :
  swap0 k l = Some l' -> Permutation l l'.
Proof.
  unfold swap0. destruct l as [|x l]; [discriminate|].
  destruct (nth_error (x :: l) k) as [xk|] eqn:E; [|discriminate].
  intros H. injection H as <-.
  destruct k as [|k].
  - simpl in *. injection E as <-. reflexivity.
  - simpl in *. apply nth_error_split in E. destruct E as [l1 [l2 [-> Hl1]]].
    subst k. rewrite firstn_app, firstn_all, Nat.sub_diag. simpl firstn.
    rewrite app_nil_r. rewrite skipn_app, skipn_all, Nat.sub_diag. simpl.
    eapply Permutation_trans.
    + apply perm_skip. apply Permutation_sym. apply Permutation_middle.
    + eapply Permutation_trans; [apply perm_swap|].
      apply perm_skip. apply Permutation_middle.
Qed.

End ACValid.

(* ======================================================================== *)
(** * A target term and a family of terms anticommuting with it and pairwise *)
(* ======================================================================== *)

Module AntiFamily.
Import AC PwordFacts SympFacts ListFacts OpAlgebra Conjugation OpLaws ACValid.
Local Open Scope R_scope.

(** ** Terms *)

Lemma phase_parity (n : nat) (a b : row) :
  wf_row n a -> wf_row n b ->
  phase_exp n a b mod 2 = symp_form n a b mod 2.
Proof.
  intros Ha Hb.
  rewrite (phase_exp_local n a b Ha Hb), (symp_form_local n a b Ha Hb).
  apply qsum_mod; [discriminate|]. intros q Hq. unfold eps, omega.
  destruct (xq a q), (zq n a q), (xq b q), (zq n b q); reflexivity.
Qed.

Lemma commutes_false_odd (n : nat) (a b : row) :
  commutes n a b = false -> symp_form n a b mod 2 = 1%nat.
Proof.
  intros H. pose proof (anticommutes_int_mod2 n a b) as E.
  unfold anticommutes_int in E. now rewrite H in E.
Qed.

Lemma commutes_true_even (n : nat) (a b : row) :
  commutes n a b = true -> symp_form n a b mod 2 = 0%nat.
Proof.
  intros H. pose proof (anticommutes_int_mod2 n a b) as E.
  unfold anticommutes_int in E. now rewrite H in E.
Qed.

Lemma Cipow_odd_conj (k : nat) :
  k mod 2 = 1%nat -> Cconj (Cipow k) = (- Cipow k)%C.
Proof.
  intros Hk. unfold Cipow.
  assert (E2 : (k mod 2 = (k mod 4) mod 2)%nat).
  { rewrite (Nat.div_mod_eq k 4) at 1.
    replace (4 * (k / 4))%nat with ((2 * (k / 4)) * 2)%nat by lia.
    rewrite Nat.add_comm. apply Nat.Div0.mod_add. }
  rewrite E2 in Hk.
  pose proof (Nat.mod_upper_bound k 4 ltac:(discriminate)) as Hb.
  destruct (k mod 4) as [|[|[|[|?]]]]; try discriminate; try lia; csimp.
Qed.

Lemma xor_self (n : nat) (a : row) :
  wf_row n a -> map2 xorb a a = identity_row n.
Proof.
  unfold wf_row, identity_row. intros <-. unfold map2.
  induction a as [|x a IH]; simpl; auto.
  rewrite xorb_nilpotent. f_equal.
  replace (length a + S (length a + 0))%nat with (S (2 * length a)) by lia.
  simpl. f_equal. exact IH.
Qed.

(** [(c a) (d a) = c d] *)
Lemma term_square (n : nat) (a : row) (c d : C) :
  wf_row n a ->
  mul_symplectic n a c a d = (identity_row n, (c * d)%C).
Proof.
  intros Ha. unfold mul_symplectic. rewrite (xor_self n a Ha).
  rewrite (Cipow_0 _ (phase_square n a Ha)). f_equal. ring.
Qed.

(** [(c a) (d b) = - (d b) (c a)] for anticommuting [a], [b]. *)
Lemma term_anticommute (n : nat) (a b : row) (c d : C) (p : row) :
  wf_row n a -> wf_row n b -> commutes n a b = false ->
  coef [mul_symplectic n a c b d] p = (- coef [mul_symplectic n b d a c] p)%C.
Proof.
  intros Ha Hb Hab. unfold mul_symplectic.
  rewrite (xor_comm b a).
  assert (E : Cipow (phase_exp n a b) = (- Cipow (phase_exp n b a))%C).
  { rewrite (Cipow_mod _ _ (phase_swap n a b Ha Hb)), Cipow_add.
    rewrite <- Csign_Cipow.
    rewrite (Csign_mod2 _ 1) by (rewrite (commutes_false_odd n a b Hab); reflexivity).
    unfold Csign. simpl. ring. }
  rewrite E. simpl. destruct (row_eqb _ _); ring.
Qed.

(** [(c a) (d b) = (d b) (c a)] for commuting [a], [b]. *)
Lemma term_commute (n : nat) (a b : row) (c d : C) (p : row) :
  wf_row n a -> wf_row n b -> commutes n a b = true ->
  coef [mul_symplectic n a c b d] p = coef [mul_symplectic n b d a c] p.
Proof.
  intros Ha Hb Hab. unfold mul_symplectic.
  rewrite (xor_comm b a).
  assert (E : Cipow (phase_exp n a b) = Cipow (phase_exp n b a)).
  { rewrite (Cipow_mod _ _ (phase_swap n a b Ha Hb)), Cipow_add.
    rewrite <- Csign_Cipow.
    rewrite (Csign_mod2 _ 0) by (rewrite (commutes_true_even n a b Hab); reflexivity).
    unfold Csign. simpl. ring. }
  rewrite E. simpl. destruct (row_eqb _ _); ring.
Qed.

(** ** Families *)

Definition real_op (P : PauliwordOp) : Prop := Forall (fun t => Im (snd t) = 0) P.

Definition anti_with (n : nat) (a : row) (P : PauliwordOp) : Prop :=
  Forall (fun t => commutes n a (fst t) = false) P.

Definition pairwise_anti (n : nat) (P : PauliwordOp) : Prop :=
  ForallOrdPairs (fun t u => commutes n (fst t) (fst u) = false) P.

Definition sq_norm (P : PauliwordOp) : R := sumR (map (fun t => Re (snd t) ^ 2) P).

Lemma dagger_real (P : PauliwordOp) : real_op P -> dagger P = P.
Proof.
  induction 1 as [|[a [re im]] P Ht _ IH]; [reflexivity|].
  change (dagger ((a, mkC re im) :: P))
    with ((a, Cconj (mkC re im)) :: dagger P).
  rewrite IH. simpl in Ht. do 2 f_equal. apply C_eq; simpl; lra.
Qed.

Lemma pairs_sum_diagonal {A} (f : A -> A -> C) (l : list A) :
  ForallOrdPairs (fun x y => (f x y + f y x)%C = C0) l ->
  pairs_sum f l = sumC (map (fun x => f x x) l).
Proof.
  induction 1 as [|x l Hx _ IH]; [reflexivity|].
  cbn [pairs_sum map sumC]. rewrite IH.
  rewrite (sumC_map_ext _ (fun _ => C0)), sumC_map_zero; [ring|].
  rewrite Forall_forall in Hx. intros y Hy. now apply Hx.
Qed.

Lemma pairwise_anti_cancel (n : nat) (p : row) (l : PauliwordOp) :
  wf_op n l -> pairwise_anti n l ->
  ForallOrdPairs
    (fun t u => (coef [mul_symplectic n (fst t) (snd t) (fst u) (snd u)] p
                 + coef [mul_symplectic n (fst u) (snd u) (fst t) (snd t)] p)%C = C0) l.
Proof.
  unfold wf_op, pairwise_anti. intros Hwf Hanti.
  induction Hanti as [|t l Ht Hl IH]; constructor.
  - inversion Hwf as [|? ? Hwt Hwl]; subst.
    rewrite Forall_forall in *. intros u Hu.
    rewrite (term_anticommute n (fst t) (fst u) (snd t) (snd u) p Hwt (Hwl _ Hu)
               (Ht _ Hu)). ring.
  - apply IH. now inversion Hwf.
Qed.

Lemma product_dagger (n : nat) (Pt : row) (l : PauliwordOp) :
  wf_row n Pt -> wf_op n l -> real_op l -> anti_with n Pt l ->
  op_equiv (dagger (mul_stack n l [(Pt, C1)]))
           (multiply_by_constant (- C1)%C (mul_stack n l [(Pt, C1)])).
Proof.
  intros wfPt wfl reall antil p. unfold mul_stack. cbn [map fst snd].
  rewrite coef_scale, coef_dagger.
  unfold wf_op, real_op, anti_with in *.
  induction l as [|[k d] l IH]; [csimp|].
  inversion wfl as [|? ? Hwk Hwl]; subst.
  inversion reall as [|? ? Hrk Hrl]; subst.
  inversion antil as [|? ? Hak Hal]; subst.
  cbn [flat_map app fst snd] in *.
  unfold mul_symplectic at 1 3. cbn [fst snd].
  rewrite !coef_cons.
  specialize (IH Hwl Hrl Hal).
  assert (Ec : Cconj (Cipow (phase_exp n k Pt) * d * C1)
               = (- (Cipow (phase_exp n k Pt) * d * C1))%C).
  { assert (Ep : Cconj (Cipow (phase_exp n k Pt)) = (- Cipow (phase_exp n k Pt))%C).
    { apply Cipow_odd_conj. rewrite (phase_parity n k Pt Hwk wfPt).
      rewrite symp_form_sym. apply commutes_false_odd. exact Hak. }
    destruct d as [re im]. simpl in Hrk. subst im.
    destruct (Cipow (phase_exp n k Pt)) as [pr pi].
    pose proof (f_equal Re Ep) as E1. simpl in E1.
    assert (pr = 0) by lra. subst pr. csimp. }
  destruct (row_eqb _ _).
  - transitivity (Cconj (Cipow (phase_exp n k Pt) * d * C1)
                  + Cconj (coef (flat_map
                       (fun t => [mul_symplectic n (fst t) (snd t) Pt C1]) l) p))%C;
      [csimp|].
    rewrite IH, Ec. ring.
  - transitivity (Cconj (coef (flat_map
                       (fun t => [mul_symplectic n (fst t) (snd t) Pt C1]) l) p));
      [csimp|].
    rewrite IH. ring.
Qed.

Section Family.

Variable n : nat.
Variable Pt : row.
Variable H : PauliwordOp.
Hypothesis wfPt : wf_row n Pt.
Hypothesis wfH : wf_op n H.
Hypothesis realH : real_op H.
Hypothesis antiPt : anti_with n Pt H.
Hypothesis antiH : pairwise_anti n H.

Definition S_op : PauliwordOp := [(Pt, C1)].

Lemma wf_S : wf_op n S_op.
Proof. repeat constructor. exact wfPt. Qed.

Lemma S_square : op_equiv (mul_stack n S_op S_op) (I_op n).
Proof.
  intros p. unfold S_op, mul_stack, I_op. cbn [flat_map map app fst snd].
  rewrite (term_square n Pt C1 C1 wfPt). simpl. destruct (row_eqb _ _); ring.
Qed.

Lemma S_dagger : op_equiv (dagger S_op) S_op.
Proof. intros p. unfold S_op. simpl. destruct (row_eqb _ _); csimp. Qed.

Lemma H_dagger : op_equiv (dagger H) H.
Proof. now rewrite (dagger_real H realH). Qed.

Lemma S_H_anticommute :
  op_equiv (mul_stack n S_op H) (multiply_by_constant (- C1)%C (mul_stack n H S_op)).
Proof.
  intros p. rewrite coef_scale, !coef_mul_stack. unfold S_op.
  cbn [map sumC fst snd].
  rewrite <- sumC_map_scale.
  match goal with |- (?x + C0)%C = _ => transitivity x; [ring|] end.
  apply sumC_map_ext. intros [k d] Hk. cbn [map sumC fst snd].
  unfold anti_with, wf_op in *. rewrite Forall_forall in *.
  rewrite (term_anticommute n Pt k C1 d p wfPt (wfH _ Hk) (antiPt _ Hk)). ring.
Qed.

Lemma H_square :
  sq_norm H = 1 -> op_equiv (mul_stack n H H) (I_op n).
Proof.
  intros Hnorm p. rewrite coef_mul_stack.
  rewrite (double_sum_pairs
             (fun t u => coef [mul_symplectic n (fst t) (snd t) (fst u) (snd u)] p)).
  rewrite pairs_sum_diagonal.
  - transitivity (sumC (map (fun t : row * C => (RtoC (Re (snd t) ^ 2)
                                                   * coef (I_op n) p)%C) H)).
    + apply sumC_map_ext. intros [k d] Hk.
      unfold wf_op, real_op in *. rewrite Forall_forall in *.
      cbn [fst snd]. rewrite (term_square n k d d (wfH _ Hk)).
      unfold I_op. rewrite <- coef_single_scale. do 3 f_equal.
      pose proof (realH _ Hk) as Him. simpl in Him. destruct d as [re im].
      simpl in *. subst im. csimp.
    + rewrite (sumC_map_scale' (coef (I_op n) p)).
      unfold sq_norm in Hnorm.
      assert (E : sumC (map (fun t : row * C => RtoC (Re (snd t) ^ 2)) H) = C1).
      { transitivity (RtoC (sumR (map (fun t : row * C => Re (snd t) ^ 2) H)));
          [|rewrite Hnorm; reflexivity].
        clear. induction H as [|t l IH]; [reflexivity|].
        cbn [map sumC]. rewrite IH. unfold sumR. csimp. }
      rewrite E. ring.
  - apply pairwise_anti_cancel; assumption.
Qed.

Definition K_op : PauliwordOp := mul_stack n H S_op.

Lemma K_dagger :
  op_equiv (dagger K_op) (multiply_by_constant (- C1)%C K_op).
Proof. exact (product_dagger n Pt H wfPt wfH realH antiPt). Qed.

End Family.

End AntiFamily.

(* ======================================================================== *)
(** * Rotations in the span of two anticommuting involutions *)
(* ======================================================================== *)

Module RotationAlgebra.
Import AC PwordFacts SympFacts ListFacts OpAlgebra Conjugation OpLaws Canonical.
Import TwoInvolutions.
Local Open Scope R_scope.

(** [R P R^dagger], before cleanup. *)
Definition conj_stack (n : nat) (R_op P : PauliwordOp) : PauliwordOp :=
  mul_stack n (mul_stack n R_op P) (dagger R_op).

#[export] Instance conj_stack_Proper (n : nat) :
  Proper (op_equiv ==> op_equiv ==> op_equiv) (conj_stack n).
Proof.
  intros R1 R2 HR P1 P2 HP. unfold conj_stack. now rewrite HR, HP.
Qed.

Lemma conj_stack_app (n : nat) (R_op P Q : PauliwordOp) :
  op_equiv (conj_stack n R_op (P ++ Q)) (conj_stack n R_op P ++ conj_stack n R_op Q).
Proof.
  unfold conj_stack. now rewrite mul_app_r, mul_app_l.
Qed.

Lemma conj_stack_scale (n : nat) (c : C) (R_op P : PauliwordOp) :
  op_equiv (conj_stack n R_op (multiply_by_constant c P))
           (multiply_by_constant c (conj_stack n R_op P)).
Proof.
  unfold conj_stack. now rewrite mul_scale_r, mul_scale_l.
Qed.

(** The loop of [conjugate_Pop_with_R], cleaned up, is the cleaned-up
    triple product. *)
Lemma conjugate_as_product (n : nat) (Pop R_op : PauliwordOp) :
  wf_op n Pop -> wf_op n R_op ->
  conjugate_Pop_with_R n Pop R_op = cleanup (conj_stack n R_op Pop).
Proof.
  intros HPop HR. unfold conjugate_Pop_with_R, conj_stack.
  destruct (Nat.eqb (n_terms Pop) 1); apply cleanup_canonical.
  - apply triple_product_equiv.
  - apply (loop_is_triple_product n Pop R_op HPop HR).
Qed.

Lemma rotate_as_product (n : nat) (P : PauliwordOp) (rot : PauliwordOp * R) :
  rotate n P rot =
  cleanup (conj_stack n (rotation_operator n (fst rot) (snd rot)) P).
Proof.
  unfold rotate, conj_stack. apply cleanup_canonical.
  apply triple_product_equiv.
Qed.

Lemma cleanup_idempotent (P : PauliwordOp) : cleanup (cleanup P) = cleanup P.
Proof. apply cleanup_canonical. apply cleanup_equiv. Qed.

Lemma wf_op_cleanup (n : nat) (P : PauliwordOp) : wf_op n P -> wf_op n (cleanup P).
Proof.
  unfold wf_op. rewrite !Forall_forall. intros H [k c] Hin.
  apply In_cleanup in Hin. destruct Hin as [Hk _].
  apply in_map_iff in Hk. destruct Hk as [t [<- Ht]]. exact (H t Ht).
Qed.

(** The rotation [c 1 - s (H S)] with [c^2 + s^2 = 1]. *)
Definition rot (c s : R) : Q4 := mkQ4 (RtoC c) C0 C0 (RtoC (- s)).

Section Rotation.

Variable n : nat.
Variables S H : PauliwordOp.
Hypothesis wfS : wf_op n S.
Hypothesis wfH : wf_op n H.
Hypothesis SS : op_equiv (mul_stack n S S) (I_op n).
Hypothesis HH : op_equiv (mul_stack n H H) (I_op n).
Hypothesis SH : op_equiv (mul_stack n S H)
                         (multiply_by_constant (- C1)%C (mul_stack n H S)).
Hypothesis dS : op_equiv (dagger S) S.
Hypothesis dH : op_equiv (dagger H) H.
Hypothesis dK : op_equiv (dagger (K n S H)) (multiply_by_constant (- C1)%C (K n S H)).

Variables c s : R.
Hypothesis unit_cs : c ^ 2 + s ^ 2 = 1.

(** [b S + beta H] is sent to
    [(b cos + beta sin) S + (beta cos - b sin) H], with [cos = c^2 - s^2]
    and [sin = 2 s c]. *)
Lemma rot_pair (b beta : R) :
  op_equiv (conj_stack n (den n S H (rot c s)) (den n S H (mkQ4 C0 (RtoC b) (RtoC beta) C0)))
           (den n S H (mkQ4 C0 (RtoC (b * (c ^ 2 - s ^ 2) + beta * (2 * s * c)))
                       (RtoC (beta * (c ^ 2 - s ^ 2) - b * (2 * s * c))) C0)).
Proof.
  unfold conj_stack.
  rewrite (den_conjugate n S H wfS wfH SS HH SH dS dH dK).
  intros p. rewrite !coef_den. unfold rot, qmul, qdag. cbn [qI qS qH qK].
  generalize (coef (I_op n) p) (coef S p) (coef H p) (coef (K n S H) p).
  intros [i1 i2] [s1 s2] [h1 h2] [k1 k2]. csimp.
Qed.

(** An operator that commutes with [H S] is left as it is. *)
Lemma rot_spectator (Z : PauliwordOp) :
  wf_op n Z ->
  op_equiv (mul_stack n (K n S H) Z) (mul_stack n Z (K n S H)) ->
  op_equiv (conj_stack n (den n S H (rot c s)) Z) Z.
Proof.
  intros wfZ HZ. unfold conj_stack.
  assert (E1 : op_equiv (mul_stack n (den n S H (rot c s)) Z) (mul_stack n Z (den n S H (rot c s)))).
  { intros p. unfold den.
    rewrite !coef_mul_app_l, !coef_mul_scale_l, !coef_mul_app_r, !coef_mul_scale_r.
    rewrite (mul_I_l n Z wfZ p), (mul_I_r n Z wfZ p), (HZ p).
    unfold rot. cbn [qI qS qH qK]. ring. }
  rewrite E1, (den_dagger n S H dS dH dK).
  pose proof (wf_den n S H wfS wfH) as wfD.
  rewrite mul_assoc by auto.
  rewrite (den_mul n S H wfS wfH SS HH SH).
  transitivity (mul_stack n Z (I_op n)); [|now apply mul_I_r].
  apply mul_stack_Proper; [reflexivity|].
  assert (E2 : qmul (rot c s) (qdag (rot c s)) = mkQ4 C1 C0 C0 C0).
  { unfold rot, qmul, qdag. cbn [qI qS qH qK].
    f_equal; apply C_eq; simpl; try ring. rewrite <- unit_cs. ring. }
  rewrite E2. intros p. rewrite coef_den. cbn [qI qS qH qK]. ring.
Qed.

End Rotation.

End RotationAlgebra.

(* ======================================================================== *)
(** * The recorded rotations reduce the operator to its target term *)
(* ======================================================================== *)

Module SeqRotSound.
Import AC PwordFacts SympFacts ListFacts OpAlgebra Conjugation OpLaws Canonical.
Import ACValid AntiFamily TwoInvolutions RotationAlgebra SeqRot.
Local Open Scope R_scope.

(** ** Commuting terms *)

Lemma symp_form_xor_l (n : nat) (a b c : row) :
  wf_row n a -> wf_row n b -> wf_row n c ->
  symp_form n (map2 xorb a b) c mod 2 = (symp_form n a c + symp_form n b c) mod 2.
Proof. intros Ha Hb Hc. phase_local n. Qed.

Lemma commutes_even (n : nat) (a b : row) :
  symp_form n a b mod 2 = 0%nat -> commutes n a b = true.
Proof.
  intros H. pose proof (anticommutes_int_mod2 n a b) as E.
  unfold anticommutes_int in E. destruct (commutes n a b); [reflexivity|].
  rewrite H in E. discriminate.
Qed.

(** A term anticommuting with both [a] and [b] commutes with [a b]. *)
Lemma commutes_product (n : nat) (a b c : row) :
  wf_row n a -> wf_row n b -> wf_row n c ->
  commutes n a c = false -> commutes n b c = false ->
  commutes n (map2 xorb a b) c = true.
Proof.
  intros Ha Hb Hc Hac Hbc. apply commutes_even.
  rewrite (symp_form_xor_l n a b c Ha Hb Hc), Nat.Div0.add_mod.
  rewrite (commutes_false_odd n a c Hac), (commutes_false_odd n b c Hbc).
  reflexivity.
Qed.

Lemma commute_ops (n : nat) (P Q : PauliwordOp) :
  wf_op n P -> wf_op n Q ->
  (forall t u, In t P -> In u Q -> commutes n (fst t) (fst u) = true) ->
  op_equiv (mul_stack n P Q) (mul_stack n Q P).
Proof.
  intros HP HQ Hc p. rewrite !coef_mul_stack.
  rewrite (sumC_exchange
             (fun t u => coef [mul_symplectic n (fst t) (snd t) (fst u) (snd u)] p)).
  unfold wf_op in *. rewrite Forall_forall in *.
  apply sumC_map_ext. intros u Hu. apply sumC_map_ext. intros t Ht.
  apply term_commute; auto.
Qed.

(** ** The angle *)

Lemma cos_half (theta : R) :
  cos theta = cos (theta / 2) ^ 2 - sin (theta / 2) ^ 2.
Proof.
  replace theta with (2 * (theta / 2)) at 1 by field. rewrite cos_2a. ring.
Qed.

Lemma sin_half (theta : R) :
  sin theta = 2 * sin (theta / 2) * cos (theta / 2).
Proof.
  replace theta with (2 * (theta / 2)) at 1 by field. rewrite sin_2a. ring.
Qed.

Lemma half_unit (theta : R) : cos (theta / 2) ^ 2 + sin (theta / 2) ^ 2 = 1.
Proof. pose proof (sin2_cos2 (theta / 2)) as E. unfold Rsqr in E. lra. Qed.

(** The coefficient of the target after the rotation. *)
Definition target_after (beta_s beta_k : R) : R :=
  beta_s * cos (theta_spec beta_s beta_k) + beta_k * sin (theta_spec beta_s beta_k).

Lemma target_grows_boundary (beta_k : R) :
  target_after 0 beta_k = sqrt (0 ^ 2 + beta_k ^ 2).
Proof.
  unfold target_after. destruct (theta_boundary beta_k) as [-> ->].
  replace (0 ^ 2 + beta_k ^ 2) with (beta_k²) by (unfold Rsqr; ring).
  rewrite sqrt_Rsqr_abs. unfold Rltb.
  destruct (Rlt_dec beta_k 0) as [Hneg | Hpos].
  - rewrite (Rabs_left _ Hneg). ring.
  - rewrite (Rabs_right beta_k) by lra. ring.
Qed.

Lemma target_grows (beta_s beta_k : R) :
  not_both_zero beta_s beta_k ->
  target_after beta_s beta_k = sqrt (beta_s ^ 2 + beta_k ^ 2).
Proof.
  intros Hsk.
  destruct (Req_dec_T beta_s 0) as [-> | Hs]; [apply target_grows_boundary|].
  clear Hsk. unfold target_after, theta_spec.
  destruct (Req_dec_T beta_s 0) as [E | _]; [contradiction|].
  set (x := beta_k / beta_s).
  pose proof (sqrt_1_sqr_pos x) as Hpos.
  assert (Hsq : sqrt (1 + x²) * sqrt (1 + x²) = 1 + x²).
  { apply sqrt_sqrt. pose proof (Rle_0_sqr x). lra. }
  assert (Ek : beta_k = x * beta_s) by (unfold x; field; exact Hs).
  clearbody x. subst beta_k.
  assert (Eabs : sqrt (beta_s ^ 2 + (x * beta_s) ^ 2) = Rabs beta_s * sqrt (1 + x²)).
  { replace (beta_s ^ 2 + (x * beta_s) ^ 2) with (beta_s² * (1 + x²))
      by (unfold Rsqr; ring).
    rewrite sqrt_mult_alt by apply Rle_0_sqr. now rewrite sqrt_Rsqr_abs. }
  rewrite Eabs. unfold Rltb. unfold Rsqr in *.
  destruct (Rlt_dec beta_s 0) as [Hneg | Hpos'].
  - rewrite neg_cos, neg_sin, cos_atan, sin_atan. unfold Rsqr.
    rewrite (Rabs_left _ Hneg).
    apply Rmult_eq_reg_r with (sqrt (1 + x * x)); [|lra].
    transitivity (- beta_s * (1 + x * x)); [field; lra|]. rewrite Rmult_assoc, Hsq. ring.
  - rewrite cos_atan, sin_atan. unfold Rsqr.
    rewrite (Rabs_right beta_s) by lra.
    apply Rmult_eq_reg_r with (sqrt (1 + x * x)); [|lra].
    transitivity (beta_s * (1 + x * x)); [field; lra|]. rewrite Rmult_assoc, Hsq. ring.
Qed.

(** ** One recorded rotation *)

Lemma phase_anticommute (n : nat) (a b : row) :
  wf_row n a -> wf_row n b -> commutes n a b = false ->
  Cipow (phase_exp n a b) = (- Cipow (phase_exp n b a))%C.
Proof.
  intros Ha Hb Hab.
  rewrite (Cipow_mod _ _ (phase_swap n a b Ha Hb)), Cipow_add.
  rewrite <- Csign_Cipow.
  rewrite (Csign_mod2 _ 1) by (rewrite (commutes_false_odd n a b Hab); reflexivity).
  unfold Csign. simpl. ring.
Qed.

Definition op_of (rest : list (row * R)) : PauliwordOp :=
  map (fun t => (fst t, RtoC (snd t))) rest.

Section Step.

Variable n : nat.
Variables P_t P_k : row.
Hypothesis wf_t : wf_row n P_t.
Hypothesis wf_k : wf_row n P_k.
Hypothesis anti_tk : commutes n P_t P_k = false.

Let S : PauliwordOp := [(P_t, C1)].
Let H : PauliwordOp := [(P_k, C1)].

Lemma target_wf : wf_op n S.
Proof. repeat constructor. exact wf_t. Qed.

Lemma partner_wf : wf_op n H.
Proof. repeat constructor. exact wf_k. Qed.

Lemma partner_real : real_op H.
Proof. repeat constructor. Qed.

Lemma partner_anti : anti_with n P_t H.
Proof. repeat constructor. exact anti_tk. Qed.

Lemma partner_pairwise : pairwise_anti n H.
Proof. repeat constructor. Qed.

Lemma partner_norm : sq_norm H = 1.
Proof. unfold sq_norm, H, sumR. simpl. ring. Qed.

(** The recorded pair is the rotation [cos (theta/2) - sin (theta/2) P_k P_t]. *)
Lemma recorded_rotation (beta_s beta_k : R) :
  let r := rotation_spec n P_t beta_s P_k beta_k in
  let theta := theta_spec beta_s beta_k in
  op_equiv (rotation_operator n (fst r) (snd r))
           (den n S H (rot (cos (theta / 2)) (sin (theta / 2)))).
Proof.
  cbv zeta. intros p. rewrite coef_den.
  unfold rot. cbn [qI qS qH qK].
  unfold K, S, H, I_op, mul_stack. cbn [flat_map map app fst snd].
  unfold rotation_operator, rotation_spec, generator_spec, multiply_by_constant.
  unfold mul_symplectic. cbn [fst snd].
  rewrite (xor_comm P_k P_t).
  rewrite (phase_anticommute n P_t P_k wf_t wf_k anti_tk).
  set (g := Cipow (phase_exp n P_k P_t)).
  set (theta := theta_spec beta_s beta_k).
  destruct (Rltb _ 0); cbn [fst snd map coef].
  - replace (- theta / 2) with (- (theta / 2)) by field.
    rewrite cos_neg, sin_neg.
    destruct (row_eqb (identity_row n) p), (row_eqb (map2 xorb P_t P_k) p),
      (row_eqb P_t p), (row_eqb P_k p), g; csimp.
  - destruct (row_eqb (identity_row n) p), (row_eqb (map2 xorb P_t P_k) p),
      (row_eqb P_t p), (row_eqb P_k p), g; csimp.
Qed.

Lemma pair_as_den (b beta : R) (Rest : PauliwordOp) :
  op_equiv ((P_t, RtoC b) :: (P_k, RtoC beta) :: Rest)
           (den n S H (mkQ4 C0 (RtoC b) (RtoC beta) C0) ++ Rest).
Proof.
  intros p. rewrite coef_app, coef_den, !coef_cons. cbn [qI qS qH qK].
  unfold S, H. cbn [coef].
  destruct (row_eqb P_t p), (row_eqb P_k p); ring.
Qed.

Lemma rest_commutes (Rest : PauliwordOp) :
  wf_op n Rest -> anti_with n P_t Rest -> anti_with n P_k Rest ->
  op_equiv (mul_stack n (K n S H) Rest) (mul_stack n Rest (K n S H)).
Proof.
  intros Hwf Ht Hk. apply commute_ops; auto.
  - apply wf_op_mul_stack; [apply partner_wf | apply target_wf].
  - intros t u Hin Hu. unfold K, S, H, mul_stack in Hin. simpl in Hin.
    destruct Hin as [<- | []]. unfold mul_symplectic. cbn [fst].
    unfold anti_with in *. rewrite Forall_forall in *.
    unfold wf_op in Hwf. rewrite Forall_forall in Hwf.
    apply commutes_product; auto.
Qed.

(** The rotation adds the partner to the target and leaves the rest. *)
Lemma step_sound (beta_s beta_k : R) (Rest : PauliwordOp) :
  not_both_zero beta_s beta_k ->
  wf_op n Rest -> anti_with n P_t Rest -> anti_with n P_k Rest ->
  let r := rotation_spec n P_t beta_s P_k beta_k in
  op_equiv (conj_stack n (rotation_operator n (fst r) (snd r))
                       ((P_t, RtoC beta_s) :: (P_k, RtoC beta_k) :: Rest))
           ((P_t, RtoC (sqrt (beta_s ^ 2 + beta_k ^ 2))) :: Rest).
Proof.
  intros Hs Hwf Ht Hk. cbv zeta.
  rewrite (recorded_rotation beta_s beta_k), (pair_as_den beta_s beta_k Rest).
  rewrite conj_stack_app.
  set (theta := theta_spec beta_s beta_k).
  pose proof (S_square n P_t wf_t) as SS.
  pose proof (H_square n H partner_wf partner_real partner_pairwise partner_norm) as HH.
  pose proof (S_H_anticommute n P_t H wf_t partner_wf partner_anti) as SH.
  pose proof (S_dagger P_t) as dS.
  pose proof (H_dagger H partner_real) as dH.
  pose proof (K_dagger n P_t H wf_t partner_wf partner_real partner_anti) as dK.
  fold S in SS, SH, dS.
  rewrite (rot_pair n S H target_wf partner_wf SS HH SH dS dH dK).
  rewrite (rot_spectator n S H target_wf partner_wf SS HH SH dS dH dK _ _ (half_unit theta)
             Rest Hwf (rest_commutes Rest Hwf Ht Hk)).
  rewrite <- (cos_half theta).
  replace (2 * sin (theta / 2) * cos (theta / 2)) with (sin theta)
    by apply sin_half.
  assert (E1 : beta_s * cos theta + beta_k * sin theta
               = sqrt (beta_s ^ 2 + beta_k ^ 2)) by exact (target_grows _ _ Hs).
  assert (E2 : beta_k * cos theta - beta_s * sin theta = 0)
    by exact (partner_zeroed _ _ Hs).
  rewrite E1, E2.
  intros p. rewrite coef_app, coef_den, coef_cons. cbn [qI qS qH qK].
  generalize (coef (I_op n) p) (coef H p) (coef (K n S H) p) (coef Rest p).
  intros [i1 i2] [h1 h2] [k1 k2] [r1 r2].
  unfold S. cbn [coef]. destruct (row_eqb P_t p); csimp.
Qed.

End Step.

(** ** The whole list of rotations *)

Lemma perform_rotations_canonical (n : nat) (op : PauliwordOp)
    (rots : list (PauliwordOp * R)) :
  rots <> [] ->
  cleanup (perform_rotations n op rots) = perform_rotations n op rots.
Proof.
  destruct rots as [|r rots] using rev_ind; [contradiction|]. intros _.
  unfold perform_rotations. rewrite fold_left_app. cbn [fold_left].
  rewrite rotate_as_product. apply cleanup_idempotent.
Qed.

Lemma rotations_spec_cons (n : nat) (P_t : row) (beta_s : R) (P_k : row) (beta_k : R)
    (rest : list (row * R)) :
  rotations_spec n P_t beta_s ((P_k, beta_k) :: rest) =
  rotation_spec n P_t beta_s P_k beta_k
    :: rotations_spec n P_t (sqrt (beta_s ^ 2 + beta_k ^ 2)) rest.
Proof. reflexivity. Qed.

(** Applied in order to [g (beta_s P_t + rest)], the recorded rotations leave
    [g] times the target with the final coefficient. *)
Lemma rotations_sound (n : nat) (P_t : row) (g : C) (rest : list (row * R)) :
  wf_row n P_t ->
  forall (beta_s : R) (op : PauliwordOp),
  startable beta_s rest ->
  wf_op n (op_of rest) -> anti_with n P_t (op_of rest) ->
  pairwise_anti n (op_of rest) ->
  op_equiv op (multiply_by_constant g ((P_t, RtoC beta_s) :: op_of rest)) ->
  op_equiv (perform_rotations n op (rotations_spec n P_t beta_s rest))
           (multiply_by_constant g [(P_t, RtoC (final_beta beta_s rest))]).
Proof.
  intros wf_t. induction rest as [|[P_k beta_k] rest IH];
    intros beta_s op Hs Hwf Hanti Hpair Hop.
  - exact Hop.
  - rewrite rotations_spec_cons. unfold perform_rotations. cbn [fold_left].
    fold (perform_rotations n
            (rotate n op (rotation_spec n P_t beta_s P_k beta_k))
            (rotations_spec n P_t (sqrt (beta_s ^ 2 + beta_k ^ 2)) rest)).
    cbn [op_of map fst snd] in Hwf, Hanti, Hpair, Hop. fold (op_of rest) in *.
    inversion Hwf as [|? ? wf_k Hwf']; subst.
    inversion Hanti as [|? ? anti_tk Hanti']; subst.
    inversion Hpair as [|? ? anti_k Hpair']; subst.
    cbn [fst snd] in wf_k, anti_tk.
    change (final_beta beta_s ((P_k, beta_k) :: rest))
      with (final_beta (sqrt (beta_s ^ 2 + beta_k ^ 2)) rest).
    apply IH; auto.
    + apply startable_nonzero, Rgt_not_eq. now apply step_grows.
    + rewrite rotate_as_product, cleanup_equiv, Hop, conj_stack_scale.
      apply scale_Proper.
      apply (step_sound n P_t P_k wf_t wf_k anti_tk beta_s beta_k (op_of rest));
        auto.
Qed.

End SeqRotSound.

(* ======================================================================== *)
(** * AntiCommutingOp: unitary_partitioning up to the choice of method *)
(* ======================================================================== *)

Module Partitioning.
Import AC PwordFacts ListFacts ACValid SeqRot.
Local Open Scope R_scope.

(** The object passed the check of [__init__]. *)
Definition is_AC (self : AntiCommutingOp) : Prop :=
  init_check (n_qubits self) (symp_matrix (terms self)) = true.

Definition real_coeffs (P : PauliwordOp) : Prop :=
  Forall (fun t => Im (snd t) = 0) P.

(** The target index: the caller's, or the default. *)
Definition resolve (self : AntiCommutingOp) (s_index : option nat) : option nat :=
  match s_index with
  | None => get_least_dense_term_index self
  | Some i => Some i
  end.

(** What a call does once the normalisation, the target and the reordering
    are settled: [sw] is the reordered operator, not yet normalised. *)
Definition dispatch (self : AntiCommutingOp) (sw : PauliwordOp) (up_method : String.string)
  : result partition * AntiCommutingOp :=
  let n := n_qubits self in
  let gamma := norm (coeff_vec (terms self)) in
  let AC_op := normalise gamma sw in
  if String.eqb up_method "seq_rot"%string then
    let self := mkAC n (terms self) [] (R_LCU self) in
    match AC_op with
    | Finite P =>
        match _recursive_seq_rotations self P with
        | (Err e, self) => (Err e, self)
        | (Ok Ps, self) =>
            (Ok (mkPart (Some (Finite Ps)) (SeqRotations (X_sk_rotations self))
                        gamma AC_op),
             self)
        end
    | _ => (Err TermNotZeroingOut, self)
    end
  else if String.eqb up_method "LCU"%string then
    let self := mkAC n (terms self) (X_sk_rotations self) None in
    match AC_op with
    | Finite P =>
        match generate_LCU_operator self P with
        | (Err e, self) => (Err e, self)
        | (Ok Ps, self) =>
            (Ok (mkPart (option_map Finite Ps) (LCURotation (R_LCU self)) gamma AC_op),
             self)
        end
    | _ =>
        (Ok (mkPart (Some (Finite [(nth 0 (symp_matrix sw) [], C1)]))
                    (LCURotation (Some NaN)) gamma AC_op),
         mkAC n (terms self) (X_sk_rotations self) (Some NaN))
    end
  else (Err UnknownMethod, self).

Lemma normalise_finite (gamma : R) (P : PauliwordOp) :
  gamma <> 0 -> normalise gamma P = Finite (div_coeffs gamma P).
Proof.
  intros Hg. unfold normalise, quotients_nan.
  destruct (Req_dec_T gamma 0) as [E | _]; [contradiction | reflexivity].
Qed.

Lemma normalise_nan (gamma : R) (P : PauliwordOp) :
  gamma = 0 -> P <> [] -> normalise gamma P = NaN.
Proof.
  intros Hg HP. unfold normalise, quotients_nan.
  destruct (Req_dec_T gamma 0) as [_ | N]; [|contradiction].
  destruct P; [contradiction | reflexivity].
Qed.

Lemma sumR_app (l1 l2 : list R) : sumR (l1 ++ l2) = sumR l1 + sumR l2.
Proof. induction l1 as [|x l1 IH]; simpl; [lra | rewrite IH; lra]. Qed.

Lemma sumR_Permutation (l1 l2 : list R) : Permutation l1 l2 -> sumR l1 = sumR l2.
Proof. induction 1; simpl; lra. Qed.

Lemma sumR_nonneg (l : list R) : Forall (fun x => 0 <= x) l -> 0 <= sumR l.
Proof. induction 1; simpl; lra. Qed.

Lemma real_sum_Im (P : PauliwordOp) :
  real_coeffs P -> sumR (map Im (coeff_vec P)) = 0.
Proof. induction 1 as [|t P Ht _ IH]; simpl; [reflexivity | rewrite Ht, IH; lra]. Qed.

Definition norm_sq (P : PauliwordOp) : R :=
  sumR (map (fun c => Re c ^ 2 + Im c ^ 2) (coeff_vec P)).

Lemma norm_sq_nonneg (P : PauliwordOp) : 0 <= norm_sq P.
Proof.
  apply sumR_nonneg. unfold coeff_vec. rewrite map_map.
  apply Forall_map, Forall_forall. intros t _.
  pose proof (pow2_ge_0 (Re (snd t))). pose proof (pow2_ge_0 (Im (snd t))). lra.
Qed.

Lemma norm_sqr (P : PauliwordOp) : norm (coeff_vec P) ^ 2 = norm_sq P.
Proof.
  unfold norm. fold (norm_sq P). rewrite <- Rsqr_pow2.
  apply Rsqr_sqrt, norm_sq_nonneg.
Qed.

Lemma norm_sq_Permutation (P Q : PauliwordOp) :
  Permutation P Q -> norm_sq P = norm_sq Q.
Proof.
  intros H. apply sumR_Permutation. unfold coeff_vec.
  now do 2 apply Permutation_map.
Qed.

Lemma norm_sq_cons (t : row * C) (P : PauliwordOp) :
  norm_sq (t :: P) = Re (snd t) ^ 2 + Im (snd t) ^ 2 + norm_sq P.
Proof. reflexivity. Qed.

Lemma norm_pos (P : PauliwordOp) (t : row * C) :
  In t P -> Re (snd t) <> 0 -> 0 < norm (coeff_vec P).
Proof.
  intros Hin Hre. unfold norm. fold (norm_sq P). apply sqrt_lt_R0.
  apply in_split in Hin. destruct Hin as [l1 [l2 ->]].
  rewrite (norm_sq_Permutation _ _ (Permutation_sym (Permutation_middle l1 l2 t))).
  rewrite norm_sq_cons.
  pose proof (norm_sq_nonneg (l1 ++ l2)). pose proof (pow2_ge_0 (Im (snd t))).
  assert (0 < Re (snd t) ^ 2) by (apply pow_lt_0_compat_l || nra). lra.
Qed.

Lemma argmin_from_lt (l : list Z) (bi : nat) (b : Z) (i : nat) :
  (bi < i)%nat -> (argmin_from bi b i l < i + length l)%nat.
Proof.
  revert bi b i. induction l as [|x l IH]; intros bi b i H; simpl.
  - lia.
  - destruct (x <? b)%Z.
    + specialize (IH i x (S i)). lia.
    + specialize (IH bi b (S i)). lia.
Qed.

Lemma argmin_lt (l : list Z) (i : nat) : argmin l = Some i -> (i < length l)%nat.
Proof.
  destruct l as [|x l]; simpl; [discriminate|].
  intros H. injection H as <-.
  pose proof (argmin_from_lt l 0 x 1). lia.
Qed.

Lemma resolve_None_lt (self : AntiCommutingOp) (i : nat) :
  resolve self None = Some i -> (i < n_terms (terms self))%nat.
Proof.
  simpl. unfold get_least_dense_term_index. intros H. apply argmin_lt in H.
  unfold int_list, symp_matrix in H. now rewrite !length_map in H.
Qed.

(** A call on an operator of at least two terms with real coefficients and
    a target in range reaches the choice of method. *)
Lemma reaches_dispatch (self : AntiCommutingOp) (s_index : option nat)
    (up_method : String.string) (i : nat) :
  is_AC self -> real_coeffs (terms self) ->
  (2 <= n_terms (terms self))%nat ->
  resolve self s_index = Some i -> (i < n_terms (terms self))%nat ->
  exists sw,
    swap0 i (terms self) = Some sw /\
    unitary_partitioning self s_index up_method = dispatch self sw up_method.
Proof.
  intros Hac Hreal Hlen Hres Hi.
  destruct (swap0_Some i (terms self)) as [sw Hsw]; [exact Hi|].
  exists sw. split; [exact Hsw|].
  unfold unitary_partitioning.
  destruct (Nat.eqb_spec (n_terms (terms self)) 1) as [E | _]; [lia|].
  rewrite (real_sum_Im _ Hreal).
  destruct (Req_dec_T 0 0) as [_ | N]; [|contradiction]. simpl negb. cbv iota.
  unfold resolve in Hres. rewrite Hres.
  assert (Esw : (if Nat.eqb i 0 then Some (terms self) else swap0 i (terms self))
                = Some sw).
  { destruct (Nat.eqb_spec i 0) as [-> | _]; [|exact Hsw].
    rewrite swap0_0 in Hsw; [exact Hsw|]. intros E. rewrite E in Hlen. simpl in Hlen. lia. }
  rewrite Esw.
  assert (Hchk : init_check (n_qubits self) (symp_matrix sw) = true).
  { apply init_check_anticommuting.
    apply (anticommuting_swap _ i (symp_matrix (terms self))).
    - unfold symp_matrix. now apply swap0_map.
    - now apply init_check_anticommuting. }
  rewrite Hchk, andb_false_r. reflexivity.
Qed.


(** ** Normalised coefficients *)

Lemma div_coeffs_real (d : R) (P : PauliwordOp) :
  real_coeffs P -> real_coeffs (div_coeffs d P).
Proof.
  unfold real_coeffs, div_coeffs. intros H. apply Forall_map.
  eapply Forall_impl; [|exact H]. simpl. intros t ->. unfold Rdiv. ring.
Qed.

Lemma real_parts_sum_squares (P : PauliwordOp) :
  real_coeffs P -> sum_squares (real_parts P) = norm_sq P.
Proof.
  unfold sum_squares, real_parts, norm_sq, coeff_vec. rewrite !map_map.
  intros H. f_equal. apply map_ext_in. intros t Ht.
  unfold real_coeffs in H. rewrite Forall_forall in H.
  cbn [fst snd]. rewrite (H t Ht). ring.
Qed.

Lemma sumR_map_scale {A} (f : A -> R) (k : R) (l : list A) :
  sumR (map (fun x => f x * k) l) = sumR (map f l) * k.
Proof. induction l as [|x l IH]; simpl; [ring | rewrite IH; ring]. Qed.

Lemma norm_sq_div (d : R) (P : PauliwordOp) :
  d <> 0 -> norm_sq (div_coeffs d P) = norm_sq P / d ^ 2.
Proof.
  intros Hd. unfold norm_sq, div_coeffs, coeff_vec. rewrite !map_map.
  transitivity (sumR (map (fun t : row * C =>
                            (Re (snd t) ^ 2 + Im (snd t) ^ 2) * / d ^ 2) P)).
  - f_equal. apply map_ext. intros t. cbn [fst snd Re Im]. field. exact Hd.
  - apply (sumR_map_scale (fun t : row * C => Re (snd t) ^ 2 + Im (snd t) ^ 2)).
Qed.

Lemma real_coeffs_Permutation (P Q : PauliwordOp) :
  Permutation P Q -> real_coeffs P -> real_coeffs Q.
Proof. intros HP. unfold real_coeffs. now apply Permutation_Forall. Qed.

(** ** The sequence-of-rotations call *)

(** The reordered operator [sw] with the target first. *)
Lemma swapped (self : AntiCommutingOp) (i : nat) (sw : PauliwordOp) :
  is_AC self -> swap0 i (terms self) = Some sw ->
  (i < n_terms (terms self))%nat /\
  Permutation (terms self) sw /\
  anticommuting (n_qubits self) (map fst sw).
Proof.
  intros Hac Hsw. split; [|split].
  - now destruct (swap0_length _ _ _ Hsw).
  - now apply swap0_Permutation with i.
  - apply (anticommuting_swap _ i (symp_matrix (terms self))).
    + unfold symp_matrix. now apply swap0_map.
    + now apply init_check_anticommuting.
Qed.

Lemma not_both_zero_div (a b d : R) :
  0 < d -> not_both_zero a b -> not_both_zero (a / d) (b / d).
Proof.
  intros Hd [H | H]; [left | right]; unfold Rdiv;
    (apply Rmult_integral_contrapositive_currified;
     [exact H | apply Rinv_neq_0_compat; lra]).
Qed.

(** A call with method seq_rot on an operator with real coefficients in
    which the target and the term that follows it, once the target is first,
    do not both have the coefficient zero. *)
Theorem seq_rot_call_general (self : AntiCommutingOp) (s_index : option nat)
    (i : nat) (P_t : row) (c_t : C) (P_k : row) (c_k : C) (others : PauliwordOp) :
  is_AC self -> real_coeffs (terms self) ->
  resolve self s_index = Some i ->
  swap0 i (terms self) = Some ((P_t, c_t) :: (P_k, c_k) :: others) ->
  not_both_zero (Re c_t) (Re c_k) ->
  let sw_rest := (P_k, c_k) :: others in
  let gamma := norm (coeff_vec (terms self)) in
  let beta_s := Re c_t / gamma in
  let rest := real_parts (div_coeffs gamma sw_rest) in
  let recorded := rotations_spec (n_qubits self) P_t beta_s rest in
  0 < gamma /\
  unitary_partitioning self s_index "seq_rot"%string =
    (Ok (mkPart (Some (Finite [(P_t, RtoC 1)])) (SeqRotations recorded) gamma
                (Finite (div_coeffs gamma ((P_t, c_t) :: sw_rest)))),
     mkAC (n_qubits self) (terms self) recorded (R_LCU self)) /\
  length recorded = (n_terms (terms self) - 1)%nat /\
  Forall (fun st => not_both_zero (fst st) (snd (snd st)) /\
                    partner_after (fst st) (snd (snd st)) = 0)
         (steps_spec beta_s rest).
Proof.
  intros Hac Hreal Hres Hsw Hnz. cbv zeta.
  destruct (swapped self i _ Hac Hsw) as [Hi [Hperm Hanti]].
  assert (Hlen : (2 <= n_terms (terms self))%nat).
  { apply Permutation_length in Hperm. unfold n_terms. rewrite Hperm. simpl. lia. }
  destruct (reaches_dispatch self s_index "seq_rot"%string i Hac Hreal Hlen Hres Hi)
    as [sw [Hsw' Hcall]].
  rewrite Hsw in Hsw'. injection Hsw' as <-.
  set (gamma := norm (coeff_vec (terms self))).
  assert (Hg : 0 < gamma).
  { destruct Hnz as [Hre | Hre].
    - apply (norm_pos (terms self) (P_t, c_t)); [|exact Hre].
      apply (Permutation_in _ (Permutation_sym Hperm)). now left.
    - apply (norm_pos (terms self) (P_k, c_k)); [|exact Hre].
      apply (Permutation_in _ (Permutation_sym Hperm)). right. now left. }
  assert (Hreal' : real_coeffs ((P_t, c_t) :: (P_k, c_k) :: others))
    by (eapply real_coeffs_Permutation; eauto).
  assert (Hstart : startable (Re c_t / gamma)
                     (real_parts (div_coeffs gamma ((P_k, c_k) :: others)))).
  { cbn [div_coeffs real_parts map fst snd Re startable].
    now apply not_both_zero_div. }
  split; [exact Hg|]. split; [|split].
  - rewrite Hcall. unfold dispatch. fold gamma. simpl String.eqb. cbv iota.
    rewrite normalise_finite by lra.
    unfold _recursive_seq_rotations.
    cbn [div_coeffs map fst snd n_qubits X_sk_rotations Re Im].
    fold (div_coeffs gamma others).
    change ((P_k, mkC (Re c_k / gamma) (Im c_k / gamma)) :: div_coeffs gamma others)
      with (div_coeffs gamma ((P_k, c_k) :: others)).
    rewrite seq_rot_from_ok; cbn [fst snd Re Im]; auto.
    2:{ inversion Hreal' as [|? ? Him _]; subst. simpl in Him. rewrite Him.
        unfold Rdiv. ring. }
    cbn [app R_LCU terms].
    assert (Hfin : final_beta (Re c_t / gamma)
                     (real_parts (div_coeffs gamma ((P_k, c_k) :: others))) = 1).
    { rewrite final_beta_norm by discriminate.
      inversion Hreal' as [|? ? Him Hreal'']; subst. simpl in Him.
      rewrite real_parts_sum_squares by now apply div_coeffs_real.
      rewrite norm_sq_div by lra.
      assert (Hn : norm_sq (terms self)
                   = Re c_t ^ 2 + norm_sq ((P_k, c_k) :: others)).
      { rewrite (norm_sq_Permutation _ _ Hperm), norm_sq_cons. simpl fst. simpl snd.
        rewrite Him. ring. }
      pose proof (norm_sqr (terms self)) as Hsq. fold gamma in Hsq.
      replace ((Re c_t / gamma) ^ 2 + norm_sq ((P_k, c_k) :: others) / gamma ^ 2)
        with ((Re c_t ^ 2 + norm_sq ((P_k, c_k) :: others)) / gamma ^ 2)
        by (field; lra).
      rewrite <- Hn, <- Hsq. unfold Rdiv. rewrite Rinv_r by (apply pow_nonzero; lra).
      apply sqrt_1. }
    rewrite Hfin. reflexivity.
  - unfold rotations_spec. rewrite length_map, length_steps_spec.
    unfold real_parts, div_coeffs. rewrite !length_map.
    apply Permutation_length in Hperm. unfold n_terms. rewrite Hperm. simpl. lia.
  - now apply steps_spec_zeroed.
Qed.

(** The same with a nonzero coefficient of the target. *)
Theorem seq_rot_call (self : AntiCommutingOp) (s_index : option nat)
    (i : nat) (P_t : row) (c_t : C) :
  is_AC self -> real_coeffs (terms self) ->
  (2 <= n_terms (terms self))%nat ->
  resolve self s_index = Some i ->
  nth_error (terms self) i = Some (P_t, c_t) ->
  Re c_t <> 0 ->
  exists sw_rest,
    swap0 i (terms self) = Some ((P_t, c_t) :: sw_rest) /\
    let gamma := norm (coeff_vec (terms self)) in
    let beta_s := Re c_t / gamma in
    let rest := real_parts (div_coeffs gamma sw_rest) in
    let recorded := rotations_spec (n_qubits self) P_t beta_s rest in
    unitary_partitioning self s_index "seq_rot"%string =
      (Ok (mkPart (Some (Finite [(P_t, RtoC 1)])) (SeqRotations recorded) gamma
                  (Finite (div_coeffs gamma ((P_t, c_t) :: sw_rest)))),
       mkAC (n_qubits self) (terms self) recorded (R_LCU self)) /\
    length recorded = (n_terms (terms self) - 1)%nat /\
    Forall (fun st => not_both_zero (fst st) (snd (snd st)) /\
                      partner_after (fst st) (snd (snd st)) = 0)
           (steps_spec beta_s rest).
Proof.
  intros Hac Hreal Hlen Hres Hnth Hre.
  assert (Hi : (i < n_terms (terms self))%nat).
  { apply nth_error_Some. unfold n_terms. congruence. }
  destruct (swap0_Some i (terms self) Hi) as [sw Hsw].
  destruct (swap0_head (P_t, c_t) i _ _ Hsw) as [sw_rest Hhead].
  rewrite (nth_error_nth _ _ _ Hnth) in Hhead. subst sw.
  destruct sw_rest as [|[P_k c_k] others].
  { apply swap0_Permutation, Permutation_length in Hsw.
    unfold n_terms in Hlen. rewrite Hsw in Hlen. simpl in Hlen. lia. }
  exists ((P_k, c_k) :: others). split; [exact Hsw|].
  destruct (seq_rot_call_general self s_index i P_t c_t P_k c_k others
              Hac Hreal Hres Hsw (or_introl Hre)) as [_ H].
  exact H.
Qed.


(** ** The caches *)

Lemma LCU_keeps_rotations (self : AntiCommutingOp) (AC_op : PauliwordOp) :
  X_sk_rotations (snd (generate_LCU_operator self AC_op)) = X_sk_rotations self.
Proof.
  unfold generate_LCU_operator. destruct AC_op as [|s [|k rest]]; simpl; auto.
  repeat match goal with
         | |- context [if ?b then _ else _] => destruct b; simpl; auto
         end.
Qed.

Lemma seq_rot_keeps_R_LCU (self : AntiCommutingOp) (AC_op : PauliwordOp) :
  R_LCU (snd (_recursive_seq_rotations self AC_op)) = R_LCU self.
Proof.
  unfold _recursive_seq_rotations. destruct AC_op as [|s rest]; simpl; auto.
  destruct (seq_rot_from _ _ _ _). reflexivity.
Qed.

End Partitioning.

(* ======================================================================== *)
(** * The LCU operator reduces the operator to its target term *)
(* ======================================================================== *)

Module LCUSound.
Import AC PwordFacts SympFacts ListFacts OpAlgebra Conjugation OpLaws Canonical.
Import ACValid AntiFamily TwoInvolutions RotationAlgebra SeqRot SeqRotSound Partitioning.
Local Open Scope R_scope.

(** ** [cleanup] on terms with distinct rows *)

Lemma insert_term_fresh (t : row * C) (P : PauliwordOp) :
  ~ In (fst t) (map fst P) -> Permutation (insert_term t P) (t :: P).
Proof.
  induction P as [|u P IH]; intros Hn; [reflexivity|].
  cbn [insert_term]. cbn [map In] in Hn.
  destruct (row_eqb (fst t) (fst u)) eqn:E.
  - apply row_eqb_true in E. exfalso. apply Hn. left. now symmetry.
  - destruct (row_ltb (fst t) (fst u)); [reflexivity|].
    rewrite IH by tauto. apply perm_swap.
Qed.

Lemma merge_terms_Permutation (P : PauliwordOp) :
  NoDup (map fst P) -> Permutation (merge_terms P) P.
Proof.
  induction P as [|t P IH]; intros Hnd; [reflexivity|].
  inversion Hnd as [|? ? Hnotin Hnd']; subst.
  change (merge_terms (t :: P)) with (insert_term t (merge_terms P)).
  rewrite insert_term_fresh.
  - constructor. now apply IH.
  - intros Hin. apply Hnotin. now apply merge_terms_keys.
Qed.

Lemma norm_sq_drop_zero (P : PauliwordOp) :
  norm_sq (filter (fun t => Cnonzero (snd t)) P) = norm_sq P.
Proof.
  induction P as [|[k c] P IH]; [reflexivity|].
  cbn [filter snd]. destruct (Cnonzero c) eqn:E.
  - rewrite !norm_sq_cons, IH. reflexivity.
  - apply Cnonzero_false in E. subst c. rewrite norm_sq_cons, IH. simpl. ring.
Qed.

Lemma norm_sq_cleanup (P : PauliwordOp) :
  NoDup (map fst P) -> norm_sq (cleanup P) = norm_sq P.
Proof.
  intros Hnd. unfold cleanup. rewrite norm_sq_drop_zero.
  apply norm_sq_Permutation. now apply merge_terms_Permutation.
Qed.

Lemma pairwise_anti_NoDup (n : nat) (P : PauliwordOp) :
  pairwise_anti n P -> NoDup (map fst P).
Proof.
  induction 1 as [|t P Ht _ IH]; cbn [map]; constructor; [|exact IH].
  intros Hin. apply in_map_iff in Hin. destruct Hin as [u [Eu Hu]].
  rewrite Forall_forall in Ht. specialize (Ht u Hu).
  rewrite Eu, commutes_refl in Ht. discriminate.
Qed.

Lemma norm_sq_zero_nil (P : PauliwordOp) :
  norm_sq (cleanup P) = 0 -> cleanup P = [].
Proof.
  destruct (cleanup P) as [|[k c] Q] eqn:E; [reflexivity|]. intros Hz.
  assert (Hin : In (k, c) (cleanup P)) by (rewrite E; now left).
  apply In_cleanup in Hin. destruct Hin as [_ [_ Hc]].
  rewrite norm_sq_cons in Hz. cbn [snd] in Hz.
  pose proof (norm_sq_nonneg Q). pose proof (pow2_ge_0 (Re c)).
  pose proof (pow2_ge_0 (Im c)).
  exfalso. apply Hc. apply C_eq; simpl; nra.
Qed.

Lemma norm_zero_iff (P : PauliwordOp) : norm (coeff_vec P) = 0 <-> norm_sq P = 0.
Proof.
  rewrite <- norm_sqr. split; intros H.
  - rewrite H. ring.
  - nra.
Qed.

Lemma div_coeffs_scale (d : R) (P : PauliwordOp) :
  div_coeffs d P = multiply_by_constant (RtoC (/ d)) P.
Proof.
  unfold div_coeffs, multiply_by_constant. apply map_ext. intros [k [re im]].
  cbn [fst snd Re Im]. f_equal. apply C_eq; simpl; unfold Rdiv; ring.
Qed.

(** ** The operator built by the loop *)

Lemma LCU_loop_equiv (n : nat) (Ps_LCU : PauliwordOp) (c : C) (Hs : PauliwordOp) :
  forall acc,
  op_equiv
    (fold_left
       (fun R_acc dkPk => add R_acc (multiply_by_constant c (mul n [dkPk] Ps_LCU)))
       Hs acc)
    (acc ++ multiply_by_constant c (mul_stack n Hs Ps_LCU)).
Proof.
  induction Hs as [|d Hs IH]; intros acc.
  - cbn [fold_left]. intros p. rewrite coef_app, coef_scale, coef_mul_nil_l. ring.
  - cbn [fold_left]. rewrite IH. intros p.
    rewrite !coef_app, !coef_scale.
    unfold add. rewrite coef_cleanup, coef_app, coef_scale.
    rewrite (mul_is_mul_stack n [d] Ps_LCU p).
    change (d :: Hs) with ([d] ++ Hs). rewrite coef_mul_app_l. ring.
Qed.

Lemma LCU_R_equiv (n : nat) (Ps_LCU : PauliwordOp) (alpha : R) (Hs : PauliwordOp) :
  op_equiv (LCU_R n Ps_LCU alpha Hs)
           ([(identity_row n, RtoC (cos (alpha / 2)))]
              ++ multiply_by_constant (RtoC (- sin (alpha / 2)))
                   (mul_stack n Hs Ps_LCU)).
Proof. unfold LCU_R. apply LCU_loop_equiv. Qed.

(** ** Rescaling keeps the rows *)

Lemma scale_rows (c : C) (P : PauliwordOp) :
  map fst (multiply_by_constant c P) = map fst P.
Proof. unfold multiply_by_constant. rewrite map_map. reflexivity. Qed.

Lemma wf_op_rows (n : nat) (P : PauliwordOp) :
  wf_op n P <-> Forall (wf_row n) (map fst P).
Proof. unfold wf_op. now rewrite Forall_map. Qed.

Lemma anti_with_rows (n : nat) (a : row) (P : PauliwordOp) :
  anti_with n a P <-> Forall (fun r => commutes n a r = false) (map fst P).
Proof. unfold anti_with. now rewrite Forall_map. Qed.

Lemma ForallOrdPairs_map {A B} (f : A -> B) (Rel : B -> B -> Prop) (l : list A) :
  ForallOrdPairs Rel (map f l) <-> ForallOrdPairs (fun x y => Rel (f x) (f y)) l.
Proof.
  induction l as [|x l IH]; cbn [map].
  - split; constructor.
  - split; intros Hp; inversion Hp; subst; constructor;
      try (now apply IH); now rewrite Forall_map in *.
Qed.

Lemma pairwise_anti_rows (n : nat) (P : PauliwordOp) :
  pairwise_anti n P <->
  ForallOrdPairs (fun a b => commutes n a b = false) (map fst P).
Proof. unfold pairwise_anti. now rewrite ForallOrdPairs_map. Qed.

Lemma real_op_scale (x : R) (P : PauliwordOp) :
  real_op P -> real_op (multiply_by_constant (RtoC x) P).
Proof.
  unfold real_op, multiply_by_constant. intros Hr. apply Forall_map.
  eapply Forall_impl; [|exact Hr]. intros [k [re im]]. simpl. intros ->. ring.
Qed.

Lemma sq_norm_real (P : PauliwordOp) : real_op P -> sq_norm P = norm_sq P.
Proof.
  unfold sq_norm, norm_sq, coeff_vec. rewrite map_map. intros Hr.
  f_equal. apply map_ext_in. intros t Ht.
  unfold real_op in Hr. rewrite Forall_forall in Hr. rewrite (Hr t Ht). ring.
Qed.

Lemma norm_sq_scale (x : R) (P : PauliwordOp) :
  norm_sq (multiply_by_constant (RtoC x) P) = norm_sq P * x ^ 2.
Proof.
  unfold norm_sq, multiply_by_constant, coeff_vec. rewrite !map_map.
  rewrite <- (sumR_map_scale (fun t : row * C => Re (snd t) ^ 2 + Im (snd t) ^ 2)).
  f_equal. apply map_ext. intros [k [re im]]. simpl. ring.
Qed.

Lemma generate_LCU_two (self : AntiCommutingOp) (s k : row * C) (rest : PauliwordOp) :
  generate_LCU_operator self (s :: k :: rest) =
  let n := n_qubits self in
  let AC_op := s :: k :: rest in
  let Ps_LCU := [(fst s, C1)] in
  let no_bsPs := sub AC_op (multiply_by_constant (snd s) Ps_LCU) in
  let omega_l := norm (coeff_vec no_bsPs) in
  if (if Req_dec_T omega_l 0 then true else false) && negb (Nat.eqb (n_terms no_bsPs) 0)
  then (Ok (Some Ps_LCU), mkAC n (terms self) (X_sk_rotations self) (Some NaN)) else
  if Rltb (Re (snd s)) (-1) || Rltb 1 (Re (snd s))
  then (Ok (Some Ps_LCU),
        mkAC n (terms self) (X_sk_rotations self) (Some ComplexAngle)) else
  let phi_n_1 := acos (Re (snd s)) in
  let alpha := if Rltb PI phi_n_1 then 2 * PI - phi_n_1 else phi_n_1 in
  (Ok (Some Ps_LCU),
   mkAC n (terms self) (X_sk_rotations self)
        (Some (Finite (LCU_R n Ps_LCU alpha (div_coeffs omega_l no_bsPs))))).
Proof. reflexivity. Qed.

(** ** The normalised operator [b P_t + t] *)

Section Normalised.

Variable n : nat.
Variable P_t : row.
Variable b : C.
Variable t : PauliwordOp.
Hypothesis wf_t : wf_row n P_t.
Hypothesis wf_rest : wf_op n t.
Hypothesis real_b : Im b = 0.
Hypothesis real_rest : real_op t.
Hypothesis anti_t : anti_with n P_t t.
Hypothesis pair_rest : pairwise_anti n t.
Hypothesis unit_norm : Re b ^ 2 + norm_sq t = 1.

Definition omega_l : R := norm (coeff_vec (cleanup t)).

Lemma no_target :
  sub ((P_t, b) :: t) (multiply_by_constant b [(P_t, C1)]) = cleanup t.
Proof.
  unfold sub. apply cleanup_canonical. intros p.
  rewrite coef_app, coef_cons, !coef_scale. simpl.
  destruct (row_eqb P_t p); ring.
Qed.

Lemma omega_sq : omega_l ^ 2 = norm_sq t.
Proof.
  unfold omega_l. rewrite norm_sqr. apply norm_sq_cleanup.
  exact (pairwise_anti_NoDup n t pair_rest).
Qed.

Lemma omega_nonneg : 0 <= omega_l.
Proof. unfold omega_l, norm. apply sqrt_pos. Qed.

Lemma beta_bounds : -1 <= Re b <= 1.
Proof. pose proof (norm_sq_nonneg t). split; nra. Qed.

Lemma omega_is_sine : sqrt (1 - (Re b)²) = omega_l.
Proof.
  replace (1 - (Re b)²) with (omega_l ^ 2)
    by (rewrite omega_sq; unfold Rsqr; lra).
  rewrite <- Rsqr_pow2. apply sqrt_Rsqr. exact omega_nonneg.
Qed.

(** The call returns the target with coefficient [1] and caches the operator. *)
Lemma generate_LCU_ok (self : AntiCommutingOp) :
  t <> [] -> n_qubits self = n ->
  generate_LCU_operator self ((P_t, b) :: t) =
  (Ok (Some [(P_t, C1)]),
   mkAC n (terms self) (X_sk_rotations self)
        (Some (Finite (LCU_R n [(P_t, C1)] (acos (Re b))
                             (div_coeffs omega_l (cleanup t)))))).
Proof.
  intros Hne Hn.
  assert (Hcons : exists k t', t = k :: t')
    by (destruct t as [|k t']; [contradiction | eauto]).
  destruct Hcons as [k [t' Et]].
  rewrite Et at 1. rewrite generate_LCU_two. rewrite <- Et, Hn.
  cbv zeta. cbn [fst snd]. rewrite no_target. fold omega_l.
  assert (G1 : (if Req_dec_T omega_l 0 then true else false)
               && negb (Nat.eqb (n_terms (cleanup t)) 0) = false).
  { destruct (Req_dec_T omega_l 0) as [E | _]; [|reflexivity].
    unfold omega_l in E. apply norm_zero_iff, norm_sq_zero_nil in E.
    rewrite E. reflexivity. }
  rewrite G1. pose proof beta_bounds as [Hlo Hhi].
  unfold Rltb.
  destruct (Rlt_dec (Re b) (-1)) as [N | _]; [lra|].
  destruct (Rlt_dec 1 (Re b)) as [N | _]; [lra|]. cbn [orb].
  destruct (Rlt_dec PI (acos (Re b))) as [N | _];
    [pose proof (acos_bound (Re b)); lra|].
  reflexivity.
Qed.

(** With no other weight, the target's coefficient is [1] and the operator
    built is the identity. *)
Lemma LCU_sound_alone :
  Re b <> -1 -> omega_l = 0 ->
  op_equiv (conj_stack n
              (LCU_R n [(P_t, C1)] (acos (Re b)) (div_coeffs omega_l (cleanup t)))
              ((P_t, b) :: t))
           [(P_t, C1)].
Proof.
  intros Hb Hw.
  assert (Hnil : cleanup t = []).
  { apply norm_sq_zero_nil, norm_zero_iff. exact Hw. }
  assert (Hone : Re b = 1).
  { pose proof omega_sq as E. rewrite Hw in E.
    assert (E' : (Re b - 1) * (Re b + 1) = 0) by nra.
    apply Rmult_integral in E'. destruct E' as [E' | E']; lra. }
  assert (Eb : b = C1) by (apply C_eq; simpl; lra).
  rewrite Hnil, Hone, acos_1.
  unfold LCU_R. cbn [div_coeffs map fold_left].
  replace (0 / 2) with 0 by field. rewrite cos_0. fold C1. fold (I_op n).
  assert (Et : op_equiv ((P_t, b) :: t) [(P_t, C1)]).
  { intros p. rewrite coef_cons, <- (cleanup_equiv t p), Hnil, Eb. simpl.
    destruct (row_eqb P_t p); ring. }
  rewrite Et. unfold conj_stack.
  assert (wfS : wf_op n [(P_t, C1)]) by (repeat constructor; exact wf_t).
  rewrite (mul_I_l n _ wfS).
  assert (Ed : op_equiv (dagger (I_op n)) (I_op n)).
  { intros p. unfold I_op. simpl. destruct (row_eqb _ _); csimp. }
  rewrite Ed. apply (mul_I_r n _ wfS).
Qed.

(** Otherwise the operator built is the rotation
    [cos (alpha/2) - sin (alpha/2) H P_t] with [H] the normalised rest, and
    [b P_t + t = cos alpha P_t + sin alpha H]. *)
Lemma LCU_sound_general :
  omega_l <> 0 ->
  op_equiv (conj_stack n
              (LCU_R n [(P_t, C1)] (acos (Re b)) (div_coeffs omega_l (cleanup t)))
              ((P_t, b) :: t))
           [(P_t, C1)].
Proof.
  intros Hw.
  set (H := multiply_by_constant (RtoC (/ omega_l)) t).
  set (S := [(P_t, C1)]).
  set (alpha := acos (Re b)).
  assert (wfS : wf_op n S) by (repeat constructor; exact wf_t).
  assert (wfH : wf_op n H) by (apply wf_op_scale; exact wf_rest).
  assert (realH : real_op H) by (apply real_op_scale; exact real_rest).
  assert (antiH : anti_with n P_t H).
  { apply anti_with_rows. unfold H. rewrite scale_rows.
    now apply anti_with_rows. }
  assert (pairH : pairwise_anti n H).
  { apply pairwise_anti_rows. unfold H. rewrite scale_rows.
    now apply pairwise_anti_rows. }
  assert (normH : sq_norm H = 1).
  { rewrite (sq_norm_real H realH). unfold H. rewrite norm_sq_scale, <- omega_sq.
    field. exact Hw. }
  pose proof (S_square n P_t wf_t) as SS.
  pose proof (H_square n H wfH realH pairH normH) as HH.
  pose proof (S_H_anticommute n P_t H wf_t wfH antiH) as SH.
  pose proof (S_dagger P_t) as dS.
  pose proof (H_dagger H realH) as dH.
  pose proof (K_dagger n P_t H wf_t wfH realH antiH) as dK.
  fold S in SS, SH, dS.
  assert (ER : op_equiv (LCU_R n S alpha (div_coeffs omega_l (cleanup t)))
                        (den n S H (rot (cos (alpha / 2)) (sin (alpha / 2))))).
  { rewrite LCU_R_equiv, div_coeffs_scale, (cleanup_equiv t). fold H.
    intros p. rewrite coef_app, coef_scale, coef_den.
    unfold rot. cbn [qI qS qH qK]. fold (K n S H). unfold I_op. cbn [coef].
    generalize (coef S p) (coef H p) (coef (K n S H) p).
    intros [s1 s2] [h1 h2] [k1 k2].
    destruct (row_eqb (identity_row n) p); csimp. }
  assert (EA : op_equiv ((P_t, b) :: t)
                        (den n S H (mkQ4 C0 (RtoC (Re b)) (RtoC omega_l) C0))).
  { intros p. rewrite coef_cons, coef_den. cbn [qI qS qH qK].
    unfold H. rewrite coef_scale. unfold S. cbn [coef].
    assert (E1 : (RtoC omega_l * (RtoC (/ omega_l) * coef t p))%C = coef t p).
    { destruct (coef t p) as [t1 t2]. apply C_eq; simpl; field; exact Hw. }
    transitivity ((if row_eqb P_t p then RtoC (Re b) else C0)
                  + RtoC omega_l * (RtoC (/ omega_l) * coef t p))%C.
    - rewrite E1. f_equal. destruct (row_eqb P_t p); [|reflexivity].
      destruct b as [re im]. simpl in real_b. apply C_eq; simpl; lra.
    - generalize (RtoC omega_l * (RtoC (/ omega_l) * coef t p))%C.
      generalize (coef (I_op n) p) (coef (K n S H) p).
      intros [i1 i2] [k1 k2] [x1 x2].
      destruct (row_eqb P_t p); csimp. }
  rewrite ER, EA.
  rewrite (rot_pair n S H wfS wfH SS HH SH dS dH dK).
  rewrite <- (cos_half alpha).
  replace (2 * sin (alpha / 2) * cos (alpha / 2)) with (sin alpha)
    by apply sin_half.
  unfold alpha. rewrite (cos_acos _ beta_bounds), (sin_acos _ beta_bounds).
  rewrite omega_is_sine.
  replace (Re b * Re b + omega_l * omega_l) with 1
    by (pose proof omega_sq; nra).
  replace (omega_l * Re b - Re b * omega_l) with 0 by ring.
  intros p. rewrite coef_den. cbn [qI qS qH qK].
  generalize (coef (I_op n) p) (coef S p) (coef H p) (coef (K n S H) p).
  intros [i1 i2] [s1 s2] [h1 h2] [k1 k2]. csimp.
Qed.

(** [R (b P_t + t) R^dagger = P_t], unless the whole weight sits on the
    target with a negative sign. *)
Lemma LCU_sound :
  Re b <> -1 ->
  op_equiv (conj_stack n
              (LCU_R n [(P_t, C1)] (acos (Re b)) (div_coeffs omega_l (cleanup t)))
              ((P_t, b) :: t))
           [(P_t, C1)].
Proof.
  intros Hb. destruct (Req_dec_T omega_l 0) as [E | N].
  - now apply LCU_sound_alone.
  - now apply LCU_sound_general.
Qed.

End Normalised.

End LCUSound.

(* ======================================================================== *)
(** * The sequence of rotations on one qubit *)
(* ======================================================================== *)

Module SeqRotExamples.
Import AC PwordFacts ListFacts ACValid SeqRot Partitioning.
Local Open Scope R_scope.

Definition Xrow : row := [true; false].
Definition Zrow : row := [false; true].
Definition Yrow : row := [true; true].

(** The clique [{X: 3, Z: 4}] and the zero operator [{X: 0, Z: 0}]. *)
Definition A34 : AntiCommutingOp := mkAC 1 [(Xrow, RtoC 3); (Zrow, RtoC 4)] [] None.
Definition A00 : AntiCommutingOp := mkAC 1 [(Xrow, RtoC 0); (Zrow, RtoC 0)] [] None.

(** The clique [{X: 0, Z: 1}], whose target [X] has the coefficient zero. *)
Definition A01 : AntiCommutingOp := mkAC 1 [(Xrow, RtoC 0); (Zrow, RtoC 1)] [] None.

Lemma Rltb_true (x y : R) : x < y -> Rltb x y = true.
Proof. intros H. unfold Rltb. destruct (Rlt_dec x y); [reflexivity | contradiction]. Qed.

Lemma Rltb_false (x y : R) : ~ x < y -> Rltb x y = false.
Proof. intros H. unfold Rltb. destruct (Rlt_dec x y); [contradiction | reflexivity]. Qed.

Lemma norm_34 : norm (coeff_vec (terms A34)) = 5.
Proof.
  unfold norm. simpl.
  replace (3 * (3 * 1) + 0 * (0 * 1) + (4 * (4 * 1) + 0 * (0 * 1) + 0))
    with (5 * 5) by ring.
  apply sqrt_square. lra.
Qed.

Lemma norm_00 : norm (coeff_vec (terms A00)) = 0.
Proof.
  unfold norm. simpl.
  replace (0 * (0 * 1) + 0 * (0 * 1) + (0 * (0 * 1) + 0 * (0 * 1) + 0)) with 0 by ring.
  apply sqrt_0.
Qed.

(** The generator [-i X Z] is [-Y]: its sign is flipped and the angle
    [arctan (4/3)] is recorded negated. *)
Lemma rotation_34 :
  theta_spec (3 / 5) (4 / 5) = atan (4 / 3) /\
  generator_spec 1 Xrow Zrow = (Yrow, (- C1)%C) /\
  rotation_spec 1 Xrow (3 / 5) Zrow (4 / 5) = ([(Yrow, C1)], - atan (4 / 3)).
Proof.
  assert (Ht : theta_spec (3 / 5) (4 / 5) = atan (4 / 3)).
  { unfold theta_spec. destruct (Req_dec_T (3 / 5) 0) as [E | _]; [lra|].
    rewrite Rltb_false by lra. f_equal. field. }
  assert (Hg : generator_spec 1 Xrow Zrow = (Yrow, (- C1)%C)).
  { unfold generator_spec, mul_symplectic. cbn -[Cmul Copp]. f_equal. csimp. }
  repeat split; auto.
  unfold rotation_spec. rewrite Hg, Ht. cbn [fst snd].
  rewrite Rltb_true by (simpl; lra). repeat f_equal. csimp.
Qed.

Lemma norm_01 : norm (coeff_vec (terms A01)) = 1.
Proof.
  unfold norm. simpl.
  replace (0 * (0 * 1) + 0 * (0 * 1) + (1 * (1 * 1) + 0 * (0 * 1) + 0)) with 1 by ring.
  apply sqrt_1.
Qed.

(** At the boundary the angle computed is [pi/2]; it is recorded as
    [-pi/2] about [+Y]. *)
Lemma rotation_01 :
  theta_spec (0 / 1) (1 / 1) = PI / 2 /\
  rotation_spec 1 Xrow (0 / 1) Zrow (1 / 1) = ([(Yrow, C1)], - (PI / 2)).
Proof.
  assert (Ht : theta_spec (0 / 1) (1 / 1) = PI / 2).
  { unfold theta_spec. destruct (Req_dec_T (0 / 1) 0) as [_ | N]; [|exfalso; lra].
    now rewrite Rltb_false by lra. }
  split; [exact Ht|].
  unfold rotation_spec. rewrite (proj1 (proj2 rotation_34)), Ht. cbn [fst snd].
  rewrite Rltb_true by (simpl; lra). repeat f_equal. csimp.
Qed.

End SeqRotExamples.
(* ======================================================================== *)
(** * AntiCommutingOp: the cached recipes across calls *)
(* ======================================================================== *)

Module Caches.
Import AC PwordFacts ListFacts ACValid SeqRot Partitioning.
Local Open Scope R_scope.

(** The same operator with nothing cached. *)
Definition fresh (self : AntiCommutingOp) : AntiCommutingOp :=
  mkAC (n_qubits self) (terms self) [] None.

(** The operator with the target at index [i] put first. *)
Definition target_first (self : AntiCommutingOp) (i : nat) : option PauliwordOp :=
  if Nat.eqb i 0 then Some (terms self) else swap0 i (terms self).

(** The call gets as far as the choice of the method: the operator has not
    exactly one term, the imaginary parts of its coefficients sum to zero, a
    target index is found; and when that index is not [0] it is inside the
    operator and the reordered operator passes the check of the
    constructor. *)
Definition reaches_choice (self : AntiCommutingOp) (s_index : option nat) : Prop :=
  n_terms (terms self) <> 1%nat /\
  sumR (map Im (coeff_vec (terms self))) = 0 /\
  exists i sw,
    resolve self s_index = Some i /\
    target_first self i = Some sw /\
    (i = 0%nat \/ init_check (n_qubits self) (symp_matrix sw) = true).

(** An object that passed the check of the constructor, with real
    coefficients, at least two terms and a target inside it, is such. *)
Lemma reaches_choice_AC (self : AntiCommutingOp) (s_index : option nat) (i : nat) :
  is_AC self -> real_coeffs (terms self) ->
  (2 <= n_terms (terms self))%nat ->
  resolve self s_index = Some i -> (i < n_terms (terms self))%nat ->
  reaches_choice self s_index.
Proof.
  intros Hac Hreal Hlen Hres Hi. split; [lia|]. split; [now apply real_sum_Im|].
  destruct (swap0_Some i (terms self) Hi) as [sw Hsw].
  destruct (Nat.eqb_spec i 0) as [E | N].
  - exists i, (terms self). unfold target_first. rewrite E. simpl.
    split; [now rewrite <- E | split; [reflexivity | now left]].
  - exists i, sw. unfold target_first. rewrite (proj2 (Nat.eqb_neq i 0) N).
    split; [exact Hres | split; [exact Hsw | right]].
    apply init_check_anticommuting.
    apply (anticommuting_swap _ i (symp_matrix (terms self))).
    + unfold symp_matrix. now apply swap0_map.
    + now apply init_check_anticommuting.
Qed.

(** The two ways of a call: to the choice of the method, or back to the
    caller with the object as it was. *)
Lemma call_paths (self : AntiCommutingOp) (s_index : option nat)
    (up_method : String.string) :
  (reaches_choice self s_index /\
   exists i sw, resolve self s_index = Some i /\ target_first self i = Some sw /\
     unitary_partitioning self s_index up_method = dispatch self sw up_method) \/
  (~ reaches_choice self s_index /\
   snd (unitary_partitioning self s_index up_method) = self).
Proof.
  unfold unitary_partitioning.
  destruct (Nat.eqb_spec (n_terms (terms self)) 1) as [E1 | N1].
  { right. split; [|reflexivity]. intros [H _]. contradiction. }
  destruct (Req_dec_T (sumR (map Im (coeff_vec (terms self)))) 0) as [Eim | Nim];
    cbn [negb].
  2:{ right. split; [|reflexivity]. intros [_ [H _]]. contradiction. }
  fold (resolve self s_index).
  destruct (resolve self s_index) as [i|] eqn:Eres.
  2:{ right. split; [|reflexivity]. intros [_ [_ [i [sw [H _]]]]].
      rewrite Eres in H. discriminate. }
  fold (target_first self i).
  destruct (target_first self i) as [sw|] eqn:Esw.
  2:{ right. split; [|reflexivity]. intros [_ [_ [j [sw [Hj [Hsw _]]]]]].
      rewrite Eres in Hj. injection Hj as <-. rewrite Esw in Hsw. discriminate. }
  destruct (Nat.eqb_spec i 0) as [E0 | N0]; cbn [negb andb].
  { left. split.
    - split; [exact N1|]. split; [exact Eim|]. exists i, sw.
      split; [exact Eres | split; [exact Esw | now left]].
    - exists i, sw. split; [reflexivity | split; [exact Esw | reflexivity]]. }
  destruct (init_check (n_qubits self) (symp_matrix sw)) eqn:Echk; cbn [negb].
  - left. split.
    + split; [exact N1|]. split; [exact Eim|]. exists i, sw.
      split; [exact Eres | split; [exact Esw | now right]].
    + exists i, sw. split; [reflexivity | split; [exact Esw | reflexivity]].
  - right. split; [|reflexivity].
    intros [_ [_ [j [sw' [Hj [Hsw [Hz | Hc]]]]]]]; rewrite Eres in Hj.
    + injection Hj as <-. contradiction.
    + injection Hj as <-. rewrite Esw in Hsw. injection Hsw as <-. congruence.
Qed.

(** What does not depend on the caches. *)
Lemma paths_of_fresh (self : AntiCommutingOp) (s_index : option nat) (i : nat) :
  resolve (fresh self) s_index = resolve self s_index /\
  target_first (fresh self) i = target_first self i.
Proof. destruct s_index; split; reflexivity. Qed.

Lemma reaches_choice_fresh (self : AntiCommutingOp) (s_index : option nat) :
  reaches_choice self s_index -> reaches_choice (fresh self) s_index.
Proof.
  intros [H1 [H2 [i [sw [Hres [Hsw Hc]]]]]]. split; [exact H1|]. split; [exact H2|].
  exists i, sw. destruct (paths_of_fresh self s_index i) as [-> ->]. auto.
Qed.

(** ** After the choice *)

Lemma seq_rot_from_appends (n : nat) (rest : PauliwordOp) :
  forall (s : row * C) (rots : list (PauliwordOp * R)),
  fst (seq_rot_from n s rest rots) = fst (seq_rot_from n s rest []) /\
  snd (seq_rot_from n s rest rots) = rots ++ snd (seq_rot_from n s rest []).
Proof.
  induction rest as [|k rest IH]; intros s rots; cbn [seq_rot_from].
  - split; [reflexivity | now rewrite app_nil_r].
  - destruct (seq_rot_step n s k) as [[rot s']|e]; cbn [fst snd].
    + destruct (IH s' (rots ++ [rot])) as [E1 E2].
      destruct (IH s' ([] ++ [rot])) as [E3 E4].
      split; [congruence|]. rewrite E2, E4, <- app_assoc. reflexivity.
    + split; [reflexivity | now rewrite app_nil_r].
Qed.

(** The call with method seq_rot, from the choice on: the rotations cached
    are those recorded from an empty list, and they are the ones
    returned. *)
Lemma dispatch_seq_rot (self : AntiCommutingOp) (sw : PauliwordOp) :
  let after := dispatch self sw "seq_rot"%string in
  R_LCU (snd after) = R_LCU self /\
  X_sk_rotations (snd after)
    = X_sk_rotations (snd (dispatch (fresh self) sw "seq_rot"%string)) /\
  forall part, fst after = Ok part -> rots part = SeqRotations (X_sk_rotations (snd after)).
Proof.
  cbv zeta. unfold dispatch, fresh. simpl String.eqb. cbv iota.
  cbn [n_qubits terms X_sk_rotations R_LCU].
  destruct (normalise (norm (coeff_vec (terms self))) sw) as [P | |];
    try (split; [reflexivity | split; [reflexivity | discriminate]]).
  unfold _recursive_seq_rotations. cbn [n_qubits terms X_sk_rotations R_LCU].
  destruct P as [|s rest];
    [split; [reflexivity | split; [reflexivity | discriminate]]|].
  destruct (seq_rot_from (n_qubits self) s rest []) as [[Ps | e] rots];
    cbn [fst snd X_sk_rotations R_LCU].
  - split; [reflexivity | split; [reflexivity|]].
    intros part E. injection E as <-. reflexivity.
  - split; [reflexivity | split; [reflexivity | discriminate]].
Qed.

(** The call with method LCU, from the choice on. *)
Lemma dispatch_LCU (self : AntiCommutingOp) (sw : PauliwordOp) :
  let after := dispatch self sw "LCU"%string in
  X_sk_rotations (snd after) = X_sk_rotations self /\
  R_LCU (snd after) = R_LCU (snd (dispatch (fresh self) sw "LCU"%string)) /\
  forall part, fst after = Ok part -> rots part = LCURotation (R_LCU (snd after)).
Proof.
  cbv zeta. unfold dispatch, fresh. simpl String.eqb. cbv iota.
  cbn [n_qubits terms X_sk_rotations R_LCU].
  destruct (normalise (norm (coeff_vec (terms self))) sw) as [P | |];
    cbn [fst snd X_sk_rotations R_LCU];
    try (split; [reflexivity | split; [reflexivity|]];
         intros part E; injection E as <-; reflexivity).
  unfold generate_LCU_operator. cbn [n_qubits terms X_sk_rotations R_LCU].
  destruct P as [|s [|k rest]]; cbn [fst snd X_sk_rotations R_LCU].
  - split; [reflexivity | split; [reflexivity | discriminate]].
  - split; [reflexivity | split; [reflexivity|]].
    intros part E. injection E as <-. reflexivity.
  - repeat match goal with
           | |- context [if ?b then _ else _] => destruct b
           end; cbn [fst snd X_sk_rotations R_LCU];
      (split; [reflexivity | split; [reflexivity|]];
       intros part E; injection E as <-; reflexivity).
Qed.

Lemma dispatch_unknown (self : AntiCommutingOp) (sw : PauliwordOp)
    (up_method : String.string) :
  up_method <> "seq_rot"%string -> up_method <> "LCU"%string ->
  dispatch self sw up_method = (Err UnknownMethod, self).
Proof.
  intros Hs Hl. unfold dispatch.
  rewrite (proj2 (String.eqb_neq _ _) Hs), (proj2 (String.eqb_neq _ _) Hl).
  reflexivity.
Qed.

Lemma call_keeps_terms (self : AntiCommutingOp) (s_index : option nat)
    (up_method : String.string) :
  let self' := snd (unitary_partitioning self s_index up_method) in
  n_qubits self' = n_qubits self /\ terms self' = terms self.
Proof.
  cbv zeta.
  destruct (call_paths self s_index up_method)
    as [[_ [i [sw [_ [_ ->]]]]] | [_ ->]]; [|split; reflexivity].
  unfold dispatch.
  destruct (String.eqb up_method "seq_rot").
  { destruct (normalise _ sw) as [P | |]; try (split; reflexivity).
    unfold _recursive_seq_rotations. cbn [n_qubits terms X_sk_rotations R_LCU].
    destruct P as [|s rest]; [split; reflexivity|].
    destruct (seq_rot_from _ s rest []) as [[Ps | e] rots]; split; reflexivity. }
  destruct (String.eqb up_method "LCU"); [|split; reflexivity].
  destruct (normalise _ sw) as [P | |]; try (split; reflexivity).
  unfold generate_LCU_operator. cbn [n_qubits terms X_sk_rotations R_LCU].
  destruct P as [|s [|k rest]]; try (split; reflexivity).
  repeat match goal with
         | |- context [if ?b then _ else _] => destruct b
         end; split; reflexivity.
Qed.

End Caches.
(* ======================================================================== *)
(** * The sequence-of-rotations recipe and the caches: statements *)
(* ======================================================================== *)

Module SeqRotClaims.
Import AC PwordFacts ListFacts ACValid SeqRot Partitioning SeqRotExamples Caches.
Local Open Scope R_scope.

Lemma A34_is_AC : is_AC A34.
Proof. vm_compute. reflexivity. Qed.

Lemma A34_real : real_coeffs (terms A34).
Proof. repeat constructor. Qed.

Lemma A34_target : resolve A34 None = Some 0%nat.
Proof. vm_compute. reflexivity. Qed.




Lemma A01_is_AC : is_AC A01.
Proof. vm_compute. reflexivity. Qed.

Lemma A01_real : real_coeffs (terms A01).
Proof. repeat constructor. Qed.

(** The call on [{X: 3, Z: 4}], whatever is cached: [gamma = 5], target
    [X], one rotation, by [-arctan (4/3)] about [+Y]. *)
Lemma call_34_from (L : list (PauliwordOp * R)) (Rl : option float_op) :
  unitary_partitioning (mkAC 1 (terms A34) L Rl) None "seq_rot"%string =
  (Ok (mkPart (Some (Finite [(Xrow, RtoC 1)]))
              (SeqRotations [([(Yrow, C1)], - atan (4 / 3))]) 5
              (Finite (div_coeffs 5 (terms A34)))),
   mkAC 1 (terms A34) [([(Yrow, C1)], - atan (4 / 3))] Rl).
Proof.
  destruct (seq_rot_call (mkAC 1 (terms A34) L Rl) None 0 Xrow (RtoC 3)
              A34_is_AC A34_real (le_n 2) A34_target eq_refl)
    as [sw_rest [Hsw [Hcall _]]].
  { simpl. lra. }
  simpl in Hsw. injection Hsw as <-.
  cbv zeta in Hcall. cbn [terms n_qubits R_LCU] in Hcall. rewrite norm_34 in Hcall.
  unfold rotations_spec, real_parts, div_coeffs in Hcall.
  cbn [map steps_spec fst snd Re Im RtoC] in Hcall.
  rewrite (proj2 (proj2 rotation_34)) in Hcall. exact Hcall.
Qed.

Lemma call_34 :
  unitary_partitioning A34 None "seq_rot"%string =
  (Ok (mkPart (Some (Finite [(Xrow, RtoC 1)]))
              (SeqRotations [([(Yrow, C1)], - atan (4 / 3))]) 5
              (Finite (div_coeffs 5 (terms A34)))),
   mkAC 1 (terms A34) [([(Yrow, C1)], - atan (4 / 3))] None).
Proof. exact (call_34_from [] None). Qed.


(** The call on [{X: 0, Z: 1}] with the target [X]: the quotient [1/0] is an
    infinity, the angle [pi/2], and the rotation recorded is by [-pi/2]
    about [+Y]. *)
Lemma call_01 :
  unitary_partitioning A01 (Some 0%nat) "seq_rot"%string =
  (Ok (mkPart (Some (Finite [(Xrow, RtoC 1)]))
              (SeqRotations [([(Yrow, C1)], - (PI / 2))]) 1
              (Finite (div_coeffs 1 (terms A01)))),
   mkAC 1 (terms A01) [([(Yrow, C1)], - (PI / 2))] None).
Proof.
  destruct (seq_rot_call_general A01 (Some 0%nat) 0 Xrow (RtoC 0) Zrow (RtoC 1) []
              A01_is_AC A01_real eq_refl eq_refl) as [_ [Hcall _]].
  { right. simpl. lra. }
  cbv zeta in Hcall. rewrite norm_01 in Hcall.
  unfold rotations_spec, real_parts, div_coeffs in Hcall.
  cbn [map steps_spec fst snd Re Im RtoC] in Hcall.
  change (n_qubits A01) with 1%nat in Hcall.
  rewrite (proj2 rotation_01) in Hcall. exact Hcall.
Qed.




(** C8 (as stated, fails): a sequence-of-rotations call followed by an LCU
    call on [{X: 3, Z: 4}].  After the second call the rotation recorded by
    the first is still in [X_sk_rotations]. *)
Lemma rotations_survive_LCU_call :
  let after_first := snd (unitary_partitioning A34 None "seq_rot"%string) in
  let after_second := snd (unitary_partitioning after_first None "LCU"%string) in
  X_sk_rotations after_first = [([(Yrow, C1)], - atan (4 / 3))] /\
  X_sk_rotations after_second = [([(Yrow, C1)], - atan (4 / 3))].
Proof.
  cbv zeta. rewrite call_34. cbn [snd]. split; [reflexivity|].
  set (self := mkAC 1 (terms A34) [([(Yrow, C1)], - atan (4 / 3))] None).
  destruct (call_paths self None "LCU"%string)
    as [[_ [i [sw [_ [_ ->]]]]] | [_ ->]]; [|reflexivity].
  exact (proj1 (dispatch_LCU self sw)).
Qed.

(** C8 (as amended): a call changes at most the cache of the method it is
    asked for, and that one it renews.  The terms of the object stay.  When
    the call gets as far as the choice of the method: with ['seq_rot'],
    [R_LCU] is as before and [X_sk_rotations] holds what the same call
    records on the operator with empty caches, nothing of an earlier call,
    and these are the rotations returned; with ['LCU'], [X_sk_rotations] is
    as before and [R_LCU] holds what the same call derives on the operator
    with empty caches, and this is the operator returned; with any other
    method the object is as it was.  When the call does not get that far
    (the return of the single-term branch, an error before the choice) the
    object is as it was. *)
Theorem call_resets_only_its_own_cache (self : AntiCommutingOp)
    (s_index : option nat) (up_method : String.string)
    (r : result partition) (self' : AntiCommutingOp) :
  unitary_partitioning self s_index up_method = (r, self') ->
  n_qubits self' = n_qubits self /\ terms self' = terms self /\
  (reaches_choice self s_index ->
   (up_method = "seq_rot"%string ->
    R_LCU self' = R_LCU self /\
    X_sk_rotations self' =
      X_sk_rotations (snd (unitary_partitioning (fresh self) s_index up_method)) /\
    forall part, r = Ok part -> rots part = SeqRotations (X_sk_rotations self')) /\
   (up_method = "LCU"%string ->
    X_sk_rotations self' = X_sk_rotations self /\
    R_LCU self' =
      R_LCU (snd (unitary_partitioning (fresh self) s_index up_method)) /\
    forall part, r = Ok part -> rots part = LCURotation (R_LCU self')) /\
   (up_method <> "seq_rot"%string -> up_method <> "LCU"%string -> self' = self)) /\
  (~ reaches_choice self s_index -> self' = self).
Proof.
  intros Hcall.
  pose proof (call_keeps_terms self s_index up_method) as Hkeep.
  cbv zeta in Hkeep. rewrite Hcall in Hkeep. cbn [snd] in Hkeep.
  destruct Hkeep as [Hn Ht]. split; [exact Hn|]. split; [exact Ht|].
  destruct (call_paths self s_index up_method)
    as [[Hreach [i [sw [Hres [Hsw Hd]]]]] | [Hnot Hsame]].
  - split; [|intros N; contradiction]. intros _.
    assert (Hfresh : unitary_partitioning (fresh self) s_index up_method
                     = dispatch (fresh self) sw up_method).
    { destruct (call_paths (fresh self) s_index up_method)
        as [[_ [j [sw' [Hres' [Hsw' Hd']]]]] | [Hnot _]].
      - destruct (paths_of_fresh self s_index j) as [E1 E2].
        rewrite E1, Hres in Hres'. injection Hres' as <-.
        rewrite E2, Hsw in Hsw'. injection Hsw' as <-. exact Hd'.
      - exfalso. apply Hnot. now apply reaches_choice_fresh. }
    rewrite Hfresh. rewrite Hd in Hcall.
    split; [|split].
    + intros ->. destruct (dispatch_seq_rot self sw) as [H1 [H2 H3]].
      rewrite Hcall in H1, H2, H3. cbn [fst snd] in H1, H2, H3.
      split; [exact H1 | split; [exact H2 | exact H3]].
    + intros ->. destruct (dispatch_LCU self sw) as [H1 [H2 H3]].
      rewrite Hcall in H1, H2, H3. cbn [fst snd] in H1, H2, H3.
      split; [exact H1 | split; [exact H2 | exact H3]].
    + intros Hs Hl. rewrite (dispatch_unknown self sw up_method Hs Hl) in Hcall.
      now injection Hcall.
  - split; [intros Hreach; contradiction|]. intros _.
    rewrite Hcall in Hsame. exact Hsame.
Qed.

(** The operator [{X: 3, Z: 4}] with a rotation and an operator cached by
    earlier calls. *)
Definition A34_used : AntiCommutingOp :=
  mkAC 1 (terms A34) [([(Xrow, C1)], 1); ([(Zrow, C1)], 2)] (Some (Finite [(Zrow, C1)])).

(** The amended statement at a seq_rot call on it: the two rotations of
    the earlier calls are gone, the operator cached for LCU is still
    there. *)
Lemma call_resets_only_its_own_cache_witness :
  let r := Ok (mkPart (Some (Finite [(Xrow, RtoC 1)]))
                      (SeqRotations [([(Yrow, C1)], - atan (4 / 3))]) 5
                      (Finite (div_coeffs 5 (terms A34)))) in
  let self' := mkAC 1 (terms A34) [([(Yrow, C1)], - atan (4 / 3))]
                    (Some (Finite [(Zrow, C1)])) in
  n_qubits self' = n_qubits A34_used /\ terms self' = terms A34_used /\
  (reaches_choice A34_used None ->
   ("seq_rot"%string = "seq_rot"%string ->
    R_LCU self' = R_LCU A34_used /\
    X_sk_rotations self' =
      X_sk_rotations (snd (unitary_partitioning (fresh A34_used) None "seq_rot"%string)) /\
    forall part, r = Ok part -> rots part = SeqRotations (X_sk_rotations self')) /\
   ("seq_rot"%string = "LCU"%string ->
    X_sk_rotations self' = X_sk_rotations A34_used /\
    R_LCU self' =
      R_LCU (snd (unitary_partitioning (fresh A34_used) None "seq_rot"%string)) /\
    forall part, r = Ok part -> rots part = LCURotation (R_LCU self')) /\
   ("seq_rot"%string <> "seq_rot"%string -> "seq_rot"%string <> "LCU"%string ->
    self' = A34_used)) /\
  (~ reaches_choice A34_used None -> self' = A34_used).
Proof.
  apply (call_resets_only_its_own_cache A34_used None "seq_rot"%string).
  exact (call_34_from _ _).
Defined.

End SeqRotClaims.

(* ======================================================================== *)
(** * unitary_partitioning: the recipe reduces the operator *)
(* ======================================================================== *)

Module PartitionSound.
Import AC PwordFacts SympFacts ListFacts OpAlgebra Conjugation OpLaws Canonical.
Import ACValid AntiFamily TwoInvolutions RotationAlgebra SeqRot SeqRotSound.
Import Partitioning LCUSound.
Local Open Scope R_scope.

(** ** From the check of the constructor to pairwise anticommutation *)

Lemma anticommuting_cons (n : nat) (a : row) (rows : list row) :
  anticommuting n (a :: rows) ->
  Forall (fun r => commutes n a r = false) rows /\ anticommuting n rows.
Proof.
  intros Hac. split.
  - apply Forall_forall. intros r Hr.
    destruct (In_nth rows r [] Hr) as [j [Hj <-]].
    apply (Hac 0%nat (Datatypes.S j)); simpl; lia.
  - intros i j Hi Hj.
    apply (Hac (Datatypes.S i) (Datatypes.S j)); simpl; lia.
Qed.

Lemma anticommuting_pairwise (n : nat) (rows : list row) :
  anticommuting n rows ->
  ForallOrdPairs (fun a b => commutes n a b = false) rows.
Proof.
  induction rows as [|a rows IH]; intros Hac; constructor;
    apply anticommuting_cons in Hac; tauto.
Qed.

(** ** The normalised, reordered operator *)

Lemma div_coeffs_rows (d : R) (P : PauliwordOp) :
  map fst (div_coeffs d P) = map fst P.
Proof. rewrite div_coeffs_scale. apply scale_rows. Qed.

Lemma scale_div (d : R) (P : PauliwordOp) :
  d <> 0 -> op_equiv (multiply_by_constant (RtoC d) (div_coeffs d P)) P.
Proof.
  intros Hd p. rewrite div_coeffs_scale, !coef_scale.
  destruct (coef P p) as [x y]. apply C_eq; simpl; field; exact Hd.
Qed.

Lemma op_of_real_parts (P : PauliwordOp) : real_op P -> op_of (real_parts P) = P.
Proof.
  unfold op_of, real_parts. rewrite map_map. intros Hr.
  rewrite <- (map_id P) at 2. apply map_ext_in. intros [k [re im]] Hin.
  unfold real_op in Hr. rewrite Forall_forall in Hr. specialize (Hr _ Hin).
  simpl in *. subst im. reflexivity.
Qed.

Section Reordered.

Variable n : nat.
Variable P : PauliwordOp.
Variable P_t : row.
Variable c_t : C.
Variable sw_rest : PauliwordOp.
Hypothesis wf_P : wf_op n P.
Hypothesis real_P : real_coeffs P.
Hypothesis perm : Permutation P ((P_t, c_t) :: sw_rest).
Hypothesis anti : anticommuting n (map fst ((P_t, c_t) :: sw_rest)).

Definition gamma : R := norm (coeff_vec P).
Hypothesis gamma_pos : 0 < gamma.

Definition normalised_rest : PauliwordOp := div_coeffs gamma sw_rest.

Lemma target_wf_row : wf_row n P_t.
Proof.
  unfold wf_op in wf_P. rewrite Forall_forall in wf_P.
  apply (wf_P (P_t, c_t)). apply (Permutation_in _ (Permutation_sym perm)). now left.
Qed.

Lemma target_real : Im c_t = 0.
Proof.
  pose proof (real_coeffs_Permutation _ _ perm real_P) as H.
  now inversion H.
Qed.

Lemma rest_real : real_coeffs sw_rest.
Proof.
  pose proof (real_coeffs_Permutation _ _ perm real_P) as H.
  now inversion H.
Qed.

Lemma normalised_wf : wf_op n normalised_rest.
Proof.
  apply wf_op_rows. unfold normalised_rest. rewrite div_coeffs_rows.
  apply wf_op_rows. pose proof (Permutation_Forall perm wf_P) as H.
  now inversion H.
Qed.

Lemma normalised_real : real_op normalised_rest.
Proof. apply div_coeffs_real, rest_real. Qed.

Lemma normalised_anti : anti_with n P_t normalised_rest.
Proof.
  apply anti_with_rows. unfold normalised_rest. rewrite div_coeffs_rows.
  now apply (anticommuting_cons n P_t (map fst sw_rest)).
Qed.

Lemma normalised_pairwise : pairwise_anti n normalised_rest.
Proof.
  apply pairwise_anti_rows. unfold normalised_rest. rewrite div_coeffs_rows.
  apply anticommuting_pairwise.
  now apply (anticommuting_cons n P_t (map fst sw_rest)).
Qed.

Lemma normalised_unit :
  (Re c_t / gamma) ^ 2 + norm_sq normalised_rest = 1.
Proof.
  unfold normalised_rest. rewrite norm_sq_div by lra.
  assert (Hn : norm_sq P = Re c_t ^ 2 + norm_sq sw_rest).
  { rewrite (norm_sq_Permutation _ _ perm), norm_sq_cons. cbn [fst snd].
    rewrite target_real. ring. }
  pose proof (norm_sqr P) as Hsq. fold gamma in Hsq.
  replace ((Re c_t / gamma) ^ 2 + norm_sq sw_rest / gamma ^ 2)
    with ((Re c_t ^ 2 + norm_sq sw_rest) / gamma ^ 2) by (field; lra).
  rewrite <- Hn, <- Hsq. field. lra.
Qed.

(** The operator is [gamma] times its normalised, reordered form. *)
Lemma as_normalised :
  op_equiv P (multiply_by_constant (RtoC gamma)
                ((P_t, RtoC (Re c_t / gamma)) :: normalised_rest)).
Proof.
  rewrite (coef_Permutation _ _ perm).
  rewrite <- (scale_div gamma ((P_t, c_t) :: sw_rest)) at 1 by lra.
  apply scale_Proper. unfold normalised_rest. cbn [div_coeffs map fst snd].
  rewrite target_real. replace (0 / gamma) with 0 by (field; lra).
  reflexivity.
Qed.

End Reordered.

(** ** Sequence of rotations *)

Lemma seq_rot_reduces (n : nat) (P : PauliwordOp) (P_t : row) (c_t : C)
    (P_k : row) (c_k : C) (others : PauliwordOp) :
  let sw_rest := (P_k, c_k) :: others in
  wf_op n P -> real_coeffs P ->
  Permutation P ((P_t, c_t) :: sw_rest) ->
  anticommuting n (map fst ((P_t, c_t) :: sw_rest)) ->
  not_both_zero (Re c_t) (Re c_k) ->
  perform_rotations n P
    (rotations_spec n P_t (Re c_t / gamma P)
       (real_parts (normalised_rest P sw_rest)))
  = cleanup (multiply_by_constant (RtoC (gamma P)) [(P_t, RtoC 1)]).
Proof.
  intros sw_rest Hwf Hreal Hperm Hanti Hnz.
  assert (Hg : 0 < gamma P).
  { destruct Hnz as [Hre | Hre].
    - apply (norm_pos P (P_t, c_t)); [|exact Hre].
      apply (Permutation_in _ (Permutation_sym Hperm)). now left.
    - apply (norm_pos P (P_k, c_k)); [|exact Hre].
      apply (Permutation_in _ (Permutation_sym Hperm)). right. now left. }
  set (t := normalised_rest P sw_rest).
  pose proof (normalised_real P P_t c_t sw_rest Hreal Hperm) as Hrt. fold t in Hrt.
  assert (Hstart : startable (Re c_t / gamma P) (real_parts t)).
  { unfold t, normalised_rest, sw_rest.
    cbn [div_coeffs real_parts map fst snd Re startable].
    now apply not_both_zero_div. }
  assert (Hnet : real_parts t <> []) by (unfold t, normalised_rest, sw_rest; discriminate).
  rewrite <- perform_rotations_canonical.
  2:{ unfold rotations_spec. destruct (real_parts t) as [|[k bk] r];
        [contradiction | discriminate]. }
  apply cleanup_canonical.
  rewrite (rotations_sound n P_t (RtoC (gamma P)) (real_parts t)
             (target_wf_row n P P_t c_t sw_rest Hwf Hperm)
             (Re c_t / gamma P) P Hstart).
  - apply scale_Proper.
    replace (final_beta (Re c_t / gamma P) (real_parts t)) with 1; [reflexivity|].
    rewrite (final_beta_norm _ _ Hnet).
    rewrite (real_parts_sum_squares t Hrt).
    unfold t. rewrite (normalised_unit P P_t c_t sw_rest Hreal Hperm Hg).
    symmetry. apply sqrt_1.
  - rewrite (op_of_real_parts t Hrt).
    exact (normalised_wf n P P_t c_t sw_rest Hwf Hperm).
  - rewrite (op_of_real_parts t Hrt).
    exact (normalised_anti n P P_t c_t sw_rest Hanti).
  - rewrite (op_of_real_parts t Hrt).
    exact (normalised_pairwise n P P_t c_t sw_rest Hanti).
  - rewrite (op_of_real_parts t Hrt).
    exact (as_normalised P P_t c_t sw_rest Hreal Hperm Hg).
Qed.

(** ** Linear combination of unitaries *)

Lemma wf_LCU_loop (n : nat) (Ps_LCU : PauliwordOp) (c : C) (Hs : PauliwordOp) :
  wf_op n Ps_LCU -> wf_op n Hs ->
  forall acc, wf_op n acc ->
  wf_op n (fold_left
             (fun R_acc dkPk =>
                add R_acc (multiply_by_constant c (mul n [dkPk] Ps_LCU)))
             Hs acc).
Proof.
  intros HPs. induction Hs as [|d Hs IH]; intros HHs acc Hacc; [exact Hacc|].
  inversion HHs as [|? ? Hd HHs']; subst. cbn [fold_left]. apply IH; [exact HHs'|].
  unfold add, mul. apply wf_op_cleanup, wf_op_app; [exact Hacc|].
  apply wf_op_scale, wf_op_cleanup, wf_op_mul_stack; [|exact HPs].
  repeat constructor. exact Hd.
Qed.

Lemma wf_LCU_R (n : nat) (Ps_LCU : PauliwordOp) (alpha : R) (Hs : PauliwordOp) :
  wf_op n Ps_LCU -> wf_op n Hs -> wf_op n (LCU_R n Ps_LCU alpha Hs).
Proof.
  intros HPs HHs. unfold LCU_R. apply wf_LCU_loop; auto.
  repeat constructor. apply wf_identity.
Qed.

(** The operator cached by a call with method LCU. *)
Definition R_of (n : nat) (P : PauliwordOp) (P_t : row) (c_t : C)
    (sw_rest : PauliwordOp) : PauliwordOp :=
  let t := normalised_rest P sw_rest in
  LCU_R n [(P_t, C1)] (acos (Re c_t / gamma P)) (div_coeffs (omega_l t) (cleanup t)).

Lemma LCU_reduces (n : nat) (P : PauliwordOp) (P_t : row) (c_t : C)
    (sw_rest : PauliwordOp) :
  wf_op n P -> real_coeffs P ->
  Permutation P ((P_t, c_t) :: sw_rest) ->
  anticommuting n (map fst ((P_t, c_t) :: sw_rest)) ->
  0 < gamma P -> Re c_t <> - gamma P ->
  conjugate_Pop_with_R n P (R_of n P P_t c_t sw_rest)
  = cleanup (multiply_by_constant (RtoC (gamma P)) [(P_t, C1)]).
Proof.
  intros Hwf Hreal Hperm Hanti Hg Hre.
  set (t := normalised_rest P sw_rest).
  pose proof (target_wf_row n P P_t c_t sw_rest Hwf Hperm) as wf_t.
  pose proof (normalised_wf n P P_t c_t sw_rest Hwf Hperm) as wf_rest.
  pose proof (normalised_real P P_t c_t sw_rest Hreal Hperm) as real_rest.
  pose proof (normalised_anti n P P_t c_t sw_rest Hanti) as anti_rest.
  pose proof (normalised_pairwise n P P_t c_t sw_rest Hanti) as pair_rest.
  pose proof (normalised_unit P P_t c_t sw_rest Hreal Hperm Hg) as unit_rest.
  fold t in wf_rest, real_rest, anti_rest, pair_rest, unit_rest.
  assert (wfR : wf_op n (R_of n P P_t c_t sw_rest)).
  { unfold R_of. apply wf_LCU_R; [repeat constructor; exact wf_t|].
    apply wf_op_rows. rewrite div_coeffs_rows. apply wf_op_rows.
    now apply wf_op_cleanup. }
  rewrite (conjugate_as_product n P _ Hwf wfR).
  apply cleanup_canonical.
  rewrite (as_normalised P P_t c_t sw_rest Hreal Hperm Hg) at 2.
  rewrite conj_stack_scale. apply scale_Proper. fold t.
  assert (Hb : Re (RtoC (Re c_t / gamma P)) <> -1).
  { simpl. intros E. apply Hre.
    replace (Re c_t) with (Re c_t / gamma P * gamma P) by (field; lra).
    rewrite E. ring. }
  exact (LCU_sound n P_t (RtoC (Re c_t / gamma P)) t wf_t wf_rest eq_refl
           real_rest anti_rest pair_rest unit_rest Hb).
Qed.

End PartitionSound.

(* ======================================================================== *)
(** * unitary_partitioning reduces the operator: statements *)
(* ======================================================================== *)

Module PartitionClaims.
Import AC PwordFacts ListFacts OpLaws Canonical ACValid AntiFamily RotationAlgebra.
Import SeqRot Partitioning LCUSound PartitionSound SeqRotExamples.
Local Open Scope R_scope.

(** A call reorders the operator with the target first. *)
Lemma reordered (self : AntiCommutingOp) (s_index : option nat)
    (up_method : String.string) (i : nat) (P_t : row) (c_t : C) :
  is_AC self -> real_coeffs (terms self) ->
  (2 <= n_terms (terms self))%nat ->
  resolve self s_index = Some i ->
  nth_error (terms self) i = Some (P_t, c_t) ->
  exists sw_rest,
    Permutation (terms self) ((P_t, c_t) :: sw_rest) /\
    anticommuting (n_qubits self) (map fst ((P_t, c_t) :: sw_rest)) /\
    sw_rest <> [] /\
    unitary_partitioning self s_index up_method =
    dispatch self ((P_t, c_t) :: sw_rest) up_method.
Proof.
  intros Hac Hreal Hlen Hres Hnth.
  assert (Hi : (i < n_terms (terms self))%nat).
  { apply nth_error_Some. unfold n_terms. congruence. }
  destruct (reaches_dispatch self s_index up_method i Hac Hreal Hlen Hres Hi)
    as [sw [Hsw Hcall]].
  destruct (swap0_head (P_t, c_t) i _ _ Hsw) as [sw_rest Hhead].
  rewrite (nth_error_nth _ _ _ Hnth) in Hhead. subst sw.
  exists sw_rest.
  assert (Hperm : Permutation (terms self) ((P_t, c_t) :: sw_rest))
    by (eapply swap0_Permutation; eauto).
  repeat split; auto.
  - apply (anticommuting_swap _ i (symp_matrix (terms self))).
    + unfold symp_matrix. now apply swap0_map.
    + now apply init_check_anticommuting.
  - intros ->. apply Permutation_length in Hperm. unfold n_terms in Hlen.
    simpl in Hperm. lia.
Qed.

(** The call with method LCU, on an operator of nonzero norm. *)
Lemma LCU_call (self : AntiCommutingOp) (s_index : option nat)
    (i : nat) (P_t : row) (c_t : C) :
  wf_op (n_qubits self) (terms self) ->
  is_AC self -> real_coeffs (terms self) ->
  (2 <= n_terms (terms self))%nat ->
  resolve self s_index = Some i ->
  nth_error (terms self) i = Some (P_t, c_t) ->
  0 < gamma (terms self) ->
  exists sw_rest,
    Permutation (terms self) ((P_t, c_t) :: sw_rest) /\
    anticommuting (n_qubits self) (map fst ((P_t, c_t) :: sw_rest)) /\
    let R_op := R_of (n_qubits self) (terms self) P_t c_t sw_rest in
    unitary_partitioning self s_index "LCU"%string =
    (Ok (mkPart (Some (Finite [(P_t, C1)])) (LCURotation (Some (Finite R_op)))
                (gamma (terms self))
                (Finite (div_coeffs (gamma (terms self)) ((P_t, c_t) :: sw_rest)))),
     mkAC (n_qubits self) (terms self) (X_sk_rotations self) (Some (Finite R_op))).
Proof.
  intros Hwf Hac Hreal Hlen Hres Hnth Hg.
  destruct (reordered self s_index "LCU"%string i P_t c_t Hac Hreal Hlen Hres Hnth)
    as [sw_rest [Hperm [Hanti [Hne Hcall]]]].
  exists sw_rest. split; [exact Hperm|]. split; [exact Hanti|]. cbv zeta.
  rewrite Hcall. unfold dispatch. fold (gamma (terms self)).
  simpl String.eqb. cbv iota.
  rewrite normalise_finite by lra.
  cbn [div_coeffs map fst snd]. fold (div_coeffs (gamma (terms self)) sw_rest).
  fold (normalised_rest (terms self) sw_rest).
  rewrite (generate_LCU_ok (n_qubits self) P_t
             (mkC (Re c_t / gamma (terms self)) (Im c_t / gamma (terms self)))
             (normalised_rest (terms self) sw_rest)
             (normalised_wf _ _ P_t c_t sw_rest Hwf Hperm)
             (normalised_real _ P_t c_t sw_rest Hreal Hperm)
             (normalised_anti _ _ P_t c_t sw_rest Hanti)
             (normalised_pairwise _ _ P_t c_t sw_rest Hanti)
             (normalised_unit _ P_t c_t sw_rest Hreal Hperm Hg)).
  - reflexivity.
  - unfold normalised_rest, div_coeffs. destruct sw_rest; [contradiction | discriminate].
  - reflexivity.
Qed.

(** ** The operator [{X: -1, Z: 0}] *)

Definition A_neg : AntiCommutingOp :=
  mkAC 1 [(Xrow, RtoC (-1)); (Zrow, RtoC 0)] [] None.

Lemma A_neg_wf : wf_op 1 (terms A_neg).
Proof. repeat constructor. Qed.

Lemma A_neg_is_AC : is_AC A_neg.
Proof. vm_compute. reflexivity. Qed.

Lemma A_neg_real : real_coeffs (terms A_neg).
Proof. repeat constructor. Qed.

Lemma A_neg_norm : gamma (terms A_neg) = 1.
Proof.
  unfold gamma, norm. simpl.
  replace (-1 * (-1 * 1) + 0 * (0 * 1) + (0 * (0 * 1) + 0 * (0 * 1) + 0))
    with 1 by ring.
  apply sqrt_1.
Qed.

(** The operator cached for [{X: -1, Z: 0}] is [cos (pi / 2)] times the
    identity, the zero operator. *)
Lemma A_neg_R :
  R_of 1 (terms A_neg) Xrow (RtoC (-1)) [(Zrow, RtoC 0)] = [(identity_row 1, RtoC 0)].
Proof.
  unfold R_of. cbv zeta. rewrite A_neg_norm.
  assert (Hnil : cleanup (normalised_rest (terms A_neg) [(Zrow, RtoC 0)]) = []).
  { apply norm_sq_zero_nil. rewrite norm_sq_cleanup by (repeat constructor; auto).
    unfold normalised_rest. rewrite A_neg_norm. unfold norm_sq. simpl. field. }
  rewrite Hnil. unfold LCU_R. cbn [div_coeffs map fold_left Re RtoC].
  replace (-1 / 1) with (- (1)) by field.
  rewrite acos_opp, acos_1.
  replace ((PI - 0) / 2) with (PI / 2) by field.
  now rewrite cos_PI2.
Qed.

(** C2 (fails on the code): [{X: -1, Z: 0}] is an anticommuting operator of
    two terms with real coefficients, [gamma = 1] and the target [X].  The
    call with method LCU returns the operator [R = cos (pi / 2) 1], which is
    zero, so conjugating by it gives the empty operator and not [gamma X];
    the call with method seq_rot on the same operator returns a rotation
    that does give [gamma X]. *)
Lemma LCU_maps_negated_target_to_zero :
  is_AC A_neg /\ real_coeffs (terms A_neg) /\ n_terms (terms A_neg) = 2%nat /\
  cleanup (multiply_by_constant (RtoC (norm (coeff_vec (terms A_neg)))) [(Xrow, C1)])
    = [(Xrow, C1)] /\
  (exists R_op AC_op self',
     unitary_partitioning A_neg (Some 0%nat) "LCU"%string =
       (Ok (mkPart (Some (Finite [(Xrow, C1)])) (LCURotation (Some (Finite R_op)))
                   (norm (coeff_vec (terms A_neg))) AC_op), self') /\
     conjugate_Pop_with_R 1 (terms A_neg) R_op = []) /\
  (exists rotations AC_op self',
     unitary_partitioning A_neg (Some 0%nat) "seq_rot"%string =
       (Ok (mkPart (Some (Finite [(Xrow, C1)])) (SeqRotations rotations)
                   (norm (coeff_vec (terms A_neg))) AC_op), self') /\
     perform_rotations 1 (terms A_neg) rotations = [(Xrow, C1)]).
Proof.
  split; [exact A_neg_is_AC|]. split; [exact A_neg_real|]. split; [reflexivity|].
  assert (Hg : 0 < gamma (terms A_neg)) by (rewrite A_neg_norm; lra).
  assert (Htarget :
    cleanup (multiply_by_constant (RtoC (norm (coeff_vec (terms A_neg)))) [(Xrow, C1)])
    = [(Xrow, C1)]).
  { fold (gamma (terms A_neg)). rewrite A_neg_norm.
    replace (multiply_by_constant (RtoC 1) [(Xrow, C1)]) with [(Xrow, C1)].
    + apply cleanup_single. intros E. injection E. lra.
    + unfold multiply_by_constant. simpl. repeat f_equal. csimp. }
  split; [exact Htarget|]. split.
  - destruct (LCU_call A_neg (Some 0%nat) 0 Xrow (RtoC (-1)) A_neg_wf A_neg_is_AC
                A_neg_real (le_n 2) eq_refl eq_refl Hg)
      as [sw_rest [Hperm [_ Hcall]]].
    assert (Hsw : sw_rest = [(Zrow, RtoC 0)]).
    { apply Permutation_cons_inv in Hperm.
      apply Permutation_length_1_inv in Hperm. exact Hperm. }
    subst sw_rest. cbv zeta in Hcall.
    change (n_qubits A_neg) with 1%nat in Hcall. rewrite A_neg_R in Hcall.
    eexists; eexists; eexists. split; [exact Hcall|].
    rewrite conjugate_as_product by (repeat constructor).
    change [] with (cleanup []). apply cleanup_canonical.
    assert (E : op_equiv [(identity_row 1, RtoC 0)] []).
    { intros p. simpl. destruct (row_eqb _ _); csimp. }
    rewrite E. reflexivity.
  - destruct (seq_rot_call_general A_neg (Some 0%nat) 0 Xrow (RtoC (-1)) Zrow (RtoC 0) []
                A_neg_is_AC A_neg_real eq_refl eq_refl) as [_ [Hcall _]].
    { left. simpl. lra. }
    cbv zeta in Hcall.
    eexists; eexists; eexists. split; [exact Hcall|].
    rewrite <- Htarget.
    apply (seq_rot_reduces 1 (terms A_neg) Xrow (RtoC (-1)) Zrow (RtoC 0) []
             A_neg_wf A_neg_real (Permutation_refl _)).
    + apply init_check_anticommuting. exact A_neg_is_AC.
    + left. simpl. lra.
Qed.

End PartitionClaims.

(* ======================================================================== *)
(** * The constructed operator and its energy: statements *)
(* ======================================================================== *)

Module NCClaims.
Import NC PwordFacts ListFacts Decomposition Energy.
Local Open Scope R_scope.

(** The operator constructed from [{Z: 2, X: 1}] with the instance of the
    parameters of [Decomposition]. *)
Definition NC_ZX : NoncontextualOp :=
  mkNC 1 H_ZX (no_symmetry H_ZX)
       [(Clique 0, [(Zrow, RtoC 2)]); (Clique 1, [(Xrow, RtoC 1)]); (Symmetry, [])]
       2 [(Zrow, RtoC 2); (Xrow, RtoC 1)]
       [[]; []] [[1%Z; 0%Z]; [0%Z; 1%Z]] [false; false]
       [[true; false]; [false; true]]
       [multiply_indices 1 [(Zrow, C1); (Xrow, C1)] [true; false];
        multiply_indices 1 [(Zrow, C1); (Xrow, C1)] [false; true]].

Lemma Cnonzero_RtoC (x : R) : x <> 0 -> Cnonzero (RtoC x) = true.
Proof. intros H. apply Cnonzero_true. intros E. apply H. now injection E. Qed.

Lemma construct_ZX :
  init (fun _ => true) no_symmetry recon_nothing recon_self singletons (fun P => P)
       1 H_ZX = inl NC_ZX.
Proof.
  unfold init. cbn -[cleanup add AC.init multiply_indices].
  unfold add. cbn -[Cnonzero Cadd multiply_indices].
  rewrite !Cnonzero_RtoC by lra. cbn -[multiply_indices]. reflexivity.
Qed.

Lemma recon_self_rows (P G : PauliwordOp) :
  length (fst (recon_self P G)) = n_terms P.
Proof. unfold recon_self. simpl. now rewrite length_map, length_seq. Qed.

(** ** An operator with a symmetry generator *)

(** On two qubits, [{ZI: 1, IZ: 2, IX: 3, ZZ: 4}]: [ZI] commutes with every
    term and generates the symmetry; [IZ] and [ZZ = ZI IZ] make one clique
    and [IX] the other. *)
Definition ZI : row := [false; false; true; false].
Definition IZ : row := [false; false; false; true].
Definition IX : row := [false; true; false; false].
Definition ZZ : row := [false; false; true; true].

Definition H_sym : PauliwordOp :=
  [(ZI, RtoC 1); (IZ, RtoC 2); (IX, RtoC 3); (ZZ, RtoC 4)].

(** The parameters of the construction for [H_sym]: the generator [ZI];
    the terms that are a generator themselves, as those the generators
    reconstruct; the cover of the three other terms by [{IZ, ZZ}] and
    [{IX}]; and the reconstruction of the four terms over [ZI, IZ, IX]. *)
Definition gen_ZI (P : PauliwordOp) : PauliwordOp := [(ZI, C1)].

Definition recon_gens (P G : PauliwordOp) : list (list Z) * list bool :=
  (map (fun _ => []) P,
   map (fun t => existsb (fun g => row_eqb (fst g) (fst t)) G) P).

Definition cover_sym (rest : PauliwordOp) : list PauliwordOp :=
  match rest with
  | [a; b; c] => [[a; c]; [b]]
  | _ => map (fun t => [t]) rest
  end.

Definition recon_sym (P G : PauliwordOp) : list (list Z) * list bool :=
  (match P with
   | [_; _; _; _] => [[1; 0; 0]; [0; 1; 0]; [0; 0; 1]; [1; 1; 0]]%Z
   | _ => map (fun _ => []) P
   end,
   map (fun _ => true) P).

Lemma recon_sym_rows (P G : PauliwordOp) :
  length (fst (recon_sym P G)) = n_terms P.
Proof.
  unfold recon_sym, n_terms. cbn [fst].
  destruct P as [|a [|b [|c [|d [|e P]]]]]; cbn [length map]; try reflexivity.
  now rewrite length_map.
Qed.

Definition signs_sym : list R :=
  map (multiply_indices 2 [(ZI, C1); (IZ, C1); (IX, C1)])
      [[true; false; false]; [false; true; false]; [false; false; true];
       [true; true; false]].

Definition NC_sym : NoncontextualOp :=
  mkNC 2 H_sym [(ZI, C1)]
       [(Clique 0, [(IZ, RtoC 2); (ZZ, RtoC 4)]); (Clique 1, [(IX, RtoC 3)]);
        (Symmetry, [(ZI, RtoC 1)])]
       2 [(IZ, RtoC 2); (IX, RtoC 3)]
       [[1%Z]; [0%Z]; [0%Z]; [1%Z]]
       [[0%Z; 0%Z]; [1%Z; 0%Z]; [0%Z; 1%Z]; [1%Z; 0%Z]]
       [true; false; false; false]
       [[false; true; false; true]; [false; false; true; false]]
       signs_sym.

Lemma construct_sym :
  init (fun _ => true) gen_ZI recon_gens recon_sym cover_sym (fun P => P)
       2 H_sym = inl NC_sym.
Proof.
  unfold init. cbn -[cleanup add AC.init multiply_indices].
  unfold add. cbn -[Cnonzero Cadd multiply_indices].
  rewrite !Cnonzero_RtoC by lra. cbn -[multiply_indices]. reflexivity.
Qed.

(** The assignment [nu = [-1]] flips the sign of the two terms that the
    generator [ZI] enters, [ZI] and [ZZ]. *)
Lemma m_sym : map (Spec.m NC_sym [-1]) (seq 0 4) = [1; 0; 0; 1]%nat.
Proof.
  unfold Spec.m, Spec.assigns_minus_one. cbn -[Req_dec_T].
  destruct (Req_dec_T (-1) (-1)) as [_ | N]; [reflexivity | contradiction].
Qed.

Lemma C1_nonzero : Cnonzero C1 = true.
Proof. apply Cnonzero_true. intros E. injection E. lra. Qed.

Lemma unit_phase : (Cipow 0 * C1 * C1)%C = C1.
Proof. unfold Cipow. simpl. csimp. Qed.

(** The sign corrections: the products [ZI], [IZ], [IX] and [ZI IZ = ZZ]
    all come with the coefficient [1]. *)
Lemma signs_sym_values : signs_sym = [1; 1; 1; 1].
Proof.
  unfold signs_sym, multiply_indices, mul, mul_stack, cleanup, merge_terms.
  cbn -[Cnonzero Cmul Cadd Cipow Re].
  unfold mul_symplectic. cbn -[Cnonzero Cmul Cadd Cipow Re].
  rewrite !unit_phase, !C1_nonzero.
  cbn -[Cnonzero Cmul Cadd Cipow Re].
  rewrite ?unit_phase, ?C1_nonzero.
  reflexivity.
Qed.

(** With [nu = [-1]]: [s0 = -1] from [ZI], [s_0 = 2 - 4] from [IZ] and
    [ZZ], [s_1 = 3] from [IX], and the energy is [-1 - sqrt 13]. *)
Lemma energy_sym :
  get_symmetry_contributions NC_sym [-1] = (-1, [-2; 3]) /\
  get_energy NC_sym [-1] = -1 - sqrt 13.
Proof.
  assert (E : get_symmetry_contributions NC_sym [-1] = (-1, [-2; 3])).
  { unfold get_symmetry_contributions, coeff_mod, flip_counts.
    cbn [NC_sym G_indices pauli_mult_signs terms mask_S0 mask_Ci].
    rewrite signs_sym_values. unfold Req_bool, Csign. cbn -[Req_dec_T].
    destruct (Req_dec_T (-1) (-1)) as [_ | N]; [|contradiction].
    simpl. repeat f_equal; lra. }
  split; [exact E|]. unfold get_energy. rewrite E. unfold normR. simpl.
  do 2 f_equal. lra.
Qed.

Section Statements.

Variable is_noncontextual : PauliwordOp -> bool.
Variable find_symmetry_generators : PauliwordOp -> PauliwordOp.
Variable generator_reconstruction :
  PauliwordOp -> PauliwordOp -> list (list Z) * list bool.
Variable jordan_generator_reconstruction :
  PauliwordOp -> PauliwordOp -> list (list Z) * list bool.
Variable clique_cover : PauliwordOp -> list PauliwordOp.
Variable sort : PauliwordOp -> PauliwordOp.

Let construct :=
  init is_noncontextual find_symmetry_generators generator_reconstruction
       jordan_generator_reconstruction clique_cover sort.

(** C1: when the construction of a [NoncontextualOp] from [H] succeeds --
    the graph library returning a partition of the terms it is given (§4.4,
    §6) -- [H] passed the noncontextuality test, the blocks of [decomposed]
    are named [0 .. M-1] and ['symmetry'], every term of [H] lies in exactly
    one block (the blocks put end to end are a rearrangement of the terms of
    [H]), and the sum of the blocks is [H], term for term and coefficient
    for coefficient. *)
Theorem decomposition_partitions_H (n : nat) (H : PauliwordOp) (self : NoncontextualOp) :
  (forall P, Permutation (concat (clique_cover P)) P) ->
  construct n H = inl self ->
  is_noncontextual H = true /\
  terms self = H /\
  map fst (decomposed self) = map Clique (seq 0 (n_cliques self)) ++ [Symmetry] /\
  Permutation (concat (map snd (decomposed self))) H /\
  op_equiv (sum_ops (map snd (decomposed self))) H.
Proof.
  intros Hcover Hc.
  exact (decomposition_is_partition is_noncontextual find_symmetry_generators
           generator_reconstruction jordan_generator_reconstruction clique_cover
           sort Hcover n H self Hc).
Qed.

(** C4: for a constructed operator -- the reconstruction matrix having one
    row per term (§3) -- and every [nu], [get_energy nu] is
    [s0 - ||(s_0, ..., s_{M-1})||_2], where the coefficient of term [t] is
    modified to [coeff t * sign t * (-1)^(m t)], [m t] counting the symmetry
    generators selected by row [t] of [G_indices] to which [nu] assigns
    [-1]; [s0] sums the real parts of the modified coefficients over the
    rows whose row of [C_indices] is all zero, and [s_i] over the rows that
    select clique [i]. *)
Theorem get_energy_formula (n : nat) (H : PauliwordOp) (self : NoncontextualOp)
    (nu : list R) :
  (forall P G, length (fst (jordan_generator_reconstruction P G)) = n_terms P) ->
  construct n H = inl self ->
  get_energy self nu =
  Spec.s0 self nu
  - sqrt (AC.sumR (map (fun i => Spec.s self nu i ^ 2)
                       (seq 0 (n_terms (clique_operator self))))).
Proof.
  intros Hrows Hc.
  apply (energy_refines self).
  exact (constructed_well_shaped is_noncontextual find_symmetry_generators
           generator_reconstruction jordan_generator_reconstruction clique_cover
           sort Hrows n H self Hc).
Qed.

End Statements.

Lemma decomposition_partitions_H_witness :
  (fun _ : PauliwordOp => true) H_ZX = true /\
  terms NC_ZX = H_ZX /\
  map fst (decomposed NC_ZX) = map Clique (seq 0 (n_cliques NC_ZX)) ++ [Symmetry] /\
  Permutation (concat (map snd (decomposed NC_ZX))) H_ZX /\
  op_equiv (sum_ops (map snd (decomposed NC_ZX))) H_ZX.
Proof.
  apply (decomposition_partitions_H (fun _ => true) no_symmetry recon_nothing
           recon_self singletons (fun P => P) 1 H_ZX NC_ZX
           singletons_partition construct_ZX).
Defined.

(** The statement at [H_sym] with [nu = [-1]], where [m] is not zero on
    the symmetry term and in the first clique. *)
Lemma get_energy_formula_witness :
  get_energy NC_sym [-1] =
  Spec.s0 NC_sym [-1]
  - sqrt (AC.sumR (map (fun i => Spec.s NC_sym [-1] i ^ 2) (seq 0 2))).
Proof.
  apply (get_energy_formula (fun _ => true) gen_ZI recon_gens
           recon_sym cover_sym (fun P => P) 2 H_sym NC_sym [-1]
           recon_sym_rows construct_sym).
Defined.

End NCClaims.

(* ======================================================================== *)
(** * The solvers and the default target: statements *)
(* ======================================================================== *)

Module SolverClaims.
Import Solver SolverFacts.
Local Open Scope R_scope.

(** C5: for a solver as [__init__] builds it, the brute-force search returns
    a pair [(energy, nu)] where [nu] carries the fixed eigenvalues at the
    fixed positions, [energy] is [get_energy nu], and no assignment of
    [-1]/[+1] to all generators (one entry per entry of the mask) that
    carries the fixed eigenvalues at the fixed positions has a smaller
    energy. *)
Theorem brute_force_is_global_minimum (nc : NC.NoncontextualOp)
    (fixed : option (list bool * list R)) (self : NoncontextualSolver) :
  init nc fixed = Some self ->
  exists energy nu,
    energy_via_brute_force self = Some (energy, nu) /\
    NC.select (fixed_ev_mask self) nu = fixed_eigvals self /\
    energy = NC.get_energy nc nu /\
    forall nu',
      length nu' = length (fixed_ev_mask self) ->
      Forall pm1 nu' ->
      NC.select (fixed_ev_mask self) nu' = fixed_eigvals self ->
      energy <= NC.get_energy nc nu'.
Proof.
  intros Hinit. apply init_invariant in Hinit. destruct Hinit as [<- Hinv].
  exact (brute_force_minimum self Hinv).
Qed.

Lemma brute_force_is_global_minimum_witness :
  exists energy nu,
    energy_via_brute_force solver_Z = Some (energy, nu) /\
    NC.select [false] nu = [] /\
    energy = NC.get_energy NC_Z nu /\
    forall nu',
      length nu' = 1%nat ->
      Forall pm1 nu' ->
      NC.select [false] nu' = [] ->
      energy <= NC.get_energy NC_Z nu'.
Proof.
  apply (brute_force_is_global_minimum NC_Z None solver_Z).
  reflexivity.
Defined.

(** C7 (fails on the code): with the optimal angle [pi] for the single free
    generator of [{Z: 1}], the vector returned is [[+1]], while the sign of
    [cos pi] is [-1]; the energy returned with it, [-1], is that of [[-1]],
    not that of the vector returned. *)
Theorem relaxation_rounds_to_plus_one :
  energy_via_relaxation (shgo_at [PI]) solver_Z = (-1, [1]) /\
  map (fun theta => sign (cos theta)) [PI] = [-1] /\
  NC.get_energy NC_Z [-1] = -1 /\ NC.get_energy NC_Z [1] = 1.
Proof. exact relaxation_at_pi. Qed.

End SolverClaims.

Module LeastDense.
Import AC.

(** The clique [{XXII: 1, IZZZ: 1}] on four qubits. *)
Definition XXII : row := [true; true; false; false; false; false; false; false].
Definition IZZZ : row := [false; false; false; false; false; true; true; true].
Definition clique : PauliwordOp := [(XXII, RtoC 1); (IZZZ, RtoC 1)].
Definition A : AntiCommutingOp := mkAC 4 clique [] None.

Lemma clique_is_anticommuting : init 4 clique = Ok A.
Proof. vm_compute. reflexivity. Qed.

(** C6 (fails on the code): on the anticommuting clique [{XXII, IZZZ}] the
    index returned by [get_least_dense_term_index] is that of [IZZZ], which
    has three non-identity positions, although [XXII] has only two: the
    function minimises the integer read off the occupied positions, not
    their number. *)
Theorem least_dense_index_not_fewest_positions :
  init 4 clique = Ok A /\
  get_least_dense_term_index A = Some 1%nat /\
  nth_error (symp_matrix (terms A)) 1 = Some IZZZ /\
  weight 4 IZZZ = 3%nat /\ weight 4 XXII = 2%nat /\
  int_list 4 (symp_matrix (terms A)) = [12%Z; 7%Z].
Proof. vm_compute. repeat split; reflexivity. Qed.

End LeastDense.

(* ======================================================================== *)
(** * unitary_partitioning and the arrays of the object it is called on *)
(* ======================================================================== *)

Module StoreFacts.
Import AC Store.
Local Open Scope store_scope.

(** Between two states, the arrays that existed at [k] addresses are as they
    were, and no array has disappeared. *)
Definition frame (k : nat) (st st' : state) : Prop :=
  length (arrays st) <= length (arrays st') /\
  forall i, i < k -> nth_error (arrays st') i = nth_error (arrays st) i.

(** A computation run from a state with at least [k] arrays leaves the first
    [k] of them alone, and its value satisfies [Q]. *)
Definition preserves {A} (k : nat) (c : M A) (Q : A -> Prop) : Prop :=
  forall st, k <= length (arrays st) ->
    frame k st (snd (c st)) /\ forall a, fst (c st) = Ok a -> Q a.

(** Both arrays of the object were made after the first [k]. *)
Definition fresh (k : nat) (o : PwordObj) : Prop :=
  k <= symp_ref o /\ k <= coeff_ref o.

Lemma frame_refl (k : nat) (st : state) : frame k st st.
Proof. split; auto. Qed.

Lemma frame_trans (k : nat) (st1 st2 st3 : state) :
  frame k st1 st2 -> frame k st2 st3 -> frame k st1 st3.
Proof.
  intros [L1 H1] [L2 H2]. split; [lia|].
  intros i Hi. rewrite H2, H1; auto.
Qed.

Lemma preserves_ret {A} (k : nat) (a : A) (Q : A -> Prop) :
  Q a -> preserves k (ret a) Q.
Proof.
  intros HQ st _. split; [apply frame_refl|].
  simpl. intros b E. now injection E as <-.
Qed.

Lemma preserves_raise {A} (k : nat) (e : error) (Q : A -> Prop) :
  preserves k (raise e) Q.
Proof. intros st _. split; [apply frame_refl|]. simpl. discriminate. Qed.

Lemma preserves_bind {A B} (k : nat) (c : M A) (f : A -> M B)
    (Q : A -> Prop) (Q' : B -> Prop) :
  preserves k c Q -> (forall a, Q a -> preserves k (f a) Q') ->
  preserves k (bind c f) Q'.
Proof.
  intros Hc Hf st Hk. unfold bind.
  destruct (Hc st Hk) as [Hfr HQ].
  destruct (c st) as [[a|e] st1]; simpl in *.
  - assert (Hk1 : k <= length (arrays st1)) by (destruct Hfr; lia).
    destruct (Hf a (HQ a eq_refl) st1 Hk1) as [Hfr' HQ'].
    split; [eapply frame_trans; eauto | exact HQ'].
  - split; [exact Hfr | discriminate].
Qed.

Lemma preserves_weaken {A} (k : nat) (c : M A) (Q Q' : A -> Prop) :
  (forall a, Q a -> Q' a) -> preserves k c Q -> preserves k c Q'.
Proof.
  intros HQ Hc st Hk. destruct (Hc st Hk) as [Hfr H]. split; auto.
Qed.

Lemma preserves_alloc (k : nat) (a : array) :
  preserves k (alloc a) (fun r => k <= r).
Proof.
  intros st Hk. unfold alloc, frame. simpl. split.
  - split; [rewrite length_app; lia|].
    intros i Hi. apply nth_error_app1. lia.
  - intros r E. injection E as <-. exact Hk.
Qed.

Lemma replace_at_length (r : nat) (a : array) (h : list array) :
  length (replace_at r a h) = length h.
Proof.
  revert r. induction h as [|x h IH]; intros [|r]; simpl; auto.
Qed.

Lemma replace_at_other (r i : nat) (a : array) (h : list array) :
  i <> r -> nth_error (replace_at r a h) i = nth_error h i.
Proof.
  revert r i. induction h as [|x h IH]; intros [|r] [|i] H; simpl; auto;
    try contradiction; try (apply IH; lia).
Qed.

Lemma preserves_store (k r : nat) (a : array) :
  k <= r -> preserves k (store r a) (fun _ => True).
Proof.
  intros Hr st Hk. unfold store, frame. simpl. split; [|auto]. split.
  - rewrite replace_at_length. lia.
  - intros i Hi. apply replace_at_other. lia.
Qed.

Lemma preserves_pure {A} (k : nat) (c : M A) :
  (forall st, arrays (snd (c st)) = arrays st) ->
  preserves k c (fun _ => True).
Proof.
  intros H st _. split; [|auto]. unfold frame. rewrite H. auto.
Qed.

Lemma preserves_read_symp (k r : nat) : preserves k (read_symp r) (fun _ => True).
Proof. now apply preserves_pure. Qed.

Lemma preserves_read_coeff (k r : nat) : preserves k (read_coeff r) (fun _ => True).
Proof. now apply preserves_pure. Qed.

Lemma preserves_get_rotations (k : nat) : preserves k get_rotations (fun _ => True).
Proof. now apply preserves_pure. Qed.

Lemma preserves_set_rotations (k : nat) (l : list (PauliwordOp * R)) :
  preserves k (set_rotations l) (fun _ => True).
Proof. now apply preserves_pure. Qed.

Lemma preserves_get_R_LCU (k : nat) : preserves k get_R_LCU (fun _ => True).
Proof. now apply preserves_pure. Qed.

Lemma preserves_read_array (k r : nat) : preserves k (read_array r) (fun _ => True).
Proof. now apply preserves_pure. Qed.

Lemma preserves_set_R_LCU (k : nat) (r : option float_op) :
  preserves k (set_R_LCU r) (fun _ => True).
Proof. now apply preserves_pure. Qed.

Create HintDb frame.

#[local] Hint Resolve preserves_read_symp preserves_read_coeff preserves_read_array
  preserves_get_rotations
  preserves_set_rotations preserves_get_R_LCU preserves_set_R_LCU preserves_raise
  : frame.

Ltac step :=
  eapply preserves_bind; [solve [eauto with frame] | intros ? ?].

Lemma preserves_read_op (k : nat) (o : PwordObj) :
  preserves k (read_op o) (fun _ => True).
Proof.
  unfold read_op. step. step. now apply preserves_ret.
Qed.

#[local] Hint Resolve preserves_read_op : frame.

Lemma preserves_new_op (k : nat) (P : PauliwordOp) :
  preserves k (new_op P) (fresh k).
Proof.
  unfold new_op.
  eapply preserves_bind; [apply preserves_alloc | intros rs Hrs].
  eapply preserves_bind; [apply preserves_alloc | intros rc Hrc].
  apply preserves_ret. now split.
Qed.

Lemma preserves_copy (k : nat) (o : PwordObj) : preserves k (copy o) (fresh k).
Proof. unfold copy. step. apply preserves_new_op. Qed.

Lemma preserves_copy_nan (k : nat) (o : PwordObj) :
  preserves k (copy_nan o) (fresh k).
Proof.
  unfold copy_nan. step. step.
  eapply preserves_bind; [apply preserves_alloc | intros rs Hrs].
  eapply preserves_bind; [apply preserves_alloc | intros rc Hrc].
  apply preserves_ret. now split.
Qed.

Lemma preserves_bind_coeff_vec (k : nat) (o : PwordObj) (v : array) :
  fresh k o -> preserves k (bind_coeff_vec o v) (fresh k).
Proof.
  intros [Hs Hc]. unfold bind_coeff_vec.
  eapply preserves_bind; [apply preserves_alloc | intros rc Hrc].
  apply preserves_ret. now split.
Qed.

Lemma preserves_recursive_seq_rotations (k n fuel : nat) :
  forall AC_op, fresh k AC_op ->
    preserves k (_recursive_seq_rotations n fuel AC_op) (fresh k).
Proof.
  induction fuel as [|fuel IH]; intros AC_op Hf; simpl.
  - apply preserves_raise.
  - step. destruct a as [|s [|t rest]].
    + apply preserves_raise.
    + now apply preserves_ret.
    + eapply preserves_bind; [apply preserves_copy | intros o [Hos Hoc]].
      destruct (seq_rot_step n s t) as [[rot s']|e]; [|apply preserves_raise].
      step. step. step.
      eapply preserves_bind; [now apply preserves_store | intros _ _].
      step. step.
      eapply preserves_bind; [apply preserves_new_op | intros o' Ho'].
      now apply IH.
Qed.

Definition fresh_opt (k : nat) (o : option PwordObj) : Prop :=
  match o with
  | Some o => fresh k o
  | None => True
  end.

Lemma preserves_generate_LCU_operator (k n : nat) (AC_op : PwordObj) :
  preserves k (generate_LCU_operator n AC_op) (fresh_opt k).
Proof.
  unfold generate_LCU_operator. step. step. step.
  destruct (AC.generate_LCU_operator _ _) as [[[Ps|]|e] self'].
  - step. eapply preserves_bind; [apply preserves_new_op | intros o Ho].
    now apply preserves_ret.
  - step. now apply preserves_ret.
  - apply preserves_raise.
Qed.

(** What a call returns is made of arrays of its own. *)
Definition fresh_partition (k : nat) (p : partition) : Prop :=
  fresh_opt k (Ps p) /\ fresh k (AC_op_norm p).

Lemma preserves_unitary_partitioning (k n : nat) (self : PwordObj)
    (s_index : option nat) (up_method : String.string) :
  preserves k (unitary_partitioning n self s_index up_method) (fresh_partition k).
Proof.
  unfold unitary_partitioning.
  eapply preserves_bind; [apply preserves_copy | intros AC_op Hf].
  step. destruct (Nat.eqb (n_terms a) 1).
  { eapply preserves_bind; [now apply preserves_bind_coeff_vec | intros o Ho].
    apply preserves_ret. split; assumption. }
  destruct (negb _); [apply preserves_raise|].
  eapply preserves_bind; [now apply preserves_bind_coeff_vec | intros o [Hos Hoc]].
  step.
  destruct (match s_index with Some i => Some i | None => _ end) as [i|];
    [|apply preserves_raise].
  eapply (preserves_bind _ _ _ (fun _ => True)).
  { destruct (Nat.eqb i 0); [now apply preserves_ret|].
    step. step. destruct (swap_coeffs i a1) as [v'|]; [|apply preserves_raise].
    destruct (swap0 i a2) as [m'|]; [|apply preserves_raise].
    eapply preserves_bind; [now apply preserves_store | intros _ _].
    eapply preserves_bind; [now apply preserves_store | intros _ _].
    destruct (init_check n m'); [now apply preserves_ret | apply preserves_raise]. }
  intros _ _.
  destruct (String.eqb up_method "seq_rot").
  { step. destruct (quotients_nan _ a).
    - eapply preserves_bind; [apply preserves_copy_nan | intros c Hc].
      apply preserves_raise.
    - eapply preserves_bind;
        [apply preserves_recursive_seq_rotations; now split | intros p Hp].
      step. apply preserves_ret. split; [exact Hp | now split]. }
  destruct (String.eqb up_method "LCU"); [|apply preserves_raise].
  step. destruct (quotients_nan _ a).
  - step. eapply preserves_bind; [apply preserves_new_op | intros p Hp].
    step. apply preserves_ret. split; [exact Hp | now split].
  - eapply preserves_bind; [apply preserves_generate_LCU_operator | intros p Hp].
    step. apply preserves_ret. split; [exact Hp | now split].
Qed.


(** C10: a call of [unitary_partitioning] leaves every array that existed
    before the call as it was, in particular the arrays [symp_matrix] and
    [coeff_vec] of the object it is called on, so that the object denotes
    the same terms and coefficients after the call; the normalisation and
    the swap go to arrays made during the call, and so do the objects
    returned.  The state has nothing else but the two caches
    [X_sk_rotations] and [R_LCU]. *)
Theorem unitary_partitioning_keeps_self (n : nat) (self : PwordObj)
    (s_index : option nat) (up_method : String.string) (st : state) :
  symp_ref self < length (arrays st) ->
  coeff_ref self < length (arrays st) ->
  let st' := snd (unitary_partitioning n self s_index up_method st) in
  nth_error (arrays st') (symp_ref self) = nth_error (arrays st) (symp_ref self) /\
  nth_error (arrays st') (coeff_ref self) = nth_error (arrays st) (coeff_ref self) /\
  fst (read_op self st') = fst (read_op self st) /\
  (forall i, i < length (arrays st) ->
             nth_error (arrays st') i = nth_error (arrays st) i) /\
  (forall p, fst (unitary_partitioning n self s_index up_method st) = Ok p ->
             fresh_partition (length (arrays st)) p).
Proof.
  intros Hs Hc.
  destruct (preserves_unitary_partitioning (length (arrays st)) n self s_index
              up_method st (le_n _)) as [[_ Hfr] Hfresh].
  cbv zeta. split; [now apply Hfr|]. split; [now apply Hfr|].
  split; [|split; [exact Hfr | exact Hfresh]].
  unfold read_op, bind, read_symp, read_coeff, ret. simpl.
  now rewrite (Hfr _ Hs), (Hfr _ Hc).
Qed.

(** The clique [{X: 3, Z: 4}] in a store of two arrays. *)
Definition st34 : state :=
  mkState [Symp [[true; false]; [false; true]]; Coeff [RtoC 3; RtoC 4]] [] None.
Definition self34 : PwordObj := mkObj 0 1.

Lemma unitary_partitioning_keeps_self_witness :
  let st' := snd (unitary_partitioning 1 self34 (Some 1) "seq_rot"%string st34) in
  nth_error (arrays st') 0 = Some (Symp [[true; false]; [false; true]]) /\
  nth_error (arrays st') 1 = Some (Coeff [RtoC 3; RtoC 4]) /\
  fst (read_op self34 st') = fst (read_op self34 st34) /\
  (forall i, i < 2 -> nth_error (arrays st') i = nth_error (arrays st34) i) /\
  (forall p, fst (unitary_partitioning 1 self34 (Some 1) "seq_rot"%string st34) = Ok p ->
             fresh_partition 2 p).
Proof.
  apply (unitary_partitioning_keeps_self 1 self34 (Some 1) "seq_rot"%string st34);
    simpl; lia.
Defined.

End StoreFacts.

(* ======================================================================== *)
(** * Rows as binary numbers *)
(* ======================================================================== *)

Module BitOrder.
Import AC ListFacts Canonical.
Local Open Scope Z_scope.

(** The number written by the bits, first bit most significant. *)
Fixpoint value (bits : list bool) : Z :=
  match bits with
  | [] => 0
  | b :: bits' => (if b then 2 ^ Z.of_nat (length bits') else 0) + value bits'
  end.

Lemma bit_weights_S (m : nat) :
  bit_weights (S m) = 2 ^ Z.of_nat m :: bit_weights m.
Proof.
  unfold bit_weights. rewrite seq_S, map_app, rev_app_distr. simpl.
  now rewrite Z.shiftl_1_l.
Qed.

Lemma dot_bits_cons (b : bool) (bits : list bool) (w : Z) (ws : list Z) :
  dot_bits (b :: bits) (w :: ws) = (if b then w else 0) + dot_bits bits ws.
Proof. reflexivity. Qed.

Lemma dot_bits_value (bits : list bool) :
  dot_bits bits (bit_weights (length bits)) = value bits.
Proof.
  induction bits as [|b bits IH]; [reflexivity|].
  cbn [length]. rewrite bit_weights_S, dot_bits_cons, IH. reflexivity.
Qed.

Lemma value_bounds (bits : list bool) :
  0 <= value bits < 2 ^ Z.of_nat (length bits).
Proof.
  induction bits as [|b bits IH]; [simpl; lia|].
  cbn [value length]. rewrite Nat2Z.inj_succ, Z.pow_succ_r by lia.
  destruct b; lia.
Qed.

(** The order of the numbers is the lexicographic order of the bits. *)
Lemma value_lt_iff (a b : list bool) :
  length a = length b -> (value a < value b <-> row_ltb a b = true).
Proof.
  revert b. induction a as [|x a IH]; intros [|y b] Hlen; try discriminate.
  - simpl. split; [lia | discriminate].
  - injection Hlen as Hlen. cbn [value row_ltb]. rewrite Hlen.
    pose proof (value_bounds a) as Ha. pose proof (value_bounds b) as Hb.
    rewrite Hlen in Ha.
    destruct x, y; cbn [Bool.eqb negb]; rewrite <- ?(IH b Hlen);
      split; intros H; try lia; try discriminate; reflexivity.
Qed.

Lemma value_inj (a b : list bool) :
  length a = length b -> value a = value b -> a = b.
Proof.
  revert b. induction a as [|x a IH]; intros [|y b] Hlen Hv; try discriminate;
    [reflexivity|].
  injection Hlen as Hlen. cbn [value] in Hv. rewrite Hlen in Hv.
  pose proof (value_bounds a) as Ha. pose proof (value_bounds b) as Hb.
  rewrite Hlen in Ha.
  destruct x, y; try lia; f_equal; apply IH; auto; lia.
Qed.

(** ** argmin *)

Lemma argmin_from_spec (l : list Z) :
  forall (pre : list Z) (bi : nat) (b : Z),
  (bi < length pre)%nat -> nth bi pre 0 = b ->
  (forall j, (j < length pre)%nat -> b <= nth j pre 0) ->
  (forall j, (j < bi)%nat -> b < nth j pre 0) ->
  let i := argmin_from bi b (length pre) l in
  (i < length (pre ++ l))%nat /\
  (forall j, (j < length (pre ++ l))%nat -> nth i (pre ++ l) 0 <= nth j (pre ++ l) 0) /\
  (forall j, (j < i)%nat -> nth i (pre ++ l) 0 < nth j (pre ++ l) 0).
Proof.
  induction l as [|x l IH]; intros pre bi b Hbi Hb Hmin Hfirst; cbv zeta.
  - cbn [argmin_from]. rewrite app_nil_r. subst b. auto.
  - cbn [argmin_from].
    replace (pre ++ x :: l) with ((pre ++ [x]) ++ l) by (now rewrite <- app_assoc).
    replace (S (length pre)) with (length (pre ++ [x]))
      by (rewrite length_app; simpl; lia).
    destruct (x <? b) eqn:E.
    + apply Z.ltb_lt in E. apply IH.
      * rewrite length_app. simpl. lia.
      * rewrite app_nth2, Nat.sub_diag by lia. reflexivity.
      * intros j Hj. rewrite length_app in Hj. simpl in Hj.
        destruct (Nat.eq_dec j (length pre)) as [-> | Hne].
        -- rewrite app_nth2, Nat.sub_diag by lia. simpl. lia.
        -- rewrite app_nth1 by lia. specialize (Hmin j ltac:(lia)). lia.
      * intros j Hj. rewrite app_nth1 by lia. specialize (Hmin j Hj). lia.
    + apply Z.ltb_ge in E. apply IH.
      * rewrite length_app. simpl. lia.
      * rewrite app_nth1 by lia. exact Hb.
      * intros j Hj. rewrite length_app in Hj. simpl in Hj.
        destruct (Nat.eq_dec j (length pre)) as [-> | Hne].
        -- rewrite app_nth2, Nat.sub_diag by lia. simpl. lia.
        -- rewrite app_nth1 by lia. apply Hmin. lia.
      * intros j Hj. rewrite app_nth1 by lia. now apply Hfirst.
Qed.

(** [np.argmin]: in range, a least entry, and the first of them. *)
Lemma argmin_spec (l : list Z) (i : nat) :
  argmin l = Some i ->
  (i < length l)%nat /\
  (forall j, (j < length l)%nat -> nth i l 0 <= nth j l 0) /\
  (forall j, (j < i)%nat -> nth i l 0 < nth j l 0).
Proof.
  destruct l as [|x l]; [discriminate|]. cbn [argmin]. intros [= <-].
  apply (argmin_from_spec l [x] 0%nat x).
  - simpl. lia.
  - reflexivity.
  - intros j Hj. simpl in Hj. assert (j = 0%nat) as -> by lia. simpl. lia.
  - intros j Hj. lia.
Qed.

Lemma argmin_nonempty (l : list Z) : l <> [] -> exists i, argmin l = Some i.
Proof. destruct l; [contradiction | simpl; eauto]. Qed.

End BitOrder.

(* ======================================================================== *)
(** * The default target and the sort of an anticommuting operator *)
(* ======================================================================== *)

Module SortFacts.
Import AC ListFacts SympFacts Canonical ACValid BitOrder.

(** ** get_least_dense_term_index *)

Definition occupancy (self : AntiCommutingOp) (j : nat) : list bool :=
  pos_terms_occur (n_qubits self) (nth j (symp_matrix (terms self)) []).

Lemma length_pos_terms_occur (n : nat) (r : row) :
  wf_row n r -> length (pos_terms_occur n r) = n.
Proof.
  intros Hr. unfold pos_terms_occur.
  rewrite length_map2, (length_X_block n r Hr), (length_Z_block n r Hr). lia.
Qed.

Lemma wf_row_nth (n : nat) (P : PauliwordOp) (j : nat) :
  wf_op n P -> (j < n_terms P)%nat -> wf_row n (nth j (symp_matrix P) []).
Proof.
  intros Hwf Hj. unfold wf_op in Hwf. rewrite Forall_forall in Hwf.
  unfold symp_matrix. rewrite (map_nth_in fst P ([], C0)) by exact Hj.
  apply Hwf. apply nth_In. exact Hj.
Qed.

Lemma int_list_value (self : AntiCommutingOp) (j : nat) :
  wf_op (n_qubits self) (terms self) -> (j < n_terms (terms self))%nat ->
  nth j (int_list (n_qubits self) (symp_matrix (terms self))) 0%Z
  = value (occupancy self j).
Proof.
  intros Hwf Hj. unfold int_list.
  rewrite (map_nth_in _ (symp_matrix (terms self)) [])
    by (unfold symp_matrix; now rewrite length_map).
  fold (occupancy self j).
  rewrite <- dot_bits_value. unfold occupancy.
  now rewrite (length_pos_terms_occur _ _ (wf_row_nth _ _ _ Hwf Hj)).
Qed.

(** X1: The index returned is in range; the pattern of occupied positions of
    its term comes first in lexicographic order (an unoccupied position
    before an occupied one, leftmost qubit first), and it is the first term
    with that pattern.  On an operator without terms there is no index. *)
Theorem least_dense_index_first_in_lexicographic_order (self : AntiCommutingOp) :
  wf_op (n_qubits self) (terms self) ->
  (terms self = [] <-> get_least_dense_term_index self = None) /\
  forall i, get_least_dense_term_index self = Some i ->
    (i < n_terms (terms self))%nat /\
    (forall j, (j < n_terms (terms self))%nat ->
       row_ltb (occupancy self j) (occupancy self i) = false) /\
    (forall j, (j < i)%nat ->
       row_ltb (occupancy self i) (occupancy self j) = true).
Proof.
  intros Hwf. split.
  - unfold get_least_dense_term_index, int_list, symp_matrix.
    destruct (terms self) as [|t P]; simpl; split; try reflexivity; discriminate.
  - intros i Hi. unfold get_least_dense_term_index in Hi.
    apply argmin_spec in Hi. destruct Hi as [Hlt [Hmin Hfirst]].
    assert (Hlen : length (int_list (n_qubits self) (symp_matrix (terms self)))
                   = n_terms (terms self)).
    { unfold int_list, symp_matrix, n_terms. now rewrite !length_map. }
    rewrite Hlen in Hlt, Hmin.
    assert (Hocc : forall j, (j < n_terms (terms self))%nat ->
                   length (occupancy self j) = n_qubits self).
    { intros j Hj. apply length_pos_terms_occur. now apply wf_row_nth. }
    split; [exact Hlt|]. split.
    + intros j Hj. specialize (Hmin j Hj).
      rewrite !int_list_value in Hmin by assumption.
      destruct (row_ltb (occupancy self j) (occupancy self i)) eqn:E;
        [|reflexivity].
      apply value_lt_iff in E; [lia|]. now rewrite !Hocc.
    + intros j Hj. specialize (Hfirst j Hj).
      rewrite !int_list_value in Hfirst by (assumption || lia).
      apply value_lt_iff; [|exact Hfirst]. rewrite !Hocc; [reflexivity | lia | exact Hlt].
Qed.

Lemma least_dense_index_first_in_lexicographic_order_witness :
  (terms LeastDense.A = [] <-> get_least_dense_term_index LeastDense.A = None) /\
  forall i, get_least_dense_term_index LeastDense.A = Some i ->
    (i < n_terms (terms LeastDense.A))%nat /\
    (forall j, (j < n_terms (terms LeastDense.A))%nat ->
       row_ltb (occupancy LeastDense.A j) (occupancy LeastDense.A i) = false) /\
    (forall j, (j < i)%nat ->
       row_ltb (occupancy LeastDense.A i) (occupancy LeastDense.A j) = true).
Proof.
  apply (least_dense_index_first_in_lexicographic_order LeastDense.A).
  repeat constructor.
Defined.

End SortFacts.

(* ======================================================================== *)
(** * lexicographical_sort *)
(* ======================================================================== *)

Module LexSort.
Import AC ListFacts SympFacts Canonical ACValid BitOrder.
Import AntiFamily LCUSound PartitionSound Partitioning.

(** ** argsort *)

Definition key_le (a b : Z * nat) : Prop := (fst a <= fst b)%Z.

Lemma insert_index_Permutation (x : Z * nat) (l : list (Z * nat)) :
  Permutation (ACSort.insert_index x l) (x :: l).
Proof.
  induction l as [|y l IH]; [reflexivity|]. cbn [ACSort.insert_index].
  destruct (fst y <? fst x)%Z; [|reflexivity].
  rewrite IH. apply perm_swap.
Qed.

Lemma insert_index_sorted (x : Z * nat) (l : list (Z * nat)) :
  StronglySorted key_le l -> StronglySorted key_le (ACSort.insert_index x l).
Proof.
  induction 1 as [|y l Hl IH Hy]; cbn [ACSort.insert_index].
  - repeat constructor.
  - destruct (fst y <? fst x)%Z eqn:E.
    + apply Z.ltb_lt in E. constructor; [exact IH|].
      apply (Permutation_Forall (Permutation_sym (insert_index_Permutation x l))).
      constructor; [unfold key_le; lia | exact Hy].
    + apply Z.ltb_ge in E. constructor; [now constructor|].
      constructor; [exact E|].
      eapply Forall_impl; [|exact Hy]. unfold key_le. intros z Hz. lia.
Qed.

Definition sorted_pairs (keys : list Z) : list (Z * nat) :=
  fold_right ACSort.insert_index [] (combine keys (seq 0 (length keys))).

Lemma sorted_pairs_Permutation (keys : list Z) :
  Permutation (sorted_pairs keys) (combine keys (seq 0 (length keys))).
Proof.
  unfold sorted_pairs. induction (combine keys (seq 0 (length keys))) as [|x l IH];
    [reflexivity|].
  cbn [fold_right]. rewrite insert_index_Permutation. now constructor.
Qed.

Lemma sorted_pairs_sorted (keys : list Z) : StronglySorted key_le (sorted_pairs keys).
Proof.
  unfold sorted_pairs. induction (combine keys (seq 0 (length keys))) as [|x l IH].
  - constructor.
  - cbn [fold_right]. now apply insert_index_sorted.
Qed.

Lemma combine_seq_keys (keys : list Z) (a : nat) :
  Forall (fun p => (a <= snd p < a + length keys)%nat /\ fst p = nth (snd p - a) keys 0%Z)
         (combine keys (seq a (length keys))).
Proof.
  revert a. induction keys as [|k keys IH]; intros a; [constructor|].
  cbn [length seq combine]. constructor.
  - cbn [fst snd]. rewrite Nat.sub_diag. split; [lia | reflexivity].
  - eapply Forall_impl; [|apply (IH (S a))]. intros [z i] [Hi Hz]. cbn [fst snd] in *.
    split; [lia|]. rewrite Hz. replace (i - a)%nat with (S (i - S a)) by lia.
    reflexivity.
Qed.

Lemma map_snd_combine_seq {A} (l : list A) (a : nat) :
  map snd (combine l (seq a (length l))) = seq a (length l).
Proof.
  revert a. induction l as [|x l IH]; intros a; [reflexivity|].
  cbn [length seq combine map snd]. now rewrite IH.
Qed.

(** The indices are those of the keys, each once. *)
Lemma argsort_Permutation (keys : list Z) :
  Permutation (ACSort.argsort keys) (seq 0 (length keys)).
Proof.
  unfold ACSort.argsort. fold (sorted_pairs keys).
  rewrite (sorted_pairs_Permutation keys).
  now rewrite map_snd_combine_seq.
Qed.

(** ** Anticommutation does not depend on the order of the terms *)

Definition distinct_anticommute (n : nat) (rows : list row) : Prop :=
  NoDup rows /\
  forall a b, In a rows -> In b rows -> a <> b -> commutes n a b = false.

Lemma anticommuting_distinct (n : nat) (rows : list row) :
  anticommuting n rows <-> distinct_anticommute n rows.
Proof.
  split.
  - intros Hac. split.
    + apply (NoDup_nth rows []). intros i j Hi Hj E.
      pose proof (Hac i j Hi Hj) as H. rewrite E, commutes_refl in H.
      symmetry in H. now apply Nat.eqb_eq in H.
    + intros a b Ha Hb Hne.
      destruct (In_nth rows a [] Ha) as [i [Hi <-]].
      destruct (In_nth rows b [] Hb) as [j [Hj <-]].
      rewrite (Hac i j Hi Hj). apply Nat.eqb_neq. intros ->. now apply Hne.
  - intros [Hnd Hanti] i j Hi Hj.
    destruct (Nat.eqb_spec i j) as [-> | Hne]; [apply commutes_refl|].
    apply Hanti; try (apply nth_In; assumption).
    intros E. apply Hne. now apply (proj1 (NoDup_nth rows []) Hnd).
Qed.

Lemma distinct_anticommute_Permutation (n : nat) (rows rows' : list row) :
  Permutation rows rows' -> distinct_anticommute n rows ->
  distinct_anticommute n rows'.
Proof.
  intros Hp [Hnd Hanti]. split.
  - now apply (Permutation_NoDup Hp).
  - intros a b Ha Hb. apply Hanti; now apply (Permutation_in _ (Permutation_sym Hp)).
Qed.

Lemma is_AC_Permutation (n : nat) (P Q : PauliwordOp) :
  Permutation P Q ->
  init_check n (symp_matrix P) = true -> init_check n (symp_matrix Q) = true.
Proof.
  intros Hp H. apply init_check_anticommuting, anticommuting_distinct.
  apply init_check_anticommuting, anticommuting_distinct in H.
  apply (distinct_anticommute_Permutation n (symp_matrix P)); [|exact H].
  unfold symp_matrix. now apply Permutation_map.
Qed.

(** ** The sorted terms *)

Definition row_int (n : nat) (t : row * C) : Z :=
  dot_bits (fst t) (bit_weights (2 * n)).

Lemma take_Permutation (indices : list nat) (P : PauliwordOp) :
  Permutation indices (seq 0 (length P)) -> Permutation (ACSort.take indices P) P.
Proof.
  intros Hp. unfold ACSort.take. rewrite (Permutation_map _ Hp).
  now rewrite map_seq_nth.
Qed.

Lemma StronglySorted_map {A B} (R : A -> A -> Prop) (R' : B -> B -> Prop)
    (Q : A -> Prop) (f : A -> B) (l : list A) :
  (forall x y, Q x -> Q y -> R x y -> R' (f x) (f y)) ->
  Forall Q l -> StronglySorted R l -> StronglySorted R' (map f l).
Proof.
  intros Hf HQ Hs. induction Hs as [|x l Hl IH Hx]; cbn [map]; constructor.
  - apply IH. now inversion HQ.
  - inversion HQ as [|? ? Qx Ql]; subst. apply Forall_map.
    rewrite Forall_forall in *. intros y Hy. apply Hf; auto.
Qed.

Lemma take_sorted_by_int (n : nat) (P : PauliwordOp) :
  StronglySorted (fun t u => (row_int n t <= row_int n u)%Z)
    (ACSort.take (ACSort.argsort (ACSort.int_list n (symp_matrix P))) P).
Proof.
  set (keys := ACSort.int_list n (symp_matrix P)).
  assert (Hlen : length keys = length P).
  { unfold keys, ACSort.int_list, symp_matrix. now rewrite !length_map. }
  unfold ACSort.take, ACSort.argsort. fold (sorted_pairs keys). rewrite map_map.
  apply (StronglySorted_map key_le _
           (fun p => fst p = row_int n (nth (snd p) P ([], C0)))).
  - intros x y Hx Hy Hxy. unfold key_le in Hxy. now rewrite <- Hx, <- Hy.
  - apply (Permutation_Forall (Permutation_sym (sorted_pairs_Permutation keys))).
    eapply Forall_impl; [|apply (combine_seq_keys keys 0)].
    intros [z i] [Hi Hz]. cbn [fst snd] in *. rewrite Hz, Nat.sub_0_r.
    unfold keys, ACSort.int_list, symp_matrix. rewrite map_map.
    rewrite (map_nth_in _ P ([], C0)) by lia. reflexivity.
  - apply sorted_pairs_sorted.
Qed.

Lemma sorted_by_int_strict (n : nat) (L : PauliwordOp) :
  wf_op n L -> NoDup (map fst L) ->
  StronglySorted (fun t u => (row_int n t <= row_int n u)%Z) L ->
  sorted L.
Proof.
  intros Hwf Hnd Hs. unfold sorted.
  induction Hs as [|t L HL IH Ht]; constructor.
  - apply IH; [now inversion Hwf | now inversion Hnd].
  - inversion Hwf as [|? ? Hwt HwL]; subst.
    inversion Hnd as [|? ? Hnotin _]; subst.
    rewrite Forall_forall in *. intros u Hu.
    specialize (Ht u Hu). specialize (HwL u Hu). unfold key_lt.
    unfold row_int in Ht. unfold wf_row in Hwt, HwL.
    assert (Et : dot_bits (fst t) (bit_weights (2 * n)) = value (fst t))
      by (rewrite <- Hwt; apply dot_bits_value).
    assert (Eu : dot_bits (fst u) (bit_weights (2 * n)) = value (fst u))
      by (rewrite <- HwL; apply dot_bits_value).
    rewrite Et, Eu in Ht.
    apply value_lt_iff; [congruence|].
    assert (Hne : value (fst t) <> value (fst u)).
    { intros E. apply value_inj in E; [|congruence].
      apply Hnotin. rewrite E. now apply in_map. }
    lia.
Qed.

(** X2: After [lexicographical_sort] the object holds the same terms, in
    lexicographic order of their rows (the [X] block before the [Z] block,
    the leftmost qubit first, unset before set); it is still made of
    anticommuting terms and its stored rotations are as before. *)
Theorem lexicographical_sort_orders_rows (self : AntiCommutingOp) :
  wf_op (n_qubits self) (terms self) ->
  init_check (n_qubits self) (symp_matrix (terms self)) = true ->
  let self' := ACSort.lexicographical_sort self in
  Permutation (terms self') (terms self) /\
  sorted (terms self') /\
  init_check (n_qubits self') (symp_matrix (terms self')) = true /\
  X_sk_rotations self' = X_sk_rotations self /\ R_LCU self' = R_LCU self.
Proof.
  intros Hwf Hac. cbv zeta. unfold ACSort.lexicographical_sort.
  cbn [terms n_qubits X_sk_rotations R_LCU].
  set (idx := ACSort.argsort (ACSort.int_list (n_qubits self) (symp_matrix (terms self)))).
  assert (Hperm : Permutation (ACSort.take idx (terms self)) (terms self)).
  { apply take_Permutation. unfold idx.
    rewrite argsort_Permutation. unfold ACSort.int_list, symp_matrix.
    now rewrite !length_map. }
  split; [exact Hperm|]. split; [|split; [|split; reflexivity]].
  - apply (sorted_by_int_strict (n_qubits self)).
    + unfold wf_op. apply (Permutation_Forall (Permutation_sym Hperm)). exact Hwf.
    + apply (Permutation_NoDup (Permutation_map fst (Permutation_sym Hperm))).
      apply init_check_anticommuting, anticommuting_distinct in Hac.
      exact (proj1 Hac).
    + apply take_sorted_by_int.
  - exact (is_AC_Permutation _ _ _ (Permutation_sym Hperm) Hac).
Qed.

Lemma lexicographical_sort_orders_rows_witness :
  let self' := ACSort.lexicographical_sort LeastDense.A in
  Permutation (terms self') (terms LeastDense.A) /\
  sorted (terms self') /\
  init_check (n_qubits self') (symp_matrix (terms self')) = true /\
  X_sk_rotations self' = X_sk_rotations LeastDense.A /\
  R_LCU self' = R_LCU LeastDense.A.
Proof.
  apply (lexicographical_sort_orders_rows LeastDense.A).
  - repeat constructor.
  - reflexivity.
Defined.

End LexSort.

(* ======================================================================== *)
(** * The constructor and the values a partitioning call returns *)
(* ======================================================================== *)

Module PartitionFacts.
Import AC PwordFacts ListFacts SympFacts OpLaws Canonical ACValid AntiFamily.
Import SeqRot Partitioning LCUSound PartitionSound LexSort.
Local Open Scope R_scope.

(** ** __init__ *)

(** X3: [__init__] accepts a list of terms exactly when every two different
    terms anticommute: the sum of the off-diagonal entries of the adjacency
    matrix vanishes only if each of them does.  The object then starts with
    no stored rotation; otherwise the assertion fails. *)
Theorem init_accepts_anticommuting_terms (n : nat) (P : PauliwordOp) :
  (init n P = Ok (mkAC n P [] None) <->
   forall i j, (i < n_terms P)%nat -> (j < n_terms P)%nat -> i <> j ->
     commutes n (nth i (symp_matrix P) []) (nth j (symp_matrix P) []) = false) /\
  (init n P = Err NotAnticommuting <->
   exists i j, (i < n_terms P)%nat /\ (j < n_terms P)%nat /\ i <> j /\
     commutes n (nth i (symp_matrix P) []) (nth j (symp_matrix P) []) = true).
Proof.
  assert (Hlen : length (symp_matrix P) = n_terms P)
    by (unfold symp_matrix, n_terms; apply length_map).
  assert (Hiff : init_check n (symp_matrix P) = true <->
                 forall i j, (i < n_terms P)%nat -> (j < n_terms P)%nat -> i <> j ->
                   commutes n (nth i (symp_matrix P) []) (nth j (symp_matrix P) [])
                   = false).
  { rewrite init_check_anticommuting. unfold anticommuting. rewrite Hlen. split.
    - intros H i j Hi Hj Hne. rewrite (H i j Hi Hj). now apply Nat.eqb_neq.
    - intros H i j Hi Hj. destruct (Nat.eqb_spec i j) as [-> | Hne].
      + apply commutes_refl.
      + now apply H. }
  unfold init. destruct (init_check n (symp_matrix P)) eqn:E; split.
  - split; [intros _; now apply Hiff | reflexivity].
  - split; [discriminate|]. intros [i [j [Hi [Hj [Hne Hc]]]]].
    rewrite (proj1 Hiff eq_refl i j Hi Hj Hne) in Hc. discriminate.
  - split; [discriminate|]. intros H. apply Hiff in H. discriminate.
  - split; [intros _ | reflexivity].
    assert (Hnot : ~ anticommuting n (symp_matrix P)).
    { intros H. apply init_check_anticommuting in H. congruence. }
    apply Decidable.not_not.
    + unfold Decidable.decidable. apply Classical_Prop.classic.
    + intros Hno. apply Hnot. intros i j Hi Hj. rewrite Hlen in Hi, Hj.
      destruct (Nat.eqb_spec i j) as [-> | Hne]; [apply commutes_refl|].
      destruct (commutes n (nth i (symp_matrix P) []) (nth j (symp_matrix P) []))
        eqn:Ec; [|reflexivity].
      exfalso. apply Hno. exists i, j. auto.
Qed.

(** ** What a call returns *)

Lemma scale_div_eq (d : R) (P : PauliwordOp) :
  d <> 0 -> multiply_by_constant (RtoC d) (div_coeffs d P) = P.
Proof.
  intros Hd. unfold multiply_by_constant, div_coeffs. rewrite map_map.
  rewrite <- (map_id P) at 2. apply map_ext. intros [k [re im]].
  cbn [fst snd Re Im]. f_equal. apply C_eq; simpl; field; exact Hd.
Qed.

Lemma norm_div_unit (P Q : PauliwordOp) :
  Permutation P Q -> norm (coeff_vec P) <> 0 ->
  norm (coeff_vec (div_coeffs (norm (coeff_vec P)) Q)) = 1.
Proof.
  intros Hp Hn. unfold norm at 1.
  fold (norm_sq (div_coeffs (norm (coeff_vec P)) Q)).
  rewrite norm_sq_div by exact Hn.
  rewrite <- (norm_sq_Permutation _ _ Hp), <- (norm_sqr P).
  replace (norm (coeff_vec P) ^ 2 / norm (coeff_vec P) ^ 2) with 1
    by (field; exact Hn).
  apply sqrt_1.
Qed.

Lemma norm_nonneg (v : list C) : 0 <= norm v.
Proof. unfold norm. apply sqrt_pos. Qed.

Lemma normalise_cases (gamma : R) (P : PauliwordOp) :
  (gamma <> 0 /\ normalise gamma P = Finite (div_coeffs gamma P)) \/
  (gamma = 0 /\ P <> [] /\ normalise gamma P = NaN) \/
  (gamma = 0 /\ P = [] /\ normalise gamma P = Finite []).
Proof.
  unfold normalise, quotients_nan.
  destruct (Req_dec_T gamma 0) as [E | N]; [|left; auto].
  right. destruct P as [|t P]; [right | left]; cbn [n_terms length Nat.eqb negb andb];
    repeat split; auto; discriminate.
Qed.

(** X4: Whenever a call returns, whatever the method and the target, the
    [gamma_l] returned is the norm of the coefficients of [self] and the
    terms of [self] are not changed.  When [gamma_l] is not zero, the
    operator returned has real numbers for coefficients, of norm one, and
    [gamma_l] times it holds the terms of [self], reordered:
    [self == gamma_l * AC_op].  When [gamma_l] is zero -- the coefficients
    of [self] are all zero -- the coefficients of the operator returned are
    nan. *)
Theorem returned_operator_is_self_normalised (self : AntiCommutingOp)
    (s_index : option nat) (up_method : String.string)
    (part : partition) (self' : AntiCommutingOp) :
  unitary_partitioning self s_index up_method = (Ok part, self') ->
  gamma_l part = norm (coeff_vec (terms self)) /\
  0 <= gamma_l part /\
  terms self' = terms self /\
  (gamma_l part <> 0 ->
   exists AC_op,
     AC_op_norm part = Finite AC_op /\
     Permutation (multiply_by_constant (RtoC (gamma_l part)) AC_op) (terms self) /\
     norm (coeff_vec AC_op) = 1) /\
  (gamma_l part = 0 -> AC_op_norm part = NaN).
Proof.
  intros H.
  pose proof (Caches.call_keeps_terms self s_index up_method) as Hkeep.
  cbv zeta in Hkeep. rewrite H in Hkeep. cbn [snd] in Hkeep.
  destruct Hkeep as [_ Hterms].
  unfold unitary_partitioning in H.
  set (gamma := norm (coeff_vec (terms self))) in *.
  assert (Hg0 : 0 <= gamma) by apply norm_nonneg.
  assert (Hsw : forall i sw,
             (if Nat.eqb i 0 then Some (terms self) else swap0 i (terms self)) = Some sw ->
             Permutation (terms self) sw).
  { intros i sw E. destruct (Nat.eqb i 0).
    - injection E as <-. reflexivity.
    - now apply (swap0_Permutation i). }
  assert (Hfin : forall sw, Permutation (terms self) sw -> gamma <> 0 ->
             exists AC_op,
               Finite (div_coeffs gamma sw) = Finite AC_op /\
               Permutation (multiply_by_constant (RtoC gamma) AC_op) (terms self) /\
               norm (coeff_vec AC_op) = 1).
  { intros sw Hp N. exists (div_coeffs gamma sw). split; [reflexivity|]. split.
    - rewrite scale_div_eq by exact N. now symmetry.
    - now apply norm_div_unit. }
  destruct (Nat.eqb_spec (n_terms (terms self)) 1) as [E1 | N1].
  - injection H as <- <-. cbn [gamma_l AC_op_norm].
    split; [reflexivity|]. split; [exact Hg0|]. split; [reflexivity|].
    destruct (normalise_cases gamma (terms self))
      as [[N ->] | [[E [Hne ->]] | [E [Hnil _]]]].
    + split; [intros _; now apply Hfin | intros E; contradiction].
    + split; [intros N; contradiction | reflexivity].
    + rewrite Hnil in E1. discriminate.
  - destruct (negb _); [discriminate|].
    destruct (match s_index with
              | Some i => Some i
              | None => get_least_dense_term_index self
              end) as [i|]; [|discriminate].
    destruct (if Nat.eqb i 0 then Some (terms self) else swap0 i (terms self))
      as [sw|] eqn:Esw; [|discriminate].
    apply Hsw in Esw.
    destruct (negb (Nat.eqb i 0) && negb (init_check (n_qubits self) (symp_matrix sw)));
      [discriminate|].
    cbv zeta in H.
    destruct (normalise_cases gamma sw)
      as [[N En] | [[E [Hne En]] | [E [Hnil En]]]]; rewrite En in H.
    + destruct (String.eqb up_method "seq_rot").
      * destruct (_recursive_seq_rotations _ _) as [[Ps | e] self1]; [|discriminate].
        injection H as <- <-. cbn [gamma_l AC_op_norm].
        split; [reflexivity|]. split; [exact Hg0|]. split; [exact Hterms|].
        split; [intros _; now apply Hfin | intros E; contradiction].
      * destruct (String.eqb up_method "LCU"); [|discriminate].
        destruct (generate_LCU_operator _ _) as [[Ps | e] self1]; [|discriminate].
        injection H as <- <-. cbn [gamma_l AC_op_norm].
        split; [reflexivity|]. split; [exact Hg0|]. split; [exact Hterms|].
        split; [intros _; now apply Hfin | intros E; contradiction].
    + destruct (String.eqb up_method "seq_rot"); [discriminate|].
      destruct (String.eqb up_method "LCU"); [|discriminate].
      injection H as <- <-. cbn [gamma_l AC_op_norm].
      split; [reflexivity|]. split; [exact Hg0|]. split; [reflexivity|].
      split; [intros N; contradiction | reflexivity].
    + subst sw. destruct (String.eqb up_method "seq_rot"); [discriminate|].
      destruct (String.eqb up_method "LCU"); discriminate.
Qed.

Lemma returned_operator_is_self_normalised_witness :
  let part := mkPart (Some (Finite [(SeqRotExamples.Xrow, RtoC 1)]))
                     (SeqRotations [([(SeqRotExamples.Yrow, C1)], - atan (4 / 3))]) 5
                     (Finite (div_coeffs 5 (terms SeqRotExamples.A34))) in
  let self' := mkAC 1 (terms SeqRotExamples.A34)
                    [([(SeqRotExamples.Yrow, C1)], - atan (4 / 3))] None in
  gamma_l part = norm (coeff_vec (terms SeqRotExamples.A34)) /\
  0 <= gamma_l part /\
  terms self' = terms SeqRotExamples.A34 /\
  (gamma_l part <> 0 ->
   exists AC_op,
     AC_op_norm part = Finite AC_op /\
     Permutation (multiply_by_constant (RtoC (gamma_l part)) AC_op)
                 (terms SeqRotExamples.A34) /\
     norm (coeff_vec AC_op) = 1) /\
  (gamma_l part = 0 -> AC_op_norm part = NaN).
Proof.
  exact (returned_operator_is_self_normalised _ _ _ _ _ SeqRotClaims.call_34).
Defined.

(** ** The generators of the recorded rotations *)

Lemma Cipow_odd_cases (k : nat) :
  k mod 2 = 1%nat -> Cipow k = Ci \/ Cipow k = (- Ci)%C.
Proof.
  intros Hk. unfold Cipow.
  assert (E2 : (k mod 2 = (k mod 4) mod 2)%nat).
  { rewrite (Nat.div_mod_eq k 4) at 1.
    replace (4 * (k / 4))%nat with ((2 * (k / 4)) * 2)%nat by lia.
    rewrite Nat.add_comm. apply Nat.Div0.mod_add. }
  rewrite E2 in Hk.
  pose proof (Nat.mod_upper_bound k 4 ltac:(discriminate)) as Hb.
  destruct (k mod 4) as [|[|[|[|?]]]]; try discriminate; try lia; auto.
Qed.

(** For anticommuting [P_t] and [P_k] the product [-i P_t P_k] is a Pauli
    string with coefficient [1] or [-1]; with the sign fixed the generator
    recorded has coefficient [1]. *)
Lemma recorded_generator (n : nat) (P_t P_k : row) (beta_s beta_k : R) :
  wf_row n P_t -> wf_row n P_k -> commutes n P_t P_k = false ->
  fst (rotation_spec n P_t beta_s P_k beta_k) = [(map2 xorb P_t P_k, C1)].
Proof.
  intros Ht Hk Hanti. unfold rotation_spec, generator_spec, mul_symplectic.
  cbn [fst snd].
  assert (Hodd : phase_exp n P_t P_k mod 2 = 1%nat).
  { rewrite (phase_parity n P_t P_k Ht Hk). now apply commutes_false_odd. }
  destruct (Cipow_odd_cases _ Hodd) as [-> | ->].
  - rewrite SeqRotExamples.Rltb_false by (simpl; lra).
    cbn [fst]. repeat f_equal. csimp.
  - rewrite SeqRotExamples.Rltb_true by (simpl; lra).
    cbn [fst]. repeat f_equal. csimp.
Qed.

Lemma steps_spec_partners (rest : list (row * R)) (beta_s : R) :
  map (fun st => fst (snd st)) (steps_spec beta_s rest) = map fst rest.
Proof.
  revert beta_s. induction rest as [|[P_k b] rest IH]; intros bs; [reflexivity|].
  cbn [steps_spec map fst snd]. now rewrite IH.
Qed.

Lemma recorded_generators (n : nat) (P_t : row) (rest : list (row * R)) :
  wf_row n P_t ->
  Forall (fun t => wf_row n (fst t) /\ commutes n P_t (fst t) = false) rest ->
  forall beta_s,
  map fst (rotations_spec n P_t beta_s rest)
  = map (fun t => [(map2 xorb P_t (fst t), C1)]) rest.
Proof.
  intros Ht. induction 1 as [|[P_k b] rest [Hk Hanti] _ IH]; intros bs; [reflexivity|].
  unfold rotations_spec in *. cbn [steps_spec map fst snd] in *.
  rewrite (recorded_generator n P_t P_k bs b Ht Hk Hanti). f_equal. apply IH.
Qed.

(** X5: A call with method seq_rot on an operator of at least two terms with
    real coefficients and a target of nonzero coefficient records one
    rotation for every other term, in the order the terms have once the
    target is put first; the generator of each is the Pauli string
    [P_t P_k] of the target and that term, with coefficient exactly [1]. *)
Theorem recorded_generators_are_unit_pauli_strings (self : AntiCommutingOp)
    (s_index : option nat) (i : nat) (P_t : row) (c_t : C) :
  wf_op (n_qubits self) (terms self) ->
  init_check (n_qubits self) (symp_matrix (terms self)) = true ->
  real_coeffs (terms self) ->
  (2 <= n_terms (terms self))%nat ->
  resolve self s_index = Some i ->
  nth_error (terms self) i = Some (P_t, c_t) ->
  Re c_t <> 0 ->
  exists part self' recorded others,
    unitary_partitioning self s_index "seq_rot"%string = (Ok part, self') /\
    rots part = SeqRotations recorded /\
    X_sk_rotations self' = recorded /\
    swap0 i (terms self) = Some ((P_t, c_t) :: others) /\
    map fst recorded = map (fun t => [(map2 xorb P_t (fst t), C1)]) others.
Proof.
  intros Hwf Hac Hreal Hlen Hres Hnth Hre.
  destruct (seq_rot_call self s_index i P_t c_t Hac Hreal Hlen Hres Hnth Hre)
    as [sw_rest [Hsw [Hcall _]]].
  cbv zeta in Hcall.
  assert (Hperm : Permutation (terms self) ((P_t, c_t) :: sw_rest))
    by (eapply swap0_Permutation; eauto).
  assert (Hanti : anticommuting (n_qubits self) (map fst ((P_t, c_t) :: sw_rest))).
  { apply (anticommuting_swap _ i (symp_matrix (terms self))).
    - unfold symp_matrix. now apply swap0_map.
    - now apply init_check_anticommuting. }
  eexists; eexists; eexists; exists sw_rest.
  split; [exact Hcall|]. cbn [rots X_sk_rotations].
  split; [reflexivity|]. split; [reflexivity|]. split; [exact Hsw|].
  rewrite (recorded_generators (n_qubits self) P_t).
  - unfold real_parts, div_coeffs. rewrite !map_map. reflexivity.
  - exact (target_wf_row _ _ P_t c_t sw_rest Hwf Hperm).
  - pose proof (Permutation_Forall Hperm Hwf) as Hwf'.
    inversion Hwf' as [|? ? _ Hwr]; subst.
    cbn [map fst] in Hanti. apply anticommuting_cons in Hanti.
    destruct Hanti as [Ha _].
    unfold real_parts, div_coeffs. rewrite map_map. apply Forall_map.
    rewrite Forall_map in Ha. rewrite Forall_forall in *.
    intros t Hin. cbn [fst snd]. split; [now apply Hwr | now apply Ha].
Qed.

Lemma recorded_generators_are_unit_pauli_strings_witness :
  exists part self' recorded others,
    unitary_partitioning SeqRotExamples.A34 (Some 0%nat) "seq_rot"%string
      = (Ok part, self') /\
    rots part = SeqRotations recorded /\
    X_sk_rotations self' = recorded /\
    swap0 0 (terms SeqRotExamples.A34)
      = Some ((SeqRotExamples.Xrow, RtoC 3) :: others) /\
    map fst recorded
      = map (fun t => [(map2 xorb SeqRotExamples.Xrow (fst t), C1)]) others.
Proof.
  apply (recorded_generators_are_unit_pauli_strings SeqRotExamples.A34 (Some 0%nat) 0
           SeqRotExamples.Xrow (RtoC 3)).
  - repeat constructor.
  - reflexivity.
  - repeat constructor.
  - simpl. lia.
  - reflexivity.
  - reflexivity.
  - simpl. lra.
Defined.

End PartitionFacts.

(* ======================================================================== *)
(** * The LCU operator is unitary *)
(* ======================================================================== *)

Module LCUUnitary.
Import AC PwordFacts ListFacts SympFacts OpAlgebra Conjugation OpLaws Canonical.
Import ACValid AntiFamily TwoInvolutions RotationAlgebra SeqRot SeqRotSound.
Import Partitioning LCUSound PartitionSound.
Local Open Scope R_scope.

Lemma dagger_I (n : nat) : op_equiv (dagger (I_op n)) (I_op n).
Proof. intros p. unfold I_op. simpl. destruct (row_eqb _ _); csimp. Qed.

Lemma rot_unit (c s : R) :
  c ^ 2 + s ^ 2 = 1 -> qmul (rot c s) (qdag (rot c s)) = mkQ4 C1 C0 C0 C0.
Proof.
  intros Hcs. unfold rot, qmul, qdag. cbn [qI qS qH qK].
  f_equal; apply C_eq; simpl; try ring. rewrite <- Hcs. ring.
Qed.

Lemma rot_unit' (c s : R) :
  c ^ 2 + s ^ 2 = 1 -> qmul (qdag (rot c s)) (rot c s) = mkQ4 C1 C0 C0 C0.
Proof.
  intros Hcs. unfold rot, qmul, qdag. cbn [qI qS qH qK].
  f_equal; apply C_eq; simpl; try ring. rewrite <- Hcs. ring.
Qed.

Section Normalised.

Variable n : nat.
Variable P_t : row.
Variable b : C.
Variable t : PauliwordOp.
Hypothesis wf_t : wf_row n P_t.
Hypothesis wf_rest : wf_op n t.
Hypothesis real_rest : real_op t.
Hypothesis anti_t : anti_with n P_t t.
Hypothesis pair_rest : pairwise_anti n t.
Hypothesis unit_norm : Re b ^ 2 + norm_sq t = 1.
Hypothesis not_minus_one : Re b <> -1.

Let R_op : PauliwordOp :=
  LCU_R n [(P_t, C1)] (acos (Re b)) (div_coeffs (omega_l t) (cleanup t)).

Lemma R_alone : omega_l t = 0 -> op_equiv R_op (I_op n).
Proof.
  intros Hw. unfold R_op.
  assert (Hnil : cleanup t = []).
  { apply norm_sq_zero_nil, norm_zero_iff. exact Hw. }
  assert (Hone : Re b = 1).
  { pose proof (omega_sq n t pair_rest) as E. rewrite Hw in E.
    assert (E' : (Re b - 1) * (Re b + 1) = 0) by nra.
    apply Rmult_integral in E'. destruct E' as [E' | E']; lra. }
  rewrite Hnil, Hone, acos_1. unfold LCU_R. cbn [div_coeffs map fold_left].
  replace (0 / 2) with 0 by field. rewrite cos_0. reflexivity.
Qed.

Lemma R_both_sides :
  op_equiv (mul_stack n R_op (dagger R_op)) (I_op n) /\
  op_equiv (mul_stack n (dagger R_op) R_op) (I_op n).
Proof.
  destruct (Req_dec_T (omega_l t) 0) as [Hw | Hw].
  - rewrite (R_alone Hw), dagger_I.
    split; apply mul_I_l; repeat constructor; apply wf_identity.
  - set (H := multiply_by_constant (RtoC (/ omega_l t)) t).
    set (S := [(P_t, C1)]).
    set (alpha := acos (Re b)).
    assert (wfS : wf_op n S) by (repeat constructor; exact wf_t).
    assert (wfH : wf_op n H) by (apply wf_op_scale; exact wf_rest).
    assert (realH : real_op H) by (apply real_op_scale; exact real_rest).
    assert (antiH : anti_with n P_t H).
    { apply anti_with_rows. unfold H. rewrite scale_rows.
      now apply anti_with_rows. }
    assert (pairH : pairwise_anti n H).
    { apply pairwise_anti_rows. unfold H. rewrite scale_rows.
      now apply pairwise_anti_rows. }
    assert (normH : sq_norm H = 1).
    { rewrite (sq_norm_real H realH). unfold H.
      rewrite norm_sq_scale, <- (omega_sq n t pair_rest). field. exact Hw. }
    pose proof (S_square n P_t wf_t) as SS.
    pose proof (H_square n H wfH realH pairH normH) as HH.
    pose proof (S_H_anticommute n P_t H wf_t wfH antiH) as SH.
    pose proof (S_dagger P_t) as dS.
    pose proof (H_dagger H realH) as dH.
    pose proof (K_dagger n P_t H wf_t wfH realH antiH) as dK.
    fold S in SS, SH, dS.
    assert (ER : op_equiv R_op (den n S H (rot (cos (alpha / 2)) (sin (alpha / 2))))).
    { unfold R_op. fold S. fold alpha.
      rewrite LCU_R_equiv, div_coeffs_scale, (cleanup_equiv t). fold H.
      intros p. rewrite coef_app, coef_scale, coef_den.
      unfold rot. cbn [qI qS qH qK]. fold (K n S H). unfold I_op. cbn [coef].
      generalize (coef S p) (coef H p) (coef (K n S H) p).
      intros [s1 s2] [h1 h2] [k1 k2].
      destruct (row_eqb (identity_row n) p); csimp. }
    assert (EI : op_equiv (den n S H (mkQ4 C1 C0 C0 C0)) (I_op n)).
    { intros p. rewrite coef_den. cbn [qI qS qH qK]. ring. }
    rewrite ER, (den_dagger n S H dS dH dK).
    rewrite !(den_mul n S H wfS wfH SS HH SH).
    rewrite (rot_unit _ _ (half_unit alpha)), (rot_unit' _ _ (half_unit alpha)).
    split; exact EI.
Qed.

End Normalised.

(** X6: The operator [R] cached and returned by a call with method LCU, on an
    operator of at least two terms with real coefficients whose target
    coefficient is not [- gamma_l], is unitary:
    [R * R.dagger] and [R.dagger * R] are the identity. *)
Theorem LCU_operator_is_unitary (self : AntiCommutingOp) (s_index : option nat)
    (i : nat) (P_t : row) (c_t : C) :
  wf_op (n_qubits self) (terms self) ->
  init_check (n_qubits self) (symp_matrix (terms self)) = true ->
  real_coeffs (terms self) ->
  (2 <= n_terms (terms self))%nat ->
  resolve self s_index = Some i ->
  nth_error (terms self) i = Some (P_t, c_t) ->
  Re c_t <> - norm (coeff_vec (terms self)) ->
  exists part self' (R_op : PauliwordOp),
    unitary_partitioning self s_index "LCU"%string = (Ok part, self') /\
    rots part = LCURotation (Some (Finite R_op)) /\
    R_LCU self' = Some (Finite R_op) /\
    mul (n_qubits self) R_op (dagger R_op) = [(identity_row (n_qubits self), C1)] /\
    mul (n_qubits self) (dagger R_op) R_op = [(identity_row (n_qubits self), C1)].
Proof.
  intros Hwf Hac Hreal Hlen Hres Hnth Hre.
  assert (Hg : 0 < gamma (terms self)).
  { destruct (Req_dec_T (Re c_t) 0) as [E | N].
    - rewrite E in Hre.
      assert (Hp : 0 <= norm (coeff_vec (terms self)))
        by (unfold norm; apply sqrt_pos).
      unfold gamma. lra.
    - apply (norm_pos (terms self) (P_t, c_t)); [|exact N].
      eapply nth_error_In; eauto. }
  destruct (PartitionClaims.LCU_call self s_index i P_t c_t Hwf Hac Hreal Hlen Hres
              Hnth Hg) as [sw_rest [Hperm [Hanti Hcall]]].
  cbv zeta in Hcall.
  eexists; eexists; eexists. split; [exact Hcall|]. cbn [rots R_LCU].
  split; [reflexivity|]. split; [reflexivity|].
  assert (Hb : Re (RtoC (Re c_t / gamma (terms self))) <> -1).
  { simpl. intros E. apply Hre. fold (gamma (terms self)).
    replace (Re c_t) with (Re c_t / gamma (terms self) * gamma (terms self))
      by (field; lra).
    rewrite E. ring. }
  destruct (R_both_sides (n_qubits self) P_t (RtoC (Re c_t / gamma (terms self)))
              (normalised_rest (terms self) sw_rest)
              (target_wf_row _ _ P_t c_t sw_rest Hwf Hperm)
              (normalised_wf _ _ P_t c_t sw_rest Hwf Hperm)
              (normalised_real _ P_t c_t sw_rest Hreal Hperm)
              (normalised_anti _ _ P_t c_t sw_rest Hanti)
              (normalised_pairwise _ _ P_t c_t sw_rest Hanti)
              (normalised_unit _ P_t c_t sw_rest Hreal Hperm Hg) Hb) as [E1 E2].
  assert (HI : cleanup (I_op (n_qubits self)) = [(identity_row (n_qubits self), C1)]).
  { apply cleanup_single. intros E. injection E. lra. }
  unfold R_of. cbv zeta. cbn [Re RtoC] in E1, E2.
  split; unfold mul; rewrite <- HI; apply cleanup_canonical; assumption.
Qed.

Lemma LCU_operator_is_unitary_witness :
  exists part self' (R_op : PauliwordOp),
    unitary_partitioning SeqRotExamples.A34 (Some 0%nat) "LCU"%string
      = (Ok part, self') /\
    rots part = LCURotation (Some (Finite R_op)) /\
    R_LCU self' = Some (Finite R_op) /\
    mul 1 R_op (dagger R_op) = [(identity_row 1, C1)] /\
    mul 1 (dagger R_op) R_op = [(identity_row 1, C1)].
Proof.
  apply (LCU_operator_is_unitary SeqRotExamples.A34 (Some 0%nat) 0
           SeqRotExamples.Xrow (RtoC 3)).
  - repeat constructor.
  - reflexivity.
  - repeat constructor.
  - simpl. lia.
  - reflexivity.
  - reflexivity.
  - pose proof (sqrt_pos (sumR (map (fun c => Re c ^ 2 + Im c ^ 2)
                                    (coeff_vec (terms SeqRotExamples.A34))))) as Hp.
    unfold norm. simpl Re at 1. lra.
Defined.

End LCUUnitary.

(* ======================================================================== *)
(** * conjugate_Pop_with_R: how conjugations compose *)
(* ======================================================================== *)

Module ConjugationLaws.
Import AC PwordFacts ListFacts SympFacts OpAlgebra Conjugation OpLaws Canonical.
Import ACValid AntiFamily RotationAlgebra SeqRotSound.
Local Open Scope R_scope.

(** ** The adjoint of a product *)

Lemma Cipow_even_conj (k : nat) : k mod 2 = 0%nat -> Cconj (Cipow k) = Cipow k.
Proof.
  intros Hk. unfold Cipow.
  assert (E2 : (k mod 2 = (k mod 4) mod 2)%nat).
  { rewrite (Nat.div_mod_eq k 4) at 1.
    replace (4 * (k / 4))%nat with ((2 * (k / 4)) * 2)%nat by lia.
    rewrite Nat.add_comm. apply Nat.Div0.mod_add. }
  rewrite E2 in Hk.
  pose proof (Nat.mod_upper_bound k 4 ltac:(discriminate)) as Hb.
  destruct (k mod 4) as [|[|[|[|?]]]]; try discriminate; try lia; csimp.
Qed.

Lemma phase_commute (n : nat) (a b : row) :
  wf_row n a -> wf_row n b -> commutes n a b = true ->
  Cipow (phase_exp n a b) = Cipow (phase_exp n b a).
Proof.
  intros Ha Hb Hab.
  rewrite (Cipow_mod _ _ (phase_swap n a b Ha Hb)), Cipow_add.
  rewrite <- Csign_Cipow.
  rewrite (Csign_mod2 _ 0) by (rewrite (commutes_true_even n a b Hab); reflexivity).
  unfold Csign. simpl. ring.
Qed.

(** The phase of [b a] is the conjugate of the phase of [a b]. *)
Lemma phase_conj (n : nat) (a b : row) :
  wf_row n a -> wf_row n b ->
  Cconj (Cipow (phase_exp n a b)) = Cipow (phase_exp n b a).
Proof.
  intros Ha Hb. destruct (commutes n a b) eqn:E.
  - rewrite Cipow_even_conj.
    + now apply phase_commute.
    + rewrite (phase_parity n a b Ha Hb). now apply commutes_true_even.
  - rewrite Cipow_odd_conj.
    + rewrite (phase_anticommute n a b Ha Hb E).
      destruct (Cipow (phase_exp n b a)). csimp.
    + rewrite (phase_parity n a b Ha Hb). now apply commutes_false_odd.
Qed.

Lemma Cconj_sumC (l : list C) : Cconj (sumC l) = sumC (map Cconj l).
Proof.
  induction l as [|c l IH]; [csimp|]. cbn [map sumC]. rewrite <- IH.
  destruct c, (sumC l). csimp.
Qed.

Lemma term_dagger (n : nat) (a b : row) (ca cb : C) (p : row) :
  wf_row n a -> wf_row n b ->
  Cconj (coef [mul_symplectic n a ca b cb] p)
  = coef [mul_symplectic n b (Cconj cb) a (Cconj ca)] p.
Proof.
  intros Ha Hb. unfold mul_symplectic. rewrite (xor_comm b a).
  rewrite <- (phase_conj n a b Ha Hb). cbn [coef].
  destruct (row_eqb (map2 xorb a b) p), (Cipow (phase_exp n a b)), ca, cb; csimp.
Qed.

Lemma dagger_mul (n : nat) (A B : PauliwordOp) :
  wf_op n A -> wf_op n B ->
  op_equiv (dagger (mul_stack n A B)) (mul_stack n (dagger B) (dagger A)).
Proof.
  intros HA HB p. rewrite coef_dagger, !coef_mul_stack.
  unfold wf_op in *. rewrite Forall_forall in *.
  rewrite Cconj_sumC, map_map.
  rewrite (sumC_map_ext _ (fun t : row * C =>
             sumC (map (fun u : row * C =>
                          coef [mul_symplectic n (fst u) (Cconj (snd u))
                                               (fst t) (Cconj (snd t))] p) B))).
  - rewrite (sumC_exchange
               (fun (t u : row * C) =>
                  coef [mul_symplectic n (fst u) (Cconj (snd u))
                                       (fst t) (Cconj (snd t))] p)).
    unfold dagger. rewrite map_map. apply sumC_map_ext. intros u Hu.
    rewrite map_map. reflexivity.
  - intros t Ht. rewrite Cconj_sumC, map_map. apply sumC_map_ext. intros u Hu.
    apply term_dagger; auto.
Qed.

(** ** Conjugations before cleanup *)

Lemma conj_stack_wf (n : nat) (R_op P : PauliwordOp) :
  wf_op n R_op -> wf_op n P -> wf_op n (conj_stack n R_op P).
Proof.
  intros HR HP. unfold conj_stack.
  auto using wf_op_mul_stack, wf_op_dagger.
Qed.

Lemma conj_stack_identity (n : nat) (P : PauliwordOp) :
  wf_op n P -> op_equiv (conj_stack n (I_op n) P) P.
Proof.
  intros HP. unfold conj_stack.
  rewrite (mul_I_l n P HP), LCUUnitary.dagger_I. now apply mul_I_r.
Qed.

Lemma conj_stack_compose (n : nat) (R1 R2 P : PauliwordOp) :
  wf_op n R1 -> wf_op n R2 -> wf_op n P ->
  op_equiv (conj_stack n R2 (conj_stack n R1 P))
           (conj_stack n (mul_stack n R2 R1) P).
Proof.
  intros H1 H2 HP. unfold conj_stack.
  pose proof (wf_op_dagger n R1 H1) as Hd1.
  pose proof (wf_op_dagger n R2 H2) as Hd2.
  pose proof (wf_op_mul_stack n R1 P H1 HP) as H1P.
  rewrite (dagger_mul n R2 R1 H2 H1).
  rewrite <- (mul_assoc n R2 (mul_stack n R1 P) (dagger R1))
    by assumption.
  rewrite <- (mul_assoc n R2 R1 P) by assumption.
  rewrite (mul_assoc n (mul_stack n (mul_stack n R2 R1) P) (dagger R1) (dagger R2));
    auto using wf_op_mul_stack.
  reflexivity.
Qed.

(** ** The function *)

Definition R_Z : PauliwordOp := [([false; true], C1)].

Lemma wf_Pop_XZ : wf_op 1 ConjugationClaims.Pop_XZ.
Proof. repeat constructor. Defined.

Lemma wf_R_IY : wf_op 1 ConjugationClaims.R_IY.
Proof. repeat constructor. Defined.

Lemma wf_R_Z : wf_op 1 R_Z.
Proof. repeat constructor. Defined.

Lemma conjugate_wf (n : nat) (Pop R_op : PauliwordOp) :
  wf_op n Pop -> wf_op n R_op -> wf_op n (conjugate_Pop_with_R n Pop R_op).
Proof.
  intros HP HR. rewrite (conjugate_as_product n Pop R_op HP HR).
  now apply wf_op_cleanup, conj_stack_wf.
Qed.

(** X7: Conjugating by the identity operator returns [Pop], cleaned up. *)
Theorem conjugate_by_identity (n : nat) (Pop : PauliwordOp) :
  wf_op n Pop ->
  conjugate_Pop_with_R n Pop [(identity_row n, C1)] = cleanup Pop.
Proof.
  intros HP. fold (I_op n).
  rewrite (conjugate_as_product n Pop (I_op n) HP)
    by (repeat constructor; apply wf_identity).
  apply cleanup_canonical. now apply conj_stack_identity.
Qed.

Lemma conjugate_by_identity_witness :
  conjugate_Pop_with_R 1 ConjugationClaims.Pop_XZ [(identity_row 1, C1)] = cleanup ConjugationClaims.Pop_XZ.
Proof. apply (conjugate_by_identity 1 ConjugationClaims.Pop_XZ). exact wf_Pop_XZ. Defined.

(** X8: Conjugating by [R1] and then by [R2] is conjugating once by the
    product [R2 * R1]. *)
Theorem conjugate_twice_is_conjugate_by_product (n : nat) (Pop R1 R2 : PauliwordOp) :
  wf_op n Pop -> wf_op n R1 -> wf_op n R2 ->
  conjugate_Pop_with_R n (conjugate_Pop_with_R n Pop R1) R2
  = conjugate_Pop_with_R n Pop (mul n R2 R1).
Proof.
  intros HP H1 H2.
  assert (H21 : wf_op n (mul n R2 R1))
    by (unfold mul; now apply wf_op_cleanup, wf_op_mul_stack).
  rewrite (conjugate_as_product n _ R2 (conjugate_wf n Pop R1 HP H1) H2).
  rewrite (conjugate_as_product n Pop R1 HP H1).
  rewrite (conjugate_as_product n Pop _ HP H21).
  apply cleanup_canonical.
  rewrite (cleanup_equiv (conj_stack n R1 Pop)).
  rewrite (conj_stack_compose n R1 R2 Pop H1 H2 HP).
  apply conj_stack_Proper; [|reflexivity].
  symmetry. apply mul_is_mul_stack.
Qed.

Lemma conjugate_twice_is_conjugate_by_product_witness :
  conjugate_Pop_with_R 1 (conjugate_Pop_with_R 1 ConjugationClaims.Pop_XZ ConjugationClaims.R_IY) R_Z
  = conjugate_Pop_with_R 1 ConjugationClaims.Pop_XZ (mul 1 R_Z ConjugationClaims.R_IY).
Proof.
  apply (conjugate_twice_is_conjugate_by_product 1 ConjugationClaims.Pop_XZ ConjugationClaims.R_IY R_Z).
  - exact wf_Pop_XZ.
  - exact wf_R_IY.
  - exact wf_R_Z.
Defined.

(** X9: For a unitary [R] ([R.dagger * R] is the identity), conjugating by [R]
    and then by [R.dagger] gives [Pop] back, cleaned up. *)
Theorem conjugate_by_adjoint_undoes (n : nat) (Pop R_op : PauliwordOp) :
  wf_op n Pop -> wf_op n R_op ->
  mul n (dagger R_op) R_op = [(identity_row n, C1)] ->
  conjugate_Pop_with_R n (conjugate_Pop_with_R n Pop R_op) (dagger R_op)
  = cleanup Pop.
Proof.
  intros HP HR Hu.
  pose proof (wf_op_dagger n R_op HR) as Hd.
  rewrite (conjugate_as_product n _ (dagger R_op) (conjugate_wf n Pop R_op HP HR) Hd).
  rewrite (conjugate_as_product n Pop R_op HP HR).
  apply cleanup_canonical.
  rewrite (cleanup_equiv (conj_stack n R_op Pop)).
  rewrite (conj_stack_compose n R_op (dagger R_op) Pop HR Hd HP).
  rewrite <- (mul_is_mul_stack n (dagger R_op) R_op), Hu.
  now apply conj_stack_identity.
Qed.

Lemma conjugate_by_adjoint_undoes_witness :
  conjugate_Pop_with_R 1 (conjugate_Pop_with_R 1 ConjugationClaims.Pop_XZ R_Z) (dagger R_Z)
  = cleanup ConjugationClaims.Pop_XZ.
Proof.
  apply (conjugate_by_adjoint_undoes 1 ConjugationClaims.Pop_XZ R_Z).
  - exact wf_Pop_XZ.
  - exact wf_R_Z.
  - unfold mul, R_Z, dagger, mul_stack, mul_symplectic. cbn -[Cmul Cconj Cipow].
    change (Cipow 0) with C1.
    replace (C1 * Cconj C1 * C1)%C with C1 by csimp.
    apply SeqRot.cleanup_single. intros E. injection E. lra.
Defined.

(** X11: The conjugation is linear in [Pop]: the sum of two operators is sent to
    the sum of their images, and a multiple to the multiple of the image,
    cleaned up. *)
Theorem conjugate_is_linear (n : nat) (P Q R_op : PauliwordOp) (c : C) :
  wf_op n P -> wf_op n Q -> wf_op n R_op ->
  conjugate_Pop_with_R n (add P Q) R_op
  = add (conjugate_Pop_with_R n P R_op) (conjugate_Pop_with_R n Q R_op) /\
  conjugate_Pop_with_R n (multiply_by_constant c P) R_op
  = cleanup (multiply_by_constant c (conjugate_Pop_with_R n P R_op)).
Proof.
  intros HP HQ HR. split.
  - assert (HPQ : wf_op n (add P Q))
      by (unfold add; now apply wf_op_cleanup, wf_op_app).
    rewrite (conjugate_as_product n _ R_op HPQ HR),
      (conjugate_as_product n P R_op HP HR), (conjugate_as_product n Q R_op HQ HR).
    unfold add. apply cleanup_canonical.
    rewrite (cleanup_equiv (P ++ Q)), conj_stack_app.
    now rewrite !cleanup_equiv.
  - rewrite (conjugate_as_product n _ R_op (wf_op_scale n c P HP) HR),
      (conjugate_as_product n P R_op HP HR).
    apply cleanup_canonical.
    rewrite conj_stack_scale. now rewrite cleanup_equiv.
Qed.

Lemma conjugate_is_linear_witness :
  conjugate_Pop_with_R 1 (add ConjugationClaims.Pop_XZ R_Z) ConjugationClaims.R_IY
  = add (conjugate_Pop_with_R 1 ConjugationClaims.Pop_XZ ConjugationClaims.R_IY) (conjugate_Pop_with_R 1 R_Z ConjugationClaims.R_IY) /\
  conjugate_Pop_with_R 1 (multiply_by_constant Ci ConjugationClaims.Pop_XZ) ConjugationClaims.R_IY
  = cleanup (multiply_by_constant Ci (conjugate_Pop_with_R 1 ConjugationClaims.Pop_XZ ConjugationClaims.R_IY)).
Proof.
  apply (conjugate_is_linear 1 ConjugationClaims.Pop_XZ R_Z ConjugationClaims.R_IY Ci).
  - exact wf_Pop_XZ.
  - exact wf_R_Z.
  - exact wf_R_IY.
Defined.

End ConjugationLaws.

(* ======================================================================== *)
(** * The energy as a function of the assignment, and the two searches *)
(* ======================================================================== *)

Module EnergyFacts.
Import NC Solver SolverFacts ListFacts.
Local Open Scope R_scope.

(** ** get_symmetry_contributions reads [nu == -1] *)

(** Two assignments agree for the energy when they have [-1] at the same
    positions. *)
Definition same_flips (nu nu' : list R) : Prop :=
  Forall2 (fun x y => x = -1 <-> y = -1) nu nu'.

Lemma Req_bool_iff (x y : R) :
  (x = -1 <-> y = -1) -> Req_bool x (-1) = Req_bool y (-1).
Proof.
  intros H. unfold Req_bool.
  destruct (Req_dec_T x (-1)) as [Ex | Nx], (Req_dec_T y (-1)) as [Ey | Ny];
    try reflexivity; exfalso; tauto.
Qed.

Lemma flags_same_flips (nu nu' : list R) :
  same_flips nu nu' ->
  map (fun x => Req_bool x (-1)) nu = map (fun x => Req_bool x (-1)) nu'.
Proof.
  induction 1 as [|x y nu nu' Hxy _ IH]; [reflexivity|].
  cbn [map]. now rewrite IH, (Req_bool_iff x y Hxy).
Qed.

Lemma contributions_same_flips (self : NoncontextualOp) (nu nu' : list R) :
  same_flips nu nu' ->
  get_symmetry_contributions self nu = get_symmetry_contributions self nu'.
Proof.
  intros H. unfold get_symmetry_contributions, coeff_mod, flip_counts.
  now rewrite (flags_same_flips nu nu' H).
Qed.

Lemma energy_same_flips (self : NoncontextualOp) (nu nu' : list R) :
  same_flips nu nu' -> get_energy self nu = get_energy self nu'.
Proof.
  intros H. unfold get_energy.
  now rewrite (contributions_same_flips self nu nu' H).
Qed.

(** X12: [get_symmetry_contributions] and [get_energy] depend on [nu] only
    through the positions at which it is exactly [-1]: any other entry,
    [+1] or not, counts as no sign flip. *)
Theorem energy_reads_only_minus_ones (self : NoncontextualOp) (nu nu' : list R) :
  same_flips nu nu' ->
  get_symmetry_contributions self nu = get_symmetry_contributions self nu' /\
  get_energy self nu = get_energy self nu'.
Proof.
  intros H. split.
  - exact (contributions_same_flips self nu nu' H).
  - exact (energy_same_flips self nu nu' H).
Qed.

Lemma energy_reads_only_minus_ones_witness :
  get_symmetry_contributions NC_Z [1 / 2] = get_symmetry_contributions NC_Z [1] /\
  get_energy NC_Z [1 / 2] = get_energy NC_Z [1].
Proof.
  apply (energy_reads_only_minus_ones NC_Z [1 / 2] [1]).
  repeat constructor; intros E; exfalso; lra.
Defined.

(** ** The size of the brute-force search *)

Lemma length_product (k : nat) : length (product k) = (2 ^ k)%nat.
Proof.
  induction k as [|k IH]; [reflexivity|].
  cbn [product flat_map]. rewrite !length_app, !length_map, IH. simpl. lia.
Qed.

Lemma product_lengths (k : nat) : Forall (fun l => length l = k) (product k).
Proof.
  induction k as [|k IH]; [repeat constructor|].
  cbn [product flat_map]. rewrite app_nil_r. apply Forall_app.
  split; apply Forall_map; (eapply Forall_impl; [|exact IH]);
    intros l Hl; simpl; now rewrite Hl.
Qed.

Lemma NoDup_product (k : nat) : NoDup (product k).
Proof.
  induction k as [|k IH]; [repeat constructor; auto|].
  cbn [product flat_map]. rewrite app_nil_r.
  assert (Hinj : forall x : R, NoDup (map (cons x) (product k))).
  { intros x. apply NoDup_map_NoDup_ForallPairs; [|exact IH].
    intros a b _ _ E. now injection E. }
  apply NoDup_app; auto.
  intros l H1 H2. apply in_map_iff in H1. destruct H1 as [a [<- _]].
  apply in_map_iff in H2. destruct H2 as [a' [E _]]. injection E. lra.
Qed.

Lemma select_neg_fill (mask : list bool) (fixed free : list R) :
  count_true mask = length fixed ->
  length free = count_true (map negb mask) ->
  NC.select (map negb mask) (fill mask fixed free) = free.
Proof.
  revert fixed free. induction mask as [|b mask IH]; intros fixed free Hf Hl.
  - destruct free; [reflexivity | discriminate].
  - cbn [map] in Hl. rewrite count_true_cons in Hf, Hl. destruct b; cbn [negb] in Hl.
    + destruct fixed as [|x fixed]; simpl in *; [lia|]. apply IH; lia.
    + destruct free as [|y free]; simpl in *; [lia|]. f_equal. apply IH; lia.
Qed.

Lemma all_fixed_no_free (mask : list bool) :
  forallb (fun b => b) mask = true -> count_true (map negb mask) = 0%nat.
Proof.
  induction mask as [|b mask IH]; [reflexivity|]. simpl.
  intros H. apply andb_prop in H. destruct H as [-> H].
  cbn [map negb]. rewrite count_true_cons. now rewrite IH.
Qed.

(** X14: The brute-force search evaluates the energy at [2^k] assignments, all
    different, where [k] is the number of generators that are not fixed
    (one assignment when all are fixed). *)
Theorem brute_force_search_size (nc : NC.NoncontextualOp)
    (fixed : option (list bool * list R)) (self : NoncontextualSolver) :
  init nc fixed = Some self ->
  length (nu_list self) = (2 ^ count_true (map negb (fixed_ev_mask self)))%nat /\
  NoDup (nu_list self).
Proof.
  intros Hinit. apply init_invariant in Hinit. destruct Hinit as [_ Hinv].
  unfold nu_list. destruct (forallb (fun b => b) (fixed_ev_mask self)) eqn:Hall.
  - rewrite (all_fixed_no_free _ Hall). split; [reflexivity|].
    repeat constructor. auto.
  - rewrite length_map, length_product. split; [reflexivity|].
    apply NoDup_map_NoDup_ForallPairs; [|apply NoDup_product].
    intros a b' Ha Hb E.
    pose proof (product_lengths (count_true (map negb (fixed_ev_mask self)))) as Hlen.
    rewrite Forall_forall in Hlen.
    rewrite <- (select_neg_fill (fixed_ev_mask self) (fixed_eigvals self) a Hinv
                  (Hlen a Ha)).
    rewrite E. apply select_neg_fill; auto.
Qed.

Lemma brute_force_search_size_witness :
  length (nu_list solver_Z) = (2 ^ count_true (map negb (fixed_ev_mask solver_Z)))%nat /\
  NoDup (nu_list solver_Z).
Proof.
  apply (brute_force_search_size NC_Z None solver_Z). reflexivity.
Defined.

End EnergyFacts.

(* ======================================================================== *)
(** * The constructors of a noncontextual part *)
(* ======================================================================== *)

Module StrategyFacts.
Import NC NCStrategies ListFacts ACValid.

(** ** _diag_noncontextual_op *)

Definition is_diagonal (n : nat) (t : row * C) : bool :=
  negb (existsb (fun b => b) (X_block n (fst t))).

Lemma select_mask_filter {A} (f : A -> bool) (l : list A) :
  select (map f l) l = filter f l.
Proof.
  induction l as [|x l IH]; [reflexivity|]. cbn [map select filter].
  destruct (f x); now rewrite IH.
Qed.

Lemma all_false_and (a b : list bool) :
  existsb (fun x => x) a = false -> count_true (map2 andb a b) = 0%nat.
Proof.
  unfold map2. revert b. induction a as [|x a IH]; intros [|y b] H; try reflexivity.
  simpl in H. apply orb_false_elim in H. destruct H as [-> H].
  cbn [combine map fst snd andb]. rewrite count_true_cons. now rewrite (IH b H).
Qed.

Lemma diagonal_commute (n : nat) (a b : row) :
  existsb (fun x => x) (X_block n a) = false ->
  existsb (fun x => x) (X_block n b) = false ->
  commutes n a b = true.
Proof.
  intros Ha Hb. unfold commutes, symp_form.
  rewrite (all_false_and _ _ Ha).
  rewrite (map2_comm andb (Z_block n a) (X_block n b)) by apply andb_comm.
  now rewrite (all_false_and _ _ Hb).
Qed.


(** ** The matrix kept by the sweep *)

(** The adjacency matrix of the terms at the given indices. *)
Definition adjacency (n : nat) (operator : list row) (indices : list nat)
  : list (list bool) :=
  map (fun i => map (fun j => commutes n (nth i operator []) (nth j operator []))
                    indices)
      indices.

Lemma map2_map_app {A B D E} (f : B -> D -> E) (g : A -> B) (h : A -> D)
    (l : list A) (extra : list D) :
  map2 f (map g l) (map h l ++ extra) = map (fun i => f (g i) (h i)) l.
Proof.
  unfold map2. induction l as [|x l IH]; [reflexivity|].
  cbn [map app combine fst snd]. now rewrite IH.
Qed.

Lemma pad_adjacency (n : nat) (operator : list row) (indices : list nat) (k : nat) :
  pad_with (adjacency n operator indices)
           (commutes_termwise n (nth k operator []) operator indices ++ [true])
  = adjacency n operator (indices ++ [k]).
Proof.
  unfold pad_with, adjacency, commutes_termwise.
  rewrite map2_map_app, map_app. cbn [map]. f_equal.
  - apply map_ext. intros i. rewrite map_app. cbn [map].
    now rewrite (commutes_sym n (nth i operator []) (nth k operator [])).
  - rewrite map_app. cbn [map]. now rewrite commutes_refl.
Qed.

Lemma skipn_cons_nth {A} (d : A) (k : nat) (l : list A) (x : A) (r : list A) :
  skipn k l = x :: r -> nth k l d = x /\ skipn (S k) l = r /\ (k < length l)%nat.
Proof.
  revert l. induction k as [|k IH]; intros [|y l] H; try discriminate.
  - injection H as -> ->. simpl. repeat split. lia.
  - cbn [skipn] in H. destruct (IH l H) as [H1 [H2 H3]].
    repeat split; auto. simpl. lia.
Qed.

Section Strategies.

Variable is_noncontextual : PauliwordOp -> bool.
Variable find_symmetry_generators : PauliwordOp -> PauliwordOp.
Variable generator_reconstruction :
  PauliwordOp -> PauliwordOp -> list (list Z) * list bool.
Variable jordan_generator_reconstruction :
  PauliwordOp -> PauliwordOp -> list (list Z) * list bool.
Variable clique_cover : PauliwordOp -> list PauliwordOp.
Variable sort : PauliwordOp -> PauliwordOp.
Variable check_adjmat_noncontextual : list (list bool) -> bool.
Variable shuffle : nat -> list nat.

Let construct :=
  cls is_noncontextual find_symmetry_generators generator_reconstruction
      jordan_generator_reconstruction clique_cover sort.

(** X15: [_diag_noncontextual_op] hands to the constructor the terms of [H]
    without a set entry in the [X] block, all of them and in the order of
    [H]; any two of them commute. *)
Theorem diag_operator_holds_commuting_terms (n : nat) (H : PauliwordOp) :
  _diag_noncontextual_op is_noncontextual find_symmetry_generators
    generator_reconstruction jordan_generator_reconstruction clique_cover sort n H
  = construct n (filter (is_diagonal n) H) /\
  forall t u, In t (filter (is_diagonal n) H) -> In u (filter (is_diagonal n) H) ->
    commutes n (fst t) (fst u) = true.
Proof.
  split.
  - exact (f_equal (construct n) (select_mask_filter (is_diagonal n) H)).
  - intros t u Ht Hu. apply filter_In in Ht, Hu.
    destruct Ht as [_ Ht], Hu as [_ Hu]. unfold is_diagonal in Ht, Hu.
    apply negb_true_iff in Ht, Hu. now apply diagonal_commute.
Qed.

(** ** _diag_first_noncontextual_op *)

Lemma append_keeps_noncontextual (P : PauliwordOp) (term : row * C) :
  is_noncontextual P = true ->
  is_noncontextual (append_if_noncontextual is_noncontextual P term) = true.
Proof.
  intros HP. unfold append_if_noncontextual.
  destruct (is_noncontextual (add P [term])) eqn:E; assumption.
Qed.

Lemma sweep_keeps_noncontextual (terms_to_append : PauliwordOp) (P : PauliwordOp) :
  is_noncontextual P = true ->
  is_noncontextual
    (fold_left (append_if_noncontextual is_noncontextual) terms_to_append P) = true.
Proof.
  revert P. induction terms_to_append as [|t l IH]; intros P HP; [exact HP|].
  cbn [fold_left]. apply IH. now apply append_keeps_noncontextual.
Qed.

Lemma constructed_is_noncontextual (n : nat) (H : PauliwordOp) (self : NoncontextualOp) :
  construct n H = inl self -> terms self = H /\ is_noncontextual H = true.
Proof.
  unfold construct, cls, init.
  destruct (is_noncontextual H); [|discriminate]. cbn [negb].
  destruct (noncontextual_generators _ _ _ _ n H) as [[[[gens dec] M] cliq]|];
    [|discriminate].
  destruct (noncontextual_reconstruction _ n H gens cliq) as [[[[[G Cm] m0] mC] sg]|];
    [|discriminate].
  intros E. injection E as <-. auto.
Qed.

Lemma not_contextual_when_noncontextual (n : nat) (H : PauliwordOp) :
  is_noncontextual H = true -> construct n H <> inr Contextual.
Proof.
  intros HH. unfold construct, cls, init. rewrite HH. cbn [negb].
  destruct (noncontextual_generators _ _ _ _ n H) as [[[[gens dec] M] cliq]|];
    [|discriminate].
  destruct (noncontextual_reconstruction _ n H gens cliq) as [[[[[G Cm] m0] mC] sg]|];
    discriminate.
Qed.

(** X16: The sweep of [_diag_first_noncontextual_op] keeps the growing operator
    noncontextual, so the construction at the end fails with 'Specified
    operator is contextual' only if that of the diagonal part does. *)
Theorem diag_first_contextual_only_if_diag_is (n : nat) (H : PauliwordOp) :
  _diag_first_noncontextual_op is_noncontextual find_symmetry_generators
    generator_reconstruction jordan_generator_reconstruction clique_cover sort n H
  = inr Contextual ->
  _diag_noncontextual_op is_noncontextual find_symmetry_generators
    generator_reconstruction jordan_generator_reconstruction clique_cover sort n H
  = inr Contextual.
Proof.
  unfold _diag_first_noncontextual_op.
  destruct (_diag_noncontextual_op _ _ _ _ _ _ n H) as [op0 | e] eqn:E0.
  - intros Hfin. exfalso. unfold _diag_noncontextual_op in E0.
    apply constructed_is_noncontextual in E0. destruct E0 as [Ht Hn].
    rewrite <- Ht in Hn.
    revert Hfin. unfold from_PauliwordOp.
    apply not_contextual_when_noncontextual.
    now apply sweep_keeps_noncontextual.
  - intros Hfin. exact Hfin.
Qed.

(** ** _single_sweep_noncontextual_operator *)

Definition selection_ok (n : nat) (operator : list row)
    (st : list nat * list (list bool)) : Prop :=
  hd_error (fst st) = Some 0%nat /\
  StronglySorted lt (fst st) /\
  Forall (fun i => (i < length operator)%nat) (fst st) /\
  snd st = adjacency n operator (fst st) /\
  (fst st = [0%nat] \/ check_adjmat_noncontextual (snd st) = true).

Lemma sweep_invariant (n : nat) (operator : list row) (rest : list row) :
  forall (index : nat) (indices : list nat) (adjmat : list (list bool)),
  rest = skipn (S index) operator ->
  Forall (fun i => (i <= index)%nat) indices ->
  selection_ok n operator (indices, adjmat) ->
  selection_ok n operator
    (sweep check_adjmat_noncontextual n operator index rest indices adjmat).
Proof.
  induction rest as [|term rest IH]; intros index indices adjmat Hrest Hle Hok;
    [exact Hok|].
  symmetry in Hrest.
  destruct (skipn_cons_nth [] _ _ _ _ Hrest) as [Hterm [Hskip Hlt]].
  destruct Hok as [Hhd [Hs [Hin [Hadj Hchk]]]]. cbn [fst snd] in *.
  cbn [sweep]. rewrite Hadj, <- Hterm, pad_adjacency.
  destruct (check_adjmat_noncontextual (adjacency n operator (indices ++ [S index])))
    eqn:E.
  - replace (index + 1)%nat with (S index) by lia.
    apply IH; [now symmetry | |].
    + apply Forall_app. split; [|constructor; [lia | constructor]].
      eapply Forall_impl; [|exact Hle]. intros i Hi. simpl in Hi. lia.
    + unfold selection_ok. cbn [fst snd]. repeat split.
      * destruct indices; [discriminate | exact Hhd].
      * clear - Hs Hle. induction Hs as [|i l Hl IHl Hi]; [repeat constructor|].
        inversion Hle as [|? ? Hi' Hl']; subst. cbn [app]. constructor.
        -- now apply IHl.
        -- apply Forall_app. split; [exact Hi | constructor; [lia | constructor]].
      * apply Forall_app. split; [exact Hin | constructor; [exact Hlt | constructor]].
      * now right.
  - rewrite <- Hadj. apply IH; [now symmetry | |].
    + eapply Forall_impl; [|exact Hle]. intros i Hi. simpl in Hi. lia.
    + unfold selection_ok. cbn [fst snd]. repeat split; assumption.
Qed.

(** X17: The sweep over an operator [first :: others] selects the first term and
    then indices in increasing order, all in range; the matrix it builds by
    padding is the adjacency matrix of the selected terms; and unless only
    the first term is selected, that matrix has passed
    [check_adjmat_noncontextual].  These terms are what the strategy
    CurrentOrder hands to the constructor. *)
Theorem single_sweep_selects_checked_terms (n : nat) (first : row * C)
    (others : PauliwordOp) :
  let operator := first :: others in
  let st := sweep check_adjmat_noncontextual n (symp_matrix operator) 0
                  (symp_matrix others) [0%nat] [[true]] in
  hd_error (fst st) = Some 0%nat /\
  StronglySorted lt (fst st) /\
  Forall (fun i => (i < n_terms operator)%nat) (fst st) /\
  snd st = adjacency n (symp_matrix operator) (fst st) /\
  (fst st = [0%nat] \/ check_adjmat_noncontextual (snd st) = true) /\
  _single_sweep_noncontextual_operator is_noncontextual find_symmetry_generators
    generator_reconstruction jordan_generator_reconstruction clique_cover sort
    check_adjmat_noncontextual shuffle n operator "CurrentOrder"%string
  = match construct n (ACSort.take (fst st) operator) with
    | inl op => inl op
    | inr e => inr (NotConstructed e)
    end.
Proof.
  cbv zeta.
  pose proof (sweep_invariant n (symp_matrix (first :: others)) (symp_matrix others)
                0 [0%nat] [[true]]) as H.
  destruct H as [H1 [H2 [H3 [H4 H5]]]].
  - reflexivity.
  - repeat constructor.
  - unfold selection_ok. cbn [fst snd]. repeat split.
    + repeat constructor.
    + constructor; [simpl; lia | constructor].
    + unfold adjacency. cbn [map nth symp_matrix fst]. now rewrite commutes_refl.
    + now left.
  - replace (n_terms (first :: others)) with (length (symp_matrix (first :: others)))
      by (unfold symp_matrix, n_terms; apply length_map).
    split; [exact H1|]. split; [exact H2|]. split; [exact H3|].
    split; [exact H4|]. split; [exact H5|]. reflexivity.
Qed.

(** ** __init__: the clique operator *)

Lemma generators_clique_operator (n : nat) (H gens cliq : PauliwordOp)
    (dec : list (block_key * PauliwordOp)) (M : nat) :
  noncontextual_generators find_symmetry_generators generator_reconstruction
    clique_cover sort n H = AC.Ok (gens, dec, M, cliq) ->
  AC.init_check n (symp_matrix cliq) = true /\
  length dec = S M /\
  (M = 0%nat -> cliq = []).
Proof.
  unfold noncontextual_generators.
  destruct (index_mask (map negb _) H) as [rest | e]; [|discriminate].
  set (cover := clique_cover rest).
  set (decomposed := combine (map Clique (seq 0 (length cover))) cover).
  destruct (Nat.ltb 0 (length decomposed)) eqn:Epos.
  - destruct (clique_representatives sort (map snd decomposed)) as [reps | e];
      [|discriminate].
    unfold AC.init.
    destruct (AC.init_check n (symp_matrix (sum_ops reps))) eqn:Echk; [|discriminate].
    cbn [AC.terms].
    destruct (index_mask _ H) as [sym | e]; [|discriminate].
    intros E. injection E as <- <- <- <-.
    split; [exact Echk|]. split.
    + rewrite length_app. simpl. lia.
    + intros E0. apply Nat.ltb_lt in Epos. lia.
  - destruct (index_mask _ H) as [sym | e]; [|discriminate].
    intros E. injection E as <- <- <- <-.
    split; [reflexivity|]. split.
    + rewrite length_app. simpl. lia.
    + reflexivity.
Qed.

(** X18: In an operator that [__init__] has constructed, the clique operator is
    made of anticommuting terms (it is empty when there is no clique), and
    [decomposed] has one block per clique and the block of the symmetries. *)
Theorem constructed_clique_operator_anticommutes (n : nat) (H : PauliwordOp)
    (self : NoncontextualOp) :
  construct n H = inl self ->
  AC.init_check n (symp_matrix (clique_operator self)) = true /\
  length (decomposed self) = S (n_cliques self) /\
  (n_cliques self = 0%nat -> clique_operator self = []).
Proof.
  unfold construct, cls, init.
  destruct (is_noncontextual H); [|discriminate]. cbn [negb].
  destruct (noncontextual_generators _ _ _ _ n H) as [[[[gens dec] M] cliq]|] eqn:Egen;
    [|discriminate].
  destruct (noncontextual_reconstruction _ n H gens cliq) as [[[[[G Cm] m0] mC] sg]|];
    [|discriminate].
  intros E. injection E as <-. cbn [clique_operator decomposed n_cliques].
  exact (generators_clique_operator n H gens cliq dec M Egen).
Qed.

End Strategies.

Lemma constructed_clique_operator_anticommutes_witness :
  AC.init_check 1 (symp_matrix (clique_operator NCClaims.NC_ZX)) = true /\
  length (decomposed NCClaims.NC_ZX) = S (n_cliques NCClaims.NC_ZX) /\
  (n_cliques NCClaims.NC_ZX = 0%nat -> clique_operator NCClaims.NC_ZX = []).
Proof.
  exact (constructed_clique_operator_anticommutes (fun _ => true)
           Decomposition.no_symmetry Decomposition.recon_nothing
           Decomposition.recon_self Decomposition.singletons (fun P => P)
           1 Decomposition.H_ZX NCClaims.NC_ZX NCClaims.construct_ZX).
Defined.

Lemma diag_first_contextual_only_if_diag_is_witness :
  _diag_noncontextual_op (fun _ => false) Decomposition.no_symmetry
    Decomposition.recon_nothing Decomposition.recon_self Decomposition.singletons
    (fun P => P) 1 Decomposition.H_ZX
  = inr Contextual.
Proof.
  apply (diag_first_contextual_only_if_diag_is (fun _ => false)
           Decomposition.no_symmetry Decomposition.recon_nothing
           Decomposition.recon_self Decomposition.singletons (fun P => P)
           1 Decomposition.H_ZX).
  reflexivity.
Defined.

End StrategyFacts.

(* ======================================================================== *)
(** * The variational drivers: parameter shift and TETRIS selection        *)
(* ======================================================================== *)

Module VQEFacts.

Import AC ListFacts VQE.

Local Open Scope R_scope.

(** ** partial_derivative *)

Lemma shifted_in_range (x : list R) (i : nat) (xi d : R) :
  nth_error x i = Some xi ->
  shifted x i d = Some (firstn i x ++ (xi + d) :: skipn (S i) x).
Proof. intros E. unfold shifted. now rewrite E. Qed.

Lemma sinusoid_derivative (a b c t : R) :
  derivable_pt_lim (fun u => a + b * cos (2 * u) + c * sin (2 * u)) t
    (- 2 * b * sin (2 * t) + 2 * c * cos (2 * t)).
Proof.
  assert (D2 : derivable_pt_lim (fun u => 2 * u) t 2).
  { intros eps Heps. exists (mkposreal 1 Rlt_0_1). intros h Hh _.
    replace ((2 * (t + h) - 2 * t) / h - 2) with 0 by (field; exact Hh).
    rewrite Rabs_R0. exact Heps. }
  assert (Dc : derivable_pt_lim (fun u => cos (2 * u)) t (- sin (2 * t) * 2)).
  { apply (derivable_pt_lim_comp (fun u => 2 * u) cos); [exact D2|].
    apply derivable_pt_lim_cos. }
  assert (Ds : derivable_pt_lim (fun u => sin (2 * u)) t (cos (2 * t) * 2)).
  { apply (derivable_pt_lim_comp (fun u => 2 * u) sin); [exact D2|].
    apply derivable_pt_lim_sin. }
  replace (- 2 * b * sin (2 * t) + 2 * c * cos (2 * t))
    with (0 + b * (- sin (2 * t) * 2) + c * (cos (2 * t) * 2)) by ring.
  apply (derivable_pt_lim_plus
           (fun u => a + b * cos (2 * u)) (fun u => c * sin (2 * u))).
  - apply (derivable_pt_lim_plus (fun _ => a) (fun u => b * cos (2 * u))).
    + apply derivable_pt_lim_const.
    + apply (derivable_pt_lim_scal (fun u => cos (2 * u))). exact Dc.
  - apply (derivable_pt_lim_scal (fun u => sin (2 * u))). exact Ds.
Qed.

Lemma shift_difference (a b c t : R) :
  (a + b * cos (2 * (t + PI / 4)) + c * sin (2 * (t + PI / 4))) -
  (a + b * cos (2 * (t + - (PI / 4))) + c * sin (2 * (t + - (PI / 4)))) =
  - 2 * b * sin (2 * t) + 2 * c * cos (2 * t).
Proof.
  replace (2 * (t + PI / 4)) with (2 * t + PI / 2) by field.
  replace (2 * (t + - (PI / 4))) with (- (PI / 2 - 2 * t)) by field.
  rewrite cos_neg, sin_neg, cos_shift, sin_shift.
  rewrite cos_plus, sin_plus, cos_PI2, sin_PI2. ring.
Qed.

(** X19: [partial_derivative] is the exact derivative in the parameter
    [param_index] whenever the objective, as a function of that parameter
    alone, is [a + b cos(2t) + c sin(2t)]: the shifts of pi/4 up and down
    are the ones that fit this frequency. *)
Theorem parameter_shift_is_exact_derivative (f : list R -> R) (x : list R)
    (param_index : nat) (xi a b c : R) :
  nth_error x param_index = Some xi ->
  (forall t, f (firstn param_index x ++ t :: skipn (S param_index) x) =
             a + b * cos (2 * t) + c * sin (2 * t)) ->
  exists v,
    partial_derivative f x param_index = Some v /\
    derivable_pt_lim
      (fun t => f (firstn param_index x ++ t :: skipn (S param_index) x)) xi v.
Proof.
  intros Ex Hf. exists (- 2 * b * sin (2 * xi) + 2 * c * cos (2 * xi)). split.
  - unfold partial_derivative.
    rewrite (shifted_in_range x param_index xi (PI / 4) Ex).
    rewrite (shifted_in_range x param_index xi (- (PI / 4)) Ex).
    rewrite !Hf. f_equal. apply shift_difference.
  - pose proof (sinusoid_derivative a b c xi) as D.
    unfold derivable_pt_lim in *. intros eps Heps.
    destruct (D eps Heps) as [delta Hd]. exists delta. intros h Hh Hlt.
    rewrite !Hf. exact (Hd h Hh Hlt).
Qed.

Lemma parameter_shift_is_exact_derivative_witness :
  exists v,
    partial_derivative (fun y => 1 + 2 * cos (2 * nth 0 y 0) + 3 * sin (2 * nth 0 y 0))
                       [0] 0 = Some v /\
    derivable_pt_lim
      (fun t => (fun y => 1 + 2 * cos (2 * nth 0 y 0) + 3 * sin (2 * nth 0 y 0))
                  (firstn 0 [0] ++ t :: skipn 1 [0])) 0 v.
Proof.
  apply (parameter_shift_is_exact_derivative
           (fun y => 1 + 2 * cos (2 * nth 0 y 0) + 3 * sin (2 * nth 0 y 0))
           [0] 0 0 1 2 3).
  - reflexivity.
  - intros t. reflexivity.
Defined.

(** ** The TETRIS branch of ADAPT_VQE.optimize *)

(** Two supports share no qubit. *)
Definition disjoint (a b : list bool) : Prop :=
  forall q, nth q a false = true -> nth q b false = false.

Lemma no_overlap_disjoint (a b : list bool) :
  length a = length b ->
  existsb (fun x => x) (map2 andb a b) = false -> disjoint a b.
Proof.
  intros Hlen Hex q Ha.
  destruct (Nat.lt_ge_cases q (length a)) as [Hq | Hq].
  - destruct (nth q b false) eqn:Eb; [|reflexivity].
    assert (Hin : In true (map2 andb a b)).
    { assert (E : nth q (map2 andb a b) false = true).
      { rewrite (nth_map2 andb false false false a b q Hq ltac:(lia)).
        rewrite Ha, Eb. reflexivity. }
      rewrite <- E. apply nth_In. rewrite length_map2. lia. }
    assert (Hc : existsb (fun x => x) (map2 andb a b) = true).
    { apply existsb_exists. exists true. split; [exact Hin | reflexivity]. }
    congruence.
  - rewrite nth_overflow in Ha by exact Hq. discriminate.
Qed.

Lemma nth_union (a b : list bool) (q : nat) :
  length a = length b ->
  nth q (map2 orb a b) false = nth q a false || nth q b false.
Proof.
  intros Hlen. destruct (Nat.lt_ge_cases q (length a)) as [Hq | Hq].
  - apply nth_map2; lia.
  - rewrite (nth_overflow (map2 orb a b)) by (rewrite length_map2; lia).
    rewrite (nth_overflow a) by lia. rewrite (nth_overflow b) by lia.
    reflexivity.
Qed.

Lemma ForallOrdPairs_snoc {A} (Rel : A -> A -> Prop) (l : list A) (x : A) :
  ForallOrdPairs Rel l -> Forall (fun y => Rel y x) l ->
  ForallOrdPairs Rel (l ++ [x]).
Proof.
  induction 1 as [|y l Hy Hl IH]; intros Hx; simpl.
  - constructor; constructor.
  - inversion Hx as [|? ? Hyx Hlx]; subst. constructor.
    + apply Forall_app. split; [exact Hy | constructor; [exact Hyx | constructor]].
    + apply IH. exact Hlx.
Qed.

Lemma removelast_snoc {A} (l : list A) (x : A) : removelast (l ++ [x]) = l.
Proof. apply removelast_last. Qed.

Lemma Forall_removelast {A} (P : A -> Prop) (l : list A) :
  Forall P l -> Forall P (removelast l).
Proof.
  induction 1 as [|x l Hx Hl IH]; [constructor|].
  simpl. destruct l; [constructor|]. constructor; assumption.
Qed.

Section Tetris.

Variable n : nat.
Variable excitation_pool : list row.
Variable pool_grad : list R.
Variable gtol : R.

Let supp (i : nat) : list bool := support n (nth i excitation_pool []).

(** What the loop keeps true of the list it is building and of its mask. *)
Definition loop_invariant (new_excitation_list : list nat)
    (support_mask : list bool) : Prop :=
  length support_mask = n /\
  (forall i q, In i new_excitation_list ->
     nth q (supp i) false = true -> nth q support_mask false = true) /\
  ForallOrdPairs (fun i j => disjoint (supp i) (supp j)) new_excitation_list.

Lemma tetris_extends (grad_rank sel : list nat) (mask : list bool) :
  exists more,
    tetris n excitation_pool pool_grad gtol grad_rank sel mask = sel ++ more /\
    incl more grad_rank.
Proof.
  revert sel mask. induction grad_rank as [|i rank IH]; intros sel mask.
  - exists []. simpl. rewrite app_nil_r. split; [reflexivity | apply incl_refl].
  - cbn [tetris].
    set (free := negb (existsb _ _)).
    destruct free.
    + destruct (forallb _ _ || Rltb _ _).
      * exists [i]. split; [reflexivity|]. intros j [<- | []]. now left.
      * destruct (IH (sel ++ [i]) (map2 orb mask (support n (nth i excitation_pool []))))
          as [more [E Hincl]].
        exists (i :: more). rewrite E, <- app_assoc. split; [reflexivity|].
        intros j [<- | Hj]; [now left | right; now apply Hincl].
    + destruct (forallb _ _ || Rltb _ _).
      * exists []. rewrite app_nil_r. split; [reflexivity|]. intros j [].
      * destruct (IH sel mask) as [more [E Hincl]].
        exists more. split; [exact E|]. intros j Hj. right. now apply Hincl.
Qed.

Lemma invariant_step (i : nat) (sel : list nat) (mask : list bool) :
  wf_row n (nth i excitation_pool []) ->
  loop_invariant sel mask ->
  existsb (fun b => b) (map2 andb (supp i) mask) = false ->
  loop_invariant (sel ++ [i]) (map2 orb mask (supp i)).
Proof.
  intros Hwf [Hlen [Hcov Hdis]] Hfree.
  assert (Hs : length (supp i) = n)
    by (apply SortFacts.length_pos_terms_occur; exact Hwf).
  pose proof (no_overlap_disjoint (supp i) mask ltac:(lia) Hfree) as Hd.
  split; [|split].
  - rewrite length_map2. lia.
  - intros j q Hj Hq. rewrite nth_union by lia.
    apply in_app_or in Hj. destruct Hj as [Hj | [<- | []]].
    + rewrite (Hcov j q Hj Hq). reflexivity.
    + rewrite Hq. apply orb_true_r.
  - apply ForallOrdPairs_snoc; [exact Hdis|].
    apply Forall_forall. intros j Hj q Hq.
    destruct (nth q (supp i) false) eqn:Ei; [|reflexivity].
    pose proof (Hd q Ei) as Hm. rewrite (Hcov j q Hj Hq) in Hm. discriminate.
Qed.

Lemma tetris_invariant (grad_rank sel : list nat) (mask : list bool) :
  (forall i, In i grad_rank -> wf_row n (nth i excitation_pool [])) ->
  loop_invariant sel mask ->
  Forall (fun i => ~ nth i pool_grad 0 < gtol) sel ->
  let out := tetris n excitation_pool pool_grad gtol grad_rank sel mask in
  ForallOrdPairs (fun i j => disjoint (supp i) (supp j)) out /\
  Forall (fun i => ~ nth i pool_grad 0 < gtol) (removelast out).
Proof.
  revert sel mask. induction grad_rank as [|i rank IH]; intros sel mask Hwf Hinv Hg.
  - simpl. split; [apply Hinv | apply Forall_removelast; exact Hg].
  - cbn [tetris]. fold (supp i).
    destruct (existsb (fun b => b) (map2 andb (supp i) mask)) eqn:Efree; cbn [negb].
    + destruct (forallb _ _ || Rltb _ _) eqn:Estop.
      * split; [apply Hinv | apply Forall_removelast; exact Hg].
      * apply IH; [intros j Hj; apply Hwf; now right | exact Hinv | exact Hg].
    + pose proof (invariant_step i sel mask (Hwf i (or_introl eq_refl)) Hinv Efree)
        as Hinv'.
      destruct (forallb _ _ || Rltb _ _) eqn:Estop.
      * split; [apply Hinv'|]. rewrite removelast_snoc. exact Hg.
      * apply IH; [intros j Hj; apply Hwf; now right | exact Hinv' |].
        apply Forall_app. split; [exact Hg|]. constructor; [|constructor].
        apply orb_false_elim in Estop. destruct Estop as [_ Elt].
        unfold Rltb in Elt. destruct (Rlt_dec (nth i pool_grad 0) gtol);
          [discriminate | assumption].
Qed.

(** X20: The excitations that one TETRIS cycle appends act on pairwise disjoint
    sets of qubits; they are taken from the ranking in its order, the
    top-ranked one always first; and every one of them but the last has a
    gradient that is not below [gtol]. *)
Theorem tetris_selects_disjoint_excitations (grad_rank : list nat) :
  (forall i, In i grad_rank -> wf_row n (nth i excitation_pool [])) ->
  let chosen := tetris_selection n excitation_pool pool_grad gtol grad_rank in
  ForallOrdPairs (fun i j => disjoint (supp i) (supp j)) chosen /\
  incl chosen grad_rank /\
  hd_error chosen = hd_error grad_rank /\
  Forall (fun i => ~ nth i pool_grad 0 < gtol) (removelast chosen).
Proof.
  intros Hwf chosen.
  assert (Hinit : loop_invariant [] (repeat false n)).
  { split; [apply repeat_length|]. split; [intros i q []|constructor]. }
  destruct (tetris_invariant grad_rank [] (repeat false n) Hwf Hinit (Forall_nil _))
    as [Hdis Hgrad].
  split; [exact Hdis|]. split; [|split; [|exact Hgrad]].
  - destruct (tetris_extends grad_rank [] (repeat false n)) as [more [E Hincl]].
    unfold chosen, tetris_selection. rewrite E. exact Hincl.
  - unfold chosen, tetris_selection. destruct grad_rank as [|i rank]; [reflexivity|].
    cbn [tetris].
    assert (Efree : existsb (fun b => b)
              (map2 andb (support n (nth i excitation_pool [])) (repeat false n)) = false).
    { destruct (existsb _ _) eqn:Ex; [|reflexivity].
      apply existsb_exists in Ex. destruct Ex as [b [Hin Hb]]. subst b.
      unfold map2 in Hin. apply in_map_iff in Hin.
      destruct Hin as [[u v] [Euv Hin]]. apply in_combine_r in Hin.
      apply repeat_spec in Hin. simpl in *. subst v.
      rewrite andb_false_r in Euv. discriminate. }
    rewrite Efree. cbn [negb app].
    destruct (forallb _ _ || Rltb _ _); [reflexivity|].
    destruct (tetris_extends rank [i]
                (map2 orb (repeat false n) (support n (nth i excitation_pool []))))
      as [more [E _]].
    rewrite E. reflexivity.
Qed.

End Tetris.

(** The pool X0, Z1, X0 X1 on two qubits, ranked in this order. *)
Definition pool_3 : list row :=
  [ [true; false; false; false];
    [false; false; false; true];
    [true; true; false; false] ].

Lemma tetris_selects_disjoint_excitations_witness :
  let chosen := tetris_selection 2 pool_3 [3; 2; 1] (1 / 2) [0; 1; 2]%nat in
  ForallOrdPairs
    (fun i j => disjoint (support 2 (nth i pool_3 [])) (support 2 (nth j pool_3 [])))
    chosen /\
  incl chosen [0; 1; 2]%nat /\
  hd_error chosen = hd_error [0; 1; 2]%nat /\
  Forall (fun i => ~ nth i [3; 2; 1] 0 < 1 / 2) (removelast chosen).
Proof.
  apply (tetris_selects_disjoint_excitations 2 pool_3 [3; 2; 1] (1 / 2)
           [0; 1; 2]%nat).
  intros i [<- | [<- | [<- | []]]]; reflexivity.
Defined.

End VQEFacts.
(* ======================================================================== *)
(** * The two recipes reduce the operator to its target                     *)
(* ======================================================================== *)

Module RecipeSound.
Import AC PwordFacts ListFacts OpLaws Canonical ACValid AntiFamily RotationAlgebra.
Import SeqRot Partitioning LCUSound PartitionSound SeqRotExamples.
Local Open Scope R_scope.

(** X21: Take an anticommuting operator with real coefficients, reordered
    with the target [P_t] first and [P_k] the term after it.  Unless the
    coefficients of these two are both zero, the call with method seq_rot
    returns the target with coefficient [1] and a list of rotations which,
    applied to the operator in order, each by its angle about its
    generator, give exactly [gamma_l P_t]. *)
Theorem seq_rot_rotations_reduce_to_target (self : AntiCommutingOp)
    (s_index : option nat) (i : nat) (P_t : row) (c_t : C) (P_k : row) (c_k : C)
    (others : PauliwordOp) :
  wf_op (n_qubits self) (terms self) ->
  is_AC self -> real_coeffs (terms self) ->
  resolve self s_index = Some i ->
  swap0 i (terms self) = Some ((P_t, c_t) :: (P_k, c_k) :: others) ->
  not_both_zero (Re c_t) (Re c_k) ->
  let gamma_l := norm (coeff_vec (terms self)) in
  exists rotations AC_op self',
    unitary_partitioning self s_index "seq_rot"%string =
      (Ok (mkPart (Some (Finite [(P_t, C1)])) (SeqRotations rotations) gamma_l
                  (Finite AC_op)), self') /\
    perform_rotations (n_qubits self) (terms self) rotations =
      cleanup (multiply_by_constant (RtoC gamma_l) [(P_t, C1)]).
Proof.
  intros Hwf Hac Hreal Hres Hsw Hnz. cbv zeta.
  destruct (seq_rot_call_general self s_index i P_t c_t P_k c_k others
              Hac Hreal Hres Hsw Hnz) as [_ [Hcall _]].
  cbv zeta in Hcall.
  destruct (swapped self i _ Hac Hsw) as [_ [Hperm Hanti]].
  eexists; eexists; eexists. split; [exact Hcall|].
  exact (seq_rot_reduces (n_qubits self) (terms self) P_t c_t P_k c_k others
           Hwf Hreal Hperm Hanti Hnz).
Qed.

(** The statement on [{X: 0, Z: 1}] with the target [X], whose coefficient
    is zero. *)
Lemma seq_rot_rotations_reduce_to_target_witness :
  let gamma_l := norm (coeff_vec (terms A01)) in
  exists rotations AC_op self',
    unitary_partitioning A01 (Some 0%nat) "seq_rot"%string =
      (Ok (mkPart (Some (Finite [(Xrow, C1)])) (SeqRotations rotations) gamma_l
                  (Finite AC_op)), self') /\
    perform_rotations (n_qubits A01) (terms A01) rotations =
      cleanup (multiply_by_constant (RtoC gamma_l) [(Xrow, C1)]).
Proof.
  apply (seq_rot_rotations_reduce_to_target A01 (Some 0%nat) 0 Xrow (RtoC 0)
           Zrow (RtoC 1) []).
  - repeat constructor.
  - reflexivity.
  - repeat constructor.
  - reflexivity.
  - reflexivity.
  - right. simpl. lra.
Defined.

(** X22: For an anticommuting operator of at least two terms with real
    coefficients whose target coefficient is not [- gamma_l], the call with
    method LCU returns the target and an operator [R] with
    [conjugate_Pop_with_R A R = gamma_l P_t]. *)
Theorem LCU_operator_reduces_to_target (self : AntiCommutingOp)
    (s_index : option nat) (i : nat) (P_t : row) (c_t : C) :
  wf_op (n_qubits self) (terms self) ->
  is_AC self -> real_coeffs (terms self) ->
  (2 <= n_terms (terms self))%nat ->
  resolve self s_index = Some i ->
  nth_error (terms self) i = Some (P_t, c_t) ->
  let gamma_l := norm (coeff_vec (terms self)) in
  Re c_t <> - gamma_l ->
  exists R_op AC_op self',
    unitary_partitioning self s_index "LCU"%string =
      (Ok (mkPart (Some (Finite [(P_t, C1)])) (LCURotation (Some (Finite R_op)))
                  gamma_l (Finite AC_op)), self') /\
    conjugate_Pop_with_R (n_qubits self) (terms self) R_op =
      cleanup (multiply_by_constant (RtoC gamma_l) [(P_t, C1)]).
Proof.
  intros Hwf Hac Hreal Hlen Hres Hnth. cbv zeta. intros Hre.
  assert (Hg : 0 < gamma (terms self)).
  { destruct (Req_dec_T (Re c_t) 0) as [E | N].
    - rewrite E in Hre.
      assert (Hp : 0 <= norm (coeff_vec (terms self)))
        by (unfold norm; apply sqrt_pos).
      unfold gamma. lra.
    - apply (norm_pos (terms self) (P_t, c_t)); [|exact N].
      eapply nth_error_In; eauto. }
  destruct (PartitionClaims.LCU_call self s_index i P_t c_t Hwf Hac Hreal Hlen
              Hres Hnth Hg) as [sw_rest [Hperm [Hanti Hcall]]].
  cbv zeta in Hcall.
  eexists; eexists; eexists. split; [exact Hcall|].
  exact (LCU_reduces (n_qubits self) (terms self) P_t c_t sw_rest
           Hwf Hreal Hperm Hanti Hg Hre).
Qed.

(** The statement at [{X: 3, Z: 4}] with the target [X]. *)
Lemma LCU_operator_reduces_to_target_witness :
  let gamma_l := norm (coeff_vec (terms A34)) in
  exists R_op AC_op self',
    unitary_partitioning A34 (Some 0%nat) "LCU"%string =
      (Ok (mkPart (Some (Finite [(Xrow, C1)])) (LCURotation (Some (Finite R_op)))
                  gamma_l (Finite AC_op)), self') /\
    conjugate_Pop_with_R (n_qubits A34) (terms A34) R_op =
      cleanup (multiply_by_constant (RtoC gamma_l) [(Xrow, C1)]).
Proof.
  apply (LCU_operator_reduces_to_target A34 (Some 0%nat) 0 Xrow (RtoC 3)).
  - repeat constructor.
  - reflexivity.
  - repeat constructor.
  - simpl. lia.
  - reflexivity.
  - reflexivity.
  - pose proof (sqrt_pos (sumR (map (fun c => Re c ^ 2 + Im c ^ 2)
                                    (coeff_vec (terms A34))))) as Hp.
    unfold norm. simpl Re at 1. lra.
Defined.

End RecipeSound.
